(** * Mastersync: the versioned DAG engine

    A shallow embedding of the parts of [lib/versioned_collection.js],
    [lib/merge_tree.js] and [lib/versioned_collection_reader.js] that the
    properties in the second half of this file are about.

    Conventions.
    - A JavaScript object used as an open map is an association list in
      the order in which the engine enumerates it: keys that are array
      indices first, in numeric order, then the other keys in insertion
      order; see [Module Obj].
    - Such an object is made with [{}] and inherits the members of
      [Object.prototype].  Where the source reads a key that the object
      may not have itself, or calls [hasOwnProperty] on an object whose
      keys come from a document, the inherited members are taken into
      account; see [Object_prototype] and [hasOwnProperty].  A key
      [__proto__] is treated as one more inherited name; assigning to
      it is not modelled.
    - Callbacks are replaced by return values: [cb(err)] is [Err err],
      [cb(null, x)] is [Ok x].  A thrown exception is an [Err] as well,
      with the message of the engine for a [TypeError].
    - The document store is an in-memory list in insertion order; driver
      errors of the store are not modelled.
    - Modules the sources require but that are not at hand ([./tree],
      [./walk_branch]) are modelled after the specification, each under
      a comment that says so; [./merge], [./invalid_local_header], the
      digest, the serialization and the random source are parameters. *)

From Stdlib Require Import ZArith NArith Ascii String.
From Stdlib.Strings Require Import Byte.
From stdpp Require Import gmap strings list.

Local Open Scope string_scope.
Local Open Scope list_scope.

(** ** Results of fallible code *)

Inductive result (E A : Type) : Type :=
| Ok (a : A)
| Err (e : E).
Arguments Ok {E A} a.
Arguments Err {E A} e.

#[global] Instance result_ret {E} : MRet (result E) := fun _ a => Ok a.
#[global] Instance result_bind {E} : MBind (result E) := fun _ _ k r =>
  match r with
  | Ok a => k a
  | Err e => Err e
  end.

Definition is_Ok {E A} (r : result E A) : bool :=
  match r with Ok _ => true | Err _ => false end.

(** Error kinds of the writer pipeline, by the message of the [Error]. *)
Inductive error :=
| RootPreceded                (* 'root preceded' *)
| IdMismatch                  (* 'id mismatch' *)
| NotSameDAG                  (* 'provide heads from same DAG and perspective' *)
| NotExactlyOneHead           (* 'not exactly one head' *)
| DifferentRoot               (* 'different root already in snapshot' *)
| MergeConflict               (* 'merge conflict' *)
| PreviousVersionNotFound     (* 'previous version of doc not found' *)
| PreviousItemNotFound        (* 'previous version of item not found' *)
| PreviousNotADeletion        (* 'previous version of item not a deletion' *)
| TypeError (msg : string)    (* a thrown TypeError *)
| OtherError (msg : string).  (* any other Error, by message *)

#[global] Instance error_eq_dec : EqDecision error.
Proof. solve_decision. Defined.

(** [err.message] *)
Definition message (e : error) : string :=
  match e with
  | RootPreceded => "root preceded"
  | IdMismatch => "id mismatch"
  | NotSameDAG => "provide heads from same DAG and perspective"
  | NotExactlyOneHead => "not exactly one head"
  | DifferentRoot => "different root already in snapshot"
  | MergeConflict => "merge conflict"
  | PreviousVersionNotFound => "previous version of doc not found"
  | PreviousItemNotFound => "previous version of item not found"
  | PreviousNotADeletion => "previous version of item not a deletion"
  | TypeError msg => msg
  | OtherError msg => msg
  end.

(** ** JavaScript objects as ordered attribute lists *)

Module Obj.

(** The value of a decimal digit. *)
Definition digit (c : ascii) : option N :=
  let n := N_of_ascii c in
  if ((48 <=? n) && (n <=? 57))%N then Some (n - 48)%N else None.

Fixpoint digits (s : string) (acc : N) : option N :=
  match s with
  | EmptyString => Some acc
  | String c s =>
      match digit c with
      | Some d => digits s (acc * 10 + d)%N
      | None => None
      end
  end.

(** A key that the engine keeps as an array index: the decimal text,
    without leading zero, of a number up to 2^32 - 2. *)
Definition array_index (k : string) : option N :=
  match k with
  | EmptyString => None
  | String c rest =>
      if bool_decide (c = "0"%char) && negb (bool_decide (rest = EmptyString))
      then None
      else match digits k 0 with
           | Some n => if (n <=? 4294967294)%N then Some n else None
           | None => None
           end
  end.

Definition is_index (k : string) : bool :=
  match array_index k with Some _ => true | None => false end.

(** Whether a new key [k] is enumerated before the key [k']: array
    indices come first, in numeric order. *)
Definition before (k k' : string) : bool :=
  match array_index k, array_index k' with
  | Some n, Some n' => (n <? n')%N
  | Some _, None => true
  | None, _ => false
  end.

Section Obj.
Context {V : Type}.

Definition t := list (string * V).

(** The own property [k] of [o], [None] when there is none. *)
Fixpoint get (k : string) (o : t) : option V :=
  match o with
  | [] => None
  | (k', v) :: o' => if decide (k = k') then Some v else get k o'
  end.

(** [o] has an own property [k]. *)
Definition has (k : string) (o : t) : bool :=
  match get k o with Some _ => true | None => false end.

(** [o[k] = v]: an existing key keeps its place; a new key that is an
    array index goes before the first key that is none or a greater
    one, any other new key goes last. *)
Fixpoint set (k : string) (v : V) (o : t) : t :=
  match o with
  | [] => [(k, v)]
  | (k', v') :: o' =>
      if decide (k = k') then (k', v) :: o'
      else if before k k' && negb (has k o') then (k, v) :: (k', v') :: o'
      else (k', v') :: set k v o'
  end.

(** [delete o[k]] *)
Fixpoint del (k : string) (o : t) : t :=
  match o with
  | [] => []
  | (k', v') :: o' =>
      if decide (k = k') then del k o' else (k', v') :: del k o'
  end.

(** [Object.keys(o)] *)
Definition keys (o : t) : list string := map fst o.

(** An object has each key once. *)
Definition wf (o : t) : Prop := NoDup (keys o).

End Obj.
Arguments t : clear implicits.

(** Keys in the order in which an object enumerates them: no key comes
    after one that it goes before. *)
Fixpoint ordered (ks : list string) : bool :=
  match ks with
  | [] => true
  | k :: ks' => forallb (fun k' => negb (before k' k)) ks' && ordered ks'
  end.

End Obj.

(** ** What every object inherits

    The members of [Object.prototype], each with the [length] of the
    function it is; [__proto__] is the prototype itself and has none.
    An object made with [{}] and read with [o[k]] gives these for a key
    it does not have itself. *)
Definition Object_prototype : Obj.t (option nat) :=
  [("constructor", Some 1); ("hasOwnProperty", Some 1);
   ("isPrototypeOf", Some 1); ("propertyIsEnumerable", Some 1);
   ("toLocaleString", Some 0); ("toString", Some 0); ("valueOf", Some 0);
   ("__defineGetter__", Some 2); ("__defineSetter__", Some 2);
   ("__lookupGetter__", Some 1); ("__lookupSetter__", Some 1);
   ("__proto__", None)].

Definition inherited (k : string) : bool := Obj.has k Object_prototype.

(** [o[k]] tested for truthiness, for an object made with [{}] whose
    own values are all truthy. *)
Definition truthy_in {W} (k : string) (o : Obj.t W) : bool :=
  Obj.has k o || inherited k.

(** ** Three-way merge ([VersionedCollection._threeWayMerge]) *)

(** The delta marks ['+'], ['~'] and ['-']. *)
Inductive delta := Added | Changed | Removed.

#[global] Instance delta_eq_dec : EqDecision delta.
Proof. solve_decision. Defined.

(** The function returns either the merged item or the array of
  conflicting attribute names. *)
Inductive merged (V : Type) :=
| Merged (item : Obj.t V)
| Conflicts (attrs : list string).
Arguments Merged {V} item.
Arguments Conflicts {V} attrs.

(** [o.hasOwnProperty(k)], called on the object [o] itself, which the
    source names [name].  An attribute named hasOwnProperty hides the
    inherited method; its value is no function (attribute values are
    data, the marks of a diff are strings), so the call throws. *)
Definition hasOwnProperty {W} (name : string) (o : Obj.t W) (k : string)
    : result error bool :=
  if Obj.has "hasOwnProperty" o
  then Err (TypeError (name ++ ".hasOwnProperty is not a function"))
  else Ok (Obj.has k o).

(** [array.forEach(function(x) { ... })] with a body that may throw. *)
Fixpoint forEach {A S : Type} (body : S -> A -> result error S) (l : list A)
    (st : S) : result error S :=
  match l with
  | [] => Ok st
  | x :: l => st ← body st x; forEach body l st
  end.

Section ThreeWayMerge.
Context {V : Type}.
(** [JSON.stringify] on attribute values; [None] is [undefined]. *)
Variable JSON_stringify : V -> option string.

(** [JSON.stringify(x) !== JSON.stringify(y)], where [x] and [y] are
    attribute reads that may be [undefined]. *)
Definition json (x : option V) : option string := x ≫= JSON_stringify.
Definition json_neq (x y : option V) : bool := bool_decide (json x ≠ json y).

(** [keysItemA.forEach]: copy itemA into mergedItem and mark what was
    created or changed with respect to the lca. *)
Definition keysItemA_forEach (lca : Obj.t V)
    (st : Obj.t V * Obj.t delta) (kv : string * V)
    : result error (Obj.t V * Obj.t delta) :=
  let '(mergedItem, diffA) := st in
  let '(keyA, vA) := kv in
  let mergedItem := Obj.set keyA vA mergedItem in
  own ← hasOwnProperty "lca" lca keyA;
  Ok (mergedItem,
      if (own : bool) then
        if json_neq (Some vA) (Obj.get keyA lca)
        then Obj.set keyA Changed diffA else diffA
      else Obj.set keyA Added diffA).

(** [keysLcaA.forEach]: mark the keys itemA deleted. *)
Definition keysLcaA_forEach (itemA : Obj.t V) (diffA : Obj.t delta)
    (keyA : string) : result error (Obj.t delta) :=
  own ← hasOwnProperty "itemA" itemA keyA;
  Ok (if (own : bool) then diffA else Obj.set keyA Removed diffA).

(** [keysItemB.forEach] *)
Definition keysItemB_forEach (lcaB : Obj.t V) (diffB : Obj.t delta)
    (kv : string * V) : result error (Obj.t delta) :=
  let '(keyB, vB) := kv in
  own ← hasOwnProperty "lcaB" lcaB keyB;
  Ok (if (own : bool) then
        if json_neq (Some vB) (Obj.get keyB lcaB)
        then Obj.set keyB Changed diffB else diffB
      else Obj.set keyB Added diffB).

(** [keysLcaB.forEach]: deleted keys, and keys created in diffA that
    were already in lcaB. *)
Definition keysLcaB_forEach (itemB : Obj.t V) (diffA : Obj.t delta)
    (st : Obj.t delta * list string) (keyB : string)
    : result error (Obj.t delta * list string) :=
  let '(diffB, conflicts) := st in
  own ← hasOwnProperty "itemB" itemB keyB;
  let diffB := if (own : bool) then diffB else Obj.set keyB Removed diffB in
  inA ← hasOwnProperty "diffA" diffA keyB;
  Ok (diffB,
      if (inA : bool) && bool_decide (Obj.get keyB diffA = Some Added)
      then conflicts ++ [keyB] else conflicts).

(** [Object.keys(diffB).forEach]: detect conflicts or apply the delta.
    In the last branch [diffB[delta]] is ['+'] or ['~'], which are only
    recorded for keys of itemB, so [itemB[delta]] is defined there. *)
Definition diffB_forEach (itemA itemB : Obj.t V) (diffA : Obj.t delta)
    (st : Obj.t V * list string) (kd : string * delta)
    : result error (Obj.t V * list string) :=
  let '(mergedItem, conflicts) := st in
  let '(delta, dB) := kd in
  inA ← hasOwnProperty "diffA" diffA delta;
  if (inA : bool) && bool_decide (Obj.get delta diffA ≠ Some dB) then
    Ok (mergedItem, conflicts ++ [delta])
  else if bool_decide (dB = Removed) then
    Ok (Obj.del delta mergedItem, conflicts)
  else if bool_decide (Obj.get delta diffA = Some Changed)
          && json_neq (Obj.get delta itemA) (Obj.get delta itemB) then
    (* both updated to different values *)
    Ok (mergedItem, conflicts ++ [delta])
  else if bool_decide (Obj.get delta diffA = Some Added)
          && json_neq (Obj.get delta itemA) (Obj.get delta itemB) then
    (* both created with different values *)
    Ok (mergedItem, conflicts ++ [delta])
  else
    inItemA ← (if bool_decide (dB = Added)
               then hasOwnProperty "itemA" itemA delta else Ok false);
    if (inItemA : bool) && json_neq (Obj.get delta itemA) (Obj.get delta itemB) then
      (* created at B but already existed in A *)
      Ok (mergedItem, conflicts ++ [delta])
    else
      Ok (match Obj.get delta itemB with
          | Some vB => Obj.set delta vB mergedItem
          | None => mergedItem
          end, conflicts).

(** The result is the value returned, or the [TypeError] thrown. *)
Definition _threeWayMerge (itemA itemB lca : Obj.t V) (lcaB : option (Obj.t V))
    : result error (merged V) :=
  (* lcaB = lcaB || lca *)
  let lcaB := default lca lcaB in
  '(mergedItem, diffA) ← forEach (keysItemA_forEach lca) itemA ([], []);
  diffA ← forEach (keysLcaA_forEach itemA) (Obj.keys lca) diffA;
  diffB ← forEach (keysItemB_forEach lcaB) itemB [];
  '(diffB, conflicts) ←
    forEach (keysLcaB_forEach itemB diffA) (Obj.keys lcaB) (diffB, []);
  '(mergedItem, conflicts) ←
    forEach (diffB_forEach itemA itemB diffA) diffB (mergedItem, conflicts);
  (* if (conflicts.length) { return conflicts; } *)
  match conflicts with
  | [] => Ok (Merged mergedItem)
  | _ :: _ => Ok (Conflicts conflicts)
  end.

(** [VersionedCollection.diff(item, base)].  [checked] is an object made
    with [{}] that gets [true] for every key of the item. *)
Definition diff_item (base : Obj.t V) (st : Obj.t delta * Obj.t bool)
    (kv : string * V) : result error (Obj.t delta * Obj.t bool) :=
  let '(d, checked) := st in
  let '(key, v) := kv in
  own ← hasOwnProperty "base" base key;
  let d :=
    if (own : bool) then
      if json_neq (Some v) (Obj.get key base) then Obj.set key Changed d else d
    else Obj.set key Added d in
  (* speedup check for deleted keys *)
  Ok (d, Obj.set key true checked).

Definition diff_base (checked : Obj.t bool) (d : Obj.t delta) (key : string)
    : Obj.t delta :=
  if truthy_in key checked then d else Obj.set key Removed d.

Definition diff (item base : Obj.t V) : result error (Obj.t delta) :=
  '(d, checked) ← forEach (diff_item base) item ([], []);
  Ok (fold_left (diff_base checked) (Obj.keys base) d).

(** *** The merge on documents without an attribute named hasOwnProperty

    What the loops of [_threeWayMerge] do when every call of
    [hasOwnProperty] reaches the inherited method: the loop bodies
    without the calls, and [merge3], the merge they make. *)

Definition stepItemA (lca : Obj.t V)
    (st : Obj.t V * Obj.t delta) (kv : string * V) : Obj.t V * Obj.t delta :=
  let '(mergedItem, diffA) := st in
  let '(keyA, vA) := kv in
  (Obj.set keyA vA mergedItem,
   match Obj.get keyA lca with
   | Some vL =>
       if json_neq (Some vA) (Some vL) then Obj.set keyA Changed diffA else diffA
   | None => Obj.set keyA Added diffA
   end).

Definition stepLcaA (itemA : Obj.t V) (diffA : Obj.t delta) (keyA : string)
    : Obj.t delta :=
  if Obj.has keyA itemA then diffA else Obj.set keyA Removed diffA.

Definition stepItemB (lcaB : Obj.t V) (diffB : Obj.t delta) (kv : string * V)
    : Obj.t delta :=
  let '(keyB, vB) := kv in
  match Obj.get keyB lcaB with
  | Some vL =>
      if json_neq (Some vB) (Some vL) then Obj.set keyB Changed diffB else diffB
  | None => Obj.set keyB Added diffB
  end.

Definition stepLcaB (itemB : Obj.t V) (diffA : Obj.t delta)
    (st : Obj.t delta * list string) (keyB : string) : Obj.t delta * list string :=
  let '(diffB, conflicts) := st in
  (if Obj.has keyB itemB then diffB else Obj.set keyB Removed diffB,
   if bool_decide (Obj.get keyB diffA = Some Added)
   then conflicts ++ [keyB] else conflicts).

Definition stepDelta (itemA itemB : Obj.t V) (diffA : Obj.t delta)
    (st : Obj.t V * list string) (kd : string * delta) : Obj.t V * list string :=
  let '(mergedItem, conflicts) := st in
  let '(delta, dB) := kd in
  if Obj.has delta diffA && bool_decide (Obj.get delta diffA ≠ Some dB) then
    (mergedItem, conflicts ++ [delta])
  else if bool_decide (dB = Removed) then
    (Obj.del delta mergedItem, conflicts)
  else if bool_decide (Obj.get delta diffA = Some Changed)
          && json_neq (Obj.get delta itemA) (Obj.get delta itemB) then
    (mergedItem, conflicts ++ [delta])
  else if bool_decide (Obj.get delta diffA = Some Added)
          && json_neq (Obj.get delta itemA) (Obj.get delta itemB) then
    (mergedItem, conflicts ++ [delta])
  else if bool_decide (dB = Added) && Obj.has delta itemA
          && json_neq (Obj.get delta itemA) (Obj.get delta itemB) then
    (mergedItem, conflicts ++ [delta])
  else
    (match Obj.get delta itemB with
     | Some vB => Obj.set delta vB mergedItem
     | None => mergedItem
     end, conflicts).

Definition merge3 (itemA itemB lca : Obj.t V) (lcaB : option (Obj.t V))
    : merged V :=
  let lcaB := default lca lcaB in
  let '(mergedItem, diffA) := fold_left (stepItemA lca) itemA ([], []) in
  let diffA := fold_left (stepLcaA itemA) (Obj.keys lca) diffA in
  let diffB := fold_left (stepItemB lcaB) itemB [] in
  let '(diffB, conflicts) :=
    fold_left (stepLcaB itemB diffA) (Obj.keys lcaB) (diffB, []) in
  let '(mergedItem, conflicts) :=
    fold_left (stepDelta itemA itemB diffA) diffB (mergedItem, conflicts) in
  match conflicts with
  | [] => Merged mergedItem
  | _ :: _ => Conflicts conflicts
  end.

(** The marks of one side against its lca, as the loops of [merge3]
    compute them. *)
Definition deltas (item base : Obj.t V) : Obj.t delta :=
  fold_left (stepLcaA item) (Obj.keys base) (fold_left (stepItemB base) item []).

(** No document of a merge has an attribute named hasOwnProperty. *)
Definition plain_keys (itemA itemB lca : Obj.t V) (lcaB : option (Obj.t V))
    : Prop :=
  Obj.has "hasOwnProperty" itemA = false /\
  Obj.has "hasOwnProperty" itemB = false /\
  Obj.has "hasOwnProperty" lca = false /\
  Obj.has "hasOwnProperty" (default lca lcaB) = false.

(** What a delta says about one key. *)
Definition delta_of (item base : Obj.t V) (k : string) : option delta :=
  match Obj.get k item, Obj.get k base with
  | Some v, Some w => if json_neq (Some v) (Some w) then Some Changed else None
  | Some _, None => Some Added
  | None, Some _ => Some Removed
  | None, None => None
  end.

End ThreeWayMerge.

(** The vocabulary of the merge rules, for one attribute [k] of a side
    and the lca it is compared with. *)
Section MergeRules.
Context {V : Type}.
Variable JSON_stringify : V -> option string.

Definition deleted_in (side base : Obj.t V) (k : string) : Prop :=
  Obj.has k base = true /\ Obj.has k side = false.

Definition unchanged_in (side base : Obj.t V) (k : string) : Prop :=
  exists v w, Obj.get k side = Some v /\ Obj.get k base = Some w /\
    json JSON_stringify (Some v) = json JSON_stringify (Some w).

Definition changed_in (side base : Obj.t V) (k : string) : Prop :=
  exists v w, Obj.get k side = Some v /\ Obj.get k base = Some w /\
    json JSON_stringify (Some v) <> json JSON_stringify (Some w).

End MergeRules.

(** Documents for the examples; attribute values are strings that stand
    for their own JSON text. *)
Definition doc_lca : Obj.t string := [("_id", "foo"); ("a", "1"); ("b", "2")].
Definition doc_without_b : Obj.t string := [("_id", "foo"); ("a", "1")].
Definition doc_b_changed : Obj.t string := [("_id", "foo"); ("a", "1"); ("b", "3")].

(** The lca with one more attribute, named like a method every object
    inherits. *)
Definition doc_hasOwnProperty : Obj.t string :=
  [("_id", "foo"); ("a", "1"); ("b", "2"); ("hasOwnProperty", "1")].

(** ** Snapshot items ([lib/versioned_collection.js])

    A snapshot item is [{ _id: { _co, _id, _v, _pe, _pa, _lo, _i, _d },
    _m3: { _ack, _op, _c }, ...attributes }].  The code tests [_v],
    [_d], [_lo], [_ack] and [_c] for truthiness only, so a missing, null
    or empty version is [""] and a missing flag is [false].  Document ids
    are used as object keys and are strings here. *)

Definition Timestamp : Type := Z * Z.

Record meta := {
  _ack : bool;
  _op : Timestamp;
  _c : bool
}.

Record envelope := {
  _co : string;
  _id_id : string;          (* _id._id, the id of the document *)
  _v : string;
  _pe : string;
  _pa : list string;
  _lo : bool;
  _i : Z;
  _d : bool
}.

Record vitem (V : Type) := {
  _id : envelope;
  _m3 : option meta;        (* [None]: the item has no _m3 *)
  attrs : Obj.t V
}.
Arguments _id {V} v.
Arguments _m3 {V} v.
Arguments attrs {V} v.

Definition is_nil {A} (l : list A) : bool :=
  match l with [] => true | _ :: _ => false end.

Section Items.
Context {V : Type}.

Definition with_pa (pa : list string) (item : vitem V) : vitem V :=
  {| _id := {| _co := _co (_id item); _id_id := _id_id (_id item);
               _v := _v (_id item); _pe := _pe (_id item); _pa := pa;
               _lo := _lo (_id item); _i := _i (_id item);
               _d := _d (_id item) |};
     _m3 := _m3 item; attrs := attrs item |}.

Definition with_v (v : string) (item : vitem V) : vitem V :=
  {| _id := {| _co := _co (_id item); _id_id := _id_id (_id item);
               _v := v; _pe := _pe (_id item); _pa := _pa (_id item);
               _lo := _lo (_id item); _i := _i (_id item);
               _d := _d (_id item) |};
     _m3 := _m3 item; attrs := attrs item |}.

Definition with_m3 (m : meta) (item : vitem V) : vitem V :=
  {| _id := _id item; _m3 := Some m; attrs := attrs item |}.

(** [item._m3._c = true], which throws when the item has no _m3. *)
Definition set_conflict (item : vitem V) : result error (vitem V) :=
  match _m3 item with
  | Some m => Ok (with_m3 {| _ack := _ack m; _op := _op m; _c := true |} item)
  | None => Err (TypeError "Cannot set property '_c' of undefined")
  end.

(** The item after [item._m3._c = true]. *)
Definition mark_conflict (item : vitem V) : vitem V :=
  match _m3 item with
  | Some m => with_m3 {| _ack := _ack m; _op := _op m; _c := true |} item
  | None => item
  end.

(** [!item._m3 || !item._m3._c] *)
Definition not_conflicted (item : vitem V) : bool :=
  match _m3 item with
  | Some m => negb (_c m)
  | None => true
  end.

(** *** Ancestry check ([_checkAncestry])

    The state of the loop is [allItems], [DAGs] (items by document id)
    and [newRoots].  Items are changed in place by the source; the
    changed items are the ones returned in [allItems] and [DAGs]. *)

Definition ancestry : Type :=
  list (vitem V) * gmap string (list (vitem V)) * gset string.

(** [DAGs[id] = DAGs[id] || []]: the array of the id, or a new one; for
    an id that is the name of an inherited member and has no array yet,
    [DAGs[id]] is and stays that member, which is [None] here. *)
Definition dag_of (DAGs : gmap string (list (vitem V))) (id : string)
    : option (list (vitem V)) :=
  match DAGs !! id with
  | Some dag => Some dag
  | None => if inherited id then None else Some []
  end.

(** What is thrown when [DAGs[id]] is an inherited member: for a new
    root, reading [_id] of the element at [length - 1] if the member is
    a function with parameters; in every other case calling [push]. *)
Definition not_an_array (id : string) (root : bool) : error :=
  match Obj.get id Object_prototype with
  | Some (Some (S _)) =>
      if root then TypeError "Cannot read property '_id' of undefined"
      else TypeError "DAGs[item._id._id].push is not a function"
  | _ => TypeError "DAGs[item._id._id].push is not a function"
  end.

Definition checkAncestry_step (st : ancestry) (item : vitem V)
    : result error ancestry :=
  let '(allItems, DAGs, newRoots) := st in
  let id := _id_id (_id item) in
  match dag_of DAGs id with
  | None => Err (not_an_array id (is_nil (_pa (_id item))))
  | Some dag =>
      match _pa (_id item) with
      | [] =>
          (* record new roots *)
          let newRoots := {[ id ]} ∪ newRoots in
          match last dag with
          | Some prev =>
              if _d (_id prev) then
                (* link this new root to previous (deleted) item *)
                let item := with_pa [_v (_id prev)] item in
                Ok (allItems ++ [item], <[id := dag ++ [item]]> DAGs, newRoots)
              else Err RootPreceded
          | None =>
              Ok (allItems ++ [item], <[id := dag ++ [item]]> DAGs, newRoots)
          end
      | _ :: _ =>
          Ok (allItems ++ [item], <[id := dag ++ [item]]> DAGs, newRoots)
      end
  end.

Fixpoint checkAncestry_loop (items : list (vitem V)) (st : ancestry)
    : result error ancestry :=
  match items with
  | [] => Ok st
  | item :: items =>
      st ← checkAncestry_step st item; checkAncestry_loop items st
  end.

(** For an empty batch the source calls back without results; that is
    the empty state here. *)
Definition _checkAncestry (items : list (vitem V)) : result error ancestry :=
  checkAncestry_loop items ([], ∅, ∅).

(** What the loop keeps true: the DAG of an id holds the items of that
    id seen so far, and the items seen are those of the batch, up to the
    parent written into a reconnected root. *)
Definition same_node (item1 item2 : vitem V) : Prop :=
  _id_id (_id item1) = _id_id (_id item2) /\
  _v (_id item1) = _v (_id item2) /\
  _d (_id item1) = _d (_id item2).

Definition ancestry_inv (batch : list (vitem V)) (st : ancestry) : Prop :=
  (forall id, default [] (st.1.2 !! id)
              = filter (fun it => _id_id (_id it) = id) st.1.1) /\
  Forall2 same_node st.1.1 batch.

End Items.

(** ** Bytes, base64 and random versions *)

Definition base64_alphabet : list ascii :=
  String.list_ascii_of_string
    "ABCDEFGHIJKLMNOPQRSTUVWXYZabcdefghijklmnopqrstuvwxyz0123456789+/".

Definition base64_char (n : N) : ascii :=
  nth (N.to_nat n) base64_alphabet "="%char.

(** [buf.toString('base64')] *)
Fixpoint base64 (bs : list Byte.byte) : string :=
  match bs with
  | [] => ""
  | [a] =>
      let a := Byte.to_N a in
      String (base64_char (a / 4))
        (String (base64_char ((a mod 4) * 16)) "==")
  | [a; b] =>
      let a := Byte.to_N a in
      let b := Byte.to_N b in
      String (base64_char (a / 4))
        (String (base64_char ((a mod 4) * 16 + b / 16))
           (String (base64_char ((b mod 16) * 4)) "="))
  | a :: b :: c :: rest =>
      let a := Byte.to_N a in
      let b := Byte.to_N b in
      let c := Byte.to_N c in
      String (base64_char (a / 4))
        (String (base64_char ((a mod 4) * 16 + b / 16))
           (String (base64_char ((b mod 16) * 4 + c / 64))
              (String (base64_char (c mod 64)) (base64 rest))))
  end.

(** [VersionedCollection._generateRandomVersion(size)], given the bytes
    that [crypto.pseudoRandomBytes(size || 6)] returned. *)
Definition _generateRandomVersion (randomBytes : list Byte.byte) : string :=
  base64 randomBytes.

Section Heads.
Context {V : Type}.

(** [VersionedCollection.prototype._ensureVersion]; [randomBytes] is what
    the random source returns if it is asked. *)
Definition _ensureVersion (randomBytes : list Byte.byte) (item : vitem V) : vitem V :=
  if bool_decide (_v (_id item) = "") then
    with_v (_generateRandomVersion randomBytes) item
  else item.

(** [collection.findOne(selector, { sort: { '_id._i': -1 } })]: the
    matching item with the greatest [_i]; of several with the same [_i]
    the first in the collection. *)
Definition findOne_last (selector : vitem V -> bool) (coll : list (vitem V))
    : option (vitem V) :=
  fold_left (fun best item =>
    if selector item then
      match best with
      | None => Some item
      | Some b => if (_i (_id b) <? _i (_id item))%Z then Some item else Some b
      end
    else best) coll None.

(** What [findOne_last] returns, said of a candidate [best] and the
    part [seen] of the collection. *)
Definition last_match (selector : vitem V -> bool) (best : option (vitem V))
    (seen : list (vitem V)) : Prop :=
  match best with
  | None => forall q, q ∈ seen -> selector q = false
  | Some p =>
      p ∈ seen /\ selector p = true /\
      forall q, q ∈ seen -> selector q = true -> (_i (_id q) <= _i (_id p))%Z
  end.

(** *** Heads of a batch ([_branchHeads])

    [heads] is keyed by version and [deleted] by document id; both are
    objects made with [{}] and are enumerated with [for ... in].  The
    function throws 'id mismatch', and a [TypeError] where it takes an
    inherited member for an item or calls an item as a method. *)

Definition branchHeads_bootstrap (id : string) (includeConflicted : bool)
    (heads : Obj.t (vitem V)) (item : vitem V) : result error (Obj.t (vitem V)) :=
  if bool_decide (id = _id_id (_id item)) then
    Ok (if not_conflicted item || includeConflicted
        then Obj.set (_v (_id item)) item heads else heads)
  else Err IdMismatch.

Fixpoint branchHeads_bootstrap_loop (id : string) (includeConflicted : bool)
    (items : list (vitem V)) (heads : Obj.t (vitem V))
    : result error (Obj.t (vitem V)) :=
  match items with
  | [] => Ok heads
  | item :: items =>
      heads ← branchHeads_bootstrap id includeConflicted heads item;
      branchHeads_bootstrap_loop id includeConflicted items heads
  end.

(** One parent of an item: it is no head, and a tombstone it points to
    is no longer dangling.  Without a tombstone [deleted[id]] is
    undefined, or for an id that is the name of an inherited member that
    member, which has no [_id]. *)
Definition eliminate_parent (id : string)
    (st : Obj.t (vitem V) * Obj.t (vitem V)) (p : string)
    : result error (Obj.t (vitem V) * Obj.t (vitem V)) :=
  let '(heads, deleted) := st in
  let heads := Obj.del p heads in
  match Obj.get id deleted with
  | Some tomb =>
      Ok (heads,
          if bool_decide (_v (_id tomb) = p) then Obj.del id deleted else deleted)
  | None =>
      if inherited id then Err (TypeError "Cannot read property '_v' of undefined")
      else Ok (heads, deleted)
  end.

(** Go from root to leaves, eliminating all parents. *)
Definition eliminate_item
    (st : Obj.t (vitem V) * Obj.t (vitem V)) (item : vitem V)
    : result error (Obj.t (vitem V) * Obj.t (vitem V)) :=
  let '(heads, deleted) := st in
  let id := _id_id (_id item) in
  (* keep track of deleted items, but not as a head *)
  let '(heads, deleted) :=
    if _d (_id item)
    then (Obj.del (_v (_id item)) heads, Obj.set id item deleted)
    else (heads, deleted) in
  match _pa (_id item) with
  | [] => (* a new root *) Ok (heads, Obj.del id deleted)
  | pa => forEach (eliminate_parent id) pa (heads, deleted)
  end.

(** [for (key in o) { if (o.hasOwnProperty(key)) { values.push(o[key]); } }] *)
Definition push_own (name : string) (o : Obj.t (vitem V))
    (values : list (vitem V)) : result error (list (vitem V)) :=
  forEach (fun values (kv : string * vitem V) =>
             own ← hasOwnProperty name o kv.1;
             Ok (if (own : bool) then values ++ [kv.2] else values))
    o values.

Definition _branchHeads (items : list (vitem V))
    (includeDeleted includeConflicted : bool) : result error (list (vitem V)) :=
  match items with
  | [] => Ok []
  | first :: _ =>
      let id := _id_id (_id first) in
      heads ← branchHeads_bootstrap_loop id includeConflicted items [];
      '(heads, deleted) ← forEach eliminate_item items (heads, []);
      values ← push_own "heads" heads [];
      if includeDeleted then push_own "deleted" deleted values else Ok values
  end.

(** The two loop bodies when nothing is thrown. *)
Definition branchHeads_parent (id : string)
    (st : Obj.t (vitem V) * Obj.t (vitem V)) (p : string)
    : Obj.t (vitem V) * Obj.t (vitem V) :=
  let '(heads, deleted) := st in
  (Obj.del p heads,
   match Obj.get id deleted with
   | Some tomb => if bool_decide (_v (_id tomb) = p) then Obj.del id deleted else deleted
   | None => deleted
   end).

Definition branchHeads_eliminate
    (st : Obj.t (vitem V) * Obj.t (vitem V)) (item : vitem V)
    : Obj.t (vitem V) * Obj.t (vitem V) :=
  let '(heads, deleted) := st in
  let id := _id_id (_id item) in
  let '(heads, deleted) :=
    if _d (_id item)
    then (Obj.del (_v (_id item)) heads, Obj.set id item deleted)
    else (heads, deleted) in
  match _pa (_id item) with
  | [] => (heads, Obj.del id deleted)
  | pa => fold_left (branchHeads_parent id) pa (heads, deleted)
  end.

(** An item of the batch that is a live leaf: not deleted, not in
    conflict, and no item of the batch names its version as a parent. *)
Definition live_leaf (items : list (vitem V)) (h : vitem V) : bool :=
  negb (_d (_id h)) && not_conflicted h
  && forallb (fun it => negb (bool_decide (_v (_id h) ∈ _pa (_id it)))) items.

(** The item [it] takes the key [k] out of [heads]. *)
Definition kills (k : string) (it : vitem V) : bool :=
  (_d (_id it) && bool_decide (_v (_id it) = k)) || bool_decide (k ∈ _pa (_id it)).

(** Properties used to state what the heads of a batch are. *)
Definition has_m3 (item : vitem V) : Prop := is_Some (_m3 item).

(** The heads after one item, on their own. *)
Definition eliminate_heads (heads : Obj.t (vitem V)) (item : vitem V)
    : Obj.t (vitem V) :=
  fold_left (fun h p => Obj.del p h) (_pa (_id item))
    (if _d (_id item) then Obj.del (_v (_id item)) heads else heads).

(** A head that is neither deleted nor marked as conflict. *)
Definition live_head (item : vitem V) : bool :=
  negb (_d (_id item)) && not_conflicted item.

(** The first of [heads] in the order of the batch [items]. *)
Definition first_arrived (items heads : list (vitem V)) : option (vitem V) :=
  List.find (fun it => bool_decide (_v (_id it) ∈ map (fun h => _v (_id h)) heads))
    items.

(** What is kept true of [deleted]: at most the tombstone of [id]. *)
Definition deleted_inv (id : string) (items : list (vitem V))
    (deleted : Obj.t (vitem V)) : Prop :=
  Obj.wf deleted /\
  forall k it, (k, it) ∈ deleted ->
    k = id /\ _d (_id it) = true /\ it ∈ items.

(** *** Conflict marking ([_markConflicts], [_ensureOneHead]) *)

Fixpoint markConflicts_rest (items : list (vitem V)) : result error (list (vitem V)) :=
  match items with
  | [] => Ok []
  | item :: items =>
      item ← set_conflict item;
      items ← markConflicts_rest items;
      Ok (item :: items)
  end.

(** The result is [None] when the source calls back with nothing, else
    the non conflicted and the conflicted heads. *)
Definition _markConflicts (items : list (vitem V))
    : result error (option (list (vitem V) * list (vitem V))) :=
  match items with
  | [] => Ok None
  | first :: rest =>
      let testPe := _pe (_id first) in
      let testId := _id_id (_id first) in
      if forallb (fun item => bool_decide (_pe (_id item) = testPe)
                              && bool_decide (_id_id (_id item) = testId)) items
      then conflictedHeads ← markConflicts_rest rest;
           Ok (Some ([first], conflictedHeads))
      else Err NotSameDAG
  end.

(** The source hands on the non conflicted heads only; the conflicted
    ones are the items of the batch it changed in place, and are
    returned with them here. *)
Definition _ensureOneHead (items : list (vitem V))
    : result error (option (list (vitem V) * list (vitem V))) :=
  match items with
  | [] => Ok None
  | _ :: _ =>
      newHeads ← _branchHeads items true false;
      marked ← _markConflicts newHeads;
      match marked with
      | None =>
          (* nonConflictedNewHeads is undefined *)
          Err (TypeError "Cannot read property 'length' of undefined")
      | Some (nonConflictedNewHeads, conflictedHeads) =>
          if bool_decide (length nonConflictedNewHeads ≠ 1)
          then Err NotExactlyOneHead
          else Ok (Some (nonConflictedNewHeads, conflictedHeads))
      end
  end.

End Heads.

(** *** Merging new heads with the local head ([_mergeNewHeads]) *)

Section MergeNewHeads.
Context {V : Type}.
(** [this.localPerspective] and [this._proceedOnError] *)
Variable localPerspective : string.
Variable _proceedOnError : bool.
(** The snapshot collection, in insertion order. *)
Variable snapshot : list (vitem V).
(** [newThis._merge(localHead, head, cb)] on the virtual collection: the
    error it calls back with, or the array of merged items. *)
Variable _merge : vitem V -> vitem V -> result error (list (vitem V)).
(** [crypto.pseudoRandomBytes(6)], by the number of earlier calls. *)
Variable pseudoRandomBytes : nat -> list Byte.byte.

(** The loop state: the heads as the loop left them (the source changes
    them in place), [newlyAddedItems], and the number of random versions
    drawn so far. *)
Record merge_heads_state := {
  heads_seen : list (vitem V);
  newlyAddedItems : list (vitem V);
  drawn : nat
}.

Definition next_head (st : merge_heads_state) (head : vitem V) : merge_heads_state :=
  {| heads_seen := heads_seen st ++ [head];
     newlyAddedItems := newlyAddedItems st;
     drawn := drawn st |}.

Definition mergeNewHeads_step (newRoots : gset string)
    (st : merge_heads_state) (head : vitem V) : result error merge_heads_state :=
  let id := _id_id (_id head) in
  let localHead :=
    findOne_last (fun item => bool_decide (_id_id (_id item) = id)
                              && bool_decide (_pe (_id item) = localPerspective))
      snapshot in
  (* newRoots[head._id._id], on an object made with {} *)
  let isNewRoot := bool_decide (id ∈ newRoots) || inherited id in
  (* connect a new root to the previous (deleted) item *)
  let head :=
    match localHead with
    | Some lh =>
        if isNewRoot && is_nil (_pa (_id head)) && _d (_id lh)
        then with_pa [_v (_id lh)] head else head
    | None => head
    end in
  match localHead with
  | None => Ok (next_head st head)
  | Some lh =>
      if isNewRoot && is_nil (_pa (_id head)) && is_nil (_pa (_id lh))
         && bool_decide (_v (_id lh) ≠ _v (_id head)) then
        if _proceedOnError then Ok (next_head st head) else Err DifferentRoot
      else if bool_decide (_v (_id lh) = _v (_id head)) then
        (* both heads have the same version *)
        Ok (next_head st head)
      else if _d (_id lh) then
        (* last item is deleted *)
        Ok (next_head st head)
      else
        match _m3 head with
        | None => Err (TypeError "Cannot read property '_ack' of undefined")
        | Some _ =>
            match _merge lh head with
            | Err e =>
                if bool_decide (message e = "merge conflict") then
                  (* skip merge conflicts: head._m3._c = true *)
                  head ← set_conflict head; Ok (next_head st head)
                else Err e
            | Ok [] => Err (TypeError "Cannot read property '_id' of undefined")
            | Ok (merged0 :: _) =>
                if negb (bool_decide (_v (_id merged0) = "")) then
                  (* the branch can be fast-forwarded to without merge *)
                  Ok (next_head st head)
                else
                  (* a genuine merge, version and add this new item *)
                  let merged0 :=
                    with_m3 {| _ack := false; _op := (0, 0)%Z; _c := false |} merged0 in
                  let merged0 := _ensureVersion (pseudoRandomBytes (drawn st)) merged0 in
                  Ok {| heads_seen := heads_seen st ++ [head];
                        newlyAddedItems := newlyAddedItems st ++ [merged0];
                        drawn := S (drawn st) |}
            end
        end
  end.

Fixpoint mergeNewHeads_loop (newRoots : gset string) (items : list (vitem V))
    (st : merge_heads_state) : result error merge_heads_state :=
  match items with
  | [] => Ok st
  | head :: items =>
      st ← mergeNewHeads_step newRoots st head;
      mergeNewHeads_loop newRoots items st
  end.

(** [drawn] is the number of random versions generated before the call. *)
Definition _mergeNewHeads (items : list (vitem V)) (newRoots : gset string)
    (drawn : nat) : result error merge_heads_state :=
  mergeNewHeads_loop newRoots items
    {| heads_seen := []; newlyAddedItems := []; drawn := drawn |}.

End MergeNewHeads.

(** Snapshot items for the examples: document "foo" in perspective [pe],
    with version [v], parents [pa] and deletion flag [d]. *)
Definition node (pe v : string) (pa : list string) (d : bool) (i : Z)
    : vitem string :=
  {| _id := {| _co := "c"; _id_id := "foo"; _v := v; _pe := pe; _pa := pa;
               _lo := false; _i := i; _d := d |};
     _m3 := Some {| _ack := false; _op := (0, 0)%Z; _c := false |};
     attrs := [] |}.

Definition no_merge (x y : vitem string) : result error (list (vitem string)) :=
  Err MergeConflict.

Definition zero_bytes (n : nat) : list Byte.byte := [x00; x00; x00; x00; x00; x00].

Definition fresh_state : merge_heads_state (V := string) :=
  {| heads_seen := []; newlyAddedItems := []; drawn := 0 |}.

(** A batch in which a deletion of A arrives before a sibling update. *)
(** The same for the document [id]. *)
Definition node_of (id pe v : string) (pa : list string) (d : bool) (i : Z)
    : vitem string :=
  {| _id := {| _co := "c"; _id_id := id; _v := v; _pe := pe; _pa := pa;
               _lo := false; _i := i; _d := d |};
     _m3 := Some {| _ack := false; _op := (0, 0)%Z; _c := false |};
     attrs := [] |}.

Definition fork_with_tombstone : list (vitem string) :=
  [node "I" "A" [] false 1; node "I" "B" ["A"] true 2; node "I" "C" ["A"] false 3].

(** A root with three leaves. *)
Definition fork_of_three : list (vitem string) :=
  [node "I" "A" [] false 1; node "I" "C" ["A"] false 2;
   node "I" "D" ["A"] false 3; node "I" "E" ["A"] false 4].

(** ** Oplog items ([_applyOplogItem] and what it calls) *)

(** An oplog item [{ op, ts, o, o2 }]; [o._id] is kept apart from the
    other attributes of [o]; a missing id is [""]. *)
Record oplog_item (V : Type) := {
  op : string;
  ts : Timestamp;
  o_id : string;
  o_attrs : Obj.t V;
  o2_id : string
}.
Arguments op {V} o.
Arguments ts {V} o.
Arguments o_id {V} o.
Arguments o_attrs {V} o.
Arguments o2_id {V} o.

Section Oplog.
Context {V : Type}.
Variable localPerspective : string.
Variable collectionName : string.
Variable versionKey : string.
(** Truthiness of an attribute value, and an attribute value read as a
    version string. *)
Variable truthy : V -> bool.
Variable as_version : V -> string.
Variable JSON_stringify : V -> option string.
(** The snapshot collection, in insertion order. *)
Variable snapshot : list (vitem V).
(** The rest of the writer pipeline, [_ensureAllInDAG([{ item }])]: the
    error it calls back with, if any. *)
Variable _ensureAllInDAG : vitem V -> option error.
(** The update of the temporary collection,
    [_tmpCollection.findAndModify(selector, [], oplogItem.o)]: the item
    after the modifiers were applied, if the database returns one. *)
Variable findAndModify : Obj.t V -> vitem V -> option (vitem V).

(** [VersionedCollection.prototype.versionDoc]: [doc] is [{ _id: id,
    ...attrs }], and has [_m3] when it was a snapshot item. *)
Definition versionDoc (id : string) (m3 : option meta) (doc : Obj.t V)
    (keepVersion : bool) (randomBytes : list Byte.byte) : vitem V :=
  {| _id := {| _co := collectionName;
               _id_id := id;
               _v := if keepVersion
                     then from_option as_version "" (Obj.get versionKey doc)
                     else _generateRandomVersion randomBytes;
               _pe := localPerspective;
               _pa := [];
               _lo := true;
               _i := 0;
               _d := false |};
     _m3 := m3;
     attrs := if from_option truthy false (Obj.get versionKey doc)
              then Obj.del versionKey doc else doc |}.

(** [_findLastAckdOrLocallyCreated] *)
Definition _findLastAckdOrLocallyCreated (id : string) : option (vitem V) :=
  findOne_last
    (fun item =>
       bool_decide (_id_id (_id item) = id)
       && bool_decide (_pe (_id item) = localPerspective)
       && (_lo (_id item) || from_option _ack false (_m3 item)))
    snapshot.

Definition with_d (item : vitem V) : vitem V :=
  {| _id := {| _co := _co (_id item); _id_id := _id_id (_id item);
               _v := _v (_id item); _pe := _pe (_id item); _pa := _pa (_id item);
               _lo := _lo (_id item); _i := _i (_id item); _d := true |};
     _m3 := _m3 item; attrs := attrs item |}.

(** The tombstone that [_applyOplogDeleteItem] builds from the parent
    [p] it found. *)
Definition tombstone (oplogItem : oplog_item V) (p : vitem V)
    (randomBytes : list Byte.byte) : vitem V :=
  let newObj := versionDoc (o_id oplogItem) (_m3 p) (attrs p) false randomBytes in
  let newObj := with_pa [_v (_id p)] newObj in
  let newObj := with_d newObj in
  with_m3 {| _ack := true; _op := ts oplogItem; _c := false |} newObj.

(** Run the rest of the pipeline on a new item and call back with it. *)
Definition ensure_and_return (newObj : vitem V) : result error (vitem V) :=
  match _ensureAllInDAG newObj with
  | Some err => Err err
  | None => Ok newObj
  end.

Definition _applyOplogDeleteItem (oplogItem : oplog_item V)
    (randomBytes : list Byte.byte) : result error (vitem V) :=
  if negb (bool_decide (op oplogItem = "d")) then
    Err (OtherError "oplogItem.op must be d")
  else if bool_decide (o_id oplogItem = "") then
    Err (OtherError "missing oplogItem.o._id")
  else
    (* find the parent by id and perspective *)
    match _findLastAckdOrLocallyCreated (o_id oplogItem) with
    | None => Err PreviousVersionNotFound
    | Some p => ensure_and_return (tombstone oplogItem p randomBytes)
    end.

(** [saveCollectionItem(item, pa, oplogItem)] *)
Definition saveCollectionItem (id : string) (item : Obj.t V) (pa : list string)
    (oplogItem : oplog_item V) (randomBytes : list Byte.byte)
    : result error (vitem V) :=
  let newObj :=
    versionDoc id None item
      (from_option truthy false (Obj.get versionKey item)) randomBytes in
  let newObj := with_pa pa newObj in
  let newObj :=
    with_m3 {| _ack := false; _op := ts oplogItem; _c := false |} newObj in
  ensure_and_return newObj.

(** [VersionedCollection.equalValues] on attribute reads. *)
Definition equalValues (x y : option V) : bool :=
  bool_decide (json JSON_stringify x = json JSON_stringify y).

(** [compareDAGItemWithCollectionItem] *)
Definition compareDAGItemWithCollectionItem (dagItem : vitem V)
    (id : string) (collectionItem : Obj.t V) : bool :=
  let comparator (key : string) :=
    if bool_decide (key = "_m3") || bool_decide (key = versionKey) then true
    else equalValues (Obj.get key collectionItem) (Obj.get key (attrs dagItem)) in
  bool_decide (_id_id (_id dagItem) = id)
  && bool_decide (_v (_id dagItem)
                  = from_option as_version "" (Obj.get versionKey collectionItem))
  && forallb comparator (Obj.keys (attrs dagItem))
  && forallb comparator (Obj.keys collectionItem).

(** [_applyOplogUpdateFullDoc], for an insert or a full document update.
    When the document is in the DAG already, the item found there is
    acknowledged; else a new version is created. *)
Definition _applyOplogUpdateFullDoc (oplogItem : oplog_item V)
    (randomBytes : list Byte.byte) : result error (vitem V) :=
  if negb (bool_decide (op oplogItem = "u") || bool_decide (op oplogItem = "i")) then
    Err (OtherError "oplogItem.op must be u or i")
  else if bool_decide (o_id oplogItem = "") then
    Err (OtherError "missing oplogItem.o._id")
  else
    let v := from_option as_version "" (Obj.get versionKey (o_attrs oplogItem)) in
    let found :=
      find (fun item => bool_decide (_id_id (_id item) = o_id oplogItem)
                        && bool_decide (_v (_id item) = v)
                        && bool_decide (_pe (_id item) = localPerspective))
        snapshot in
    let same :=
      match found with
      | Some item =>
          if compareDAGItemWithCollectionItem item (o_id oplogItem)
               (o_attrs oplogItem)
          then Some item else None
      | None => None
      end in
    match same with
    | Some item =>
        (* set ackd *)
        Ok (with_m3 {| _ack := true; _op := ts oplogItem;
                       _c := from_option _c false (_m3 item) |} item)
    | None =>
        (* create new version; the parent is the last ackd or locally
           created item *)
        match _findLastAckdOrLocallyCreated (o_id oplogItem) with
        | None =>
            if bool_decide (op oplogItem = "i") then
              saveCollectionItem (o_id oplogItem) (o_attrs oplogItem) []
                oplogItem randomBytes
            else Err PreviousItemNotFound
        | Some item2 =>
            if bool_decide (op oplogItem = "i") && negb (_d (_id item2)) then
              Err PreviousNotADeletion
            else
              let newObj :=
                versionDoc (o_id oplogItem) None (o_attrs oplogItem) false
                  randomBytes in
              let newObj := with_pa [_v (_id item2)] newObj in
              let newObj :=
                with_m3 {| _ack := false; _op := ts oplogItem; _c := false |}
                  newObj in
              ensure_and_return newObj
        end
    end.

(** The item [_createNewVersionByUpdateDoc] inserts into the temporary
    collection: the parent [dagItem] under a new envelope. *)
Definition update_base (dagItem : vitem V) (m : meta) (oplogItem : oplog_item V)
    (randomBytes : list Byte.byte) : vitem V :=
  let vDoc := versionDoc (o2_id oplogItem) None [] false randomBytes in
  let vDoc := with_pa [_v (_id dagItem)] vDoc in
  {| _id := _id vDoc;
     _m3 := Some {| _ack := false; _op := ts oplogItem; _c := _c m |};
     attrs := attrs dagItem |}.

Definition _createNewVersionByUpdateDoc (dagItem : vitem V)
    (oplogItem : oplog_item V) (randomBytes : list Byte.byte)
    : result error (vitem V) :=
  if negb (bool_decide (op oplogItem = "u")) then
    Err (OtherError "oplogItem op must be u")
  else if bool_decide (o2_id oplogItem = "") then
    Err (OtherError "missing oplogItem.o2._id")
  else if negb (bool_decide (o_id oplogItem = "")) then
    Err (OtherError "oplogItem contains o._id")
  else
    match _m3 dagItem with
    | None => Err (TypeError "Cannot set property '_ack' of undefined")
    | Some m =>
        match findAndModify (o_attrs oplogItem)
                (update_base dagItem m oplogItem randomBytes) with
        | None => Err (OtherError "new doc not created")
        | Some newObj => Ok newObj
        end
    end.

(** [_applyOplogUpdateModifier] *)
Definition _applyOplogUpdateModifier (oplogItem : oplog_item V)
    (randomBytes : list Byte.byte) : result error (vitem V) :=
  match _findLastAckdOrLocallyCreated (o2_id oplogItem) with
  | None => Err PreviousVersionNotFound
  | Some head =>
      newObj ← _createNewVersionByUpdateDoc head oplogItem randomBytes;
      ensure_and_return newObj
  end.

End Oplog.

(** A snapshot for the examples: two local versions of "foo", the second
    one acknowledged, and a remote version. *)
Definition local_node (v : string) (pa : list string) (d lo ack : bool) (i : Z)
    : vitem string :=
  {| _id := {| _co := "c"; _id_id := "foo"; _v := v; _pe := "_local"; _pa := pa;
               _lo := lo; _i := i; _d := d |};
     _m3 := Some {| _ack := ack; _op := (0, 0)%Z; _c := false |};
     attrs := [("a", "1")] |}.

Definition example_snapshot : list (vitem string) :=
  [local_node "A" [] false true false 1;
   local_node "B" ["A"] false false true 2;
   node "I" "C" ["B"] false 0;
   local_node "C" ["B"] false false false 3].

Definition delete_foo : oplog_item string :=
  {| op := "d"; ts := (7, 1)%Z; o_id := "foo"; o_attrs := []; o2_id := "" |}.

Definition string_truthy (s : string) : bool := negb (bool_decide (s = "")).

Definition pipeline_ok (item : vitem string) : option error := None.

(** ** Lowest common ancestors ([_intersect], [_findLCAs]) *)

(** [_intersect(arr1, arr2, cb)]: the elements of arr1 that are in arr2,
    and [subset]: [None] for [false], else -1, 0 or 1. *)
Definition intersect_step (st : list string * bool * Obj.t bool) (el : string)
    : list string * bool * Obj.t bool :=
  let '(intersection, all1in2, obj2) := st in
  if Obj.has el obj2
  then (intersection ++ [el], all1in2, Obj.del el obj2)
  else (intersection, false, obj2).

Definition _intersect (arr1 arr2 : list string) : list string * option Z :=
  (* create object for constant lookup times *)
  let obj2 := fold_left (fun o el => Obj.set el true o) arr2 [] in
  let '(intersection, all1in2, obj2) :=
    fold_left intersect_step arr1 ([], true, obj2) in
  let all2in1 := is_nil (Obj.keys obj2) in
  let count := ((if all1in2 then -1 else 0) + (if all2in1 then 1 else 0))%Z in
  let subset := if all1in2 || all2in1 then Some count else None in
  (intersection, subset).

(** The state of the walk: the open heads of both sides by version, with
    the perspective they were entered for, the ancestors seen on each
    side (newest first in the stream, so oldest first in the list), the
    versions that can no longer be an lca, and the lcas found. *)
Record lca_state := {
  headsX : Obj.t string;
  headsY : Obj.t string;
  ancestorsX : list string;
  ancestorsY : list string;
  cas : gset string;
  lcas : list string
}.

Section FindLCAs.
Context {V : Type}.
Variable localPerspective : string.
(** The collection the search runs on, in insertion order. *)
Variable snapshot : list (vitem V).

(** [parents.forEach(function(p) { heads[p] = perspective; })] *)
Definition add_heads (parents : list string) (perspective : string)
    (heads : Obj.t string) : Obj.t string :=
  fold_left (fun h p => Obj.set p perspective h) parents heads.

(** [cas[version]]: [cas] is a plain object whose own values are all
    [true], so the lookup is truthy for its own keys and for the names
    of the members every object inherits. *)
Definition is_ca (casSet : gset string) (version : string) : bool :=
  bool_decide (version ∈ casSet) || inherited version.

(** The part of the data handler for the side of x. *)
Definition track_x (perspectiveX : string) (item : vitem V) (st : lca_state)
    : lca_state :=
  let version := _v (_id item) in
  let parents := _pa (_id item) in
  if bool_decide (Obj.get version (headsX st) = Some (_pe (_id item))) then
    let isCa := bool_decide (version ∈ ancestorsY st) in
    {| headsX := add_heads parents perspectiveX (Obj.del version (headsX st));
       headsY := headsY st;
       ancestorsX := version :: ancestorsX st;
       ancestorsY := ancestorsY st;
       cas := if isCa then list_to_set parents ∪ cas st else cas st;
       lcas := if isCa && negb (is_ca (cas st) version)
               then lcas st ++ [version] else lcas st |}
  else st.

(** The same with the heads of y. *)
Definition track_y (perspectiveY : string) (item : vitem V) (st : lca_state)
    : lca_state :=
  let version := _v (_id item) in
  let parents := _pa (_id item) in
  if bool_decide (Obj.get version (headsY st) = Some (_pe (_id item))) then
    let isCa := bool_decide (version ∈ ancestorsX st) in
    {| headsX := headsX st;
       headsY := add_heads parents perspectiveY (Obj.del version (headsY st));
       ancestorsX := ancestorsX st;
       ancestorsY := version :: ancestorsY st;
       cas := if isCa then list_to_set parents ∪ cas st else cas st;
       lcas := if isCa && negb (is_ca (cas st) version)
               then lcas st ++ [version] else lcas st |}
  else st.

Definition findLCAs_data (perspectiveX perspectiveY : string) (item : vitem V)
    (st : lca_state) : lca_state :=
  track_y perspectiveY item (track_x perspectiveX item st).

(** [items.length === perspectives.length] for the items of the id with
    version [head] in the perspectives of the search. *)
Definition in_all_perspectives (id : string) (perspectives : list string)
    (head : string) : bool :=
  bool_decide
    (length (filter (fun item : vitem V =>
                       _id_id (_id item) = id /\ _v (_id item) = head
                       /\ _pe (_id item) ∈ perspectives) snapshot)
     = length perspectives).

Definition missing_perspective (head : string) (perspectives : list string)
    : error :=
  OtherError ("missing at least one perspective when fetching lca " ++ head
              ++ ". perspectives: " ++ String.concat ", " perspectives).

(** Finish up: add any of the open heads that are not a common ancestor
    and are in the database, for every perspective. *)
Fixpoint findLCAs_finish (id : string) (perspectives : list string)
    (casSet : gset string) (heads : list string) (lcas : list string)
    : result error (list string) :=
  match heads with
  | [] => Ok lcas
  | head :: heads =>
      if is_ca casSet head then
        findLCAs_finish id perspectives casSet heads lcas
      else if in_all_perspectives id perspectives head then
        findLCAs_finish id perspectives casSet heads (lcas ++ [head])
      else Err (missing_perspective head perspectives)
  end.

(** The stream handlers.  [finished] decides, from the third argument
    [_intersect] calls back with, whether to finish up. *)
Fixpoint findLCAs_walk (finished : option Z -> bool) (id : string)
    (perspectiveX perspectiveY : string) (perspectives : list string)
    (stream : list (vitem V)) (st : lca_state) : result error (list string) :=
  match stream with
  | [] => (* stream.on('close') *) Ok (lcas st)
  | item :: stream =>
      let st := findLCAs_data perspectiveX perspectiveY item st in
      let '(_, subset) := _intersect (Obj.keys (headsX st)) (Obj.keys (headsY st)) in
      if finished subset then
        findLCAs_finish id perspectives (cas st) (Obj.keys (headsX st)) (lcas st)
      else findLCAs_walk finished id perspectiveX perspectiveY perspectives stream st
  end.

(** [if (subset === 0)] *)
Definition heads_equal (subset : option Z) : bool :=
  bool_decide (subset = Some 0%Z).

(** Insertion sort, greatest [_i] first. *)
Fixpoint insert_by_i (item : vitem V) (sorted : list (vitem V)) : list (vitem V) :=
  match sorted with
  | [] => [item]
  | x :: sorted' =>
      if (_i (_id x) <? _i (_id item))%Z then item :: sorted
      else x :: insert_by_i item sorted'
  end.

Definition sort_i_desc (items : list (vitem V)) : list (vitem V) :=
  fold_right insert_by_i [] items.

(** The heads a side starts with: its version, or its parents for a
    virtual merge. *)
Definition initial_heads (item : vitem V) : Obj.t string :=
  if negb (bool_decide (_v (_id item) = "")) then [(_v (_id item), _pe (_id item))]
  else add_heads (_pa (_id item)) (_pe (_id item)) [].

(** The cursor of [_findLCAs]: the items of the id in the perspectives of
    x and y, newest first. *)
Definition findLCAs_cursor (itemX itemY : vitem V) : list (vitem V) :=
  let perspectiveX := _pe (_id itemX) in
  let perspectiveY := _pe (_id itemY) in
  let selected :=
    filter (fun item : vitem V =>
              _id_id (_id item) = _id_id (_id itemX)
              /\ (_pe (_id item) = perspectiveX \/ _pe (_id item) = perspectiveY))
      snapshot in
  if bool_decide (perspectiveX = perspectiveY)
     && bool_decide (perspectiveX = localPerspective)
  then sort_i_desc selected      (* sort = { '_id._i': -1 } *)
  else rev selected.             (* sort = { '$natural': -1 } *)

Definition findLCAs_with (finished : option Z -> bool) (itemX itemY : vitem V)
    : result error (list string) :=
  if negb (bool_decide (_id_id (_id itemX) = _id_id (_id itemY))) then
    Err (TypeError "itemX._id._id must equal itemY._id._id")
  else if bool_decide (_pe (_id itemX) = "") then
    Err (TypeError "missing itemX._id._pe")
  else if bool_decide (_pe (_id itemY) = "") then
    Err (TypeError "missing itemY._id._pe")
  else
    let perspectiveX := _pe (_id itemX) in
    let perspectiveY := _pe (_id itemY) in
    let perspectives :=
      if bool_decide (perspectiveX = perspectiveY) then [perspectiveX]
      else [perspectiveX; perspectiveY] in
    (* shortcut: one item is the only parent of the other *)
    let shortcut :=
      if bool_decide (perspectiveX = perspectiveY) then
        (if bool_decide (_pa (_id itemX) = [_v (_id itemY)])
            && negb (bool_decide (_v (_id itemY) = ""))
         then [_v (_id itemY)] else [])
        ++
        (if bool_decide (_pa (_id itemY) = [_v (_id itemX)])
            && negb (bool_decide (_v (_id itemX) = ""))
         then [_v (_id itemX)] else [])
      else [] in
    if negb (is_nil shortcut) then Ok shortcut
    else
      findLCAs_walk finished (_id_id (_id itemX)) perspectiveX perspectiveY
        perspectives (findLCAs_cursor itemX itemY)
        {| headsX := initial_heads itemX; headsY := initial_heads itemY;
           ancestorsX := []; ancestorsY := [];
           cas := ∅; lcas := [] |}.

(** [VersionedCollection.prototype._findLCAs] *)
Definition _findLCAs (itemX itemY : vitem V) : result error (list string) :=
  findLCAs_with heads_equal itemX itemY.

(** The search as the specification words it: finish as soon as one set
    of open heads is a subset of the other. *)
Definition heads_subset (subset : option Z) : bool :=
  match subset with Some _ => true | None => false end.

Definition findLCAs_as_specified (itemX itemY : vitem V)
    : result error (list string) :=
  findLCAs_with heads_subset itemX itemY.

End FindLCAs.

(** A fork of "foo" that is merged again: A, B{A}, C{A}, D{B, C}. *)
Definition diamond : list (vitem string) :=
  [node "I" "A" [] false 1; node "I" "B" ["A"] false 2;
   node "I" "C" ["A"] false 3; node "I" "D" ["B"; "C"] false 4].

(** The state [_findLCAs] starts with for x = D and y = B. *)
Definition diamond_start : lca_state :=
  {| headsX := [("D", "I")]; headsY := [("B", "I")];
     ancestorsX := []; ancestorsY := []; cas := ∅; lcas := [] |}.

(** ** The streaming reader ([VersionedCollectionReader]) *)

(** What a hook calls back with: the object it was given, as the hook
    left it, or another object.  A hook that calls back with another
    object is taken to leave the one it was given as it was, and the new
    object to share nothing with it. *)
Inductive hooked (V : Type) : Type :=
| Same (item : vitem V)
| Other (item : vitem V).
Arguments Same {V} item.
Arguments Other {V} item.

(** A hook calls back with an error, with nothing (the item is
    filtered) or with an item. *)
Definition hook (V : Type) : Type := vitem V -> result error (option (hooked V)).

(** What the hooks leave behind: [read] is the object that was handed to
    the first hook, as the hooks left it; [other] is the object the last
    hook called back with, when that is another object. *)
Record hooks_result (V : Type) : Type := {
  read : vitem V;
  other : option (vitem V)
}.
Arguments read {V} _.
Arguments other {V} _.

(** The [afterItem] the hooks call back with. *)
Definition afterItem {V} (r : hooks_result V) : vitem V :=
  default (read r) (other r).

Section Reader.
Context {V : Type}.
(** [opts.localPerspective], [opts.offset] and the count of the
    collection when the reader starts ([_maxTries]). *)
Variable localPerspective : string.
Variable offset : string.
Variable maxTries : nat.
(** [match(that._filter, item)] of the match-object package. *)
Variable matches : vitem V -> bool.
(** [opts.hooks] *)
Variable hooks : list (hook V).
(** The snapshot collection, in insertion order. *)
Variable snapshotCollection : list (vitem V).

(** The hooks in order, each on what the one before called back with,
    stopping at the first that filters or fails. *)
Fixpoint runHooks_each (hs : list (hook V)) (r : hooks_result V)
    : result error (option (hooks_result V)) :=
  match hs with
  | [] => Ok (Some r)
  | h :: hs =>
      after ← h (afterItem r);
      match after with
      | None => (* callback(new Error('item filtered')) *) Ok None
      | Some (Same item) =>
          runHooks_each hs
            match other r with
            | None => {| read := item; other := None |}
            | Some _ => {| read := read r; other := Some item |}
            end
      | Some (Other item) =>
          runHooks_each hs {| read := read r; other := Some item |}
      end
  end.

(** [runHooks(hooks, db, item, opts, cb)], as [VersionedCollection.runHooks]
    has it: an error with the message 'item filtered' counts as a
    filtered item. *)
Definition runHooks (hs : list (hook V)) (item : vitem V)
    : result error (option (hooks_result V)) :=
  match runHooks_each hs {| read := item; other := None |} with
  | Err e => if bool_decide (message e = "item filtered") then Ok None else Err e
  | Ok r => Ok r
  end.

(** Modelled from the spec: walk_branch.js is not among the sources.
    The reader "walks back along that parent branch until a
    filter-matching ancestor is found": the items of the document are
    visited newest first, starting with the version asked for and
    following the parents of the items visited, until the iterator asks
    to stop.  [wanted] are the versions still to visit; the result is
    the item the iterator stopped at. *)
Fixpoint walkBranch_from (wanted : gset string) (stream : list (vitem V))
    (stop : vitem V -> bool) : option (vitem V) :=
  match stream with
  | [] => None
  | anItem :: stream =>
      if bool_decide (_v (_id anItem) ∈ wanted) then
        if stop anItem then Some anItem
        else walkBranch_from
               (list_to_set (_pa (_id anItem)) ∪ wanted ∖ {[ _v (_id anItem) ]})
               stream stop
      else walkBranch_from wanted stream stop
  end.

Definition walkBranch (id : string) (version : string)
    (stop : vitem V -> bool) : option (vitem V) :=
  walkBranch_from {[ version ]}
    (rev (filter (fun a : vitem V => _id_id (_id a) = id
                                     /\ _pe (_id a) = localPerspective)
            snapshotCollection))
    stop.

(** The state of the reader: [heads], [offsetReached], the counter [i],
    and what was pushed out so far. *)
Record reader_state := {
  heads : gmap string (list string);
  offsetReached : bool;
  tries : nat;
  pushed : list (vitem V)
}.

(** What [Array.prototype.push.apply(array, heads[p])] takes from a
    member [p] that [heads] inherits: as many undefined entries as the
    member has for length.  An undefined entry is written as the empty
    string, which is no version. *)
Definition entries_of_inherited (p : string) : list string :=
  match Obj.get p Object_prototype with
  | Some (Some n) => replicate n ""
  | _ => []
  end.

(** [heads[item._id._v]] where the source uses it as an array.  It is
    an own entry unless the item names its own version as a parent. *)
Definition own_head (hs : gmap string (list string)) (v method : string)
    : result error (list string) :=
  match hs !! v with
  | Some ofV => Ok ofV
  | None =>
      Err (TypeError
             (if inherited v
              then "heads[item._id._v]." ++ method ++ " is not a function"
              else "Cannot read property '" ++ method ++ "' of undefined"))
  end.

(** The same where [Array.prototype.push] is applied to it. *)
Definition push_target (hs : gmap string (list string)) (v : string)
    : result error (list string) :=
  match hs !! v with
  | Some ofV => Ok ofV
  | None =>
      Err (TypeError
             (if inherited v
              then "Cannot assign to read only property 'length' of function "
                   ++ "'function " ++ v ++ "() { [native code] }'"
              else "Array.prototype.push called on null or undefined"))
  end.

(** One parent [p] of the new item: move the parents that were emitted
    for [p] along to the new branch head, or find the lowest ancestor
    that passes the filter.  [heads] is a plain object: [heads[p]] is
    also truthy for the name of a member every object inherits. *)
Definition move_parent (item : vitem V) (hs : gmap string (list string))
    (p : string) : result error (gmap string (list string)) :=
  let v := _v (_id item) in
  match hs !! p with
  | Some ofP =>
      (* ff and take over the parent references from the old head *)
      ofV ← push_target hs v;
      Ok (delete p (<[v := ofV ++ ofP]> hs))
  | None =>
      if inherited p then
        ofV ← push_target hs v;
        Ok (<[v := ofV ++ entries_of_inherited p]> hs)
      else
        (* branched off *)
        match walkBranch (_id_id (_id item)) p matches with
        | Some anItem =>
            ofV ← own_head hs v "some";
            if bool_decide (_v (_id anItem) ∈ ofV) then Ok hs
            else Ok (<[v := ofV ++ [_v (_id anItem)]]> hs)
        | None => Ok hs
        end
  end.

Fixpoint move_parents (item : vitem V) (pa : list string)
    (hs : gmap string (list string)) : result error (gmap string (list string)) :=
  match pa with
  | [] => Ok hs
  | p :: pa => hs ← move_parent item hs p; move_parents item pa hs
  end.

(** What is pushed out: the item without perspective and local state. *)
Definition strip (item : vitem V) : result error (vitem V) :=
  match _m3 item with
  | Some m =>
      Ok {| _id := {| _co := _co (_id item); _id_id := _id_id (_id item);
                      _v := _v (_id item); _pe := ""; _pa := _pa (_id item);
                      _lo := false; _i := 0; _d := _d (_id item) |};
            _m3 := Some {| _ack := false; _op := (0, 0)%Z; _c := _c m |};
            attrs := attrs item |}
  | None => Err (TypeError "Cannot convert undefined or null to object")
  end.

Definition handleData (st : reader_state) (item : vitem V)
    : result error reader_state :=
  (* only start emitting after the offset is encountered *)
  position ←
    (if offsetReached st then Ok (true, tries st)
     else if bool_decide (_v (_id item) = offset) then Ok (true, tries st)
     else if bool_decide (maxTries <= S (tries st))
          then Err (OtherError "offset not found")
          else Ok (false, S (tries st)));
  let '(reached, i) := position in
  (* heads[item._id._v] = [] *)
  hs ← move_parents item (_pa (_id item)) (<[_v (_id item) := []]> (heads st));
  let skipped :=
    {| heads := hs; offsetReached := reached; tries := i; pushed := pushed st |} in
  (* don't emit if not all criteria hold on this item *)
  if negb (matches item) then Ok skipped
  else
    r ← runHooks hooks item;
    match r with
    | None => (* hooks filter out the item *) Ok skipped
    | Some r =>
        (* set parents to last returned version of this branch: on the
           item that was read, not on another object a hook called back
           with *)
        let item := with_pa (default [] (hs !! _v (_id (read r)))) (read r) in
        (* then update branch with _id of this item *)
        let hs := <[_v (_id item) := [_v (_id item)]]> hs in
        if reached then
          (* item = afterItem *)
          out ← strip (afterItem {| read := item; other := other r |});
          Ok {| heads := hs; offsetReached := reached; tries := i;
                pushed := pushed st ++ [out] |}
        else
          Ok {| heads := hs; offsetReached := reached; tries := i;
                pushed := pushed st |}
    end.

Fixpoint read_loop (source : list (vitem V)) (st : reader_state)
    : result error reader_state :=
  match source with
  | [] => Ok st
  | item :: source => st ← handleData st item; read_loop source st
  end.

(** The reader over its source: the items of the local perspective in
    natural order.  The result is what it pushes out. *)
Definition VersionedCollectionReader : result error (list (vitem V)) :=
  st ← read_loop
         (filter (fun a : vitem V => _pe (_id a) = localPerspective)
            snapshotCollection)
         {| heads := ∅;
            offsetReached := bool_decide (offset = "");
            tries := 0;
            pushed := [] |};
  Ok (pushed st).

End Reader.

(** The DAG of the reader's tests: A, B{A}, C{B}, D{C}, E{B}, F{E, C}, G{F},
    in perspective I. *)
Definition reader_node (v : string) (pa : list string) (i : Z)
    (a : Obj.t string) : vitem string :=
  {| _id := {| _co := ""; _id_id := "foo"; _v := v; _pe := "I"; _pa := pa;
               _lo := false; _i := i; _d := false |};
     _m3 := Some {| _ack := true; _op := (0, 0)%Z; _c := false |};
     attrs := a |}.

Definition reader_dag : list (vitem string) :=
  [reader_node "A" [] 1 [("baz", "qux")];
   reader_node "B" ["A"] 2 [("foo", "bar")];
   reader_node "C" ["B"] 3 [("baz", "mux"); ("foo", "bar")];
   reader_node "D" ["C"] 4 [("baz", "qux")];
   reader_node "E" ["B"] 5 [];
   reader_node "F" ["E"; "C"] 6 [("foo", "bar")];
   reader_node "G" ["F"] 7 [("baz", "qux")]].

(** The filter [{ k: v }]. *)
Definition has_attr (k v : string) (item : vitem string) : bool :=
  bool_decide (Obj.get k (attrs item) = Some v).

(** A hook that filters the version [v]. *)
Definition drop_version (v : string) : hook string :=
  fun item => if bool_decide (_v (_id item) = v) then Ok None else Ok (Some (Same item)).

(** A hook that calls back with a copy of the item. *)
Definition copy_item : hook string := fun item => Ok (Some (Other item)).

(** Version and parents of what was pushed out. *)
Definition graph_of (out : result error (list (vitem string)))
    : result error (list (string * list string)) :=
  match out with
  | Ok items => Ok (map (fun item => (_v (_id item), _pa (_id item))) items)
  | Err e => Err e
  end.

(** A fork without a merge: A, B{A}, C{B}, E{B}. *)
Definition reader_fork : list (vitem string) :=
  [reader_node "A" [] 1 []; reader_node "B" ["A"] 2 [];
   reader_node "C" ["B"] 3 []; reader_node "E" ["B"] 4 []].

Definition match_all (item : vitem string) : bool := true.

(** ** Merge tree items and trees ([lib/merge_tree.js])

    An item is [{ h: { id, v, pa, pe, d, c, i }, m, b }].  [h.v] and
    [h.pe] are tested for truthiness and are [""] when missing, [h.pa],
    [m] and [b] are [None] when missing, [h.i] is 0 when missing. *)

Record header := {
  h_id : string;
  h_v : string;
  h_pa : option (list string);
  h_pe : string;
  h_d : bool;
  h_c : bool;
  h_i : nat
}.

Record mitem (M B : Type) := {
  item_h : header;
  item_m : option M;
  item_b : option B
}.
Arguments item_h {M B} m.
Arguments item_m {M B} m.
Arguments item_b {M B} m.

#[global] Instance header_eq_dec : EqDecision header.
Proof. solve_decision. Defined.

(** Error kinds of the merge tree: the errors the code creates, by
    message. *)
Inductive mt_error :=
| InvalidLocalHeader (msg : string)   (* TypeError('item.' + error) *)
| UnexpectedParent      (* 'did not expect local item to have a parent defined' *)
| MoreThanOneLocalHead  (* 'more than one non-deleted and non-conflicting head in local tree' *)
| MoreThanOneStageHead  (* 'more than one head in stage' *)
| PerspectiveMismatch   (* 'shead and stree perspective mismatch' *)
| VersionMismatch       (* 'unexpected version mismatch' *)
| VersionTooSmall       (* 'version too small' *)
| InvalidItem           (* the tree refuses the item *)
| JsTypeError (msg : string)
| TransformError (msg : string).

#[global] Instance mt_error_eq_dec : EqDecision mt_error.
Proof. solve_decision. Defined.

Section Tree.
Context {M B : Type} `{EqDecision M} `{EqDecision B}.

Definition with_c (item : mitem M B) : mitem M B :=
  {| item_h := {| h_id := h_id (item_h item); h_v := h_v (item_h item);
                  h_pa := h_pa (item_h item); h_pe := h_pe (item_h item);
                  h_d := h_d (item_h item); h_c := true;
                  h_i := h_i (item_h item) |};
     item_m := item_m item; item_b := item_b item |}.

Definition with_i (i : nat) (item : mitem M B) : mitem M B :=
  {| item_h := {| h_id := h_id (item_h item); h_v := h_v (item_h item);
                  h_pa := h_pa (item_h item); h_pe := h_pe (item_h item);
                  h_d := h_d (item_h item); h_c := h_c (item_h item);
                  h_i := i |};
     item_m := item_m item; item_b := item_b item |}.

Definition with_hv (v : string) (item : mitem M B) : mitem M B :=
  {| item_h := {| h_id := h_id (item_h item); h_v := v;
                  h_pa := h_pa (item_h item); h_pe := h_pe (item_h item);
                  h_d := h_d (item_h item); h_c := h_c (item_h item);
                  h_i := h_i (item_h item) |};
     item_m := item_m item; item_b := item_b item |}.

(** Modelled from the spec: tree.js is not among the sources.  A tree is
    a per-perspective append-only store of DAG nodes; here, its name,
    whether it validates ([skipValidation]), and its items in insertion
    order, each with the conflict bit of its head entry in [h.c]. *)
Record tree := {
  t_name : string;
  t_skipValidation : bool;
  t_items : list (mitem M B)
}.

Definition with_items (items : list (mitem M B)) (t : tree) : tree :=
  {| t_name := t_name t; t_skipValidation := t_skipValidation t;
     t_items := items |}.

(** Modelled from the spec: "invalid items fail with InvalidItem" for
    "missing/ill-typed header fields": an item needs an id, a version
    and a list of parents. *)
Definition invalid_header (hd : header) : bool :=
  bool_decide (h_id hd = "") || bool_decide (h_v hd = "")
  || bool_decide (h_pa hd = None).

(** The key of an item in a tree: its id and version. *)
Definition same_version (x y : mitem M B) : bool :=
  bool_decide (h_id (item_h x) = h_id (item_h y))
  && bool_decide (h_v (item_h x) = h_v (item_h y)).

Definition has_version (id v : string) (t : list (mitem M B)) : Prop :=
  exists x, x ∈ t /\ h_id (item_h x) = id /\ h_v (item_h x) = v.

(** Modelled from the spec: "equivalent body and header": id, version,
    parents, perspective, deletion flag, meta and body agree. *)
Definition same_item (x y : mitem M B) : bool :=
  bool_decide (h_id (item_h x) = h_id (item_h y))
  && bool_decide (h_v (item_h x) = h_v (item_h y))
  && bool_decide (h_pa (item_h x) = h_pa (item_h y))
  && bool_decide (h_pe (item_h x) = h_pe (item_h y))
  && bool_decide (h_d (item_h x) = h_d (item_h y))
  && bool_decide (item_m x = item_m y)
  && bool_decide (item_b x = item_b y).

(** The two items do not differ if they have the same id and version. *)
Definition agree (x y : mitem M B) : Prop :=
  same_version x y = true -> same_item x y = true.

(** Modelled from the spec: the heads of an id are the items that no
    item of the id names as a parent. *)
Definition is_parent_in (items : list (mitem M B)) (x : mitem M B) : bool :=
  existsb (fun y => bool_decide (h_id (item_h y) = h_id (item_h x))
                    && bool_decide (h_v (item_h x) ∈ default [] (h_pa (item_h y))))
    items.

(** Modelled from the spec: [getHeads({id, skipDeletes, skipConflicts})]
    enumerates the heads of the id, here in insertion order. *)
Definition Tree_getHeads (id : string) (skipDeletes skipConflicts : bool)
    (t : tree) : list (mitem M B) :=
  List.filter (fun x =>
       bool_decide (h_id (item_h x) = id)
       && negb (is_parent_in (t_items t) x)
       && negb (skipDeletes && h_d (item_h x))
       && negb (skipConflicts && h_c (item_h x)))
    (t_items t).

(** Modelled from the spec: "if after this update more than one
    non-deleted, non-conflicting head exists for the id, all but the
    first (by insertion order) are re-stored with the conflict bit
    set". *)
Definition mark_later_heads (id : string) (t : tree) : tree :=
  match Tree_getHeads id true true t with
  | [] => t
  | first :: _ =>
      with_items
        (map (fun x =>
                if bool_decide (h_id (item_h x) = id)
                   && negb (is_parent_in (t_items t) x)
                   && negb (h_d (item_h x))
                   && negb (bool_decide (h_v (item_h x) = h_v (item_h first)))
                then with_c x else x)
           (t_items t))
        t
  end.

(** Modelled from the spec: [getByVersion(v)] returns the item or null. *)
Definition Tree_getByVersion (v : string) (t : tree) : option (mitem M B) :=
  List.find (fun x => bool_decide (h_v (item_h x) = v)) (t_items t).

(** Modelled from the spec: [write(item)] validates the header, assigns
    the next insertion index and appends; writing a node that exists
    with equivalent body and header is a no-op.  The specification does
    not say what a different item with a stored version gives; versions
    are unique in a tree, so it is refused here. *)
Definition Tree_write (item : mitem M B) (t : tree) : result mt_error tree :=
  if negb (t_skipValidation t) && invalid_header (item_h item) then Err InvalidItem
  else
    match List.find (fun x => same_version x item) (t_items t) with
    | Some x => if same_item x item then Ok t else Err InvalidItem
    | None =>
        Ok (mark_later_heads (h_id (item_h item))
              (with_items (t_items t ++ [with_i (S (length (t_items t))) item]) t))
    end.

(** Modelled from the spec: [del(item)] removes the entry. *)
Definition Tree_del (item : mitem M B) (t : tree) : tree :=
  with_items
    (List.filter (fun x => negb (same_version x item)) (t_items t))
    t.

(** Modelled from the spec: the items up to the one with version [last],
    for [iterateInsertionOrder]. *)
Fixpoint up_to (last : string) (excludeLast : bool) (items : list (mitem M B))
    : list (mitem M B) :=
  match items with
  | [] => []
  | x :: items =>
      if bool_decide (h_v (item_h x) = last)
      then (if excludeLast then [] else [x])
      else x :: up_to last excludeLast items
  end.

(** Modelled from the spec: the items from the one with version [first]
    on, for [iterateInsertionOrder]. *)
Fixpoint from_version (first : string) (excludeFirst : bool)
    (items : list (mitem M B)) : list (mitem M B) :=
  match items with
  | [] => []
  | x :: items' =>
      if bool_decide (h_v (item_h x) = first)
      then (if excludeFirst then items' else items)
      else from_version first excludeFirst items'
  end.

(** Modelled from the spec:
    [iterateInsertionOrder({id?, first?, last?, excludeFirst?, excludeLast?})]
    yields the items in insertion order; an absent option is [None]. *)
Definition Tree_iterateInsertionOrder (id first last : option string)
    (excludeFirst excludeLast : bool) (t : tree) : list (mitem M B) :=
  let items :=
    match id with
    | Some id => List.filter (fun x => bool_decide (h_id (item_h x) = id)) (t_items t)
    | None => t_items t
    end in
  let items :=
    match first with
    | Some v => from_version v excludeFirst items
    | None => items
    end in
  match last with
  | Some v => up_to v excludeLast items
  | None => items
  end.

(** Modelled from the spec: [lastByPerspective(pe)] is the version of
    the last item written that came from [pe], if any (the watermark of
    what was taken over from [pe]). *)
Definition Tree_lastByPerspective (pe : string) (t : tree) : option string :=
  match List.filter (fun x => bool_decide (h_pe (item_h x) = pe)) (rev (t_items t)) with
  | [] => None
  | x :: _ => Some (h_v (item_h x))
  end.

End Tree.
Arguments tree M B : clear implicits.


(** ** The merge tree ([MergeTree]) *)

(** What [merge(sX, sY, { rootX, rootY }, cb)] of [./merge] calls back
    with: an error, with its [conflict] attribute if it has one, or the
    merge from both perspectives. *)
Inductive merge_outcome (M B : Type) :=
| MergeFailed (conflict : option (list string))
| MergeDone (smerge dmerge : mitem M B).
Arguments MergeFailed {M B} conflict.
Arguments MergeDone {M B} smerge dmerge.

(** The first argument the iterator of [_mergeTrees] is called with:
    nothing, the array of conflicting attributes, or a merged item. *)
Inductive smerge_arg (M B : Type) :=
| NoMerge
| ConflictingAttrs (conflict : list string)
| MergedItem (smerge : mitem M B).
Arguments NoMerge {M B}.
Arguments ConflictingAttrs {M B} conflict.
Arguments MergedItem {M B} smerge.

Section MergeTree.
Context {M B : Type} `{EqDecision M} `{EqDecision B}.

(** The trees of a merge tree, and the calls of the merge handler so
    far, in order. *)
Record merge_tree := {
  mt_local : tree M B;
  mt_stage : tree M B;
  mt_pe : list (string * tree M B);
  mt_handled : list (mitem M B * option (mitem M B))
}.

Definition with_local (t : tree M B) (mt : merge_tree) : merge_tree :=
  {| mt_local := t; mt_stage := mt_stage mt; mt_pe := mt_pe mt;
     mt_handled := mt_handled mt |}.

Definition with_stage (t : tree M B) (mt : merge_tree) : merge_tree :=
  {| mt_local := mt_local mt; mt_stage := t; mt_pe := mt_pe mt;
     mt_handled := mt_handled mt |}.

(** [crypto.createHash('sha256')] and [BSON.serialize] *)
Variable sha256 : list Byte.byte -> list Byte.byte.
Variable BSON_serialize : mitem M B -> list Byte.byte.
(** [require('./invalid_local_header')]: the error text, if any. *)
Variable invalidLocalHeader : header -> option string.
(** [this._transform], [this._mergeHandler], [this._vSize] and [merge]
    of [./merge], given what its two streams yield. *)
Variable _transform : mitem M B -> result string (option (mitem M B)).
Variable _mergeHandler :
  mitem M B -> option (mitem M B) -> merge_tree -> result mt_error merge_tree.
Variable _vSize : nat.
Variable merge :
  list (mitem M B) -> list (mitem M B) -> mitem M B -> mitem M B -> merge_outcome M B.

(** [MergeTree.versionContent(item, vSize)]; a missing [vSize] is 0.
    [buf.toString('base64', 0, vSize)] reads up to the whole number of
    bytes below [vSize]. *)
Definition versionContent (item : mitem M B) (vSize : nat) : result mt_error string :=
  vSize ←
    (if bool_decide (vSize ≠ 0) then Ok vSize
     else match h_pa (item_h item) with
          | None => Err (JsTypeError "Cannot read property '0' of undefined")
          | Some [] => Err (JsTypeError "Cannot read property 'length' of undefined")
          | Some (p :: _) =>
              if bool_decide (String.length p * 6 < 8) then Err VersionTooSmall
              else Ok (String.length p * 6 / 8)
          end);
  Ok (base64 (take vSize (sha256 (BSON_serialize item)))).

(** [that._transform(item, function(err, nitem) { ... })] *)
Definition transform (item : mitem M B) : result mt_error (option (mitem M B)) :=
  match _transform item with
  | Ok nitem => Ok nitem
  | Err msg => Err (TransformError msg)
  end.

(** One item of the iteration in [_copyTo]: the tree, and whether to go
    on. *)
Definition copyTo_item (first last : option string) (excludeFirst excludeLast : bool)
    (isFirst : bool) (item : mitem M B) (dtree : tree M B)
    : result mt_error (tree M B * bool) :=
  if isFirst && bool_decide (first = Some (h_v (item_h item))) && excludeFirst
  then Ok (dtree, true)
  else if bool_decide (last = Some (h_v (item_h item))) && excludeLast
  then Ok (dtree, false)
  else
    nitem ← transform item;
    match nitem with
    | None => Ok (dtree, true)
    | Some nitem =>
        dtree ← Tree_write nitem dtree;
        Ok (dtree, negb (bool_decide (last = Some (h_v (item_h item)))))
    end.

Fixpoint copyTo_loop (first last : option string) (excludeFirst excludeLast : bool)
    (isFirst : bool) (items : list (mitem M B)) (dtree : tree M B)
    : result mt_error (tree M B) :=
  match items with
  | [] => Ok dtree
  | item :: items =>
      '(dtree, more) ← copyTo_item first last excludeFirst excludeLast isFirst item dtree;
      if (more : bool)
      then copyTo_loop first last excludeFirst excludeLast false items dtree
      else Ok dtree
  end.

(** [MergeTree._copyTo(stree, dtree, opts, cb)]; an absent or empty
    [opts.first] or [opts.last] is [None]. *)
Definition _copyTo (stree : option (tree M B)) (dtree : tree M B)
    (first last : option string) (excludeFirst excludeLast : bool)
    : result mt_error (tree M B) :=
  match stree with
  | None => Err (JsTypeError "stree must be an object")
  | Some stree =>
      copyTo_loop first last excludeFirst excludeLast true
        (Tree_iterateInsertionOrder None first None false false stree) dtree
  end.

Definition truthy (s : string) : option string :=
  if bool_decide (s = "") then None else Some s.

(** Moving one item from stage to local, in the iterator of
    [createLocalWriteStream]; [v] is the version that is confirmed. *)
Definition promote (v : string) (mt : merge_tree) (stageItem : mitem M B)
    : result mt_error merge_tree :=
  local ←
    (if bool_decide (h_pe (item_h stageItem) ≠ "") then
       (* copy from perspective up to this item from stage *)
       let last := Tree_lastByPerspective (h_pe (item_h stageItem)) (mt_local mt) in
       let first := last ≫= truthy in
       _copyTo (snd <$> List.find (fun p => bool_decide (p.1 = h_pe (item_h stageItem)))
                          (mt_pe mt))
         (mt_local mt) first (truthy v) (bool_decide (first ≠ None)) true
     else Ok (mt_local mt));
  local ← Tree_write stageItem local;
  Ok (with_stage (Tree_del stageItem (mt_stage mt)) (with_local local mt)).

Fixpoint promote_loop (v : string) (items : list (mitem M B)) (mt : merge_tree)
    : result mt_error merge_tree :=
  match items with
  | [] => Ok mt
  | stageItem :: items => mt ← promote v mt stageItem; promote_loop v items mt
  end.

(** Whether the local write confirms an item in stage:
    [exists && isEqual(exists.b, item.b)]. *)
Definition confirms (item : mitem M B) (mt : merge_tree) : option (mitem M B) :=
  match Tree_getByVersion (h_v (item_h item)) (mt_stage mt) with
  | Some ex => if bool_decide (item_b ex = item_b item) then Some ex else None
  | None => None
  end.

(** The transform function of [createLocalWriteStream()] on one item. *)
Definition createLocalWriteStream (item : mitem M B) (mt : merge_tree)
    : result mt_error merge_tree :=
  match invalidLocalHeader (item_h item) with
  | Some error => Err (InvalidLocalHeader error)
  | None =>
      if bool_decide (h_pa (item_h item) ≠ None) then Err UnexpectedParent
      else
        match confirms item mt with
        | Some ex =>
            (* ack, move everything up to this item to the local tree *)
            promote_loop (h_v (item_h ex))
              (Tree_iterateInsertionOrder (Some (h_id (item_h ex)))
                 None (Some (h_v (item_h ex))) false false (mt_stage mt))
              mt
        | None =>
            (* determine parent by last non-deleted and non-conflicting head in local *)
            let heads :=
              map (fun head => h_v (item_h head))
                (Tree_getHeads (h_id (item_h item)) true true (mt_local mt)) in
            if bool_decide (1 < length heads) then Err MoreThanOneLocalHead
            else
              v ← (if bool_decide (h_v (item_h item) ≠ "") then Ok (h_v (item_h item))
                   else versionContent item _vSize);
              let newItem :=
                {| item_h := {| h_id := h_id (item_h item); h_v := v;
                                h_pa := Some heads; h_pe := "";
                                h_d := h_d (item_h item); h_c := false; h_i := 0 |};
                   item_m := item_m item; item_b := item_b item |} in
              local ← Tree_write newItem (mt_local mt);
              Ok (with_local local mt)
        end
  end.


(** [async.eachSeries(arr, iterator, cb)] over a state. *)
Fixpoint eachSeries {A S : Type} (iterator : A -> S -> result mt_error S)
    (arr : list A) (st : S) : result mt_error S :=
  match arr with
  | [] => Ok st
  | x :: arr => st ← iterator x st; eachSeries iterator arr st
  end.

(** Modelled from the spec: [createReadStream({id, reverse: true})]
    streams the items of the id, last written first. *)
Definition Tree_createReadStream (id : string) (t : tree M B) : list (mitem M B) :=
  rev (List.filter (fun x => bool_decide (h_id (item_h x) = id)) (t_items t)).

(** [that._mergeHandler(merged, lhead, next)], recording the call. *)
Definition callMergeHandler (merged : mitem M B) (lhead : option (mitem M B))
    (mt : merge_tree) : result mt_error merge_tree :=
  _mergeHandler merged lhead
    {| mt_local := mt_local mt; mt_stage := mt_stage mt; mt_pe := mt_pe mt;
       mt_handled := mt_handled mt ++ [(merged, lhead)] |}.

Definition stage_write (item : mitem M B) (mt : merge_tree) : result mt_error merge_tree :=
  stage ← Tree_write item (mt_stage mt); Ok (with_stage stage mt).

(** [mergeNewHeadWithStage(newHead)] in the iterator of [mergeWithLocal]. *)
Definition mergeNewHeadWithStage (stree : tree M B) (dhead : option (mitem M B))
    (newHead : option (mitem M B)) (mt : merge_tree) : result mt_error merge_tree :=
  match newHead with
  | None => Err (JsTypeError "Cannot read property 'h' of null")
  | Some newHead =>
      match Tree_getHeads (h_id (item_h newHead)) true true (mt_stage mt) with
      | _ :: _ :: _ => Err MoreThanOneStageHead
      | [] =>
          (* no previous head in stage *)
          mt ← stage_write newHead mt;
          callMergeHandler newHead dhead mt
      | [head0] =>
          (* merge with previous head *)
          let s := [head0] ++ Tree_createReadStream (h_id (item_h newHead)) stree in
          match merge s s newHead head0 with
          | MergeFailed _ =>
              (* write new head with conflict flag set, don't call merge handler *)
              stage_write (with_c newHead) mt
          | MergeDone merged _ =>
              if bool_decide (h_v (item_h merged) ≠ "")
                 && bool_decide (h_v (item_h merged) = h_v (item_h newHead))
              then
                mt ← stage_write newHead mt;
                callMergeHandler newHead (Some head0) mt
              else
                mt ← stage_write newHead mt;
                v ← versionContent merged 0;
                mt ← stage_write (with_hv v merged) mt;
                callMergeHandler (with_hv v merged) (Some head0) mt
          end
      end
  end.

(** The iterator [mergeWithLocal] passes to [_mergeTrees]. *)
Definition mergeWithLocal_iterator (stree : tree M B) (smerge : smerge_arg M B)
    (dmerge : option (mitem M B)) (shead : mitem M B) (dhead : option (mitem M B))
    (mt : merge_tree) : result mt_error merge_tree :=
  if bool_decide (h_pe (item_h shead) ≠ t_name stree) then Err PerspectiveMismatch
  else
    nitem ← transform shead;
    match smerge with
    | ConflictingAttrs _ =>
        (* save shead in stage with conflict flag set *)
        match nitem with
        | None => Err (JsTypeError "Cannot read property 'h' of null")
        | Some shead => stage_write (with_c shead) mt
        end
    | NoMerge => mergeNewHeadWithStage stree dhead nitem mt
    | MergedItem smerge =>
        nitem ← transform smerge;
        mergeNewHeadWithStage stree dhead nitem mt
    end.

(** [MergeTree._iterateMissing(stree, dtree, iterator, cb)]: the items
    the iterator is called with. *)
Definition _iterateMissing (stree dtree : tree M B) : list (mitem M B) :=
  let v := Tree_lastByPerspective (t_name stree) dtree ≫= truthy in
  Tree_iterateInsertionOrder None v None (bool_decide (v ≠ None)) false stree.

Section MergeTrees.
(** The state the iterator works on, and the destination tree in it. *)
Variable S : Type.
Variable dtree_of : S -> tree M B.
Variable iterator :
  smerge_arg M B -> option (mitem M B) -> mitem M B -> option (mitem M B) ->
  S -> result mt_error S.

(** The merge of a source head with one head of the destination. *)
Definition mergeTrees_dhead (stree : tree M B) (shead dhead : mitem M B) (st : S)
    : result mt_error S :=
  let sX := Tree_createReadStream (h_id (item_h shead)) stree in
  let sY := Tree_createReadStream (h_id (item_h dhead)) (dtree_of st) in
  match merge sX sY shead dhead with
  | MergeFailed conflict =>
      (* signal merge conflict *)
      iterator (match conflict with
                | Some attrs => ConflictingAttrs attrs
                | None => NoMerge
                end) None shead (Some dhead) st
  | MergeDone smerge dmerge =>
      if bool_decide (h_v (item_h dmerge) = "") then
        (* merge, create a version based on content *)
        version ← versionContent smerge 0;
        iterator (MergedItem (with_hv version smerge)) (Some (with_hv version dmerge))
          shead (Some dhead) st
      else if bool_decide (h_i (item_h smerge) = 0) || bool_decide (h_i (item_h dmerge) = 0)
      then
        if bool_decide (h_v (item_h smerge) ≠ h_v (item_h dmerge)) then Err VersionMismatch
        else iterator (MergedItem smerge) (Some dmerge) shead (Some dhead) st
      else iterator NoMerge None shead (Some dhead) st
  end.

Definition mergeTrees_shead (stree : tree M B) (shead : mitem M B) (st : S)
    : result mt_error S :=
  match Tree_getHeads (h_id (item_h shead)) false false (dtree_of st) with
  | [] => iterator NoMerge None shead None st
  | dheads => eachSeries (mergeTrees_dhead stree shead) dheads st
  end.

Definition mergeTrees_sitem (stree : tree M B) (sitem : mitem M B) (st : S)
    : result mt_error S :=
  eachSeries
    (fun shead st =>
       if bool_decide (h_v (item_h shead) ≠ h_v (item_h sitem)) then Ok st
       else mergeTrees_shead stree shead st)
    (Tree_getHeads (h_id (item_h sitem)) false false stree) st.

(** [MergeTree._mergeTrees(stree, dtree, iterator, cb)] *)
Definition _mergeTrees (stree : tree M B) (st : S) : result mt_error S :=
  eachSeries (mergeTrees_sitem stree) (_iterateMissing stree (dtree_of st)) st.

End MergeTrees.

(** [MergeTree.prototype.mergeWithLocal(stree, cb)] *)
Definition mergeWithLocal (stree : tree M B) (mt : merge_tree)
    : result mt_error merge_tree :=
  _mergeTrees merge_tree mt_local (mergeWithLocal_iterator stree) stree mt.

End MergeTree.
Arguments merge_tree M B : clear implicits.


(** Items and trees for the examples: versions of document "foo" that
    came from perspective "R", a digest and a serialization that stand
    for SHA-256 and BSON, the identity transform, a merge handler that
    leaves the confirmation for later, and merges that fast-forward or
    conflict. *)
Definition remote_item (v : string) (pa : list string) : mitem unit string :=
  {| item_h := {| h_id := "foo"; h_v := v; h_pa := Some pa; h_pe := "R";
                  h_d := false; h_c := false; h_i := 0 |};
     item_m := None; item_b := Some (String.append "body of " v) |}.

Definition local_item (v : string) (pa : list string) : mitem unit string :=
  {| item_h := {| h_id := "foo"; h_v := v; h_pa := Some pa; h_pe := "";
                  h_d := false; h_c := false; h_i := 0 |};
     item_m := None; item_b := Some (String.append "body of " v) |}.

Definition tree_of (name : string) (skipValidation : bool)
    (items : list (mitem unit string)) : tree unit string :=
  {| t_name := name; t_skipValidation := skipValidation;
     t_items := imap (fun i item => with_i (S i) item) items |}.

Definition sample_digest (bs : list Byte.byte) : list Byte.byte := rev bs.

Definition sample_bson (item : mitem unit string) : list Byte.byte :=
  match Byte.of_nat (String.length (h_pe (item_h item))),
        Byte.of_nat (String.length (h_v (item_h item))) with
  | Some pe, Some v => [x01; x02; x03; x04; x05; x06; pe; v]
  | _, _ => []
  end.

Definition valid_header (hd : header) : option string := None.

Definition keep (item : mitem unit string)
    : result string (option (mitem unit string)) := Ok (Some item).

Definition later (merged : mitem unit string) (lhead : option (mitem unit string))
    (mt : merge_tree unit string) : result mt_error (merge_tree unit string) := Ok mt.

Definition fast_forward (sX sY : list (mitem unit string))
    (rootX rootY : mitem unit string) : merge_outcome unit string :=
  MergeDone rootX rootX.

Definition conflicting (sX sY : list (mitem unit string))
    (rootX rootY : mitem unit string) : merge_outcome unit string :=
  MergeFailed (Some ["b"]).

Definition new_merge (sX sY : list (mitem unit string))
    (rootX rootY : mitem unit string) : merge_outcome unit string :=
  let merged pe :=
    {| item_h := {| h_id := h_id (item_h rootX); h_v := "";
                    h_pa := Some [h_v (item_h rootX); h_v (item_h rootY)];
                    h_pe := pe; h_d := false; h_c := false; h_i := 0 |};
       item_m := None; item_b := Some "merged" |} in
  MergeDone (merged (h_pe (item_h rootX))) (merged (h_pe (item_h rootY))).

(** What [new_merge] makes of the heads XXXXXXXX and LLLLLLLL, for the
    perspective [pe]. *)
Definition merged_XL (pe : string) : mitem unit string :=
  {| item_h := {| h_id := "foo"; h_v := "";
                  h_pa := Some ["XXXXXXXX"; "LLLLLLLL"]; h_pe := pe;
                  h_d := false; h_c := false; h_i := 0 |};
     item_m := None; item_b := Some "merged" |}.

Definition versions (t : tree unit string) : list string :=
  map (fun x => h_v (item_h x)) (t_items t).

(** A merge tree with one remote perspective "R". *)
Definition merge_tree_of (local stage remote : list (mitem unit string))
    (handled : list (mitem unit string * option (mitem unit string)))
    : merge_tree unit string :=
  {| mt_local := tree_of "_local" false local;
     mt_stage := tree_of "_stage" true stage;
     mt_pe := [("R", tree_of "R" false remote)];
     mt_handled := handled |}.

(** X, Y{X} and Z{Y} came in from "R" and are staged; the merge handler
    was called with each of them and none is confirmed. *)
Definition staged_XYZ : merge_tree unit string :=
  let X := remote_item "X" [] in
  let Y := remote_item "Y" ["X"] in
  let Z := remote_item "Z" ["Y"] in
  merge_tree_of [] [X; Y; Z] [X; Y; Z]
    [(with_i 1 X, None); (with_i 2 Y, Some (with_i 1 X)); (with_i 3 Z, Some (with_i 2 Y))].

(** The write to "R" of one item, followed by [mergeWithLocal]. *)
Definition remote_write (item : mitem unit string) (mt : merge_tree unit string)
    : result mt_error (merge_tree unit string) :=
  match mt_pe mt with
  | [(name, t)] =>
      t ← Tree_write item t;
      mergeWithLocal sample_digest sample_bson keep later fast_forward t
        {| mt_local := mt_local mt; mt_stage := mt_stage mt;
           mt_pe := [(name, t)]; mt_handled := mt_handled mt |}
  | _ => Ok mt
  end.

(** The local write that confirms Y. *)
Definition confirm_Y : mitem unit string :=
  {| item_h := {| h_id := "foo"; h_v := "Y"; h_pa := None; h_pe := "";
                  h_d := false; h_c := false; h_i := 0 |};
     item_m := None; item_b := Some "body of Y" |}.

(** A merge of the writer pipeline that gives a new item, as [_merge]
    builds it: without version, with the versions of both items as
    parents. *)
Definition merge_to_new (x y : vitem string) : result error (list (vitem string)) :=
  Ok [{| _id := {| _co := "c"; _id_id := "foo"; _v := ""; _pe := "I";
                   _pa := [_v (_id x); _v (_id y)]; _lo := true; _i := 0%Z;
                   _d := false |};
         _m3 := None; attrs := [] |}].

Definition ff_bytes (n : nat) : list Byte.byte := [xff; xff; xff; xff; xff; xff].

(** ** The merge, attribute by attribute

    The rules [_threeWayMerge] follows, read per attribute: what the
    loop over the deltas of B tests, and what comes out for one
    attribute when both sides are compared with one lca. *)

Section MergeRule.
Context {V : Type}.
Variable JSON_stringify : V -> option string.

(** The tests of [Object.keys(diffB).forEach] under which the key is
    pushed on [conflicts]. *)
Definition delta_conflicts (itemA itemB : Obj.t V) (diffA : Obj.t delta)
    (k : string) (dB : delta) : bool :=
  (Obj.has k diffA && bool_decide (Obj.get k diffA ≠ Some dB))
  || (negb (bool_decide (dB = Removed))
      && ((bool_decide (Obj.get k diffA = Some Changed)
           && json_neq JSON_stringify (Obj.get k itemA) (Obj.get k itemB))
          || (bool_decide (Obj.get k diffA = Some Added)
              && json_neq JSON_stringify (Obj.get k itemA) (Obj.get k itemB))
          || (bool_decide (dB = Added) && Obj.has k itemA
              && json_neq JSON_stringify (Obj.get k itemA) (Obj.get k itemB)))).

(** Both sides changed [k] with respect to the lca, in different ways. *)
Definition conflict_at (itemA itemB lca : Obj.t V) (k : string) : bool :=
  match delta_of JSON_stringify itemA lca k, delta_of JSON_stringify itemB lca k with
  | Some dA, Some dB =>
      negb (bool_decide (dA = dB))
      || (negb (bool_decide (dB = Removed))
          && json_neq JSON_stringify (Obj.get k itemA) (Obj.get k itemB))
  | _, _ => false
  end.

(** The attribute [k] of the merge: what B made of it if B changed it,
    else what A has. *)
Definition merged_at (itemA itemB lca : Obj.t V) (k : string) : option V :=
  match delta_of JSON_stringify itemB lca k with
  | Some Removed => None
  | Some _ => Obj.get k itemB
  | None => Obj.get k itemA
  end.

End MergeRule.

(** Two more documents for the examples: a changed and c added. *)
Definition doc_a_changed_c_added : Obj.t string :=
  [("_id", "foo"); ("a", "5"); ("b", "2"); ("c", "9")].

(** What [_checkAncestry] may do to an item of the batch [all]: nothing,
    or give an item without parents the version of a deleted item of
    its id as parent. *)
Definition reconnected_in {V : Type} (all : list (vitem V)) (out item : vitem V)
    : Prop :=
  out = item \/
  (_pa (_id item) = [] /\
   exists prev, prev ∈ all /\ _id_id (_id prev) = _id_id (_id item) /\
                _d (_id prev) = true /\ out = with_pa [_v (_id prev)] item).

(** What [_mergeNewHeads] may change in a head it was given: the parents
    of a head that came without, and the conflict flag. *)
Definition handed_on {V : Type} (seen head : vitem V) : Prop :=
  attrs seen = attrs head /\ same_node seen head /\
  _pe (_id seen) = _pe (_id head) /\
  (_pa (_id head) <> [] -> _pa (_id seen) = _pa (_id head)).

(** What is said of the items the reader pushes out. *)
Section ReaderOutput.
Context {V : Type}.
Variable offset : string.
Variable matches : vitem V -> bool.
Variable hooks : list (hook V).

(** The items from the first one with version [offset] on. *)
Fixpoint from_offset (source : list (vitem V)) : list (vitem V) :=
  match source with
  | [] => []
  | item :: rest =>
      if bool_decide (_v (_id item) = offset) then item :: rest
      else from_offset rest
  end.

(** The items the reader looks at to push them out: all of them without
    an offset. *)
Definition since_offset (source : list (vitem V)) : list (vitem V) :=
  if bool_decide (offset = "") then source else from_offset source.

(** The item passes the filter and the hooks. *)
Definition passes (item : vitem V) : bool :=
  matches item &&
  match runHooks hooks item with Ok (Some _) => true | _ => false end.

(** [out] is what the hooks made of [item], with some list of parents
    and without perspective and local state. *)
Definition pushed_for (out item : vitem V) : Prop :=
  exists r pa,
    runHooks hooks item = Ok (Some r) /\
    strip (with_pa pa (afterItem r)) = Ok out.

End ReaderOutput.

(** ** The queues of the writer ([setRemotes], [addRemote],
    [removeRemote], [saveRemoteItem], [processQueues])

    [_remoteQueues] is an object keyed by the name of the remote, here
    the map of its own keys; where the source looks up a name that may
    have no queue, the members every object inherits are considered.
    A queue entry is [{ item, cb }]: of the callbacks the calls made to
    them are kept, oldest first.  One call runs at a time. *)

(** How [saveRemoteItem] ends: [cb(null)], [cb(err)], another try after
    [_queueLimitRetryTimeout], or an exception. *)
Inductive saved :=
| Queued
| Refused (e : error)
| Postponed
| Thrown (e : error).

(** [o[k].length] for a member [k] that [o] inherits. *)
Definition inherited_length (k : string) : option nat :=
  match Obj.get k Object_prototype with
  | Some (Some n) => Some n
  | _ => None
  end.

Section Queues.
Context {V D : Type}.
Variable localPerspective : string.
Variable collectionName : string.
Variable _queueLimit : nat.
Variable _processBatchSize : nat.
(** [_ensureAllInDAG(items, cb)] on the database: the database it
    leaves and the error it calls back with, if any. *)
Variable _ensureAllInDAG : list (vitem V) -> D -> D * option error.
(** [_applyOplogItem(item, cb)] on the database: the database it leaves
    and what it calls back with. *)
Variable _applyOplogItem : oplog_item V -> D -> D * result error (vitem V).

(** An entry of [_oplogBuffer], [{ item, cb, done }]. *)
Record oplog_entry := {
  oe_item : oplog_item V;
  oe_done : bool
}.

Record writer := {
  _remotes : list string;
  _remoteQueues : gmap string (list (vitem V));
  _oplogBuffer : list oplog_entry;
  (** the database *)
  store : D;
  (** the calls [item.cb(err)] for remote items *)
  remote_cbs : list (vitem V * option error);
  (** the calls [item.cb(err, newItem)] for oplog items *)
  oplog_cbs : list (oplog_item V * result error (vitem V))
}.

Definition with_remotes (remotes : list string)
    (queues : gmap string (list (vitem V))) (w : writer) : writer :=
  {| _remotes := remotes; _remoteQueues := queues;
     _oplogBuffer := _oplogBuffer w; store := store w;
     remote_cbs := remote_cbs w; oplog_cbs := oplog_cbs w |}.

(** [VersionedCollection.prototype.setRemotes] *)
Definition setRemotes (remotes : list string) (w : writer) : writer :=
  with_remotes remotes
    (fold_left (fun queues remote => <[remote := []]> queues) remotes ∅) w.

(** [VersionedCollection.prototype.addRemote] *)
Definition addRemote (remote : string) (w : writer) : writer :=
  with_remotes (_remotes w ++ [remote]) (<[remote := []]> (_remoteQueues w)) w.

(** [this._remotes.forEach(function(name, i) { if (remote === name) {
    that._remotes.splice(i, 1); } })]: [forEach] visits the indices
    below the length the array had at the start, as long as the array
    still has them; [n] indices are left to visit, [i] is the next. *)
Fixpoint removeRemote_loop (remote : string) (n i : nat) (remotes : list string)
    : list string :=
  match n with
  | 0 => remotes
  | S n =>
      match remotes !! i with
      | Some name =>
          removeRemote_loop remote n (S i)
            (if bool_decide (remote = name) then delete i remotes else remotes)
      | None => remotes
      end
  end.

(** [VersionedCollection.prototype.removeRemote] *)
Definition removeRemote (remote : string) (w : writer) : writer :=
  with_remotes (removeRemote_loop remote (length (_remotes w)) 0 (_remotes w))
    (delete remote (_remoteQueues w)) w.

(** [VersionedCollection.invalidItem] on an item that has the types of
    [vitem]: [_id] is an object, [_v] and [_pe] are strings and [_pa] is
    an array, so that a missing [_id._id] is all that is left to find. *)
Definition invalidItem (item : vitem V) : string :=
  if bool_decide (_id_id (_id item) = "") then "missing item._id._id" else "".

(** The item as [saveRemoteItem] queues it: without [_id._lo], with the
    local collection name, not acknowledged and without oplog pointer. *)
Definition as_queued (item : vitem V) : vitem V :=
  {| _id := {| _co := collectionName; _id_id := _id_id (_id item);
               _v := _v (_id item); _pe := _pe (_id item);
               _pa := _pa (_id item); _lo := false; _i := _i (_id item);
               _d := _d (_id item) |};
     _m3 := Some {| _ack := false; _op := (0, 0)%Z;
                    _c := match _m3 item with
                          | Some m => _c m
                          | None => false
                          end |};
     attrs := attrs item |}.

(** [VersionedCollection.prototype.saveRemoteItem].  For a perspective
    without a queue whose name is that of a member every object
    inherits, [queue] is that member: no remote is added, and
    [queue.push] is no function. *)
Definition saveRemoteItem (item : vitem V) (w : writer) : writer * saved :=
  let msg := invalidItem item in
  if negb (bool_decide (msg = "")) then (w, Refused (OtherError msg))
  else if bool_decide (_pe (_id item) = localPerspective) then
    (w, Refused (OtherError "remote must not equal local perspective"))
  else
    let pe := _pe (_id item) in
    (* var queue = that._remoteQueues[item._id._pe] *)
    match _remoteQueues w !! pe, inherited pe with
    | None, true =>
        match inherited_length pe with
        | Some n =>
            if bool_decide (_queueLimit <= n) then (w, Postponed)
            else (w, Thrown (TypeError "queue.push is not a function"))
        | None =>
            (* queue.length is undefined *)
            (w, Thrown (TypeError "queue.push is not a function"))
        end
    | found, _ =>
        let w :=
          match found with
          | Some _ => w
          | None => (* add new remote *) addRemote pe w
          end in
        let queue := default [] (_remoteQueues w !! pe) in
        if bool_decide (_queueLimit <= length queue) then
          (* queue full, wait and retry *)
          (w, Postponed)
        else
          (with_remotes (_remotes w)
             (<[pe := queue ++ [as_queued item]]> (_remoteQueues w)) w,
           Queued)
    end.

(** One remote of [_processRemoteQueues]: at most [_processBatchSize]
    items are taken from the front of its queue and handed to
    [_ensureAllInDAG]; each gets its callback. *)
Definition processRemoteQueue (remote : string) (w : writer)
    : result error (writer * option error) :=
  match _remoteQueues w !! remote with
  | None => Err (TypeError "Cannot read property 'length' of undefined")
  | Some queue =>
      let items := take _processBatchSize queue in
      let '(db, err) := _ensureAllInDAG items (store w) in
      Ok ({| _remotes := _remotes w;
             _remoteQueues :=
               <[remote := drop _processBatchSize queue]> (_remoteQueues w);
             _oplogBuffer := _oplogBuffer w;
             store := db;
             remote_cbs := remote_cbs w ++ map (fun item => (item, err)) items;
             oplog_cbs := oplog_cbs w |}, err)
  end.

(** [async.eachSeries(this._remotes, ...)]: the result has the remote
    that was the last one tried when an error ended the series. *)
Fixpoint processRemoteQueues_loop (remotes : list string) (w : writer)
    : result error (writer * option (string * error)) :=
  match remotes with
  | [] => Ok (w, None)
  | remote :: remotes =>
      '(w, err) ← processRemoteQueue remote w;
      match err with
      | Some e => Ok (w, Some (remote, e))
      | None => processRemoteQueues_loop remotes w
      end
  end.

(** [VersionedCollection.prototype._processRemoteQueues] *)
Definition _processRemoteQueues (w : writer)
    : result error (writer * option error) :=
  '(w, err) ← processRemoteQueues_loop (_remotes w) w;
  match err with
  | Some (lastRemote, e) =>
      (* error: remove remote *)
      Ok (removeRemote lastRemote w, Some e)
  | None => Ok (w, None)
  end.

(** The series of [_processOplogQueue] over the buffer: the entries as
    it leaves them, the database, the calls made and the error that
    ended it. *)
Fixpoint processOplogQueue_loop (buffer : list oplog_entry) (db : D)
    (cbs : list (oplog_item V * result error (vitem V)))
    : list oplog_entry * D * list (oplog_item V * result error (vitem V))
      * option error :=
  match buffer with
  | [] => ([], db, cbs, None)
  | item :: buffer =>
      if oe_done item then
        let '(buffer, db, cbs, err) := processOplogQueue_loop buffer db cbs in
        (item :: buffer, db, cbs, err)
      else
        let '(db, r) := _applyOplogItem (oe_item item) db in
        let cbs := cbs ++ [(oe_item item, r)] in
        match r with
        | Err e => (item :: buffer, db, cbs, Some e)
        | Ok _ =>
            let '(buffer, db, cbs, err) := processOplogQueue_loop buffer db cbs in
            ({| oe_item := oe_item item; oe_done := true |} :: buffer, db, cbs, err)
        end
  end.

(** [VersionedCollection.prototype._processOplogQueue] *)
Definition _processOplogQueue (w : writer) : writer * option error :=
  let '(buffer, db, cbs, err) :=
    processOplogQueue_loop (_oplogBuffer w) (store w) (oplog_cbs w) in
  ({| _remotes := _remotes w;
      _remoteQueues := _remoteQueues w;
      _oplogBuffer := match err with None => [] | Some _ => buffer end;
      store := db;
      remote_cbs := remote_cbs w;
      oplog_cbs := cbs |}, err).

(** [VersionedCollection.prototype.processQueues], for a writer that is
    not processing its queues already. *)
Definition processQueues (w : writer) : result error (writer * option error) :=
  let newRemoteItems :=
    existsb (fun q : string * list (vitem V) => negb (bool_decide (q.2 = [])))
      (map_to_list (_remoteQueues w)) in
  if negb newRemoteItems && bool_decide (_oplogBuffer w = []) then Ok (w, None)
  else
    let '(w, err) := _processOplogQueue w in
    match err with
    | Some e => Ok (w, Some e)
    | None => _processRemoteQueues w
    end.

(** Every remote has a queue, every queue a remote, and no remote is
    there twice. *)
Definition queues_wf (w : writer) : Prop :=
  NoDup (_remotes w) /\
  forall remote, remote ∈ _remotes w <-> is_Some (_remoteQueues w !! remote).

(** The oplog items of the buffer that are not done, and the oplog
    items that were applied with success. *)
Definition pending (buffer : list oplog_entry) : list (oplog_item V) :=
  map oe_item (filter (fun item => oe_done item = false) buffer).

Definition applied (cbs : list (oplog_item V * result error (vitem V)))
    : list (oplog_item V) :=
  map fst (filter (fun c => is_Ok c.2 = true) cbs).

End Queues.

(** Writers for the examples: the database is the list of the items
    that were handed to it. *)
Definition writer_of {V D : Type} (queues : list (string * list (vitem V)))
    (buffer : list (oplog_entry (V := V))) (db : D) : writer :=
  {| _remotes := queues.*1; _remoteQueues := list_to_map queues;
     _oplogBuffer := buffer; store := db; remote_cbs := []; oplog_cbs := [] |}.

(** An [_ensureAllInDAG] that refuses every batch with an item of
    perspective [pe]. *)
Definition ensure_unless (pe : string) (items db : list (vitem string))
    : list (vitem string) * option error :=
  if existsb (fun item => bool_decide (_pe (_id item) = pe)) items
  then (db, Some RootPreceded)
  else (db ++ items, None).

Definition two_remotes : writer (V := string) (D := list (vitem string)) :=
  writer_of
    [("A", [node "A" "X" [] false 0; node "A" "Y" ["X"] false 0]);
     ("B", [node "B" "X" [] false 0; node "B" "Z" ["X"] false 0]);
     ("C", [node "C" "X" [] false 0])]
    [] [].

(** An oplog buffer with one item that is done and two that are not. *)
Definition oplog_of (operator id : string) : oplog_item string :=
  {| op := operator; ts := (0, 0)%Z; o_id := id; o_attrs := []; o2_id := "" |}.

Definition three_entries : list (oplog_entry (V := string)) :=
  [{| oe_item := oplog_of "i" "foo"; oe_done := true |};
   {| oe_item := oplog_of "i" "bar"; oe_done := false |};
   {| oe_item := oplog_of "x" "baz"; oe_done := false |}].

(** An [_applyOplogItem] that knows the operator "i" only. *)
Definition apply_inserts (item : oplog_item string) (db : list (vitem string))
    : list (vitem string) * result error (vitem string) :=
  if bool_decide (op item = "i")
  then (db ++ [node "_local" (o_id item) [] false 0],
        Ok (node "_local" (o_id item) [] false 0))
  else (db, Err (OtherError "unsupported operator")).

(** ** Writing a DAG item back to the collection
    ([_syncDAGItemWithCollection]) *)

(** What is done to the collection: [remove({ _id: id })] or
    [update({ _id: id }, doc, { upsert: true })], [doc] without its
    [_id]. *)
Inductive collection_write (V : Type) :=
| Remove (id : string)
| Update (id : string) (doc : Obj.t V).
Arguments Remove {V} id.
Arguments Update {V} id doc.

Section SyncCollection.
Context {V : Type}.
Variable versionKey : string.
(** A version string as an attribute value. *)
Variable of_version : string -> V.

Definition _syncDAGItemWithCollection (item : vitem V)
    : result error (collection_write V) :=
  if bool_decide (_id_id (_id item) = "") then
    Err (OtherError "missing item._id._id")
  else if bool_decide (_v (_id item) = "") then
    Err (OtherError "missing item._id._v")
  else if _d (_id item) then
    (* delete from collection *)
    Ok (Remove (_id_id (_id item)))
  else
    (* add to collection *)
    Ok (Update (_id_id (_id item))
          (Obj.set versionKey (of_version (_v (_id item))) (attrs item))).

End SyncCollection.

(** The oplog item of the update of document [id] to [doc]. *)
Definition full_update {V : Type} (operator : string) (t : Timestamp)
    (id : string) (doc : Obj.t V) : oplog_item V :=
  {| op := operator; ts := t; o_id := id; o_attrs := doc; o2_id := id |}.

(** ** The open heads of every document ([allHeads]) *)

Section AllHeads.
Context {V : Type}.
Variable localPerspective : string.
(** The snapshot collection, in insertion order. *)
Variable snapshot : list (vitem V).

(** Insertion sort, smallest [_i] first; items with the same [_i] stay
    in the order they have. *)
Fixpoint insert_by_i_asc (item : vitem V) (sorted : list (vitem V))
    : list (vitem V) :=
  match sorted with
  | [] => [item]
  | x :: sorted' =>
      if (_i (_id item) <=? _i (_id x))%Z then item :: sorted
      else x :: insert_by_i_asc item sorted'
  end.

Definition sort_i_asc (items : list (vitem V)) : list (vitem V) :=
  fold_right insert_by_i_asc [] items.

(** [find({ '_id._id': id, '_id._pe': localPerspective },
    { sort: { '_id._i': 1 } }).stream()] *)
Definition allHeads_stream (id : string) : list (vitem V) :=
  sort_i_asc
    (filter (fun item : vitem V => _id_id (_id item) = id
                                   /\ _pe (_id item) = localPerspective)
       snapshot).

(** [stream.on('data', ...)]: the parents of the item are no heads any
    more, the item is one. *)
Definition allHeads_data (parents : Obj.t bool) (item : vitem V) : Obj.t bool :=
  Obj.set (_v (_id item)) true
    (fold_left (fun parents pa =>
                  if from_option id false (Obj.get pa parents)
                  then Obj.del pa parents else parents)
       (_pa (_id item)) parents).

(** [stream.on('close', ...)] *)
Definition allHeads_close (parents : Obj.t bool) : result error (list string) :=
  let heads := Obj.keys parents in
  if bool_decide (length heads < 1) then Err (OtherError "no heads found")
  else Ok heads.

Definition allHeads_of (id : string) : result error (list string) :=
  allHeads_close (fold_left allHeads_data (allHeads_stream id) []).

(** [async.eachSeries(ids, ...)]: the calls of the iterator, and the
    error that ended the series. *)
Fixpoint allHeads_loop (ids : list string)
    : list (string * list string) * option error :=
  match ids with
  | [] => ([], None)
  | id :: ids =>
      match allHeads_of id with
      | Err e => ([], Some e)
      | Ok heads =>
          let '(calls, err) := allHeads_loop ids in
          ((id, heads) :: calls, err)
      end
  end.

(** [VersionedCollection.prototype.allHeads]; [distinct('_id._id')]
    gives every id of the collection once, in an order the driver does
    not define: here in the order of the last item of each id. *)
Definition allHeads : list (string * list string) * option error :=
  allHeads_loop (remove_dups (map (fun item => _id_id (_id item)) snapshot)).

(** Used to state what the heads are: a stream in the order of [_i],
    and a [parents] object that has [true] for each of its keys. *)
Fixpoint sorted_by_i (stream : list (vitem V)) : Prop :=
  match stream with
  | [] => True
  | x :: stream =>
      Forall (fun y => (_i (_id x) <= _i (_id y))%Z) stream /\ sorted_by_i stream
  end.

Definition all_true (parents : Obj.t bool) : Prop :=
  forall k, Obj.get k parents = None \/ Obj.get k parents = Some true.

End AllHeads.

(** A document that is known from the remote "R" only. *)
Definition remote_only : vitem string :=
  {| _id := {| _co := "c"; _id_id := "bar"; _v := "X"; _pe := "R"; _pa := [];
               _lo := false; _i := 9; _d := false |};
     _m3 := Some {| _ack := false; _op := (0, 0)%Z; _c := false |};
     attrs := [] |}.

(** What is said of the versions [_findLCAs] returns: [v] is reached
    from the versions [start] along the parent references of the items
    of document [id] in the collection. *)
Inductive reaches {V : Type} (snapshot : list (vitem V)) (id : string)
    (start : list string) : string -> Prop :=
| reaches_start v : v ∈ start -> reaches snapshot id start v
| reaches_parent v p item :
    reaches snapshot id start v ->
    item ∈ snapshot -> _id_id (_id item) = id -> _v (_id item) = v ->
    p ∈ _pa (_id item) ->
    reaches snapshot id start p.

(** [v] is the version of [item], one of its parents, or an ancestor of
    these by the items of the collection. *)
Definition descends_to {V : Type} (snapshot : list (vitem V)) (item : vitem V)
    (v : string) : Prop :=
  reaches snapshot (_id_id (_id item))
    (Obj.keys (initial_heads item) ++ _pa (_id item)) v.

(** ** Merging two versions ([VersionedCollection.prototype._merge])

    The result of a merge is [None] when the callback is never called,
    else what it is called with: the error, or the merged items and the
    perspectives.  An item is an object with the keys [_id], then its
    attributes, then [_m3]. *)

Section Merge.
Context {V : Type}.
Variable localPerspective : string.
Variable collectionName : string.
Variable JSON_stringify : V -> option string.
(** The id of a document as the value of the attribute [_id] of the
    documents that are merged, and read back from it. *)
Variable of_id : string -> V.
Variable as_id : V -> string.
(** [_sortByVersionAndPerspective(lcas)]: [Array.prototype.sort] with a
    comparator that returns a boolean; what the sort makes of that is
    up to the engine. *)
Variable _sortByVersionAndPerspective : list (vitem V) -> list (vitem V).
(** [this._snapshotCollection], in insertion order. *)
Variable snapshot : list (vitem V).

Definition merge_result : Type :=
  option (result error (list (vitem V) * list string)).

(** A shallow clone without [_m3]. *)
Definition without_m3 (item : vitem V) : vitem V :=
  {| _id := _id item; _m3 := None; attrs := attrs item |}.

(** The document after [item._id = item._id._id]: [_id] is the first
    key of a stored document, and is enumerated after the attributes
    that are array indices. *)
Definition plain (item : vitem V) : Obj.t V :=
  List.filter (fun kv => Obj.is_index kv.1) (attrs item)
  ++ ("_id", of_id (_id_id (_id item)))
     :: List.filter (fun kv => negb (Obj.is_index kv.1)) (attrs item).

(** A merged document under the [_id] it is given. *)
Definition under (id : envelope) (merge : Obj.t V) : vitem V :=
  {| _id := id; _m3 := None; attrs := Obj.del "_id" merge |}.

(** The new [_id] without [_v] of a genuine merge, before the parents
    are added. *)
Definition merge_envelope (merge : Obj.t V) (pe : string) (d : bool)
    (pa : list string) : envelope :=
  {| _co := collectionName;
     _id_id := from_option as_id "" (Obj.get "_id" merge);
     _v := ""; _pe := pe; _pa := pa; _lo := true; _i := 0; _d := d |}.

Definition with_pe (pe : string) (id : envelope) : envelope :=
  {| _co := _co id; _id_id := _id_id id; _v := _v id; _pe := pe;
     _pa := _pa id; _lo := _lo id; _i := _i id; _d := _d id |}.

Definition merge_conflict : merge_result := Some (Err MergeConflict).

(** [_threeWayMerge] throws inside [done], which a callback of the
    database driver runs: [cb] is never called. *)
Definition thrown : merge_result := None.

(** [effectiveNumberOfLCAs === 1] with one perspective. *)
Definition merge_one_perspective (objX objY lca : vitem V)
    (perspectives : list string) : merge_result :=
  let itemXid := _id objX in
  let itemYid := _id objY in
  if negb (bool_decide (_v itemXid = "")) && bool_decide (_v itemXid = _v itemYid)
  then Some (Ok ([objX], perspectives))
  else if negb (bool_decide (_v (_id lca) = ""))
          && bool_decide (_v (_id lca) = _v itemXid)
  then (* ff to original objY *) Some (Ok ([objY], perspectives))
  else if negb (bool_decide (_v (_id lca) = ""))
          && bool_decide (_v (_id lca) = _v itemYid)
  then (* ff to original objX *) Some (Ok ([objX], perspectives))
  else
    match _threeWayMerge JSON_stringify (plain objX) (plain objY) (plain lca) None with
    | Err _ => thrown
    | Ok (Conflicts _) => merge_conflict
    | Ok (Merged merge) =>
        let pa :=
          (if negb (bool_decide (_v itemXid = "")) then [_v itemXid]
           else _pa itemXid) ++ [_v itemYid] in
        Some (Ok ([under (merge_envelope merge (_pe itemXid)
                            (_d itemXid && _d itemYid) pa) merge],
                  perspectives))
    end.

(** [effectiveNumberOfLCAs === 1] with two perspectives. *)
Definition merge_two_perspectives (objX objY lca0 lca1 : vitem V)
    (perspectives : list string) : merge_result :=
  let itemXid := _id objX in
  let itemYid := _id objY in
  let twm a b l lB :=
    _threeWayMerge JSON_stringify (plain a) (plain b) (plain l) (Some (plain lB)) in
  if negb (bool_decide (_v itemXid = "")) && bool_decide (_v itemXid = _v itemYid)
  then Some (Ok ([objX; objY], perspectives))
  else if negb (bool_decide (_v (_id lca0) = ""))
          && bool_decide (_v (_id lca0) = _v itemXid)
  then
    (* ff to original objY and recreate objY from the other perspective *)
    match (if bool_decide (_pe itemYid = _pe (_id lca0))
           then twm objX objY lca1 lca0 else twm objX objY lca0 lca1) with
    | Err _ => thrown
    | Ok (Conflicts _) => merge_conflict
    | Ok (Merged merge) =>
        Some (Ok ([under (with_pe (_pe itemXid) itemYid) merge; objY], perspectives))
    end
  else if negb (bool_decide (_v (_id lca0) = ""))
          && bool_decide (_v (_id lca0) = _v itemYid)
  then
    (* ff to original objX and recreate objX from the other perspective *)
    match (if bool_decide (_pe itemXid = _pe (_id lca0))
           then twm objY objX lca1 lca0 else twm objY objX lca0 lca1) with
    | Err _ => thrown
    | Ok (Conflicts _) => merge_conflict
    | Ok (Merged merge) =>
        Some (Ok ([objX; under (with_pe (_pe itemYid) itemXid) merge], perspectives))
    end
  else
    (* merge from both perspectives *)
    let '(merged0, merged1) :=
      if bool_decide (_pe itemXid = _pe (_id lca0))
      then (twm objX objY lca0 lca1, twm objY objX lca1 lca0)
      else (twm objX objY lca1 lca0, twm objY objX lca0 lca1) in
    match merged0, merged1 with
    | Err _, _ | Ok _, Err _ => thrown
    | Ok (Merged merge0), Ok (Merged merge1) =>
        let d := _d itemXid && _d itemYid in
        let virtual := bool_decide (_v itemXid = "") in
        let pa0 := (if virtual then _pa itemXid else [_v itemXid]) ++ [_v itemYid] in
        let pa1 := (if virtual then [] else [_v itemXid]) ++ [_v itemYid] in
        Some (Ok ([under (merge_envelope merge0 (_pe itemXid) d pa0) merge0;
                   under (merge_envelope merge1 (_pe itemYid) d pa1) merge1],
                  perspectives))
    | _, _ => merge_conflict
    end.

Definition undefined_item : merge_result :=
  Some (Err (TypeError "Cannot read property '_id' of undefined")).

(** [createFunc(j)] of the recursion: the task that merges the virtual
    lca made so far, or the first lca on the first call, with the next
    lca; [merge] is [that._merge]. *)
Definition merge_task (merge : vitem V -> vitem V -> merge_result)
    (objX objY : vitem V) (lcas : list (vitem V)) (p j : nat)
    (merged : option (list (vitem V))) : merge_result :=
  let first :=
    match merged with
    | Some merged =>
        first ← merged !! 0;
        if bool_decide (_pe (_id objX) ≠ _pe (_id first)) then merged !! 1
        else Some first
    | None =>
        first ← lcas !! (j * p);
        if bool_decide (_pe (_id objX) ≠ _pe (_id first)) then lcas !! (j * p + 1)
        else Some first
    end in
  let second :=
    second ← lcas !! (j * p + p);
    if bool_decide (_pe (_id objY) ≠ _pe (_id second)) then lcas !! (j * p + p + 1)
    else Some second in
  match first, second with
  | Some first, Some second => merge first second
  | _, _ => undefined_item
  end.

(** [async.waterfall(tasks, done)] from task [j] on, with [n] tasks
    left. *)
Fixpoint merge_waterfall (merge : vitem V -> vitem V -> merge_result)
    (done : list (vitem V) -> list string -> merge_result)
    (objX objY : vitem V) (lcas : list (vitem V)) (p n j : nat)
    (merged : option (list (vitem V) * list string)) : merge_result :=
  match n with
  | 0 =>
      match merged with
      | Some (merged, perspectives) => done merged perspectives
      | None =>
          (* no tasks: [done()] *)
          Some (Err (TypeError "Cannot read property 'length' of undefined"))
      end
  | S n =>
      match merge_task merge objX objY lcas p j (fst <$> merged) with
      | None => None
      | Some (Err e) => Some (Err e)
      | Some (Ok merged) =>
          merge_waterfall merge done objX objY lcas p n (S j) (Some merged)
      end
  end.

(** [done(err, nlcas, perspectives)], without an error; [fuel] bounds
    the depth of the calls of [done] by the waterfall. *)
Fixpoint merge_done (merge : vitem V -> vitem V -> merge_result) (fuel : nat)
    (objX objY : vitem V) (nlcas : list (vitem V)) (perspectives : list string)
    : merge_result :=
  if is_nil nlcas then Some (Err (OtherError "no lca found"))
  else if is_nil perspectives then Some (Err (OtherError "no perspectives"))
  else
    let lcas := map without_m3 nlcas in
    if bool_decide (length lcas = length perspectives) then
      (* one effective lca: fast-forward or merge *)
      match perspectives, lcas with
      | [_], [lca] => merge_one_perspective objX objY lca perspectives
      | [_; _], [lca0; lca1] =>
          merge_two_perspectives objX objY lca0 lca1 perspectives
      | _, _ => None
      end
    else
      (* create one virtual lca by combining all lca's into one merge *)
      match fuel with
      | 0 => None
      | S fuel =>
          let lcas := _sortByVersionAndPerspective lcas in
          let p := length perspectives in
          merge_waterfall merge (merge_done merge fuel objX objY) objX objY lcas p
            ((length lcas + p - 1) / p - 1) 0 None
      end.

(** [_merge(objX, objY, cb)]; [fuel] bounds the depth of the recursion. *)
Fixpoint _merge (fuel : nat) (objX objY : vitem V) : merge_result :=
  match fuel with
  | 0 => None
  | S fuel =>
      if negb (bool_decide (_id_id (_id objX) = _id_id (_id objY))) then
        Some (Err (OtherError "merge id mismatch"))
      else
        let itemX := without_m3 objX in
        let itemY := without_m3 objY in
        let perspectives :=
          if bool_decide (_pe (_id itemX) ≠ _pe (_id itemY))
          then [_pe (_id itemX); _pe (_id itemY)] else [_pe (_id itemX)] in
        (* find lca(s) and resolve versions to items *)
        match _findLCAs localPerspective snapshot itemX itemY with
        | Err e => Some (Err e)
        | Ok lcas =>
            if bool_decide (length lcas < 1) then Some (Err (OtherError "no lca found"))
            else
              (* fetch lca's, with bound perspectives *)
              let lcaPerspectives :=
                filter (fun item : vitem V =>
                          _id_id (_id item) = _id_id (_id objX)
                          /\ _v (_id item) ∈ lcas
                          /\ _pe (_id item) ∈ perspectives) snapshot in
              if bool_decide (length lcaPerspectives
                              ≠ length lcas * length perspectives) then
                Some (Err (OtherError "error when fetching perspective bound lca's"))
              else
                merge_done (_merge fuel) fuel objX objY lcaPerspectives perspectives
        end
  end.

End Merge.

(** What is said of the result of a merge of [objX] and [objY]: one item
    for each perspective; an item is one of the two objects, or has no
    [_m3] and either no version or the version of one of the objects. *)
Definition merge_shape {V : Type} (objX objY : vitem V)
    (r : list (vitem V) * list string) : Prop :=
  length r.1 = length r.2 /\ (length r.2 = 1 \/ length r.2 = 2) /\
  Forall (fun m => m = objX \/ m = objY \/
                   (_m3 m = None /\
                    (_v (_id m) = "" \/ _v (_id m) = _v (_id objX)
                     \/ _v (_id m) = _v (_id objY)))) r.1.

(** [_merge] on the fork A, B{A}, C{A}, D{B, C} of "foo", with strings
    as attribute values. *)
Definition merge_in_diamond (fuel : nat) (objX objY : vitem string)
    : merge_result :=
  _merge "_local" "c" Some id id (fun lcas => lcas) diamond fuel objX objY.

(** ** Acknowledging what came before an acknowledged item
    ([ackAncestorsAckd]) *)

Section AckAncestors.
Context {V : Type}.
Variable localPerspective : string.

(** [item._m3._ack === true] *)
Definition is_ackd (item : vitem V) : bool := from_option _ack false (_m3 item).

(** [{ $set: { '_m3._ack': true } }] *)
Definition set_ackd (item : vitem V) : vitem V :=
  with_m3 {| _ack := true;
             _op := from_option _op (0, 0)%Z (_m3 item);
             _c := from_option _c false (_m3 item) |} item.

(** [stream.on('data', ...)] on the collection [coll]: find the last
    acknowledged item of the id and acknowledge all that have a smaller
    [_i]. *)
Definition ackAncestorsAckd_data (coll : list (vitem V)) (item : vitem V)
    : list (vitem V) :=
  match findOne_last
          (fun x => bool_decide (_id_id (_id x) = _id_id (_id item))
                    && bool_decide (_pe (_id x) = localPerspective)
                    && is_ackd x) coll with
  | None => coll
  | Some ackdItem =>
      map (fun x =>
             if bool_decide (_id_id (_id x) = _id_id (_id item))
                && bool_decide (_pe (_id x) = localPerspective)
                && (_i (_id x) <? _i (_id ackdItem))%Z
                && negb (is_ackd x)
             then set_ackd x else x) coll
  end.

(** [VersionedCollection.prototype.ackAncestorsAckd]: the snapshot
    collection it leaves.  The stream hands over the local items that
    are not acknowledged when it starts. *)
Definition ackAncestorsAckd (snapshot : list (vitem V)) : list (vitem V) :=
  fold_left ackAncestorsAckd_data
    (filter (fun x : vitem V => _pe (_id x) = localPerspective
                                /\ is_ackd x = false) snapshot)
    snapshot.

(** [item] is a local item that is not acknowledged and has a smaller
    [_i] than an acknowledged local item of its id in [snapshot]. *)
Definition before_ackd (snapshot : list (vitem V)) (item : vitem V) : bool :=
  bool_decide (_pe (_id item) = localPerspective)
  && negb (is_ackd item)
  && existsb (fun a => bool_decide (_id_id (_id a) = _id_id (_id item))
                       && bool_decide (_pe (_id a) = localPerspective)
                       && is_ackd a
                       && (_i (_id item) <? _i (_id a))%Z) snapshot.

End AckAncestors.

(** * Properties *)

(** ** Objects *)

Module ObjFacts.
Section ObjFacts.
Context {V : Type}.
Implicit Types (o : Obj.t V) (k : string) (v : V).
Import Obj.

Lemma get_set_eq k v o : get k (set k v o) = Some v.
Proof.
  induction o as [|[k' v'] o IH]; simpl.
  - by rewrite decide_True.
  - destruct (decide (k = k')) as [->|Hne]; simpl.
    + by rewrite decide_True.
    + destruct (before k k' && negb (has k o)); simpl.
      * by rewrite decide_True.
      * by rewrite decide_False.
Qed.

Lemma get_set_ne k k' v o : k ≠ k' -> get k (set k' v o) = get k o.
Proof.
  intros Hne. induction o as [|[k2 v2] o IH]; simpl.
  - by rewrite decide_False.
  - destruct (decide (k' = k2)) as [->|Hne2]; simpl.
    + by rewrite !decide_False.
    + destruct (before k' k2 && negb (has k' o)); simpl.
      * by rewrite decide_False.
      * destruct (decide (k = k2)); [done | apply IH].
Qed.

Lemma get_del_eq k o : get k (del k o) = None.
Proof.
  induction o as [|[k' v'] o IH]; simpl; [done|].
  destruct (decide (k = k')) as [->|Hne]; simpl; [done|].
  by rewrite decide_False.
Qed.

Lemma get_del_ne k k' o : k ≠ k' -> get k (del k' o) = get k o.
Proof.
  intros Hne. induction o as [|[k2 v2] o IH]; simpl; [done|].
  destruct (decide (k' = k2)) as [->|Hne2]; simpl.
  - by rewrite decide_False.
  - destruct (decide (k = k2)); [done | apply IH].
Qed.

Lemma get_None_keys k o : get k o = None <-> k ∉ keys o.
Proof.
  induction o as [|[k' v'] o IH]; simpl.
  - split; [intros _; apply not_elem_of_nil | done].
  - rewrite not_elem_of_cons. destruct (decide (k = k')) as [->|Hne].
    + split; [done | intros [? _]; done].
    + rewrite IH. tauto.
Qed.

Lemma get_Some_keys k v o : get k o = Some v -> k ∈ keys o.
Proof.
  intros H. destruct (decide (k ∈ keys o)) as [|Hn]; [done|].
  apply get_None_keys in Hn. congruence.
Qed.

Lemma get_Some_elem k v o : get k o = Some v -> (k, v) ∈ o.
Proof.
  induction o as [|[k' v'] o IH]; simpl; [done|].
  destruct (decide (k = k')) as [->|Hne].
  - intros [= ->]. apply list_elem_of_here.
  - intros H. apply list_elem_of_further, IH, H.
Qed.

Lemma elem_get k v o : wf o -> (k, v) ∈ o -> get k o = Some v.
Proof.
  unfold wf. induction o as [|[k' v'] o IH]; simpl.
  - intros _ H. by apply elem_of_nil in H.
  - rewrite NoDup_cons. intros [Hnotin Hnd] Hin.
    apply elem_of_cons in Hin as [[= -> ->]|Hin].
    + by rewrite decide_True.
    + destruct (decide (k = k')) as [->|Hne]; [|by apply IH].
      exfalso. apply Hnotin. apply (list_elem_of_fmap_2 fst) in Hin. exact Hin.
Qed.

Lemma has_true k o : has k o = true <-> k ∈ keys o.
Proof.
  unfold has. destruct (get k o) eqn:E.
  - split; [intros _; eapply get_Some_keys, E | done].
  - split; [done | intros Hin; apply get_None_keys in E; done].
Qed.

Lemma has_false k o : has k o = false <-> get k o = None.
Proof. unfold has. destruct (get k o); split; congruence. Qed.

(** Setting a fresh key that is no array index appends. *)
Lemma set_fresh k v o :
  k ∉ keys o -> array_index k = None -> set k v o = o ++ [(k, v)].
Proof.
  intros Hnotin Hidx. induction o as [|[k' v'] o IH]; simpl; [done|].
  simpl in Hnotin. apply not_elem_of_cons in Hnotin as [Hne Hnotin].
  rewrite decide_False by done. unfold before at 1. rewrite Hidx. simpl.
  by rewrite IH.
Qed.

(** Setting a fresh key that no key of the object comes after appends. *)
Lemma set_last k v o :
  k ∉ keys o -> (forall k', k' ∈ keys o -> before k k' = false) ->
  set k v o = o ++ [(k, v)].
Proof.
  induction o as [|[k' v'] o IH]; simpl; [done|].
  rewrite not_elem_of_cons. intros [Hne Hnotin] Hlast.
  rewrite decide_False by done.
  rewrite (Hlast k') by apply list_elem_of_here. simpl.
  rewrite IH; [done..|]. intros k2 Hk2. by apply Hlast, list_elem_of_further.
Qed.

Lemma ordered_app (l1 l2 : list string) :
  ordered (l1 ++ l2) = true ->
  ordered l1 = true /\ ordered l2 = true /\
  forall a b, a ∈ l1 -> b ∈ l2 -> before b a = false.
Proof.
  induction l1 as [|a l1 IH]; simpl.
  - intros H. split_and!; [done..|]. intros a b Ha. by apply elem_of_nil in Ha.
  - rewrite andb_true_iff, forallb_forall. intros [Hall Hord].
    destruct (IH Hord) as (H1 & H2 & H12). split_and!.
    + apply andb_true_iff. split; [|done]. apply forallb_forall.
      intros x Hx. apply Hall, in_or_app. by left.
    + done.
    + intros a' b Ha' Hb. apply elem_of_cons in Ha' as [->|Ha']; [|by apply H12].
      apply negb_true_iff, Hall, in_or_app. right. by apply list_elem_of_In.
Qed.

(** Copying an object attribute by attribute rebuilds it. *)
Lemma copy_onto (o acc : Obj.t V) :
  wf (acc ++ o) -> ordered (keys (acc ++ o)) = true ->
  fold_left (fun m kv => set kv.1 kv.2 m) o acc = acc ++ o.
Proof.
  unfold wf, keys. revert acc.
  induction o as [|[k v] o IH]; intros acc Hnd Hord; simpl.
  - by rewrite app_nil_r.
  - rewrite set_last.
    + rewrite IH; rewrite <- app_assoc; [done|exact Hnd|exact Hord].
    + rewrite fmap_app in Hnd. apply NoDup_app in Hnd as (_ & Hdisj & _).
      intros Hin. apply (Hdisj k Hin). simpl. apply list_elem_of_here.
    + intros k' Hk'. rewrite fmap_app in Hord.
      apply ordered_app in Hord as (_ & _ & H12). apply H12; [done|].
      simpl. apply list_elem_of_here.
Qed.

Lemma copy_id (o : Obj.t V) :
  wf o -> ordered (keys o) = true ->
  fold_left (fun m kv => set kv.1 kv.2 m) o [] = o.
Proof. intros H Ho. by rewrite copy_onto. Qed.

Lemma keys_set_iff k k' v o : k' ∈ keys (set k v o) <-> k' = k \/ k' ∈ keys o.
Proof.
  induction o as [|[k2 v2] o IH]; simpl.
  - rewrite list_elem_of_singleton, elem_of_nil. tauto.
  - destruct (decide (k = k2)) as [->|Hne]; simpl.
    + rewrite elem_of_cons. tauto.
    + destruct (before k k2 && negb (has k o)); simpl.
      * rewrite !elem_of_cons. tauto.
      * rewrite !elem_of_cons, IH. tauto.
Qed.

Lemma wf_set k v o : wf o -> wf (set k v o).
Proof.
  unfold wf. induction o as [|[k2 v2] o IH]; simpl.
  - intros _. apply NoDup_singleton.
  - rewrite NoDup_cons. intros [Hnotin Hnd].
    destruct (decide (k = k2)) as [->|Hne]; simpl.
    + by apply NoDup_cons.
    + destruct (before k k2 && negb (has k o)) eqn:Hb; simpl.
      * apply andb_true_iff in Hb as [_ Hb]. apply negb_true_iff in Hb.
        apply NoDup_cons. split; [|by apply NoDup_cons].
        rewrite not_elem_of_cons. split; [done|].
        unfold has in Hb. destruct (get k o) eqn:E; [done|].
        by apply get_None_keys.
      * apply NoDup_cons. split; [|by apply IH].
        intros Hin. apply keys_set_iff in Hin as [?|?]; [by subst|done].
Qed.

(** A copy has what the object has, whatever order its keys are in. *)
Lemma get_copy_onto (o acc : Obj.t V) k :
  wf o ->
  get k (fold_left (fun m kv => set kv.1 kv.2 m) o acc)
  = match get k o with Some v => Some v | None => get k acc end.
Proof.
  unfold wf. revert acc. induction o as [|[k1 v1] o IH]; intros acc Hnd; simpl.
  - done.
  - apply NoDup_cons in Hnd as [Hk1 Hnd]. rewrite IH by done.
    destruct (decide (k = k1)) as [->|Hne].
    + apply get_None_keys in Hk1. simpl in Hk1. rewrite Hk1. apply get_set_eq.
    + destruct (get k o); [done|]. by apply get_set_ne.
Qed.

Lemma elem_of_set (k k' : string) (w w' : V) (o : Obj.t V) :
  (k', w') ∈ set k w o -> (k', w') = (k, w) \/ (k', w') ∈ o.
Proof.
  induction o as [|[k2 w2] o IH]; simpl.
  - intros H. apply list_elem_of_singleton in H. by left.
  - destruct (decide (k = k2)) as [->|Hne].
    + intros H. apply elem_of_cons in H as [H|H]; [by left|].
      right. by apply list_elem_of_further.
    + destruct (before k k2 && negb (has k o)).
      * intros H. apply elem_of_cons in H as [H|H]; [by left|by right].
      * intros H. apply elem_of_cons in H as [H|H].
        -- right. rewrite H. apply list_elem_of_here.
        -- destruct (IH H) as [?|?]; [by left|]. right. by apply list_elem_of_further.
Qed.

Lemma elem_of_del (k : string) (kw : string * V) (o : Obj.t V) :
  kw ∈ del k o -> kw ∈ o.
Proof.
  induction o as [|[k2 w2] o IH]; simpl; [done|].
  destruct (decide (k = k2)) as [->|Hne].
  - intros H. by apply list_elem_of_further, IH.
  - intros H. apply elem_of_cons in H as [->|H]; [apply list_elem_of_here|].
    by apply list_elem_of_further, IH.
Qed.

Lemma get_del_None (k k' : string) (o : Obj.t V) :
  get k o = None -> get k (del k' o) = None.
Proof.
  intros H. destruct (decide (k = k')) as [->|Hne]; [apply get_del_eq|].
  by rewrite get_del_ne.
Qed.

Lemma wf_del (k : string) (o : Obj.t V) : wf o -> wf (del k o).
Proof.
  unfold wf. induction o as [|[k2 w2] o IH]; simpl; [done|].
  rewrite NoDup_cons. intros [Hnotin Hnd].
  destruct (decide (k = k2)) as [->|Hne]; [by apply IH|].
  simpl. apply NoDup_cons. split; [|by apply IH].
  intros Hin. apply Hnotin. apply list_elem_of_fmap in Hin as ([k3 w3] & -> & Hin).
  apply elem_of_del in Hin. by apply (list_elem_of_fmap_2 fst) in Hin.
Qed.

End ObjFacts.
End ObjFacts.

(** ** Three-way merge *)

Section ThreeWayMergeFacts.
Context {V : Type} (JSON_stringify : V -> option string).
Implicit Types (itemA itemB lca item base : Obj.t V) (k : string).
Import Obj ObjFacts.

Local Abbreviation js_neq := (json_neq JSON_stringify).
Local Abbreviation copy := (fun (m : Obj.t V) (kv : string * V) => set kv.1 kv.2 m).

Lemma json_neq_refl (x : option V) : js_neq x x = false.
Proof. unfold json_neq. by rewrite bool_decide_false by (intros H; apply H; done). Qed.

(** The loop over itemA does two independent things. *)
Lemma stepItemA_split lca (l : list (string * V)) m d :
  fold_left (stepItemA JSON_stringify lca) l (m, d)
  = (fold_left copy l m, fold_left (stepItemB JSON_stringify lca) l d).
Proof.
  revert m d. induction l as [|[k v] l IH]; intros m d; simpl; [done|].
  by rewrite IH.
Qed.

(** So does the loop over the keys of lcaB. *)
Lemma stepLcaB_split itemB (diffA : Obj.t delta) (ks : list string) d cs :
  fold_left (stepLcaB itemB diffA) ks (d, cs)
  = (fold_left (stepLcaA itemB) ks d,
     cs ++ filter (fun k => get k diffA = Some Added) ks).
Proof.
  revert d cs. induction ks as [|k ks IH]; intros d cs; simpl.
  - by rewrite app_nil_r.
  - rewrite IH. f_equal. rewrite filter_cons.
    case_bool_decide as E.
    + rewrite decide_True by done. by rewrite <- app_assoc.
    + by rewrite decide_False by done.
Qed.

Lemma merge3_unfold itemA itemB lca lcaB :
  merge3 JSON_stringify itemA itemB lca lcaB =
  let lB := default lca lcaB in
  let dA := deltas JSON_stringify itemA lca in
  let dB := deltas JSON_stringify itemB lB in
  let cs0 := filter (fun k => get k dA = Some Added) (keys lB) in
  let r := fold_left (stepDelta JSON_stringify itemA itemB dA) dB
             (fold_left copy itemA [], cs0) in
  match r.2 with
  | [] => Merged r.1
  | _ :: _ => Conflicts r.2
  end.
Proof.
  unfold merge3, deltas. rewrite stepItemA_split, stepLcaB_split. simpl.
  destruct (fold_left _ _ (fold_left copy itemA [], _)) as [m cs]. done.
Qed.

(** *** The deltas *)

Lemma stepItemB_get base (l : list (string * V)) (d : Obj.t delta) k :
  NoDup (keys l) ->
  get k (fold_left (stepItemB JSON_stringify base) l d) =
  match get k l with
  | Some v =>
      match get k base with
      | Some w => if js_neq (Some v) (Some w) then Some Changed else get k d
      | None => Some Added
      end
  | None => get k d
  end.
Proof.
  revert d. induction l as [|[k1 v1] l IH]; intros d Hnd; simpl; [done|].
  apply NoDup_cons in Hnd as [Hk1 Hnd]. rewrite IH by done.
  destruct (decide (k = k1)) as [->|Hne].
  - apply get_None_keys in Hk1. simpl in Hk1. rewrite Hk1.
    destruct (get k1 base) as [w|]; [|apply get_set_eq].
    destruct (js_neq (Some v1) (Some w)); [apply get_set_eq|done].
  - assert (get k (stepItemB JSON_stringify base d (k1, v1)) = get k d) as Hstep.
    { simpl. destruct (get k1 base) as [w|]; [|by apply get_set_ne].
      destruct (js_neq (Some v1) (Some w)); [by apply get_set_ne|done]. }
    simpl in Hstep. by rewrite Hstep.
Qed.

Lemma stepLcaA_get item (ks : list string) (d : Obj.t delta) k :
  get k (fold_left (stepLcaA item) ks d) =
  if bool_decide (k ∈ ks) && negb (has k item) then Some Removed else get k d.
Proof.
  revert d. induction ks as [|k1 ks IH]; intros d; simpl.
  - done.
  - rewrite IH. unfold stepLcaA.
    destruct (decide (k = k1)) as [->|Hne].
    + rewrite (bool_decide_true (k1 ∈ k1 :: ks)) by apply list_elem_of_here.
      destruct (has k1 item) eqn:Hh; simpl.
      * by rewrite andb_false_r.
      * rewrite get_set_eq. by destruct (bool_decide (k1 ∈ ks)).
    + assert (bool_decide (k ∈ k1 :: ks) = bool_decide (k ∈ ks)) as ->.
      { apply bool_decide_ext. rewrite elem_of_cons. tauto. }
      destruct (bool_decide (k ∈ ks) && negb (has k item)); [done|].
      destruct (has k1 item); [done | by apply get_set_ne].
Qed.

Lemma deltas_get item base k :
  wf item -> get k (deltas JSON_stringify item base) = delta_of JSON_stringify item base k.
Proof.
  intros Hwf. unfold deltas, delta_of.
  rewrite stepLcaA_get, stepItemB_get by done. unfold has. simpl.
  destruct (get k item) as [v|] eqn:Ei; simpl.
  - rewrite andb_false_r. destruct (get k base); [|done].
    by destruct (js_neq _ _).
  - rewrite andb_true_r. destruct (get k base) as [w|] eqn:Eb.
    + rewrite bool_decide_true; [done|]. eapply get_Some_keys, Eb.
    + rewrite bool_decide_false; [done|]. by apply get_None_keys.
Qed.

Lemma wf_fold_stepItemB base (l : list (string * V)) (d : Obj.t delta) :
  wf d -> wf (fold_left (stepItemB JSON_stringify base) l d).
Proof.
  revert d. induction l as [|[k v] l IH]; intros d Hd; simpl; [done|].
  apply IH. destruct (get k base) as [w|]; [|by apply wf_set].
  destruct (js_neq _ _); [by apply wf_set | done].
Qed.

Lemma wf_fold_stepLcaA item (ks : list string) (d : Obj.t delta) :
  wf d -> wf (fold_left (stepLcaA item) ks d).
Proof.
  revert d. induction ks as [|k ks IH]; intros d Hd; simpl; [done|].
  apply IH. unfold stepLcaA. destruct (has k item); [done | by apply wf_set].
Qed.

Lemma wf_deltas item base : wf (deltas JSON_stringify item base).
Proof. apply wf_fold_stepLcaA, wf_fold_stepItemB, NoDup_nil_2. Qed.


(** *** The loop that applies the deltas of B *)

Local Abbreviation applyDeltas itemA itemB dA :=
  (fold_left (stepDelta JSON_stringify itemA itemB dA)).

Lemma stepDelta_conflicts_mono itemA itemB dA st kd k :
  k ∈ st.2 -> k ∈ (stepDelta JSON_stringify itemA itemB dA st kd).2.
Proof.
  destruct st as [m cs], kd as [k' d']. unfold stepDelta. simpl. intros Hin.
  repeat (match goal with |- context [if ?b then _ else _] => destruct b end);
    simpl; try done; apply elem_of_app; by left.
Qed.

Lemma applyDeltas_conflicts_mono itemA itemB dA l st k :
  k ∈ st.2 -> k ∈ (applyDeltas itemA itemB dA l st).2.
Proof.
  revert st. induction l as [|kd l IH]; intros st Hin; simpl; [done|].
  by apply IH, stepDelta_conflicts_mono.
Qed.

(** Deltas that contradict each other are reported. *)
Lemma applyDeltas_conflict itemA itemB dA l st k dB :
  (k, dB) ∈ l -> has k dA = true -> get k dA ≠ Some dB ->
  k ∈ (applyDeltas itemA itemB dA l st).2.
Proof.
  revert st. induction l as [|kd l IH]; intros st Hin Hhas Hne; simpl.
  - by apply elem_of_nil in Hin.
  - apply elem_of_cons in Hin as [<-|Hin]; [|by apply IH].
    apply applyDeltas_conflicts_mono. destruct st as [m cs]. unfold stepDelta.
    rewrite Hhas, bool_decide_true by done. simpl.
    apply elem_of_app. right. apply list_elem_of_here.
Qed.

Lemma stepDelta_other itemA itemB dA st k' d' k :
  k ≠ k' ->
  get k (stepDelta JSON_stringify itemA itemB dA st (k', d')).1 = get k st.1.
Proof.
  intros Hne. destruct st as [m cs]. unfold stepDelta.
  repeat (match goal with |- context [if ?b then _ else _] => destruct b end);
    simpl; try done.
  - by apply get_del_ne.
  - destruct (get k' itemB); [by apply get_set_ne | done].
Qed.

(** A key without a delta in B keeps what the copy of A has for it. *)
Lemma applyDeltas_untouched itemA itemB dA (l : Obj.t delta) st k :
  k ∉ keys l -> get k (applyDeltas itemA itemB dA l st).1 = get k st.1.
Proof.
  revert st. induction l as [|[k' d'] l IH]; intros st Hnotin; simpl; [done|].
  apply not_elem_of_cons in Hnotin as [Hne Hnotin].
  rewrite IH by done. by apply stepDelta_other.
Qed.

(** A key deleted in B, with no delta in A, is dropped. *)
Lemma applyDeltas_removed itemA itemB dA (l : Obj.t delta) st k :
  wf l -> (k, Removed) ∈ l -> get k dA = None ->
  get k (applyDeltas itemA itemB dA l st).1 = None.
Proof.
  unfold wf. revert st.
  induction l as [|[k' d'] l IH]; intros st Hnd Hin HdA; simpl.
  - by apply elem_of_nil in Hin.
  - apply NoDup_cons in Hnd as [Hk' Hnd].
    apply elem_of_cons in Hin as [[= <- <-]|Hin]; [|by apply IH].
    rewrite applyDeltas_untouched by done.
    destruct st as [m cs]. unfold stepDelta, has. rewrite HdA. simpl.
    apply get_del_eq.
Qed.

Lemma get_copy itemA k : wf itemA -> get k (fold_left copy itemA []) = get k itemA.
Proof. intros H. rewrite get_copy_onto by done. by destruct (get k itemA). Qed.


(** *** Merging an item with itself *)

Lemma filter_none {A} (P : A -> Prop) `{forall a, Decision (P a)} (l : list A) :
  (forall a, ~ P a) -> filter P l = [].
Proof.
  intros Hno. induction l as [|a l IH]; [done|].
  rewrite filter_cons. by rewrite decide_False.
Qed.

Lemma stepItemB_same base (l : list (string * V)) (d : Obj.t delta) :
  (forall k v, (k, v) ∈ l -> get k base = Some v) ->
  fold_left (stepItemB JSON_stringify base) l d = d.
Proof.
  revert d. induction l as [|[k v] l IH]; intros d Hall; simpl; [done|].
  rewrite (Hall k v) by apply list_elem_of_here.
  rewrite json_neq_refl. apply IH. intros k' v' Hin.
  by apply Hall, list_elem_of_further.
Qed.

Lemma stepLcaA_same item (ks : list string) (d : Obj.t delta) :
  (forall k, k ∈ ks -> has k item = true) ->
  fold_left (stepLcaA item) ks d = d.
Proof.
  revert d. induction ks as [|k ks IH]; intros d Hall; simpl; [done|].
  unfold stepLcaA at 2. rewrite (Hall k) by apply list_elem_of_here.
  apply IH. intros k' Hin. by apply Hall, list_elem_of_further.
Qed.

Lemma deltas_same item : wf item -> deltas JSON_stringify item item = [].
Proof.
  intros Hwf. unfold deltas. rewrite stepItemB_same.
  - apply stepLcaA_same. intros k Hin. by apply has_true.
  - intros k v Hin. by apply elem_get.
Qed.

Lemma merge3_reflexive (x : Obj.t V) :
  wf x -> ordered (keys x) = true ->
  merge3 JSON_stringify x x x None = Merged x /\
  merge3 JSON_stringify x x x (Some x) = Merged x.
Proof.
  intros Hwf Hord.
  assert (forall lcaB, default x lcaB = x ->
            merge3 JSON_stringify x x x lcaB = Merged x) as H.
  { intros lcaB HlB. rewrite merge3_unfold. simpl. rewrite HlB.
    rewrite deltas_same by done. simpl.
    rewrite filter_none by done. simpl. by rewrite copy_id. }
  split; by apply H.
Qed.

(** *** Attributes deleted in one side *)

Lemma deleted_delta side base k :
  deleted_in side base k -> delta_of JSON_stringify side base k = Some Removed.
Proof.
  intros [Hb Hs]. unfold delta_of. apply has_false in Hs. rewrite Hs.
  unfold has in Hb. by destruct (get k base).
Qed.

Lemma unchanged_delta side base k :
  unchanged_in JSON_stringify side base k ->
  delta_of JSON_stringify side base k = None.
Proof.
  intros (v & w & Hs & Hb & Heq). unfold delta_of, json_neq. rewrite Hs, Hb.
  by rewrite bool_decide_false by (intros H; by apply H).
Qed.

Lemma changed_delta side base k :
  changed_in JSON_stringify side base k ->
  delta_of JSON_stringify side base k = Some Changed.
Proof.
  intros (v & w & Hs & Hb & Hne). unfold delta_of, json_neq. rewrite Hs, Hb.
  by rewrite bool_decide_true.
Qed.

(** An attribute that is in the lca and was deleted in exactly one
    side: when the other side left it as in its lca, it is absent from
    the merged item; when the other side changed its JSON serialization,
    no merged item is returned but a conflict list naming the
    attribute. *)
Lemma merge3_deleted_in_one_side
    (itemA itemB lca : Obj.t V) (lcaB : option (Obj.t V)) (k : string) :
  wf itemA -> wf itemB ->
  let lB := default lca lcaB in
  let r := merge3 JSON_stringify itemA itemB lca lcaB in
  ((deleted_in itemA lca k /\ unchanged_in JSON_stringify itemB lB k) \/
   (deleted_in itemB lB k /\ unchanged_in JSON_stringify itemA lca k) ->
   forall m, r = Merged m -> get k m = None)
  /\
  ((deleted_in itemA lca k /\ changed_in JSON_stringify itemB lB k) \/
   (deleted_in itemB lB k /\ changed_in JSON_stringify itemA lca k) ->
   exists cs, r = Conflicts cs /\ k ∈ cs).
Proof.
  intros HwfA HwfB lB r. subst r. rewrite merge3_unfold. fold lB.
  cbv zeta.
  set (dA := deltas JSON_stringify itemA lca).
  set (dB := deltas JSON_stringify itemB lB).
  set (cs0 := filter _ _).
  set (st := (fold_left copy itemA [], cs0)).
  assert (HdA : forall k, get k dA = delta_of JSON_stringify itemA lca k)
    by (intros; by apply deltas_get).
  assert (HdB : forall k, get k dB = delta_of JSON_stringify itemB lB k)
    by (intros; by apply deltas_get).
  split.
  - (* dropped *)
    intros Hcase m Hm.
    assert (get k (applyDeltas itemA itemB dA dB st).1 = None) as Hnone.
    { destruct Hcase as [[Hdel Hun]|[Hdel Hun]].
      - rewrite applyDeltas_untouched.
        + subst st. simpl. rewrite get_copy by done.
          apply has_false, Hdel.
        + apply get_None_keys. rewrite HdB. by apply unchanged_delta.
      - apply applyDeltas_removed.
        + apply wf_deltas.
        + apply get_Some_elem. rewrite HdB. by apply deleted_delta.
        + rewrite HdA. by apply unchanged_delta. }
    destruct (applyDeltas itemA itemB dA dB st) as [m' cs] eqn:E.
    simpl in *. destruct cs; [|done]. by injection Hm as <-.
  - (* conflict *)
    intros Hcase.
    assert (k ∈ (applyDeltas itemA itemB dA dB st).2) as Hin.
    { destruct Hcase as [[Hdel Hch]|[Hdel Hch]].
      - apply (applyDeltas_conflict _ _ _ _ _ _ Changed).
        + apply get_Some_elem. rewrite HdB. by apply changed_delta.
        + unfold has. rewrite HdA. by rewrite deleted_delta.
        + rewrite HdA. by rewrite deleted_delta.
      - apply (applyDeltas_conflict _ _ _ _ _ _ Removed).
        + apply get_Some_elem. rewrite HdB. by apply deleted_delta.
        + unfold has. rewrite HdA. by rewrite changed_delta.
        + rewrite HdA. by rewrite changed_delta. }
    destruct (applyDeltas itemA itemB dA dB st) as [m' cs] eqn:E.
    simpl in *. destruct cs as [|c cs]; [by apply elem_of_nil in Hin|].
    by exists (c :: cs).
Qed.

(** *** The calls of hasOwnProperty *)

Lemma hasOwnProperty_inherited {W} (name : string) (o : Obj.t W) k :
  has "hasOwnProperty" o = false -> hasOwnProperty name o k = Ok (has k o).
Proof. unfold hasOwnProperty. by intros ->. Qed.

Lemma hasOwnProperty_hidden {W} (name : string) (o : Obj.t W) k :
  has "hasOwnProperty" o = true ->
  hasOwnProperty name o k = Err (TypeError (name ++ ".hasOwnProperty is not a function")).
Proof. unfold hasOwnProperty. by intros ->. Qed.

(** A loop whose body does not throw is a fold. *)
Lemma forEach_fold {A S : Type} (body : S -> A -> result error S) (f : S -> A -> S)
    (l : list A) (st : S) :
  (forall st x, body st x = Ok (f st x)) ->
  forEach body l st = Ok (fold_left f l st).
Proof.
  intros Hbody. revert st. induction l as [|x l IH]; intros st; simpl; [done|].
  rewrite Hbody. simpl. apply IH.
Qed.

Lemma keysItemA_forEach_plain lca st kv :
  has "hasOwnProperty" lca = false ->
  keysItemA_forEach JSON_stringify lca st kv = Ok (stepItemA JSON_stringify lca st kv).
Proof.
  intros Hl. destruct st as [m d], kv as [k v]. unfold keysItemA_forEach, stepItemA.
  rewrite hasOwnProperty_inherited by done. simpl. unfold has.
  by destruct (get k lca).
Qed.

Lemma keysLcaA_forEach_plain itemA d k :
  has "hasOwnProperty" itemA = false ->
  keysLcaA_forEach itemA d k = Ok (stepLcaA itemA d k).
Proof.
  intros Hl. unfold keysLcaA_forEach, stepLcaA.
  by rewrite hasOwnProperty_inherited by done.
Qed.

Lemma keysItemB_forEach_plain lcaB d kv :
  has "hasOwnProperty" lcaB = false ->
  keysItemB_forEach JSON_stringify lcaB d kv = Ok (stepItemB JSON_stringify lcaB d kv).
Proof.
  intros Hl. destruct kv as [k v]. unfold keysItemB_forEach, stepItemB.
  rewrite hasOwnProperty_inherited by done. simpl. unfold has.
  by destruct (get k lcaB).
Qed.

Lemma keysLcaB_forEach_plain itemB (diffA : Obj.t delta) st k :
  has "hasOwnProperty" itemB = false -> has "hasOwnProperty" diffA = false ->
  keysLcaB_forEach itemB diffA st k = Ok (stepLcaB itemB diffA st k).
Proof.
  intros HB HdA. destruct st as [d cs]. unfold keysLcaB_forEach, stepLcaB.
  rewrite !hasOwnProperty_inherited by done. simpl. do 2 f_equal.
  unfold has. destruct (get k diffA) as [[| |]|]; done.
Qed.

Lemma diffB_forEach_plain itemA itemB (diffA : Obj.t delta) st kd :
  has "hasOwnProperty" itemA = false -> has "hasOwnProperty" diffA = false ->
  diffB_forEach JSON_stringify itemA itemB diffA st kd
  = Ok (stepDelta JSON_stringify itemA itemB diffA st kd).
Proof.
  intros HA HdA. destruct st as [m cs], kd as [k d]. unfold diffB_forEach, stepDelta.
  rewrite !hasOwnProperty_inherited by done. cbn [mbind result_bind].
  destruct (has k diffA && bool_decide (get k diffA ≠ Some d)); [done|].
  destruct (bool_decide (d = Removed)); [done|].
  destruct (bool_decide (get k diffA = Some Changed) && _); [done|].
  destruct (bool_decide (get k diffA = Some Added) && _); [done|].
  destruct (bool_decide (d = Added)); cbn [mbind result_bind andb]; [|done].
  by destruct (has k itemA && _).
Qed.

(** The marks are for keys of the two documents. *)
Lemma stepItemB_has_false base (l : list (string * V)) (d : Obj.t delta) k :
  has k l = false -> has k (fold_left (stepItemB JSON_stringify base) l d) = has k d.
Proof.
  revert d. induction l as [|[k1 v1] l IH]; intros d Hl; simpl; [done|].
  unfold has in Hl. simpl in Hl. destruct (decide (k = k1)) as [->|Hne]; [done|].
  rewrite IH by exact Hl. unfold has.
  destruct (get k1 base) as [w|]; [|by rewrite get_set_ne].
  destruct (json_neq _ _ _); [by rewrite get_set_ne | done].
Qed.

Lemma deltas_has_false item base k :
  has k item = false -> has k base = false ->
  has k (deltas JSON_stringify item base) = false.
Proof.
  intros Hi Hb. unfold deltas, has at 1. rewrite stepLcaA_get.
  rewrite bool_decide_false; [|by apply has_false, get_None_keys in Hb].
  cbn [andb]. fold (has k (fold_left (stepItemB JSON_stringify base) item [])).
  by rewrite stepItemB_has_false.
Qed.

(** On documents without an attribute named hasOwnProperty the function
    returns the merge of the loops without the calls. *)
Lemma threeWayMerge_merge3 itemA itemB lca lcaB :
  plain_keys itemA itemB lca lcaB ->
  _threeWayMerge JSON_stringify itemA itemB lca lcaB
  = Ok (merge3 JSON_stringify itemA itemB lca lcaB).
Proof.
  intros (HA & HB & Hl & HlB). unfold _threeWayMerge, merge3.
  rewrite (forEach_fold _ (stepItemA JSON_stringify lca))
    by (intros; by apply keysItemA_forEach_plain).
  cbn [mbind result_bind].
  rewrite stepItemA_split. cbn [mbind result_bind].
  rewrite (forEach_fold _ (stepLcaA itemA))
    by (intros; by apply keysLcaA_forEach_plain).
  cbn [mbind result_bind].
  rewrite (forEach_fold _ (stepItemB JSON_stringify (default lca lcaB)))
    by (intros; by apply keysItemB_forEach_plain).
  cbn [mbind result_bind].
  fold (deltas JSON_stringify itemA lca).
  assert (has "hasOwnProperty" (deltas JSON_stringify itemA lca) = false) as HdA
    by (by apply deltas_has_false).
  rewrite (forEach_fold _ (stepLcaB itemB (deltas JSON_stringify itemA lca)))
    by (intros; by apply keysLcaB_forEach_plain).
  cbn [mbind result_bind].
  destruct (fold_left (stepLcaB itemB _) _ _) as [dB cs0].
  rewrite (forEach_fold _ (stepDelta JSON_stringify itemA itemB
                             (deltas JSON_stringify itemA lca)))
    by (intros; by apply diffB_forEach_plain).
  cbn [mbind result_bind].
  destruct (fold_left (stepDelta _ _ _ _) _ _) as [m cs]. by destruct cs.
Qed.

(** The first loop stops at its first key when the lca has an attribute
    named hasOwnProperty. *)
Lemma keysItemA_loop_throws itemA lca st :
  itemA <> [] -> has "hasOwnProperty" lca = true ->
  forEach (keysItemA_forEach JSON_stringify lca) itemA st
  = Err (TypeError "lca.hasOwnProperty is not a function").
Proof.
  intros Hne Hl. destruct itemA as [|[k v] rest]; [done|]. destruct st as [m d].
  cbn [forEach]. unfold keysItemA_forEach.
  by rewrite hasOwnProperty_hidden by done.
Qed.

(** C9. Merging an item with itself: for an item that has an attribute
    named hasOwnProperty the function does not return the item but
    throws a [TypeError], at the first attribute it looks up in the
    lca. *)
Theorem threeWayMerge_of_item_with_hasOwnProperty_throws
    (x : Obj.t V) (lcaB : option (Obj.t V)) :
  has "hasOwnProperty" x = true ->
  _threeWayMerge JSON_stringify x x x lcaB
  = Err (TypeError "lca.hasOwnProperty is not a function").
Proof.
  intros Hx. unfold _threeWayMerge. rewrite keysItemA_loop_throws; [done| |done].
  by intros ->.
Qed.

(** C4. Whatever was deleted on one side: when the lca has an attribute
    named hasOwnProperty and side A has any attribute, the function
    returns neither a merged item nor a conflict list but throws a
    [TypeError]. *)
Theorem threeWayMerge_throws_when_lca_has_hasOwnProperty
    (itemA itemB lca : Obj.t V) (lcaB : option (Obj.t V)) :
  has "hasOwnProperty" lca = true -> itemA <> [] ->
  _threeWayMerge JSON_stringify itemA itemB lca lcaB
  = Err (TypeError "lca.hasOwnProperty is not a function").
Proof.
  intros Hl Hne. unfold _threeWayMerge. by rewrite keysItemA_loop_throws.
Qed.

End ThreeWayMergeFacts.

(** *** The merge on concrete documents *)

Example merge_drops_deleted :
  _threeWayMerge Some doc_without_b doc_lca doc_lca None = Ok (Merged doc_without_b) /\
  _threeWayMerge Some doc_lca doc_without_b doc_lca None = Ok (Merged doc_without_b).
Proof. split; reflexivity. Qed.

Example merge_delete_against_change :
  _threeWayMerge Some doc_without_b doc_b_changed doc_lca None = Ok (Conflicts ["b"]) /\
  _threeWayMerge Some doc_b_changed doc_without_b doc_lca None = Ok (Conflicts ["b"]).
Proof. split; reflexivity. Qed.

(** An attribute named like an array index is enumerated first. *)
Example merge_adds_index_key_first :
  _threeWayMerge Some [("a", "1"); ("b", "2")] [("7", "x"); ("a", "1")] [("a", "1")] None
  = Ok (Merged [("7", "x"); ("a", "1"); ("b", "2")]).
Proof. reflexivity. Qed.

Lemma threeWayMerge_of_item_with_hasOwnProperty_throws_witness :
  _threeWayMerge Some doc_hasOwnProperty doc_hasOwnProperty doc_hasOwnProperty None
  = Err (TypeError "lca.hasOwnProperty is not a function").
Proof.
  apply (threeWayMerge_of_item_with_hasOwnProperty_throws Some doc_hasOwnProperty None).
  reflexivity.
Defined.

Lemma threeWayMerge_throws_when_lca_has_hasOwnProperty_witness :
  _threeWayMerge Some doc_without_b doc_hasOwnProperty doc_hasOwnProperty None
  = Err (TypeError "lca.hasOwnProperty is not a function").
Proof.
  apply (threeWayMerge_throws_when_lca_has_hasOwnProperty Some
           doc_without_b doc_hasOwnProperty doc_hasOwnProperty None).
  - reflexivity.
  - discriminate.
Defined.

(** ** Ancestry check *)

Section AncestryFacts.
Context {V : Type}.
Implicit Types (item prev root : vitem V) (st : ancestry (V := V)).

Lemma checkAncestry_loop_app (l1 l2 : list (vitem V)) st :
  checkAncestry_loop (l1 ++ l2) st =
  (st' ← checkAncestry_loop l1 st; checkAncestry_loop l2 st').
Proof.
  revert st. induction l1 as [|item l1 IH]; intros st; simpl; [done|].
  destruct (checkAncestry_step st item) as [st'|e]; simpl; [apply IH | done].
Qed.

Lemma same_node_with_pa pa item : same_node (with_pa pa item) item.
Proof. done. Qed.

Lemma dag_of_Some (DAGs : gmap string (list (vitem V))) id dag :
  dag_of DAGs id = Some dag ->
  dag = default [] (DAGs !! id) /\ (DAGs !! id = None -> inherited id = false).
Proof.
  unfold dag_of. destruct (DAGs !! id) as [d|]; simpl.
  - intros [= <-]. by split.
  - destruct (inherited id); [done|]. intros [= <-]. by split.
Qed.

Lemma dag_of_None (DAGs : gmap string (list (vitem V))) id :
  dag_of DAGs id = None -> inherited id = true.
Proof.
  unfold dag_of. destruct (DAGs !! id) as [d|]; [done|]. by destruct (inherited id).
Qed.

Lemma dag_of_plain (DAGs : gmap string (list (vitem V))) id :
  inherited id = false -> dag_of DAGs id = Some (default [] (DAGs !! id)).
Proof. unfold dag_of. intros ->. by destruct (DAGs !! id). Qed.

Lemma dag_of_own (DAGs : gmap string (list (vitem V))) id dag :
  DAGs !! id = Some dag -> dag_of DAGs id = Some dag.
Proof. unfold dag_of. by intros ->. Qed.

Lemma ancestry_inv_extend batch st item item' :
  ancestry_inv batch st -> same_node item' item ->
  ancestry_inv (batch ++ [item])
    (st.1.1 ++ [item'],
     <[_id_id (_id item) := default [] (st.1.2 !! _id_id (_id item)) ++ [item']]>
       st.1.2,
     {[_id_id (_id item)]} ∪ st.2).
Proof.
  intros [Hdag Hall] Hsame. split; simpl.
  - intros id. rewrite filter_app, filter_cons, filter_nil.
    destruct Hsame as (Hid & _ & _).
    destruct (decide (_id_id (_id item) = id)) as [<-|Hne].
    + rewrite lookup_insert_eq. simpl. rewrite Hdag.
      by rewrite decide_True by done.
    + rewrite lookup_insert_ne by done. rewrite Hdag.
      rewrite decide_False by congruence. by rewrite app_nil_r.
  - apply Forall2_app; [done|]. by apply Forall2_cons.
Qed.

Lemma checkAncestry_step_inv batch st item st' :
  ancestry_inv batch st -> checkAncestry_step st item = Ok st' ->
  ancestry_inv (batch ++ [item]) (st'.1.1, st'.1.2, st.2 ∪ st'.2)
  /\ exists item', st'.1.1 = st.1.1 ++ [item'] /\ same_node item' item.
Proof.
  intros Hinv. destruct st as [[allItems DAGs] newRoots].
  unfold checkAncestry_step.
  pose proof (ancestry_inv_extend batch (allItems, DAGs, newRoots) item) as Hext.
  simpl in Hext.
  destruct (dag_of DAGs (_id_id (_id item))) as [dag|] eqn:Hdag; [|done].
  apply dag_of_Some in Hdag as [-> _].
  destruct (_pa (_id item)) as [|p pa] eqn:Hpa.
  - destruct (last _) as [prev|] eqn:Hlast.
    + destruct (_d (_id prev)); [|done]. intros [= <-]. simpl. split.
      * destruct (Hext (with_pa [_v (_id prev)] item) Hinv
                    (same_node_with_pa _ _)) as [H1 H2].
        split; [exact H1 | exact H2].
      * eexists. split; [done | apply same_node_with_pa].
    + intros [= <-]. simpl. split.
      * destruct (Hext item Hinv) as [H1 H2]; [done|]. split; [exact H1 | exact H2].
      * by eexists.
  - intros [= <-]. simpl. split.
    + destruct (Hext item Hinv) as [H1 H2]; [done|]. split; [exact H1 | exact H2].
    + by eexists.
Qed.

Lemma checkAncestry_loop_inv items batch st st' :
  ancestry_inv batch st -> checkAncestry_loop items st = Ok st' ->
  exists roots, ancestry_inv (batch ++ items) (st'.1.1, st'.1.2, roots).
Proof.
  revert batch st. induction items as [|item items IH]; intros batch st Hinv; simpl.
  - intros [= <-]. exists st.2. rewrite app_nil_r. by destruct st as [[? ?] ?].
  - destruct (checkAncestry_step st item) as [st1|e] eqn:Hstep; simpl; [|done].
    intros Hloop.
    destruct (checkAncestry_step_inv _ _ _ _ Hinv Hstep) as [Hinv1 _].
    assert (ancestry_inv (batch ++ [item]) st1) as Hinv1'.
    { destruct st1 as [[? ?] ?]. exact Hinv1. }
    destruct (IH _ _ Hinv1' Hloop) as [roots Hinv2].
    exists roots. by rewrite <- app_assoc in Hinv2.
Qed.

Lemma checkAncestry_inv batch st :
  _checkAncestry batch = Ok st -> ancestry_inv batch st.
Proof.
  intros H. destruct (checkAncestry_loop_inv batch [] ([], ∅, ∅) st) as [roots Hinv].
  - split; simpl; [intros id; by rewrite lookup_empty | constructor].
  - exact H.
  - destruct st as [[? ?] ?]. exact Hinv.
Qed.

(** The item that precedes a new item of the same id in its DAG. *)
Lemma preceding_item before prev between st id :
  _id_id (_id prev) = id ->
  Forall (fun it => _id_id (_id it) ≠ id) between ->
  _checkAncestry (before ++ prev :: between) = Ok st ->
  exists prev', last (default [] (st.1.2 !! id)) = Some prev' /\ same_node prev' prev.
Proof.
  intros Hid Hbetween Hok. destruct (checkAncestry_inv _ _ Hok) as [Hdag Hall].
  rewrite Hdag.
  apply Forall2_app_inv_r in Hall as (a1 & a2 & Ha1 & Ha2 & ->).
  apply Forall2_cons_inv_r in Ha2 as (prev' & a3 & Hsame & Ha3 & ->).
  exists prev'. split; [|done].
  rewrite filter_app, filter_cons.
  destruct Hsame as (Hid' & _ & _).
  rewrite decide_True by congruence.
  assert (filter (fun it : vitem V => _id_id (_id it) = id) a3 = []) as ->.
  { clear -Ha3 Hbetween. revert between Ha3 Hbetween.
    induction a3 as [|a a3 IH]; intros between Ha3 Hbetween; [done|].
    apply Forall2_cons_inv_l in Ha3 as (b & between' & (Hab & _ & _) & Ha3 & ->).
    apply Forall_cons in Hbetween as [Hb Hbetween].
    rewrite filter_cons, decide_False by congruence. by eapply IH. }
  by rewrite last_snoc.
Qed.

End AncestryFacts.

(** ** A new root after a deletion *)

Section ReconnectFacts.
Context {V : Type}.

Lemma checkAncestry_root_step (st : ancestry (V := V)) (root prev' : vitem V) :
  _pa (_id root) = [] ->
  last (default [] (st.1.2 !! _id_id (_id root))) = Some prev' ->
  checkAncestry_step st root =
  if _d (_id prev') then
    Ok (st.1.1 ++ [with_pa [_v (_id prev')] root],
        <[_id_id (_id root) :=
            default [] (st.1.2 !! _id_id (_id root))
            ++ [with_pa [_v (_id prev')] root]]> st.1.2,
        {[_id_id (_id root)]} ∪ st.2)
  else Err RootPreceded.
Proof.
  intros Hpa Hlast. destruct st as [[allItems DAGs] newRoots]. simpl in *.
  destruct (DAGs !! _id_id (_id root)) as [dag|] eqn:Hdag; [|done].
  rewrite (dag_of_own _ _ _ Hdag). simpl in Hlast. by rewrite Hpa, Hlast.
Qed.

(** X26. A new root after a deletion.  In the ancestry check a new root
    (no parents) of an id that has a preceding item in the accepted part
    of the batch is accepted only when that item is a deletion, and then
    gets the deletion's version as its first parent; otherwise the batch
    fails with 'root preceded'.  [_mergeNewHeads] reconnects a new root
    to a deleted local head in the same way, and hands it on. *)
Theorem new_root_reconnects_to_tombstone
    (before between : list (vitem V)) (prev root : vitem V)
    (localPerspective : string) (proceedOnError : bool)
    (snapshot : list (vitem V))
    (_merge : vitem V -> vitem V -> result error (list (vitem V)))
    (pseudoRandomBytes : nat -> list Byte.byte)
    (newRoots : gset string) (mst : merge_heads_state)
    (head localHead : vitem V) :
  (forall st,
     _id_id (_id prev) = _id_id (_id root) ->
     Forall (fun it => _id_id (_id it) ≠ _id_id (_id root)) between ->
     _pa (_id root) = [] ->
     _checkAncestry (before ++ prev :: between) = Ok st ->
     (_d (_id prev) = true ->
      exists st', _checkAncestry (before ++ prev :: between ++ [root]) = Ok st' /\
                  last st'.1.1 = Some (with_pa [_v (_id prev)] root)) /\
     (_d (_id prev) = false ->
      forall after,
        _checkAncestry (before ++ prev :: between ++ root :: after)
        = Err RootPreceded))
  /\
  (findOne_last
     (fun item => bool_decide (_id_id (_id item) = _id_id (_id head))
                  && bool_decide (_pe (_id item) = localPerspective))
     snapshot = Some localHead ->
   _id_id (_id head) ∈ newRoots \/ inherited (_id_id (_id head)) = true ->
   _pa (_id head) = [] ->
   _d (_id localHead) = true ->
   mergeNewHeads_step localPerspective proceedOnError snapshot _merge
     pseudoRandomBytes newRoots mst head
   = Ok {| heads_seen := heads_seen mst ++ [with_pa [_v (_id localHead)] head];
           newlyAddedItems := newlyAddedItems mst;
           drawn := drawn mst |}).
Proof.
  split.
  - intros st Hid Hbetween Hpa Hok.
    destruct (preceding_item _ _ _ _ _ Hid Hbetween Hok)
      as (prev' & Hlast & _ & Hv & Hd).
    pose proof (checkAncestry_root_step st root prev' Hpa Hlast) as Hstep.
    rewrite Hd, Hv in Hstep.
    assert (forall l, before ++ prev :: between ++ l
                      = (before ++ prev :: between) ++ l) as Happ.
    { intros l. by rewrite <- app_assoc. }
    split; intros Hdel; rewrite Hdel in Hstep.
    + eexists. split.
      * rewrite Happ. unfold _checkAncestry in *.
        rewrite checkAncestry_loop_app, Hok. simpl. rewrite Hstep. done.
      * simpl. apply last_snoc.
    + intros after. rewrite Happ. unfold _checkAncestry in *.
      rewrite checkAncestry_loop_app, Hok. simpl. by rewrite Hstep.
  - intros Hfind Hroot Hpa Hdel. unfold mergeNewHeads_step, next_head.
    rewrite Hfind, Hpa, Hdel.
    assert (bool_decide (_id_id (_id head) ∈ newRoots)
            || inherited (_id_id (_id head)) = true) as ->.
    { apply orb_true_iff. destruct Hroot as [?|?]; [left|by right].
      by apply bool_decide_eq_true. }
    simpl. by destruct (bool_decide _).
Qed.

End ReconnectFacts.

Example checkAncestry_root_after_live_item :
  _checkAncestry [node "I" "A" [] false 0; node "I" "C" [] false 0]
  = Err RootPreceded.
Proof. reflexivity. Qed.

Lemma new_root_reconnects_to_tombstone_witness :
  (exists st',
     _checkAncestry [node "I" "A" [] false 0; node "I" "B" ["A"] true 0;
                     node "I" "C" [] false 0] = Ok st' /\
     last st'.1.1 = Some (node "I" "C" ["B"] false 0)) /\
  (forall after,
     _checkAncestry (node "I" "A" [] false 0 :: node "I" "C" [] false 0 :: after)
     = Err RootPreceded) /\
  mergeNewHeads_step "_local" false [node "_local" "B" ["A"] true 2]
    no_merge zero_bytes {["foo"]} fresh_state (node "_local" "C" [] false 0)
  = Ok {| heads_seen := [node "_local" "C" ["B"] false 0];
          newlyAddedItems := []; drawn := 0 |}.
Proof.
  split; [|split].
  - eapply (proj1 (new_root_reconnects_to_tombstone
                     [node "I" "A" [] false 0] [] (node "I" "B" ["A"] true 0)
                     (node "I" "C" [] false 0)
                     "_local" false [] no_merge zero_bytes ∅ fresh_state
                     (node "I" "C" [] false 0) (node "I" "C" [] false 0))).
    + reflexivity.
    + constructor.
    + reflexivity.
    + vm_compute. reflexivity.
    + reflexivity.
  - eapply (proj1 (new_root_reconnects_to_tombstone
                     [] [] (node "I" "A" [] false 0) (node "I" "C" [] false 0)
                     "_local" false [] no_merge zero_bytes ∅ fresh_state
                     (node "I" "C" [] false 0) (node "I" "C" [] false 0))).
    + reflexivity.
    + constructor.
    + reflexivity.
    + vm_compute. reflexivity.
    + reflexivity.
  - apply (proj2 (new_root_reconnects_to_tombstone
                    [] [] (node "I" "A" [] false 0) (node "I" "C" [] false 0)
                    "_local" false [node "_local" "B" ["A"] true 2]
                    no_merge zero_bytes {["foo"]} fresh_state
                    (node "_local" "C" [] false 0)
                    (node "_local" "B" ["A"] true 2))).
    + reflexivity.
    + left. apply elem_of_singleton. reflexivity.
    + reflexivity.
    + reflexivity.
Defined.

(** ** Heads of a batch and conflict marking *)

Section HeadsFacts.
Context {V : Type}.
Implicit Types (item : vitem V) (items : list (vitem V))
  (heads deleted : Obj.t (vitem V)).
Import Obj ObjFacts.

Lemma set_conflict_mark item :
  has_m3 item -> set_conflict item = Ok (mark_conflict item).
Proof. intros [m Hm]. unfold set_conflict, mark_conflict. by rewrite Hm. Qed.

Lemma mark_conflict_conflicted item :
  has_m3 item -> not_conflicted (mark_conflict item) = false.
Proof. intros [m Hm]. unfold mark_conflict, not_conflicted. by rewrite Hm. Qed.

Lemma markConflicts_rest_ok items :
  Forall has_m3 items -> markConflicts_rest items = Ok (map mark_conflict items).
Proof.
  induction 1 as [|item items Hm _ IH]; simpl; [done|].
  by rewrite set_conflict_mark, IH.
Qed.

(** *** The bootstrap loop *)

Lemma bootstrap_loop_spec id items heads heads' :
  branchHeads_bootstrap_loop id false items heads = Ok heads' ->
  Forall (fun it => _id_id (_id it) = id) items /\
  (forall k it, (k, it) ∈ heads' ->
     (k, it) ∈ heads \/ (it ∈ items /\ k = _v (_id it) /\ not_conflicted it = true)).
Proof.
  revert heads. induction items as [|item items IH]; intros heads; simpl.
  - intros [= <-]. split; [constructor | by left].
  - unfold branchHeads_bootstrap at 1.
    case_bool_decide as Hid; simpl; [|done].
    intros Hloop. apply IH in Hloop as [Hids Hheads].
    split; [by constructor|].
    intros k it Hin. apply Hheads in Hin as [Hin|(Hin & Hk & Hc)].
    + rewrite orb_false_r in Hin.
      destruct (not_conflicted item) eqn:Hnc.
      * apply elem_of_set in Hin as [[= -> ->]|Hin]; [|by left].
        right. split_and!; [apply list_elem_of_here | done | done].
      * by left.
    + right. split_and!; [by apply list_elem_of_further | done | done].
Qed.

(** *** The elimination loop *)

Lemma parents_heads id (pa : list string) heads deleted :
  (fold_left (branchHeads_parent (V := V) id) pa (heads, deleted)).1
  = fold_left (fun h p => del p h) pa heads.
Proof.
  revert heads deleted. induction pa as [|p pa IH]; intros heads deleted; [done|].
  simpl. apply IH.
Qed.

Lemma dels_subset (pa : list string) heads kv :
  kv ∈ fold_left (fun h p => del p h) pa heads -> kv ∈ heads.
Proof.
  revert heads. induction pa as [|p pa IH]; intros heads; simpl; [done|].
  intros H. apply IH in H. by apply elem_of_del in H.
Qed.

Lemma dels_absent (pa : list string) heads k :
  get k heads = None -> get k (fold_left (fun h p => del p h) pa heads) = None.
Proof.
  revert heads. induction pa as [|p pa IH]; intros heads H; simpl; [done|].
  by apply IH, get_del_None.
Qed.

Lemma eliminate_fst heads deleted item :
  (branchHeads_eliminate (heads, deleted) item).1 = eliminate_heads heads item.
Proof.
  unfold branchHeads_eliminate, eliminate_heads.
  destruct (_d (_id item)); destruct (_pa (_id item)) as [|p pa] eqn:Hpa;
    try done; by rewrite parents_heads.
Qed.

Lemma eliminate_loop_fst items heads deleted :
  (fold_left branchHeads_eliminate items (heads, deleted)).1
  = fold_left eliminate_heads items heads.
Proof.
  revert heads deleted. induction items as [|item items IH]; intros heads deleted;
    [done|].
  cbn [fold_left].
  destruct (branchHeads_eliminate (heads, deleted) item) as [h d] eqn:E.
  rewrite IH. f_equal. by rewrite <- (eliminate_fst heads deleted), E.
Qed.

Lemma eliminate_heads_subset heads item kv :
  kv ∈ eliminate_heads heads item -> kv ∈ heads.
Proof.
  unfold eliminate_heads. intros H. apply dels_subset in H.
  destruct (_d (_id item)); [by apply elem_of_del in H | done].
Qed.

Lemma eliminate_heads_absent heads item k :
  get k heads = None -> get k (eliminate_heads heads item) = None.
Proof.
  intros H. unfold eliminate_heads. apply dels_absent.
  destruct (_d (_id item)); [by apply get_del_None | done].
Qed.

Lemma eliminate_loop_subset items heads kv :
  kv ∈ fold_left eliminate_heads items heads -> kv ∈ heads.
Proof.
  revert heads. induction items as [|item items IH]; intros heads; simpl; [done|].
  intros H. by apply IH, eliminate_heads_subset in H.
Qed.

Lemma eliminate_loop_absent items heads k :
  get k heads = None -> get k (fold_left eliminate_heads items heads) = None.
Proof.
  revert heads. induction items as [|item items IH]; intros heads H; simpl; [done|].
  by apply IH, eliminate_heads_absent.
Qed.

(** The version of a deleted item is no head. *)
Lemma eliminate_loop_deleted items heads item :
  item ∈ items -> _d (_id item) = true ->
  get (_v (_id item)) (fold_left eliminate_heads items heads) = None.
Proof.
  revert heads. induction items as [|item' items IH]; intros heads Hin Hd; simpl.
  - by apply elem_of_nil in Hin.
  - apply elem_of_cons in Hin as [<-|Hin]; [|by apply IH].
    apply eliminate_loop_absent. unfold eliminate_heads. rewrite Hd.
    apply dels_absent, get_del_eq.
Qed.

(** *** The tombstone that is kept *)

Lemma deleted_inv_del id items deleted k :
  deleted_inv id items deleted -> deleted_inv id items (del k deleted).
Proof.
  intros [Hwf Hall]. split; [by apply wf_del|].
  intros k' it Hin. apply elem_of_del in Hin. by apply Hall.
Qed.

Lemma deleted_inv_set id items deleted item :
  deleted_inv id items deleted -> _d (_id item) = true -> item ∈ items ->
  deleted_inv id items (set id item deleted).
Proof.
  intros [Hwf Hall] Hd Hin. split; [by apply wf_set|].
  intros k' it Hin'. apply elem_of_set in Hin' as [[= -> ->]|Hin']; [done|].
  by apply Hall.
Qed.

Lemma parents_deleted_inv id items (pa : list string) heads deleted :
  deleted_inv id items deleted ->
  deleted_inv id items
    (fold_left (branchHeads_parent (V := V) id) pa (heads, deleted)).2.
Proof.
  revert heads deleted. induction pa as [|p pa IH]; intros heads deleted Hinv;
    [done|].
  simpl. apply IH. destruct (get id deleted) as [tomb|]; [|done].
  case_bool_decide; [by apply deleted_inv_del | done].
Qed.

Lemma eliminate_deleted_inv id items heads deleted item :
  deleted_inv id items deleted -> _id_id (_id item) = id -> item ∈ items ->
  deleted_inv id items (branchHeads_eliminate (heads, deleted) item).2.
Proof.
  intros Hinv Hid Hin. unfold branchHeads_eliminate. rewrite Hid.
  destruct (_d (_id item)) eqn:Hd.
  - pose proof (deleted_inv_set _ _ _ _ Hinv Hd Hin) as Hinv'.
    destruct (_pa (_id item)) as [|p pa]; [by apply deleted_inv_del|].
    by apply parents_deleted_inv.
  - destruct (_pa (_id item)) as [|p pa]; [by apply deleted_inv_del|].
    by apply parents_deleted_inv.
Qed.

Lemma eliminate_loop_deleted_inv id all items heads deleted :
  deleted_inv id all deleted ->
  Forall (fun it => _id_id (_id it) = id /\ it ∈ all) items ->
  deleted_inv id all (fold_left branchHeads_eliminate items (heads, deleted)).2.
Proof.
  revert heads deleted. induction items as [|item items IH];
    intros heads deleted Hinv Hall; [done|].
  apply Forall_cons in Hall as [[Hid Hin] Hall]. cbn [fold_left].
  pose proof (eliminate_deleted_inv id all heads deleted item Hinv Hid Hin) as H.
  destruct (branchHeads_eliminate (heads, deleted) item) as [h d].
  by apply IH.
Qed.

Lemma deleted_inv_length id items deleted :
  deleted_inv id items deleted -> length deleted <= 1.
Proof.
  intros [Hwf Hall]. unfold wf, keys in Hwf.
  destruct deleted as [|[k1 it1] [|[k2 it2] deleted]]; simpl; [lia|lia|].
  exfalso.
  destruct (Hall k1 it1) as [-> _]; [apply list_elem_of_here|].
  destruct (Hall k2 it2) as [-> _];
    [apply list_elem_of_further, list_elem_of_here|].
  simpl in Hwf. apply NoDup_cons in Hwf as [Hnotin _].
  apply Hnotin, list_elem_of_here.
Qed.

(** *** What [_branchHeads] returns for a batch

    Heads that are neither deleted nor in conflict, in the order in
    which their versions arrived, followed by at most one tombstone. *)
Lemma branchHeads_shape_loops id items heads0 heads deleted :
  branchHeads_bootstrap_loop id false items [] = Ok heads0 ->
  fold_left branchHeads_eliminate items (heads0, []) = (heads, deleted) ->
  Forall (fun h => _d (_id h) = false /\ not_conflicted h = true /\ h ∈ items)
    (map snd heads) /\
  Forall (fun h => _d (_id h) = true /\ h ∈ items) (map snd deleted) /\
  length (map snd deleted) <= 1 /\
  Forall (fun it => _id_id (_id it) = id) items.
Proof.
  intros Hboot Hloop.
  apply bootstrap_loop_spec in Hboot as [Hids Hheads0].
  pose proof (f_equal fst Hloop) as Hfst. pose proof (f_equal snd Hloop) as Hsnd.
  simpl in Hfst, Hsnd.
  assert (heads = fold_left eliminate_heads items heads0) as Hh.
  { rewrite <- Hfst. apply eliminate_loop_fst. }
  assert (deleted_inv id items deleted) as Hdel.
  { rewrite <- Hsnd. apply eliminate_loop_deleted_inv.
    - split; [apply NoDup_nil_2 | intros k it Hin; by apply elem_of_nil in Hin].
    - apply Forall_forall. intros it Hin. split; [|done].
      by apply (proj1 (Forall_forall _ _) Hids). }
  split_and!.
  - apply Forall_forall. intros h Hin.
    apply list_elem_of_fmap in Hin as ([k it] & -> & Hin). simpl.
    assert ((k, it) ∈ heads0) as Hin0.
    { rewrite Hh in Hin. by apply eliminate_loop_subset in Hin. }
    apply Hheads0 in Hin0 as [Hin0|(Hit & Hk & Hnc)];
      [by apply elem_of_nil in Hin0|].
    split_and!; [|done|done].
    destruct (_d (_id it)) eqn:Hd; [|done]. exfalso.
    pose proof (eliminate_loop_deleted items heads0 it Hit Hd) as Habs.
    rewrite <- Hh, <- Hk in Habs. apply get_None_keys in Habs. apply Habs.
    by apply (list_elem_of_fmap_2 fst) in Hin.
  - apply Forall_forall. intros h Hin.
    apply list_elem_of_fmap in Hin as ([k it] & -> & Hin). simpl.
    destruct Hdel as [_ Hall]. by destruct (Hall k it Hin) as (_ & ? & ?).
  - rewrite length_map. by eapply deleted_inv_length.
  - exact Hids.
Qed.

(** *** The loops as the source runs them *)

Lemma eliminate_parent_Ok id (st st' : Obj.t (vitem V) * Obj.t (vitem V)) p :
  eliminate_parent id st p = Ok st' -> st' = branchHeads_parent id st p.
Proof.
  destruct st as [hs ds]. unfold eliminate_parent, branchHeads_parent.
  destruct (get id ds); [by intros [= <-]|].
  destruct (inherited id); [done | by intros [= <-]].
Qed.

Lemma eliminate_parent_Err id (st : Obj.t (vitem V) * Obj.t (vitem V)) p e :
  eliminate_parent id st p = Err e ->
  inherited id = true /\ e = TypeError "Cannot read property '_v' of undefined".
Proof.
  destruct st as [hs ds]. unfold eliminate_parent.
  destruct (get id ds); [done|].
  destruct (inherited id); [by intros [= <-] | done].
Qed.

Lemma eliminate_parent_plain id (st : Obj.t (vitem V) * Obj.t (vitem V)) p :
  inherited id = false -> eliminate_parent id st p = Ok (branchHeads_parent id st p).
Proof.
  intros Hid. destruct st as [hs ds]. unfold eliminate_parent, branchHeads_parent.
  rewrite Hid. by destruct (get id ds).
Qed.

Lemma forEach_Ok {A S : Type} (body : S -> A -> result error S) (f : S -> A -> S)
    (l : list A) (st st' : S) :
  (forall st x st', body st x = Ok st' -> st' = f st x) ->
  forEach body l st = Ok st' -> st' = fold_left f l st.
Proof.
  intros Hbody. revert st. induction l as [|x l IH]; intros st; simpl.
  - by intros [= <-].
  - destruct (body st x) as [st1|] eqn:Hb; [|done]. simpl.
    intros Hl. apply Hbody in Hb as ->. by apply IH.
Qed.

Lemma forEach_Err {A S : Type} (body : S -> A -> result error S) (l : list A)
    (st : S) e :
  forEach body l st = Err e -> exists st1 x, x ∈ l /\ body st1 x = Err e.
Proof.
  revert st. induction l as [|x l IH]; intros st; simpl; [done|].
  destruct (body st x) as [st1|e'] eqn:Hb; simpl.
  - intros (st2 & y & Hy & He)%IH. exists st2, y.
    split; [by apply list_elem_of_further | done].
  - intros [= <-]. exists st, x. split; [apply list_elem_of_here | done].
Qed.

Lemma eliminate_item_Ok (st st' : Obj.t (vitem V) * Obj.t (vitem V)) item :
  eliminate_item st item = Ok st' -> st' = branchHeads_eliminate st item.
Proof.
  destruct st as [hs ds]. unfold eliminate_item, branchHeads_eliminate.
  destruct (_d (_id item)); destruct (_pa (_id item)) as [|p pa];
    try (by intros [= <-]);
    apply (forEach_Ok _ (branchHeads_parent (_id_id (_id item))));
    intros ? ? ?; apply eliminate_parent_Ok.
Qed.

Lemma eliminate_item_Err (st : Obj.t (vitem V) * Obj.t (vitem V)) item e :
  eliminate_item st item = Err e ->
  inherited (_id_id (_id item)) = true /\
  e = TypeError "Cannot read property '_v' of undefined".
Proof.
  destruct st as [hs ds]. unfold eliminate_item.
  destruct (_d (_id item)); destruct (_pa (_id item)) as [|p pa]; try done.
  all: intros (st1 & x & _ & He)%forEach_Err; by apply eliminate_parent_Err in He.
Qed.

Lemma eliminate_item_plain (st : Obj.t (vitem V) * Obj.t (vitem V)) item :
  inherited (_id_id (_id item)) = false ->
  eliminate_item st item = Ok (branchHeads_eliminate st item).
Proof.
  intros Hid. destruct st as [hs ds]. unfold eliminate_item, branchHeads_eliminate.
  destruct (_d (_id item)); destruct (_pa (_id item)) as [|p pa]; try done.
  all: apply forEach_fold; intros; by apply eliminate_parent_plain.
Qed.

Lemma eliminate_items_plain items (st : Obj.t (vitem V) * Obj.t (vitem V)) :
  Forall (fun it => inherited (_id_id (_id it)) = false) items ->
  forEach eliminate_item items st = Ok (fold_left branchHeads_eliminate items st).
Proof.
  intros Hids. revert st. induction Hids as [|item items Hid _ IH]; intros st; [done|].
  cbn [forEach fold_left]. rewrite eliminate_item_plain by done. simpl. apply IH.
Qed.

(** The enumeration of an object of items gives the items, unless an
    item is under the key hasOwnProperty. *)
Lemma push_own_prefix (name : string) (o l : Obj.t (vitem V)) (values : list (vitem V)) :
  (forall kv, kv ∈ l -> has kv.1 o = true) ->
  forEach (fun values (kv : string * vitem V) =>
             own ← hasOwnProperty name o kv.1;
             Ok (if (own : bool) then values ++ [kv.2] else values)) l values
  = if has "hasOwnProperty" o && negb (is_nil l)
    then Err (TypeError (name ++ ".hasOwnProperty is not a function"))
    else Ok (values ++ map snd l).
Proof.
  revert values. induction l as [|kv l IH]; intros values Hall.
  - cbn [forEach is_nil negb map]. by rewrite andb_false_r, app_nil_r.
  - cbn [forEach is_nil negb map]. rewrite andb_true_r.
    assert (forall st, forEach (fun values (kv : string * vitem V) =>
             own ← hasOwnProperty name o kv.1;
             Ok (if (own : bool) then values ++ [kv.2] else values)) l st
      = if has "hasOwnProperty" o && negb (is_nil l)
        then Err (TypeError (name ++ ".hasOwnProperty is not a function"))
        else Ok (st ++ map snd l)) as IH'.
    { intros st. apply IH. intros kv' Hkv'. by apply Hall, list_elem_of_further. }
    destruct (hasOwnProperty name o kv.1) as [own|e] eqn:Hk;
      unfold hasOwnProperty in Hk;
      destruct (has "hasOwnProperty" o) eqn:Hh; try done; cbn [mbind result_bind].
    + injection Hk as <-. rewrite (Hall kv) by apply list_elem_of_here.
      rewrite IH'. cbn [andb]. by rewrite <- app_assoc.
    + by injection Hk as <-.
Qed.

Lemma push_own_spec (name : string) (o : Obj.t (vitem V)) (values : list (vitem V)) :
  push_own name o values
  = if has "hasOwnProperty" o
    then Err (TypeError (name ++ ".hasOwnProperty is not a function"))
    else Ok (values ++ map snd o).
Proof.
  unfold push_own. rewrite push_own_prefix.
  - destruct (has "hasOwnProperty" o) eqn:Hh; [|done].
    destruct o; [done|done].
  - intros [k v] Hkv. apply has_true. by apply (list_elem_of_fmap_2 fst) in Hkv.
Qed.

Lemma branchHeads_Ok items hs :
  _branchHeads items true false = Ok hs ->
  exists heads0 heads deleted,
    branchHeads_bootstrap_loop (from_option (fun it => _id_id (_id it)) "" (head items))
      false items [] = Ok heads0 /\
    fold_left branchHeads_eliminate items (heads0, []) = (heads, deleted) /\
    hs = map snd heads ++ map snd deleted.
Proof.
  unfold _branchHeads. destruct items as [|first items']; [intros [= <-]|].
  { by exists [], [], []. }
  cbn [head from_option].
  destruct (branchHeads_bootstrap_loop _ false (first :: items') [])
    as [heads0|e] eqn:Hboot; cbn [mbind result_bind]; [|done].
  destruct (forEach eliminate_item (first :: items') (heads0, []))
    as [[heads deleted]|e] eqn:Hloop; cbn [mbind result_bind]; [|done].
  apply (forEach_Ok _ branchHeads_eliminate) in Hloop;
    [|intros ? ? ?; apply eliminate_item_Ok].
  rewrite push_own_spec.
  destruct (has "hasOwnProperty" heads); [done|]. cbn [mbind result_bind app].
  rewrite push_own_spec.
  destruct (has "hasOwnProperty" deleted); [done|]. intros [= <-].
  by exists heads0, heads, deleted.
Qed.

Lemma branchHeads_shape items hs :
  _branchHeads items true false = Ok hs ->
  exists live dead,
    hs = live ++ dead /\
    Forall (fun h => _d (_id h) = false /\ not_conflicted h = true /\ h ∈ items) live /\
    Forall (fun h => _d (_id h) = true /\ h ∈ items) dead /\
    length dead <= 1 /\
    (forall first, head items = Some first ->
       Forall (fun it => _id_id (_id it) = _id_id (_id first)) items).
Proof.
  intros (heads0 & heads & deleted & Hboot & Hloop & ->)%branchHeads_Ok.
  exists (map snd heads), (map snd deleted).
  destruct (branchHeads_shape_loops _ _ _ _ _ Hboot Hloop) as (H1 & H2 & H3 & H4).
  split_and!; try done. intros first' Hf. by rewrite Hf in H4.
Qed.

(** *** The heads in the order of the batch *)

Lemma dels_cons (pa : list string) k (v : vitem V) heads :
  fold_left (fun h p => del p h) pa ((k, v) :: heads)
  = if bool_decide (k ∈ pa) then fold_left (fun h p => del p h) pa heads
    else (k, v) :: fold_left (fun h p => del p h) pa heads.
Proof.
  revert heads. induction pa as [|p pa IH]; intros heads; [done|].
  cbn [fold_left del]. destruct (decide (p = k)) as [->|Hne].
  - by rewrite bool_decide_true by apply list_elem_of_here.
  - rewrite IH. rewrite (bool_decide_ext (k ∈ p :: pa) (k ∈ pa)); [done|].
    rewrite elem_of_cons. split; [by intros [?|?] | by right].
Qed.

Lemma dels_nil (pa : list string) :
  fold_left (fun (h : Obj.t (vitem V)) p => del p h) pa [] = [].
Proof. induction pa; [done|]. done. Qed.

Lemma eliminate_heads_cons heads k (v : vitem V) item :
  eliminate_heads ((k, v) :: heads) item
  = if kills k item then eliminate_heads heads item
    else (k, v) :: eliminate_heads heads item.
Proof.
  unfold eliminate_heads, kills. destruct (_d (_id item)); cbn [andb del].
  - destruct (decide (_v (_id item) = k)) as [->|Hne].
    + by rewrite bool_decide_true by done.
    + rewrite bool_decide_false by done. cbn [orb]. apply dels_cons.
  - cbn [orb]. apply dels_cons.
Qed.

Lemma eliminate_heads_nil item : eliminate_heads [] item = [].
Proof. unfold eliminate_heads. destruct (_d (_id item)); apply dels_nil. Qed.

Lemma eliminate_loop_nil items : fold_left eliminate_heads items [] = [].
Proof. induction items; [done|]. cbn [fold_left]. by rewrite eliminate_heads_nil. Qed.

Lemma eliminate_loop_cons items heads k (v : vitem V) :
  fold_left eliminate_heads items ((k, v) :: heads)
  = if existsb (kills k) items then fold_left eliminate_heads items heads
    else (k, v) :: fold_left eliminate_heads items heads.
Proof.
  revert heads. induction items as [|item items IH]; intros heads; [done|].
  cbn [fold_left existsb]. rewrite eliminate_heads_cons.
  destruct (kills k item); cbn [orb]; [done|]. apply IH.
Qed.

(** The bootstrap enters the items that are not in conflict, in their
    order, when their versions differ and none is an array index. *)
Lemma bootstrap_loop_exact id items heads :
  Forall (fun it => _id_id (_id it) = id) items ->
  NoDup (keys heads ++ map (fun it => _v (_id it)) items) ->
  Forall (fun it => array_index (_v (_id it)) = None) items ->
  branchHeads_bootstrap_loop id false items heads
  = Ok (heads ++ map (fun it => (_v (_id it), it))
                   (List.filter not_conflicted items)).
Proof.
  intros Hids. revert heads. induction Hids as [|item items Hid _ IH];
    intros heads Hnd Hidx.
  - by rewrite app_nil_r.
  - cbn [branchHeads_bootstrap_loop List.filter]. unfold branchHeads_bootstrap at 1.
    rewrite bool_decide_true by done. cbn [mbind result_bind].
    rewrite orb_false_r. apply Forall_cons in Hidx as [Hi Hidx].
    cbn [map] in Hnd.
    destruct (not_conflicted item).
    + rewrite set_fresh; [| |done].
      * rewrite IH; [by rewrite <- app_assoc| |done].
        unfold keys. rewrite fmap_app. cbn. rewrite <- app_assoc. exact Hnd.
      * apply NoDup_app in Hnd as (_ & Hdisj & _). intros Hin.
        apply (Hdisj _ Hin). apply list_elem_of_here.
    + apply IH; [|done]. apply NoDup_app in Hnd as (H1 & H2 & H3).
      apply NoDup_cons in H3 as [_ H3]. apply NoDup_app. split_and!; [done| |done].
      intros x Hx Hx'. apply (H2 x Hx). by apply list_elem_of_further.
Qed.

Lemma eliminate_loop_exact items (l : list (vitem V)) :
  map snd (fold_left eliminate_heads items (map (fun it => (_v (_id it), it)) l))
  = List.filter (fun h => negb (existsb (kills (_v (_id h))) items)) l.
Proof.
  induction l as [|h l IH]; cbn [map List.filter].
  - by rewrite eliminate_loop_nil.
  - rewrite eliminate_loop_cons.
    destruct (existsb (kills (_v (_id h))) items); cbn [negb map]; by rewrite IH.
Qed.

(** With distinct versions, a version is taken out exactly if its item
    is deleted or a parent of an item. *)
Lemma live_leaf_kills items h :
  NoDup (map (fun it => _v (_id it)) items) -> h ∈ items ->
  not_conflicted h && negb (existsb (kills (_v (_id h))) items) = live_leaf items h.
Proof.
  intros Hnd Hin. unfold live_leaf.
  destruct (not_conflicted h); [|by rewrite andb_false_r].
  cbn [andb]. rewrite andb_true_r.
  destruct (existsb (kills (_v (_id h))) items) eqn:Hk; cbn [negb].
  - symmetry. apply andb_false_iff.
    apply existsb_exists in Hk as (it & Hit & Hkills).
    apply list_elem_of_In in Hit. unfold kills in Hkills.
    apply orb_true_iff in Hkills as [Hdel|Hpa].
    + left. apply andb_true_iff in Hdel as [Hd Hv].
      apply bool_decide_eq_true in Hv.
      assert (it = h) as ->; [|by rewrite Hd].
      clear -Hnd Hit Hin Hv. induction items as [|x items IH].
      * by apply elem_of_nil in Hit.
      * cbn [map] in Hnd. apply NoDup_cons in Hnd as [Hx Hnd].
        apply elem_of_cons in Hit as [->|Hit], Hin as [->|Hin]; try done.
        -- exfalso. apply Hx. apply list_elem_of_fmap. by exists h.
        -- exfalso. apply Hx. apply list_elem_of_fmap. by exists it.
        -- by apply IH.
    + right. apply not_true_iff_false. intros Hall.
      rewrite forallb_forall in Hall. apply list_elem_of_In in Hit.
      specialize (Hall it Hit). by rewrite Hpa in Hall.
  - symmetry. apply andb_true_iff. split.
    + apply negb_true_iff. destruct (_d (_id h)) eqn:Hd; [|done].
      exfalso. apply not_true_iff_false in Hk. apply Hk.
      apply existsb_exists. exists h. split; [by apply list_elem_of_In|].
      unfold kills. by rewrite Hd, bool_decide_true.
    + apply forallb_forall. intros it Hit. apply negb_true_iff.
      destruct (bool_decide (_v (_id h) ∈ _pa (_id it))) eqn:Hp; [|done].
      exfalso. apply not_true_iff_false in Hk. apply Hk.
      apply existsb_exists. exists it. split; [done|].
      unfold kills. by rewrite Hp, orb_true_r.
Qed.

Lemma filter_live_leaf items (l : list (vitem V)) :
  NoDup (map (fun it => _v (_id it)) items) -> Forall (fun h => h ∈ items) l ->
  List.filter (fun h => negb (existsb (kills (_v (_id h))) items))
    (List.filter not_conflicted l)
  = List.filter (live_leaf items) l.
Proof.
  intros Hnd. induction 1 as [|h l Hh _ IH]; [done|].
  cbn [List.filter]. rewrite <- (live_leaf_kills items h) by done.
  destruct (not_conflicted h); cbn [andb List.filter]; [|done].
  destruct (negb _); by rewrite IH.
Qed.

(** The heads of a batch of one document, when the versions differ, none
    is an array index or hasOwnProperty, and the id is not the name of
    an inherited member: the live leaves in the order of the batch,
    then at most one tombstone. *)
Lemma branchHeads_exact items id :
  Forall (fun it => _id_id (_id it) = id) items ->
  inherited id = false ->
  NoDup (map (fun it => _v (_id it)) items) ->
  Forall (fun it => array_index (_v (_id it)) = None) items ->
  Forall (fun it => _v (_id it) <> "hasOwnProperty") items ->
  exists dead,
    _branchHeads items true false = Ok (List.filter (live_leaf items) items ++ dead) /\
    Forall (fun h => _d (_id h) = true /\ h ∈ items) dead /\ length dead <= 1.
Proof.
  intros Hids Hid Hnd Hidx Hown. destruct items as [|first items'].
  { exists []. split_and!; [done|constructor|simpl; lia]. }
  unfold _branchHeads. set (items := first :: items') in *.
  assert (_id_id (_id first) = id) as Hfirst by (by apply Forall_cons in Hids as [? _]).
  rewrite Hfirst.
  pose proof (bootstrap_loop_exact id items [] Hids Hnd Hidx) as Hboot.
  cbn [app] in Hboot. rewrite Hboot. cbn [mbind result_bind].
  rewrite eliminate_items_plain
    by (eapply Forall_impl; [exact Hids|]; intros it ->; exact Hid).
  cbn [mbind result_bind].
  destruct (fold_left branchHeads_eliminate items _) as [heads deleted] eqn:Hloop.
  destruct (branchHeads_shape_loops _ _ _ _ _ Hboot Hloop) as (_ & Hdead & Hlen & _).
  pose proof (f_equal fst Hloop) as Hfst. cbn [fst] in Hfst.
  rewrite eliminate_loop_fst in Hfst.
  assert (map snd heads = List.filter (live_leaf items) items) as Hheads.
  { rewrite <- Hfst, eliminate_loop_exact. apply filter_live_leaf; [done|].
    by apply Forall_forall. }
  assert (has "hasOwnProperty" heads = false) as Hh.
  { destruct (has "hasOwnProperty" heads) eqn:Hh; [|done]. exfalso.
    apply has_true in Hh. rewrite <- Hfst in Hh.
    apply list_elem_of_fmap in Hh as ([k it] & Hk & Hin). cbn in Hk. subst k.
    apply eliminate_loop_subset in Hin.
    apply list_elem_of_fmap in Hin as (it' & [= Hv ->] & Hin).
    apply list_elem_of_In, List.filter_In in Hin as [Hin _].
    apply list_elem_of_In in Hin.
    by apply (proj1 (Forall_forall _ _) Hown it'). }
  assert (has "hasOwnProperty" deleted = false) as Hd.
  { destruct (has "hasOwnProperty" deleted) eqn:Hd; [|done]. exfalso.
    apply has_true in Hd.
    apply list_elem_of_fmap in Hd as ([k it] & Hk & Hin). cbn in Hk. subst k.
    pose proof (f_equal snd Hloop) as Hsnd. cbn [snd] in Hsnd.
    assert (deleted_inv id items deleted) as [_ Hall].
    { rewrite <- Hsnd. apply eliminate_loop_deleted_inv.
      - split; [apply NoDup_nil_2 | intros k it' Hin'; by apply elem_of_nil in Hin'].
      - apply Forall_forall. intros it' Hin'. split; [|done].
        by apply (proj1 (Forall_forall _ _) Hids). }
    destruct (Hall _ _ Hin) as [<- _]. done. }
  rewrite push_own_spec, Hh. cbn [mbind result_bind app].
  rewrite push_own_spec, Hd.
  exists (map snd deleted). rewrite Hheads. done.
Qed.

(** *** Marking *)

Lemma markConflicts_ok (first : vitem V) (rest : list (vitem V)) :
  Forall (fun h => _pe (_id h) = _pe (_id first)
                   /\ _id_id (_id h) = _id_id (_id first)) rest ->
  Forall has_m3 rest ->
  _markConflicts (first :: rest) = Ok (Some ([first], map mark_conflict rest)).
Proof.
  intros Hsame Hm3. unfold _markConflicts.
  assert (forallb (fun item => bool_decide (_pe (_id item) = _pe (_id first))
                     && bool_decide (_id_id (_id item) = _id_id (_id first)))
            (first :: rest) = true) as ->.
  { apply forallb_forall. intros h Hin. apply List.in_inv in Hin as [<-|Hin].
    - by rewrite !bool_decide_true.
    - apply list_elem_of_In in Hin.
      destruct (proj1 (Forall_forall _ _) Hsame h Hin) as [-> ->].
      by rewrite !bool_decide_true. }
  by rewrite markConflicts_rest_ok.
Qed.

Lemma marked_not_live (rest : list (vitem V)) :
  Forall has_m3 rest ->
  filter (fun h : vitem V => live_head h = true) (map mark_conflict rest) = [].
Proof.
  induction 1 as [|h rest Hm _ IH]; [done|]. simpl.
  rewrite filter_cons, decide_False; [done|].
  unfold live_head. rewrite mark_conflict_conflicted by done.
  by rewrite andb_false_r.
Qed.


End HeadsFacts.



(** The live leaves of [fork_of_three] are C, D and E, in this order: C
    is handed on, D and E are marked as conflict. *)
Example ensureOneHead_of_three_leaves :
  List.filter (live_leaf fork_of_three) fork_of_three
  = [node "I" "C" ["A"] false 2; node "I" "D" ["A"] false 3;
     node "I" "E" ["A"] false 4] /\
  _ensureOneHead fork_of_three
  = Ok (Some ([node "I" "C" ["A"] false 2],
              [mark_conflict (node "I" "D" ["A"] false 3);
               mark_conflict (node "I" "E" ["A"] false 4)])).
Proof. split; vm_compute; reflexivity. Qed.

(** Versions that are array indexes are enumerated first, in numeric
    order: of the leaves 2 and 1, that arrive in this order, 1 is handed
    on and 2 is marked as conflict. *)
Example ensureOneHead_enumerates_index_versions_first :
  _ensureOneHead [node "I" "9" [] false 1; node "I" "2" ["9"] false 2;
                  node "I" "1" ["9"] false 3]
  = Ok (Some ([node "I" "1" ["9"] false 3],
              [mark_conflict (node "I" "2" ["9"] false 2)])).
Proof. vm_compute. reflexivity. Qed.

(** ** Oplog items *)

Section FindFacts.
Context {V : Type}.

Lemma findOne_last_fold (selector : vitem V -> bool) (coll seen : list (vitem V))
    (best : option (vitem V)) :
  last_match selector best seen ->
  last_match selector
    (fold_left (fun best item =>
       if selector item then
         match best with
         | None => Some item
         | Some b => if (_i (_id b) <? _i (_id item))%Z then Some item else Some b
         end
       else best) coll best)
    (seen ++ coll).
Proof.
  revert seen best. induction coll as [|item coll IH]; intros seen best Hbest.
  - by rewrite app_nil_r.
  - cbn [fold_left].
    replace (seen ++ item :: coll) with ((seen ++ [item]) ++ coll)
      by (by rewrite <- app_assoc).
    apply IH. destruct (selector item) eqn:Hsel.
    + destruct best as [b|].
      * destruct Hbest as (Hin & Hb & Hmax).
        destruct (Z.ltb_spec (_i (_id b)) (_i (_id item))) as [Hlt|Hge].
        -- split_and!; [apply elem_of_app; right; apply list_elem_of_here | done |].
           intros q Hq Hselq. apply elem_of_app in Hq as [Hq|Hq].
           ++ specialize (Hmax q Hq Hselq). lia.
           ++ apply list_elem_of_singleton in Hq as ->. lia.
        -- split_and!; [apply elem_of_app; by left | done |].
           intros q Hq Hselq. apply elem_of_app in Hq as [Hq|Hq].
           ++ by apply Hmax.
           ++ by apply list_elem_of_singleton in Hq as ->.
      * split_and!; [apply elem_of_app; right; apply list_elem_of_here | done |].
        intros q Hq Hselq. apply elem_of_app in Hq as [Hq|Hq].
        -- rewrite (Hbest q Hq) in Hselq. done.
        -- apply list_elem_of_singleton in Hq as ->. lia.
    + destruct best as [b|].
      * destruct Hbest as (Hin & Hb & Hmax).
        split_and!; [apply elem_of_app; by left | done |].
        intros q Hq Hselq. apply elem_of_app in Hq as [Hq|Hq]; [by apply Hmax|].
        apply list_elem_of_singleton in Hq as ->. congruence.
      * intros q Hq. apply elem_of_app in Hq as [Hq|Hq]; [by apply Hbest|].
        by apply list_elem_of_singleton in Hq as ->.
Qed.

Lemma findOne_last_spec (selector : vitem V -> bool) (coll : list (vitem V)) :
  last_match selector (findOne_last selector coll) coll.
Proof.
  apply (findOne_last_fold selector coll [] None). intros q Hq.
  by apply elem_of_nil in Hq.
Qed.

End FindFacts.

Section OplogFacts.
Context {V : Type}.
Variables (localPerspective collectionName versionKey : string).
Variables (truthy : V -> bool) (as_version : V -> string).
Variable JSON_stringify : V -> option string.
Variable snapshot : list (vitem V).
Variable _ensureAllInDAG : vitem V -> option error.
Variable findAndModify : Obj.t V -> vitem V -> option (vitem V).

Local Abbreviation findLast :=
  (_findLastAckdOrLocallyCreated localPerspective snapshot).
Local Abbreviation applyDelete :=
  (_applyOplogDeleteItem localPerspective collectionName versionKey truthy
     as_version snapshot _ensureAllInDAG).
Local Abbreviation applyFullDoc :=
  (_applyOplogUpdateFullDoc localPerspective collectionName versionKey truthy
     as_version JSON_stringify snapshot _ensureAllInDAG).
Local Abbreviation newTombstone :=
  (tombstone localPerspective collectionName versionKey truthy as_version).
Local Abbreviation updateBase :=
  (update_base localPerspective collectionName versionKey truthy as_version).

(** The parent found is the last local item of the id that is
    acknowledged or locally created. *)
Lemma findLast_spec (id : string) (p : vitem V) :
  findLast id = Some p ->
  p ∈ snapshot /\
  _id_id (_id p) = id /\ _pe (_id p) = localPerspective /\
  (_lo (_id p) = true \/ from_option _ack false (_m3 p) = true) /\
  forall q, q ∈ snapshot ->
    _id_id (_id q) = id -> _pe (_id q) = localPerspective ->
    (_lo (_id q) = true \/ from_option _ack false (_m3 q) = true) ->
    (_i (_id q) <= _i (_id p))%Z.
Proof.
  unfold _findLastAckdOrLocallyCreated. intros Hfind.
  pose proof (findOne_last_spec
    (fun item : vitem V =>
       bool_decide (_id_id (_id item) = id)
       && bool_decide (_pe (_id item) = localPerspective)
       && (_lo (_id item) || from_option _ack false (_m3 item))) snapshot) as Hspec.
  rewrite Hfind in Hspec. destruct Hspec as (Hin & Hsel & Hmax).
  apply andb_true_iff in Hsel as [Hsel Hflag].
  apply andb_true_iff in Hsel as [Hid Hpe].
  apply bool_decide_eq_true in Hid, Hpe. apply orb_true_iff in Hflag.
  split_and!; try done.
  intros q Hq Hqid Hqpe Hqflag. apply Hmax; [done|].
  rewrite !bool_decide_true by done. simpl. by apply orb_true_iff.
Qed.


End OplogFacts.

Example delete_foo_tombstone :
  _applyOplogDeleteItem "_local" "c" "_v" string_truthy id example_snapshot
    pipeline_ok delete_foo [x00; x00; x00; x00; x00; x00]
  = Ok {| _id := {| _co := "c"; _id_id := "foo"; _v := "AAAAAAAA";
                    _pe := "_local"; _pa := ["B"]; _lo := true; _i := 0;
                    _d := true |};
          _m3 := Some {| _ack := true; _op := (7, 1)%Z; _c := false |};
          attrs := [("a", "1")] |}.
Proof. reflexivity. Qed.


(** ** Lowest common ancestors *)

Section IntersectFacts.
Import Obj ObjFacts.

Lemma has_set {W} (x k : string) (w : W) (o : Obj.t W) :
  has x (set k w o) = true <-> x = k \/ has x o = true.
Proof.
  unfold has. destruct (decide (x = k)) as [->|Hne].
  - rewrite get_set_eq. tauto.
  - rewrite get_set_ne by done. tauto.
Qed.

Lemma has_del {W} (x k : string) (o : Obj.t W) :
  has x (del k o) = true <-> x ≠ k /\ has x o = true.
Proof.
  unfold has. destruct (decide (x = k)) as [->|Hne].
  - rewrite get_del_eq. split; [done | tauto].
  - rewrite get_del_ne by done. tauto.
Qed.

Lemma is_nil_keys {W} (o : Obj.t W) :
  is_nil (keys o) = true <-> forall x, has x o = false.
Proof.
  destruct o as [|[k w] o]; simpl.
  - split; [intros _ x; done | done].
  - split; [done|]. intros H. specialize (H k). unfold has in H. simpl in H.
    by rewrite decide_True in H.
Qed.

(** The lookup object built from arr2. *)
Lemma lookup_object (arr2 : list string) (o : Obj.t bool) (x : string) :
  has x (fold_left (fun o el => set el true o) arr2 o) = true
  <-> x ∈ arr2 \/ has x o = true.
Proof.
  revert o. induction arr2 as [|el arr2 IH]; intros o; simpl.
  - split; [by right|]. intros [H|H]; [by apply elem_of_nil in H | done].
  - rewrite IH, has_set, elem_of_cons. tauto.
Qed.

Lemma intersect_step_in inter all1in2 (obj2 : Obj.t bool) el :
  has el obj2 = true ->
  intersect_step (inter, all1in2, obj2) el = (inter ++ [el], all1in2, del el obj2).
Proof. intros H. unfold intersect_step. by rewrite H. Qed.

Lemma intersect_step_out inter all1in2 (obj2 : Obj.t bool) el :
  has el obj2 = false ->
  intersect_step (inter, all1in2, obj2) el = (inter, false, obj2).
Proof. intros H. unfold intersect_step. by rewrite H. Qed.

(** The loop over arr1, for an arr1 without repetitions. *)
Lemma intersect_loop (arr2 arr1 done_ : list string) inter all1in2
    (obj2 : Obj.t bool) r :
  NoDup (done_ ++ arr1) ->
  (forall x, has x obj2 = true <-> x ∈ arr2 /\ x ∉ done_) ->
  (all1in2 = true <-> forall x, x ∈ done_ -> x ∈ arr2) ->
  r = fold_left intersect_step arr1 (inter, all1in2, obj2) ->
  (forall x, has x r.2 = true <-> x ∈ arr2 /\ x ∉ done_ ++ arr1) /\
  (r.1.2 = true <-> forall x, x ∈ done_ ++ arr1 -> x ∈ arr2).
Proof.
  revert done_ inter all1in2 obj2.
  induction arr1 as [|el arr1 IH]; intros done_ inter all1in2 obj2 Hnd Hobj Hall Hr.
  - subst r. simpl. rewrite app_nil_r. done.
  - cbn [fold_left] in Hr.
    replace (done_ ++ el :: arr1) with ((done_ ++ [el]) ++ arr1) in *
      by (by rewrite <- app_assoc).
    assert (el ∉ done_) as Hel.
    { apply NoDup_app in Hnd as [Hnd _]. apply NoDup_app in Hnd as (_ & Hdisj & _).
      intros Hin. apply (Hdisj el Hin), list_elem_of_here. }
    destruct (has el obj2) eqn:Hhas.
    + rewrite intersect_step_in in Hr by done.
      apply Hobj in Hhas as [Hin2 _]. eapply IH; [done| | |exact Hr].
      * intros x. rewrite has_del, Hobj, elem_of_app, list_elem_of_singleton.
        tauto.
      * rewrite Hall. split.
        -- intros H x Hx. apply elem_of_app in Hx as [Hx|Hx]; [by apply H|].
           by apply list_elem_of_singleton in Hx as ->.
        -- intros H x Hx. apply H, elem_of_app. by left.
    + rewrite intersect_step_out in Hr by done.
      assert (el ∉ arr2) as Hnot2.
      { intros Hin2. assert (has el obj2 = true) by (by apply Hobj). congruence. }
      eapply IH; [done| | |exact Hr].
      * intros x. rewrite Hobj, elem_of_app, list_elem_of_singleton.
        split; [|tauto]. intros [Hx Hnx]. split; [done|].
        intros [?| ->]; done.
      * split; [done|]. intros H. exfalso. apply Hnot2, H, elem_of_app. right.
        apply list_elem_of_here.
Qed.

(** [subset] tells how the two arrays compare as sets. *)
Lemma intersect_subset (arr1 arr2 : list string) :
  NoDup arr1 ->
  (_intersect arr1 arr2).2 =
  if bool_decide (arr1 ⊆ arr2)
  then if bool_decide (arr2 ⊆ arr1) then Some 0%Z else Some (-1)%Z
  else if bool_decide (arr2 ⊆ arr1) then Some 1%Z else None.
Proof.
  intros Hnd. unfold _intersect.
  destruct (fold_left intersect_step arr1 _) as [[inter all1in2] obj2] eqn:Hfold.
  destruct (intersect_loop arr2 arr1 [] [] true
              (fold_left (fun o el => set el true o) arr2 [])
              (inter, all1in2, obj2)) as [Hobj Hall].
  { done. }
  { intros x. rewrite lookup_object. unfold has. simpl. split; [|tauto].
    intros [?|?]; [|done]. split; [done | apply not_elem_of_nil]. }
  { split; [|done]. intros _ x Hx. by apply elem_of_nil in Hx. }
  { symmetry. exact Hfold. }
  simpl in Hobj, Hall. simpl.
  assert (is_nil (keys obj2) = true <-> arr2 ⊆ arr1) as H2in1.
  { rewrite is_nil_keys. split.
    - intros H x Hx. destruct (decide (x ∈ arr1)) as [|Hn]; [done|].
      assert (has x obj2 = true) by (by apply Hobj). rewrite H in *. done.
    - intros H x. destruct (has x obj2) eqn:E; [|done].
      apply Hobj in E as [Hx Hnx]. exfalso. by apply Hnx, H. }
  assert (all1in2 = true <-> arr1 ⊆ arr2) as H1in2 by exact Hall.
  clear Hall Hobj Hfold.
  destruct all1in2; destruct (is_nil (keys obj2)); simpl.
  - rewrite (bool_decide_true (arr1 ⊆ arr2)) by (by apply H1in2).
    by rewrite (bool_decide_true (arr2 ⊆ arr1)) by (by apply H2in1).
  - rewrite (bool_decide_true (arr1 ⊆ arr2)) by (by apply H1in2).
    rewrite (bool_decide_false (arr2 ⊆ arr1)); [done|].
    intros H. by apply H2in1 in H.
  - rewrite (bool_decide_false (arr1 ⊆ arr2)) by (intros H; by apply H1in2 in H).
    by rewrite (bool_decide_true (arr2 ⊆ arr1)) by (by apply H2in1).
  - rewrite (bool_decide_false (arr1 ⊆ arr2)) by (intros H; by apply H1in2 in H).
    rewrite (bool_decide_false (arr2 ⊆ arr1)); [done|].
    intros H. by apply H2in1 in H.
Qed.

End IntersectFacts.

Section FindLCAsFacts.
Context {V : Type}.
Variable localPerspective : string.
Variable snapshot : list (vitem V).
Import Obj ObjFacts.

Local Abbreviation walk :=
  (findLCAs_walk snapshot heads_equal).

(** Finishing up adds the open heads that are not marked as common
    ancestor, in their order, and fails at the first of them that is
    not stored for every perspective. *)
Lemma findLCAs_finish_spec (id : string) (perspectives : list string)
    (casSet : gset string) (heads : list string) : forall acc,
  findLCAs_finish snapshot id perspectives casSet heads acc
  = match List.find (fun head => negb (in_all_perspectives snapshot id perspectives head))
            (List.filter (fun head => negb (is_ca casSet head)) heads) with
    | None => Ok (acc ++ List.filter (fun head => negb (is_ca casSet head)) heads)
    | Some head => Err (missing_perspective head perspectives)
    end.
Proof.
  induction heads as [|head heads IH]; intros acc; cbn [findLCAs_finish List.filter].
  - by rewrite app_nil_r.
  - destruct (is_ca casSet head); cbn [negb]; [apply IH|].
    cbn [List.find]. destruct (in_all_perspectives _ _ _ _); cbn [negb]; [|done].
    rewrite IH. destruct (List.find _ _); [done|]. by rewrite <- app_assoc.
Qed.

(** C2, as the code has it.  The walk over the stream finishes up after
    an item exactly when the two sets of open heads are equal: it adds
    the open heads that are not marked as common ancestor, fails if one
    of these is not stored for every perspective, and else calls back
    with the lcas.  While the sets differ, also when one is a subset of
    the other, it goes on with the next item.  When the stream is
    exhausted it calls back with the lcas found so far; no open head is
    added. *)
Theorem findLCAs_finishes_when_heads_equal
    (id perspectiveX perspectiveY : string) (perspectives : list string)
    (item : vitem V) (stream : list (vitem V)) (st : lca_state) :
  let st' := findLCAs_data perspectiveX perspectiveY item st in
  let openX := keys (headsX st') in
  let openY := keys (headsY st') in
  let uncovered := List.filter (fun head => negb (is_ca (cas st') head)) openX in
  wf (headsX st') ->
  walk id perspectiveX perspectiveY perspectives [] st = Ok (lcas st) /\
  (openX ⊆ openY /\ openY ⊆ openX ->
   walk id perspectiveX perspectiveY perspectives (item :: stream) st
   = match List.find
             (fun head => negb (in_all_perspectives snapshot id perspectives head))
             uncovered with
     | None => Ok (lcas st' ++ uncovered)
     | Some head => Err (missing_perspective head perspectives)
     end) /\
  (~ (openX ⊆ openY /\ openY ⊆ openX) ->
   walk id perspectiveX perspectiveY perspectives (item :: stream) st
   = walk id perspectiveX perspectiveY perspectives stream st').
Proof.
  intros st' openX openY uncovered Hwf. split; [done|].
  cbn [findLCAs_walk]. fold st'. fold openX. fold openY.
  pose proof (intersect_subset openX openY Hwf) as Hsub.
  destruct (_intersect openX openY) as [inter subset]. simpl in Hsub. subst subset.
  unfold heads_equal. split.
  - intros [H1 H2].
    rewrite (bool_decide_true (openX ⊆ openY)) by done.
    rewrite (bool_decide_true (openY ⊆ openX)) by done.
    rewrite bool_decide_true by done. apply findLCAs_finish_spec.
  - intros Hne.
    destruct (bool_decide (openX ⊆ openY)) eqn:E1;
      destruct (bool_decide (openY ⊆ openX)) eqn:E2; try done.
    apply bool_decide_eq_true in E1, E2. by destruct Hne.
Qed.

(** The open heads stay objects with distinct keys. *)
Lemma wf_add_heads (parents : list string) (perspective : string)
    (heads : Obj.t string) :
  wf heads -> wf (add_heads parents perspective heads).
Proof.
  revert heads. induction parents as [|p parents IH]; intros heads Hwf; [done|].
  simpl. by apply IH, wf_set.
Qed.

Lemma wf_findLCAs_data perspectiveX perspectiveY (item : vitem V) (st : lca_state) :
  wf (headsX st) -> wf (headsY st) ->
  wf (headsX (findLCAs_data perspectiveX perspectiveY item st)) /\
  wf (headsY (findLCAs_data perspectiveX perspectiveY item st)).
Proof.
  intros Hx Hy. unfold findLCAs_data, track_y, track_x.
  repeat case_bool_decide; simpl; split;
    try done; try (by apply wf_add_heads, wf_del).
Qed.

End FindLCAsFacts.

Example findLCAs_diamond :
  _findLCAs "_local" diamond (node "I" "B" ["A"] false 2) (node "I" "C" ["A"] false 3)
  = Ok ["A"].
Proof. reflexivity. Qed.

(** After the first item, D, the open heads of y (B) are a proper subset
    of those of x (B and C).  The search goes on and finds B; finishing
    there, as the specification words it, would return B and C. *)
Lemma findLCAs_goes_on_when_one_side_is_subset :
  let st := findLCAs_data "I" "I" (node "I" "D" ["B"; "C"] false 4) diamond_start in
  Obj.keys (headsX st) = ["B"; "C"] /\
  Obj.keys (headsY st) = ["B"] /\
  (_intersect (Obj.keys (headsX st)) (Obj.keys (headsY st))).2 = Some 1%Z /\
  _findLCAs "_local" diamond (node "I" "D" ["B"; "C"] false 4)
    (node "I" "B" ["A"] false 2) = Ok ["B"] /\
  findLCAs_as_specified "_local" diamond (node "I" "D" ["B"; "C"] false 4)
    (node "I" "B" ["A"] false 2) = Ok ["B"; "C"].
Proof. repeat split; vm_compute; reflexivity. Qed.

(** An open head with the name of a member every object inherits is
    taken for a common ancestor: B and C have the parent toString, and
    no lca is found. *)
Example findLCAs_skips_inherited_name :
  _findLCAs "_local"
    [node "I" "toString" [] false 1; node "I" "B" ["toString"] false 2;
     node "I" "C" ["toString"] false 3]
    (node "I" "B" ["toString"] false 2) (node "I" "C" ["toString"] false 3)
  = Ok [].
Proof. vm_compute. reflexivity. Qed.

(** A head that is not stored for one of the perspectives. *)
Example findLCAs_missing_perspective :
  _findLCAs "_local"
    [node "I" "A" [] false 1; node "I" "B" ["A"] false 2;
     node "II" "C" ["A"] false 3]
    (node "I" "B" ["A"] false 2) (node "II" "C" ["A"] false 3)
  = Err (OtherError
           "missing at least one perspective when fetching lca A. perspectives: I, II").
Proof. vm_compute. reflexivity. Qed.

Lemma findLCAs_finishes_when_heads_equal_witness :
  findLCAs_walk diamond heads_equal "foo" "I" "I" ["I"] (rev diamond) diamond_start
  = findLCAs_walk diamond heads_equal "foo" "I" "I" ["I"] (tail (rev diamond))
      (findLCAs_data "I" "I" (node "I" "D" ["B"; "C"] false 4) diamond_start).
Proof.
  apply (findLCAs_finishes_when_heads_equal diamond "foo" "I" "I" ["I"]
           (node "I" "D" ["B"; "C"] false 4) (tail (rev diamond)) diamond_start).
  - apply (bool_decide_unpack _). vm_compute. reflexivity.
  - intros [H _]. apply (bool_decide_pack _) in H. vm_compute in H. destruct H.
Defined.

(** ** The streaming reader *)

(** The reader on the DAG of its tests. *)
Example reader_no_filter :
  graph_of (VersionedCollectionReader "I" "A" 7 match_all [] reader_dag)
  = Ok [("A", []); ("B", ["A"]); ("C", ["B"]); ("D", ["C"]); ("E", ["B"]);
        ("F", ["E"; "C"]); ("G", ["F"])].
Proof. reflexivity. Qed.

Example reader_new_root :
  graph_of (VersionedCollectionReader "I" "A" 7 (has_attr "baz" "mux") [] reader_dag)
  = Ok [("C", [])].
Proof. reflexivity. Qed.

Example reader_hook_filters_F :
  graph_of (VersionedCollectionReader "I" "E" 7 match_all [drop_version "F"]
              reader_dag)
  = Ok [("E", ["B"]); ("G", ["E"; "C"])].
Proof. reflexivity. Qed.

(** The filter projects a connected subgraph: with a filter that A, D
    and G pass, G gets the parent A. *)
Example reader_filter_projects_connected_subgraph :
  graph_of (VersionedCollectionReader "I" "A" 7 (has_attr "baz" "qux") [] reader_dag)
  = Ok [("A", []); ("D", ["A"]); ("G", ["A"])].
Proof. reflexivity. Qed.

(** The parents are set on the item that was read: what a hook calls
    back with as another object keeps the parents the hook gave it. *)
Example reader_keeps_parents_of_another_object :
  graph_of (VersionedCollectionReader "I" "A" 7 (has_attr "baz" "qux") [copy_item]
              reader_dag)
  = Ok [("A", []); ("D", ["C"]); ("G", ["F"])].
Proof. reflexivity. Qed.

(** A parent with the name of a member every object inherits is taken
    for one with an entry: the second child of toString gets no parent,
    with a filter that toString passes. *)
Example reader_takes_inherited_name_for_an_entry :
  graph_of (VersionedCollectionReader "I" "" 3 match_all []
              [reader_node "toString" [] 1 []; reader_node "B" ["toString"] 2 [];
               reader_node "C" ["toString"] 3 []])
  = Ok [("toString", []); ("B", ["toString"]); ("C", [])].
Proof. reflexivity. Qed.

(** With match-all filter and a hook that drops B, the reader pushes E
    with parent B although B itself was never pushed: C took over the
    entry of B, and the walk back from B only asks the filter. *)
Lemma reader_lists_a_parent_that_a_hook_dropped :
  graph_of (VersionedCollectionReader "I" "" 4 match_all [drop_version "B"]
              reader_fork)
  = Ok [("A", []); ("C", ["A"]); ("E", ["B"])]
  /\ "B" ∉ ["A"; "C"; "E"].
Proof.
  split; [reflexivity|].
  intros H. apply (bool_decide_pack _) in H. vm_compute in H. destruct H.
Qed.

(** ** The trees *)

Section TreeFacts.
Context {M B : Type} `{EqDecision M} `{EqDecision B}.
Implicit Types (x y item : mitem M B) (t : tree M B).

Lemma bind_Ok {E A C} (r : result E A) (k : A -> result E C) (c : C) :
  r ≫= k = Ok c -> exists a, r = Ok a /\ k a = Ok c.
Proof. destruct r as [a|e]; [eauto | discriminate]. Qed.

Lemma bind_Err {E A C} (r : result E A) (k : A -> result E C) (e : E) :
  r ≫= k = Err e -> r = Err e \/ exists a, r = Ok a /\ k a = Err e.
Proof. destruct r as [a|e']; [eauto | intros [= ->]; by left]. Qed.

Lemma same_version_spec x y :
  same_version x y = true <->
  h_id (item_h x) = h_id (item_h y) /\ h_v (item_h x) = h_v (item_h y).
Proof.
  unfold same_version. rewrite andb_true_iff, !bool_decide_eq_true. tauto.
Qed.

Lemma has_version_with_items id v items t :
  has_version id v (t_items (with_items items t)) <-> has_version id v items.
Proof. reflexivity. Qed.

(** Setting conflict bits keeps every item, its key, and a set bit. *)
Lemma mark_later_heads_items id t x :
  x ∈ t_items t ->
  exists y, y ∈ t_items (mark_later_heads id t) /\ same_version y x = true /\
            (h_c (item_h x) = true -> h_c (item_h y) = true).
Proof.
  intros Hx. unfold mark_later_heads.
  destruct (Tree_getHeads id true true t) as [|first ?].
  - exists x. split; [done|]. split; [|done].
    apply same_version_spec; done.
  - cbn [t_items with_items].
    match goal with |- context [map ?f _] => exists (f x) end.
    split; [apply list_elem_of_fmap; eauto|].
    match goal with |- context [if ?c then _ else _] => destruct c end;
      (split; [apply same_version_spec; done | done]).
Qed.

Lemma mark_later_heads_has_version id t i v :
  has_version i v (t_items t) -> has_version i v (t_items (mark_later_heads id t)).
Proof.
  intros (x & Hx & <- & <-).
  destruct (mark_later_heads_items id t x Hx) as (y & Hy & Hs & _).
  apply same_version_spec in Hs as [? ?]. by exists y.
Qed.

Lemma Tree_write_Ok item t t' :
  Tree_write item t = Ok t' ->
  t' = t /\ (exists x, x ∈ t_items t /\ same_version x item = true)
  \/ t' = mark_later_heads (h_id (item_h item))
            (with_items (t_items t ++ [with_i (S (length (t_items t))) item]) t).
Proof.
  unfold Tree_write.
  destruct (negb (t_skipValidation t) && invalid_header (item_h item)); [discriminate|].
  destruct (List.find _ (t_items t)) as [x|] eqn:Hfind.
  - destruct (same_item x item); [|discriminate].
    intros [= <-]. left. split; [done|].
    apply find_some in Hfind as [Hin Hs]. exists x.
    by rewrite list_elem_of_In.
  - intros [= <-]. by right.
Qed.

Lemma Tree_write_has_version item t t' :
  Tree_write item t = Ok t' ->
  has_version (h_id (item_h item)) (h_v (item_h item)) (t_items t') /\
  forall i v, has_version i v (t_items t) -> has_version i v (t_items t').
Proof.
  intros [[-> (x & Hx & Hs)] | ->]%Tree_write_Ok.
  - split; [|done]. apply same_version_spec in Hs as [? ?]. by exists x.
  - split.
    + apply mark_later_heads_has_version. cbn [t_items with_items].
      exists (with_i (S (length (t_items t))) item).
      split; [|done]. apply elem_of_app. right. by apply list_elem_of_singleton.
    + intros i v (x & Hx & <- & <-). apply mark_later_heads_has_version.
      cbn [t_items with_items]. exists x. split; [|done].
      apply elem_of_app. by left.
Qed.

Lemma Tree_write_Err item t e : Tree_write item t = Err e -> e = InvalidItem.
Proof.
  unfold Tree_write.
  destruct (negb (t_skipValidation t) && invalid_header (item_h item)); [congruence|].
  destruct (List.find _ (t_items t)) as [x|]; [|discriminate].
  destruct (same_item x item); [discriminate | congruence].
Qed.

(** A write of an item whose key is new, to a tree that does not
    validate, stores the item, with its conflict bit if it has one. *)
Lemma Tree_write_new item t :
  t_skipValidation t = true ->
  (forall x, x ∈ t_items t -> same_version x item = false) ->
  exists t', Tree_write item t = Ok t' /\
    exists y, y ∈ t_items t' /\ same_version y item = true /\
              (h_c (item_h item) = true -> h_c (item_h y) = true).
Proof.
  intros Hskip Hnew. unfold Tree_write. rewrite Hskip. cbn [negb andb].
  destruct (List.find _ (t_items t)) as [x|] eqn:Hfind.
  - apply find_some in Hfind as [Hin Hs].
    rewrite Hnew in Hs; [discriminate | by rewrite list_elem_of_In].
  - eexists. split; [reflexivity|].
    edestruct (mark_later_heads_items (h_id (item_h item))
                 (with_items (t_items t ++ [with_i (S (length (t_items t))) item]) t)
                 (with_i (S (length (t_items t))) item)) as (y & Hy & Hs & Hc).
    { cbn [t_items with_items]. apply elem_of_app. right.
      by apply list_elem_of_singleton. }
    exists y. split; [done|]. split; [|done].
    apply same_version_spec in Hs. apply same_version_spec. done.
Qed.

End TreeFacts.

(** ** Local writes and confirmations ([createLocalWriteStream]) *)

Section LocalWriteFacts.
Context {M B : Type} `{EqDecision M} `{EqDecision B}.
Variable sha256 : list Byte.byte -> list Byte.byte.
Variable BSON_serialize : mitem M B -> list Byte.byte.
Variable invalidLocalHeader : header -> option string.
Variable _transform : mitem M B -> result string (option (mitem M B)).
Variable _vSize : nat.
Implicit Types (x y item : mitem M B) (t : tree M B) (mt : merge_tree M B).

Local Abbreviation keeps_versions t t' :=
  (forall i v, has_version i v (t_items t) -> has_version i v (t_items t')).

Lemma filter_filter {A} (p q : A -> bool) (l : list A) :
  List.filter p (List.filter q l) = List.filter (fun a => q a && p a) l.
Proof.
  induction l as [|a l IH]; [done|]. cbn [List.filter].
  destruct (q a); cbn [List.filter andb]; [destruct (p a)|]; by rewrite IH.
Qed.

Lemma copyTo_item_spec first last ef el isFirst item dtree r :
  copyTo_item _transform first last ef el isFirst item dtree = Ok r ->
  keeps_versions dtree r.1.
Proof.
  unfold copyTo_item.
  repeat (match goal with |- context [if ?c then _ else _] => destruct c end);
    try (intros [= <-]; done).
  intros (nitem & _ & Hw)%bind_Ok. destruct nitem as [nitem|].
  - apply bind_Ok in Hw as (dtree' & Hw & [= <-]).
    by apply Tree_write_has_version in Hw as [_ ?].
  - injection Hw as <-. done.
Qed.

Lemma copyTo_loop_spec first last ef el items :
  forall isFirst dtree dtree',
    copyTo_loop _transform first last ef el isFirst items dtree = Ok dtree' ->
    keeps_versions dtree dtree'.
Proof.
  induction items as [|item items IH]; intros isFirst dtree dtree'.
  - intros [= <-]. done.
  - cbn [copyTo_loop]. intros ([d more] & Hi & Hrest)%bind_Ok.
    pose proof (copyTo_item_spec _ _ _ _ _ _ _ _ Hi) as Hk. cbn [fst] in Hk.
    destruct more.
    + intros i v Hv. eapply IH; [exact Hrest|]. by apply Hk.
    + injection Hrest as <-. done.
Qed.

(** Moving one item: it is in local afterwards, local keeps what it
    had, and stage loses the entry of the item and nothing else. *)
Lemma promote_spec v mt x mt' :
  promote _transform v mt x = Ok mt' ->
  has_version (h_id (item_h x)) (h_v (item_h x)) (t_items (mt_local mt')) /\
  keeps_versions (mt_local mt) (mt_local mt') /\
  t_items (mt_stage mt')
    = List.filter (fun y => negb (same_version y x)) (t_items (mt_stage mt)) /\
  mt_handled mt' = mt_handled mt.
Proof.
  unfold promote. intros (local & Hcopy & (local' & Hw & [= <-])%bind_Ok)%bind_Ok.
  apply Tree_write_has_version in Hw as [Hin Hkeep].
  cbn. split; [done|]. split; [|done].
  intros i w Hv. apply Hkeep.
  destruct (bool_decide _) in Hcopy.
  - unfold _copyTo in Hcopy. destruct (snd <$> _) as [stree|]; [|discriminate].
    by eapply copyTo_loop_spec.
  - by injection Hcopy as <-.
Qed.

Lemma promote_loop_spec v items :
  forall mt mt',
    promote_loop _transform v items mt = Ok mt' ->
    Forall (fun x => has_version (h_id (item_h x)) (h_v (item_h x))
                       (t_items (mt_local mt'))) items /\
    keeps_versions (mt_local mt) (mt_local mt') /\
    t_items (mt_stage mt')
      = List.filter (fun y => negb (existsb (same_version y) items))
          (t_items (mt_stage mt)) /\
    mt_handled mt' = mt_handled mt.
Proof.
  induction items as [|x items IH]; intros mt mt'.
  - intros [= <-]. split; [constructor|]. split; [done|]. split; [|done].
    cbn [existsb negb]. induction (t_items (mt_stage mt)) as [|a l IHl]; [done|].
    cbn [List.filter]. by rewrite <- IHl.
  - cbn [promote_loop]. intros (mt1 & H1 & Hrest)%bind_Ok.
    apply promote_spec in H1 as (Hx & Hkeep1 & Hstage1 & Hh1).
    apply IH in Hrest as (Hall & Hkeep & Hstage & Hh).
    split; [constructor; [by apply Hkeep | done]|].
    split; [intros i w Hv; by apply Hkeep, Hkeep1|].
    split; [|congruence].
    rewrite Hstage, Hstage1, filter_filter. apply filter_ext.
    intros a. cbn [existsb]. by rewrite negb_orb.
Qed.

(** *** When a confirmation goes through *)

Lemma same_version_variant x z :
  (forall n, same_version (with_i n x) z = same_version x z) /\
  same_version (with_c x) z = same_version x z.
Proof. done. Qed.

Lemma agree_variant x z :
  agree x z -> (forall n, agree (with_i n x) z) /\ agree (with_c x) z.
Proof. done. Qed.

Lemma mark_later_heads_inv id t y :
  y ∈ t_items (mark_later_heads id t) ->
  exists x, x ∈ t_items t /\ (y = x \/ y = with_c x).
Proof.
  unfold mark_later_heads. destruct (Tree_getHeads id true true t) as [|first ?].
  - intros Hy. exists y. split; [done | by left].
  - cbn [t_items with_items]. intros (x & -> & Hx)%list_elem_of_fmap.
    exists x. split; [done|].
    match goal with |- context [if ?c then _ else _] => destruct c end;
      [by right | by left].
Qed.

(** A valid item that agrees with what the tree holds is written, and
    the tree goes on agreeing with the items [U] the item agrees with. *)
Lemma Tree_write_agrees (U : list (mitem M B)) y t :
  invalid_header (item_h y) = false ->
  Forall (agree y) U ->
  Forall (fun x => agree x y) (t_items t) ->
  Forall (fun x => Forall (agree x) U) (t_items t) ->
  exists t', Tree_write y t = Ok t' /\
             Forall (fun x => Forall (agree x) U) (t_items t').
Proof.
  intros Hvalid HyU Hty HtU. unfold Tree_write.
  rewrite Hvalid, andb_false_r.
  destruct (List.find _ (t_items t)) as [x|] eqn:Hfind.
  - apply find_some in Hfind as [Hin Hs]. apply list_elem_of_In in Hin.
    rewrite (proj1 (Forall_forall _ _) Hty x Hin Hs). by exists t.
  - eexists. split; [reflexivity|]. apply Forall_forall.
    intros y' (x & Hx & Hy')%mark_later_heads_inv. cbn [t_items with_items] in Hx.
    assert (Forall (agree x) U) as HxU.
    { apply elem_of_app in Hx as [Hx|Hx].
      - by apply (proj1 (Forall_forall _ _) HtU).
      - apply list_elem_of_singleton in Hx. subst x.
        eapply Forall_impl; [exact HyU|]. intros z Hz. by apply agree_variant. }
    destruct Hy' as [Hy'|Hy']; subst y'; [done|].
    eapply Forall_impl; [exact HxU|]. intros z Hz. by apply agree_variant.
Qed.

Section Sources.
(** The items that may be written, which agree with each other, and the
    identity for transformation. *)
Variable U : list (mitem M B).
Hypothesis U_valid : Forall (fun x => invalid_header (item_h x) = false) U.
Hypothesis U_agree : Forall (fun x => Forall (agree x) U) U.
Hypothesis transform_id : forall c, _transform c = Ok (Some c).

Local Abbreviation agrees t := (Forall (fun x => Forall (agree x) U) (t_items t)).

Lemma Tree_write_source y t :
  y ∈ U -> agrees t -> exists t', Tree_write y t = Ok t' /\ agrees t'.
Proof.
  intros Hy Ht. apply Tree_write_agrees; [| |  |done].
  - by apply (proj1 (Forall_forall _ _) U_valid).
  - by apply (proj1 (Forall_forall _ _) U_agree).
  - eapply Forall_impl; [exact Ht|]. intros x Hx.
    by apply (proj1 (Forall_forall _ _) Hx).
Qed.

Lemma copyTo_loop_goes_through first last ef el items :
  forall isFirst dtree,
    Forall (fun c => c ∈ U) items -> agrees dtree ->
    exists dtree',
      copyTo_loop _transform first last ef el isFirst items dtree = Ok dtree' /\
      agrees dtree'.
Proof.
  induction items as [|c items IH]; intros isFirst dtree Hin Hd.
  - by exists dtree.
  - apply Forall_cons in Hin as [Hc Hin]. cbn [copyTo_loop]. unfold copyTo_item.
    destruct (isFirst && _ && ef); cbn [mbind result_bind]; [by apply IH|].
    destruct (bool_decide (last = _) && el); cbn [mbind result_bind];
      [by exists dtree|].
    unfold transform. rewrite transform_id. cbn [mbind result_bind].
    destruct (Tree_write_source c dtree Hc Hd) as (d1 & -> & Hd1).
    cbn [mbind result_bind]. destruct (negb _); [by apply IH | by exists d1].
Qed.

Lemma from_version_subset first ef (items : list (mitem M B)) c :
  c ∈ from_version first ef items -> c ∈ items.
Proof.
  induction items as [|x items IH]; [done|]. cbn [from_version].
  case_bool_decide.
  - destruct ef; [by apply list_elem_of_further | done].
  - intros Hc. by apply list_elem_of_further, IH.
Qed.

Lemma promote_goes_through v mt x :
  x ∈ U ->
  (h_pe (item_h x) = "" \/
   exists stree, (h_pe (item_h x), stree) ∈ mt_pe mt) ->
  Forall (fun p => Forall (fun c => c ∈ U) (t_items p.2)) (mt_pe mt) ->
  agrees (mt_local mt) ->
  exists mt', promote _transform v mt x = Ok mt' /\
              agrees (mt_local mt') /\ mt_pe mt' = mt_pe mt.
Proof.
  intros Hx Hpe Htrees Hl. unfold promote.
  match goal with
  | |- exists mt', ?r ≫= _ = Ok mt' /\ _ =>
      assert (exists local, r = Ok local /\ agrees local) as (local & Hr & Hlocal)
  end.
  2: rewrite Hr.
  { case_bool_decide as Hne; [|by exists (mt_local mt)].
    destruct Hpe as [?|[stree Hin]]; [done|].
    destruct (List.find (fun p => bool_decide (p.1 = h_pe (item_h x))) (mt_pe mt))
      as [[pe stree']|] eqn:Hfind.
    2:{ exfalso. apply list_elem_of_In in Hin.
        pose proof (find_none _ _ Hfind _ Hin) as Hn. cbn in Hn.
        by rewrite bool_decide_eq_true_2 in Hn. }
    apply find_some in Hfind as [Hin' _]. apply list_elem_of_In in Hin'.
    pose proof (proj1 (Forall_forall _ _) Htrees _ Hin') as Hitems. cbn in Hitems.
    cbn. apply copyTo_loop_goes_through; [|done].
    apply Forall_forall. intros c Hc.
    apply (proj1 (Forall_forall _ _) Hitems).
    unfold Tree_iterateInsertionOrder in Hc.
    destruct (_ ≫= truthy) in Hc; [by eapply from_version_subset | done]. }
  cbn [mbind result_bind].
  destruct (Tree_write_source x local Hx Hlocal) as (local' & -> & Hlocal').
  cbn [mbind result_bind]. eexists. split; [reflexivity|]. done.
Qed.

Lemma promote_loop_goes_through v items :
  forall mt,
    Forall (fun x => x ∈ U /\
                     (h_pe (item_h x) = "" \/
                      exists stree, (h_pe (item_h x), stree) ∈ mt_pe mt)) items ->
    Forall (fun p => Forall (fun c => c ∈ U) (t_items p.2)) (mt_pe mt) ->
    agrees (mt_local mt) ->
    exists mt', promote_loop _transform v items mt = Ok mt'.
Proof.
  induction items as [|x items IH]; intros mt Hitems Htrees Hl.
  - by exists mt.
  - apply Forall_cons in Hitems as [[Hx Hpe] Hitems]. cbn [promote_loop].
    destruct (promote_goes_through v mt x Hx Hpe Htrees Hl) as (mt1 & -> & Hl1 & Hpe1).
    cbn [mbind result_bind]. apply IH; [|by rewrite Hpe1|done].
    by rewrite Hpe1.
Qed.

End Sources.

End LocalWriteFacts.

Section ConfirmationFacts.
Context {M B : Type} `{EqDecision M} `{EqDecision B}.
Implicit Types (x y item : mitem M B) (t : tree M B) (mt : merge_tree M B).

(** The item the version lookup finds is among the items of its id up
    to that version. *)
Lemma found_up_to v (q : mitem M B -> bool) (l : list (mitem M B)) ex :
  List.find (fun x => bool_decide (h_v (item_h x) = v)) l = Some ex ->
  q ex = true ->
  ex ∈ up_to v false (List.filter q l).
Proof.
  induction l as [|a l IH]; [discriminate|]. cbn [List.find List.filter].
  case_bool_decide as Ha.
  - intros [= ->] ->. cbn [up_to]. rewrite bool_decide_eq_true_2 by done.
    by apply list_elem_of_singleton.
  - intros Hf Hq. destruct (q a); [|by apply IH].
    cbn [up_to]. rewrite bool_decide_eq_false_2 by done.
    apply elem_of_cons. right. by apply IH.
Qed.

Lemma confirms_Some item mt ex :
  confirms item mt = Some ex ->
  h_v (item_h ex) = h_v (item_h item) /\ item_b ex = item_b item /\
  ex ∈ Tree_iterateInsertionOrder (Some (h_id (item_h ex))) None
         (Some (h_v (item_h ex))) false false (mt_stage mt).
Proof.
  unfold confirms, Tree_getByVersion.
  destruct (List.find _ _) as [x|] eqn:Hfind; [|discriminate].
  case_bool_decide as Hb; [|discriminate]. intros [= ->].
  pose proof Hfind as [_ Hv%bool_decide_eq_true]%find_some.
  split; [done|]. split; [done|].
  unfold Tree_iterateInsertionOrder. rewrite Hv.
  apply found_up_to; [done|]. by apply bool_decide_eq_true.
Qed.

End ConfirmationFacts.

(** Three writes from "R", each followed by [mergeWithLocal], stage X,
    Y and Z and call the merge handler for each. *)
Example staged_XYZ_by_remote_writes :
  (mt ← remote_write (remote_item "X" []) (merge_tree_of [] [] [] []);
   mt ← remote_write (remote_item "Y" ["X"]) mt;
   remote_write (remote_item "Z" ["Y"]) mt)
  = Ok staged_XYZ.
Proof. vm_compute. reflexivity. Qed.

(** C5, as the code has it.  The local write stream keeps no record of
    confirmations and does not look at their order.  A local write whose
    version is in stage with an equal body goes through, whatever was
    confirmed before, when the staged items of the id up to that version
    and the items of the perspectives are valid, do not differ where
    they have the same version, neither from each other nor from what
    local holds, and are not transformed.  Every staged item of the id
    up to and including that version, the confirmed item among them, is
    in local afterwards, local keeps what it had, exactly these entries
    leave stage, and the merge handler is not called. *)
Theorem local_write_confirms_in_any_order {M B : Type}
    `{EqDecision M} `{EqDecision B}
    (sha256 : list Byte.byte -> list Byte.byte)
    (BSON_serialize : mitem M B -> list Byte.byte)
    (invalidLocalHeader : header -> option string)
    (_transform : mitem M B -> result string (option (mitem M B)))
    (_vSize : nat) (item ex : mitem M B) (mt : merge_tree M B) :
  let promoted :=
    Tree_iterateInsertionOrder (Some (h_id (item_h ex))) None
      (Some (h_v (item_h item))) false false (mt_stage mt) in
  let sources := promoted ++ concat (map (fun p => t_items p.2) (mt_pe mt)) in
  invalidLocalHeader (item_h item) = None ->
  h_pa (item_h item) = None ->
  confirms item mt = Some ex ->
  (forall c, _transform c = Ok (Some c)) ->
  Forall (fun x => h_pe (item_h x) = "" \/ h_pe (item_h x) ∈ (mt_pe mt).*1) promoted ->
  Forall (fun x => invalid_header (item_h x) = false) sources ->
  Forall (fun x => Forall (agree x) sources) (t_items (mt_local mt) ++ sources) ->
  exists mt',
    createLocalWriteStream sha256 BSON_serialize invalidLocalHeader _transform
      _vSize item mt = Ok mt' /\
    ex ∈ promoted /\
    Forall (fun x => has_version (h_id (item_h x)) (h_v (item_h x))
                       (t_items (mt_local mt'))) promoted /\
    (forall i v, has_version i v (t_items (mt_local mt)) ->
                 has_version i v (t_items (mt_local mt'))) /\
    t_items (mt_stage mt')
      = List.filter (fun y => negb (existsb (same_version y) promoted))
          (t_items (mt_stage mt)) /\
    mt_handled mt' = mt_handled mt.
Proof.
  intros promoted sources Hvalid Hpa Hex Hid Hpes Hvalids Hagree.
  unfold createLocalWriteStream.
  rewrite Hvalid, Hpa, Hex. rewrite bool_decide_eq_false_2 by (intros Hn; by apply Hn).
  apply confirms_Some in Hex as (Hv & _ & Hin). rewrite Hv in Hin |- *.
  fold promoted in Hin |- *.
  apply Forall_app in Hagree as [Hlocal Hsources].
  destruct (promote_loop_goes_through _transform sources Hvalids Hsources Hid
              (h_v (item_h item)) promoted mt) as [mt' Hloop].
  - apply Forall_forall. intros x Hx. split.
    + apply elem_of_app. by left.
    + destruct (proj1 (Forall_forall _ _) Hpes x Hx) as [?|Hpe]; [by left|].
      right. apply list_elem_of_fmap in Hpe as ([pe stree] & Hpe & Hin').
      cbn in Hpe. subst pe. by exists stree.
  - apply Forall_forall. intros p Hp. apply Forall_forall. intros c Hc.
    apply elem_of_app. right. apply list_elem_of_In, in_concat.
    exists (t_items p.2). split; [|by apply list_elem_of_In].
    apply in_map_iff. exists p. split; [done | by apply list_elem_of_In].
  - done.
  - exists mt'. split; [done|]. split; [done|].
    by apply promote_loop_spec in Hloop as (Hall & Hkeep & Hstage & Hh).
Qed.

(** X and Y are staged and neither is confirmed; the local write that
    confirms Y, the later one, is applied: it moves X and Y to local and
    leaves Z in stage. *)
Lemma local_write_confirms_later_version_first :
  versions (mt_local staged_XYZ) = [] /\
  versions (mt_stage staged_XYZ) = ["X"; "Y"; "Z"] /\
  (mt ← createLocalWriteStream sample_digest sample_bson valid_header keep 6
          confirm_Y staged_XYZ;
   Ok (versions (mt_local mt), versions (mt_stage mt)))
  = Ok (["X"; "Y"], ["Z"]).
Proof. repeat split; vm_compute; reflexivity. Qed.

Lemma local_write_confirms_in_any_order_witness :
  exists mt',
    createLocalWriteStream sample_digest sample_bson valid_header keep 6
      confirm_Y staged_XYZ = Ok mt' /\
    t_items (mt_stage mt')
      = List.filter
          (fun y => negb (existsb (same_version y)
                            (Tree_iterateInsertionOrder (Some "foo") None (Some "Y")
                               false false (mt_stage staged_XYZ))))
          (t_items (mt_stage staged_XYZ)).
Proof.
  destruct (local_write_confirms_in_any_order sample_digest sample_bson
              valid_header keep 6 confirm_Y (with_i 2 (remote_item "Y" ["X"]))
              staged_XYZ) as (mt' & Hw & _ & _ & _ & Hstage & _).
  - reflexivity.
  - reflexivity.
  - vm_compute. reflexivity.
  - reflexivity.
  - apply (bool_decide_unpack _). vm_compute. reflexivity.
  - apply (bool_decide_unpack _). vm_compute. reflexivity.
  - apply (bool_decide_unpack _). vm_compute. reflexivity.
  - exists mt'. split; [exact Hw | exact Hstage].
Defined.

(** ** Merge conflicts *)

Section StageWriteFacts.
Context {M B : Type} `{EqDecision M} `{EqDecision B}.
Implicit Types (x y item : mitem M B) (t : tree M B) (mt : merge_tree M B).

(** A write to stage touches neither local nor the record of merge
    handler calls, and the item is in stage afterwards. *)
Lemma stage_write_Ok x mt mt' :
  stage_write x mt = Ok mt' ->
  mt_handled mt' = mt_handled mt /\ mt_local mt' = mt_local mt /\
  has_version (h_id (item_h x)) (h_v (item_h x)) (t_items (mt_stage mt')).
Proof.
  unfold stage_write. intros (stage & Hw & [= <-])%bind_Ok.
  apply Tree_write_has_version in Hw as [Hin _]. done.
Qed.

(** An item with the conflict flag whose key is not in stage yet is
    stored with the flag. *)
Lemma stage_write_conflict x mt :
  t_skipValidation (mt_stage mt) = true ->
  (forall y, y ∈ t_items (mt_stage mt) -> same_version y x = false) ->
  exists mt', stage_write (with_c x) mt = Ok mt' /\
    exists y, y ∈ t_items (mt_stage mt') /\ same_version y x = true /\
              h_c (item_h y) = true.
Proof.
  intros Hskip Hnew.
  destruct (Tree_write_new (with_c x) (mt_stage mt) Hskip) as (t' & Hw & y & Hy & Hs & Hc).
  { intros y Hy. by apply Hnew. }
  exists (with_stage t' mt). unfold stage_write. rewrite Hw.
  split; [done|]. exists y. split; [done|]. split; [done|]. by apply Hc.
Qed.

End StageWriteFacts.

(** C6.  A three-way merge conflict does not abort processing.  In
    [_mergeNewHeads] a head whose merge with the local head calls back
    with the error 'merge conflict' stays in the batch as it was, but
    for [_m3._c = true]; nothing is added and the loop goes on with the
    remaining heads.  The merge is reached for a head whose local head
    has another version and is not deleted, unless both are roots and
    the head is a new root.  In [mergeWithLocal] a conflict between a
    source head and a head of the local tree makes the iterator write
    the source head to stage with [h.c = true], and a failed merge of a
    new head with the head in stage writes the new head with
    [h.c = true]; in both cases the result is that of the write to
    stage, which does not call the merge handler, and when the version
    is new in stage the write succeeds and stores the flag. *)
Theorem merge_conflict_does_not_abort {V M B : Type}
    `{EqDecision M} `{EqDecision B}
    (localPerspective : string) (_proceedOnError : bool) (snapshot : list (vitem V))
    (_merge : vitem V -> vitem V -> result error (list (vitem V)))
    (pseudoRandomBytes : nat -> list Byte.byte) (newRoots : gset string)
    (st : merge_heads_state) (head lh : vitem V) (m : meta) (e : error)
    (rest : list (vitem V))
    (sha256 : list Byte.byte -> list Byte.byte)
    (BSON_serialize : mitem M B -> list Byte.byte)
    (_transform : mitem M B -> result string (option (mitem M B)))
    (_mergeHandler :
       mitem M B -> option (mitem M B) -> merge_tree M B ->
       result mt_error (merge_tree M B))
    (merge :
       list (mitem M B) -> list (mitem M B) -> mitem M B -> mitem M B ->
       merge_outcome M B)
    (stree : tree M B) (shead dhead nitem newHead head0 : mitem M B)
    (lhead : option (mitem M B)) (keys : list string)
    (conflict : option (list string)) (mt : merge_tree M B) :
  findOne_last
    (fun item => bool_decide (_id_id (_id item) = _id_id (_id head))
                 && bool_decide (_pe (_id item) = localPerspective))
    snapshot = Some lh ->
  (_pa (_id head) = [] -> _pa (_id lh) = [] ->
   inherited (_id_id (_id head)) = false /\ _id_id (_id head) ∉ newRoots) ->
  _v (_id lh) <> _v (_id head) ->
  _d (_id lh) = false ->
  _m3 head = Some m ->
  _merge lh head = Err e -> message e = "merge conflict" ->
  h_pe (item_h shead) = t_name stree ->
  _transform shead = Ok (Some nitem) ->
  merge (Tree_createReadStream (h_id (item_h shead)) stree)
    (Tree_createReadStream (h_id (item_h dhead)) (mt_local mt)) shead dhead
  = MergeFailed (Some keys) ->
  Tree_getHeads (h_id (item_h newHead)) true true (mt_stage mt) = [head0] ->
  merge ([head0] ++ Tree_createReadStream (h_id (item_h newHead)) stree)
    ([head0] ++ Tree_createReadStream (h_id (item_h newHead)) stree) newHead head0
  = MergeFailed conflict ->
  (let kept :=
     {| _id := _id head;
        _m3 := Some {| _ack := _ack m; _op := _op m; _c := true |};
        attrs := attrs head |} in
   let st' :=
     {| heads_seen := heads_seen st ++ [kept];
        newlyAddedItems := newlyAddedItems st;
        drawn := drawn st |} in
   mergeNewHeads_step localPerspective _proceedOnError snapshot _merge
     pseudoRandomBytes newRoots st head = Ok st' /\
   mergeNewHeads_loop localPerspective _proceedOnError snapshot _merge
     pseudoRandomBytes newRoots (head :: rest) st
   = mergeNewHeads_loop localPerspective _proceedOnError snapshot _merge
       pseudoRandomBytes newRoots rest st') /\
  (mergeTrees_dhead sha256 BSON_serialize merge (merge_tree M B) mt_local
     (mergeWithLocal_iterator sha256 BSON_serialize _transform _mergeHandler merge
        stree)
     stree shead dhead mt
   = stage_write (with_c nitem) mt /\
   mergeNewHeadWithStage sha256 BSON_serialize _mergeHandler merge stree lhead
     (Some newHead) mt
   = stage_write (with_c newHead) mt) /\
  (forall x : mitem M B,
     h_c (item_h (with_c x)) = true /\
     (forall mt', stage_write (with_c x) mt = Ok mt' ->
        mt_handled mt' = mt_handled mt /\ mt_local mt' = mt_local mt) /\
     (t_skipValidation (mt_stage mt) = true ->
      (forall y, y ∈ t_items (mt_stage mt) -> same_version y x = false) ->
      exists mt', stage_write (with_c x) mt = Ok mt' /\
        exists y, y ∈ t_items (mt_stage mt') /\ same_version y x = true /\
                  h_c (item_h y) = true)).
Proof.
  intros Hlh Hroot Hv Hd Hm Hmerge Hmsg Hpe Ht Hconflict Hheads Hstage.
  split; [|split].
  - cbv zeta.
    assert (mergeNewHeads_step localPerspective _proceedOnError snapshot _merge
              pseudoRandomBytes newRoots st head
            = Ok {| heads_seen :=
                      heads_seen st
                      ++ [{| _id := _id head;
                             _m3 := Some {| _ack := _ack m; _op := _op m; _c := true |};
                             attrs := attrs head |}];
                    newlyAddedItems := newlyAddedItems st;
                    drawn := drawn st |}) as Hstep.
    { unfold mergeNewHeads_step. cbv zeta. rewrite Hlh, Hd, !andb_false_r.
      assert ((bool_decide (_id_id (_id head) ∈ newRoots)
               || inherited (_id_id (_id head)))
              && is_nil (_pa (_id head)) && is_nil (_pa (_id lh)) = false) as ->.
      { destruct (_pa (_id head)); [|by rewrite andb_false_r].
        destruct (_pa (_id lh)); [|by rewrite andb_false_r].
        destruct Hroot as [Hi Hn]; [done..|].
        by rewrite (bool_decide_eq_false_2 _ Hn), Hi. }
      cbn [andb]. rewrite (bool_decide_eq_false_2 _ Hv), Hm, Hmerge.
      rewrite (bool_decide_eq_true_2 _ Hmsg).
      unfold set_conflict. rewrite Hm. done. }
    split; [exact Hstep|]. cbn [mergeNewHeads_loop]. by rewrite Hstep.
  - split.
    + unfold mergeTrees_dhead. rewrite Hconflict.
      unfold mergeWithLocal_iterator, transform.
      rewrite bool_decide_eq_false_2 by (intros Hn; by apply Hn).
      rewrite Ht. done.
    + unfold mergeNewHeadWithStage. rewrite Hheads, Hstage. done.
  - intros x. split; [done|]. split.
    + intros mt' Hw. apply stage_write_Ok in Hw as (? & ? & _). done.
    + apply stage_write_conflict.
Qed.

(** The head C of a fork conflicts with the local head B: C is flagged
    and the loop is through. *)
Example mergeNewHeads_skips_conflict :
  _mergeNewHeads "I" false
    [node "I" "A" [] false 1; node "I" "B" ["A"] false 2] no_merge zero_bytes
    [node "I" "C" ["A"] false 3] ∅ 0
  = Ok (next_head fresh_state (mark_conflict (node "I" "C" ["A"] false 3))).
Proof. reflexivity. Qed.

(** X from "R" conflicts with the local head L: X is staged with the
    conflict flag and the merge handler is not called. *)
Example mergeWithLocal_stages_conflict :
  (mt ← mergeWithLocal sample_digest sample_bson keep later conflicting
          (tree_of "R" false [remote_item "X" []])
          (merge_tree_of [local_item "L" []] [] [remote_item "X" []] []);
   Ok (t_items (mt_stage mt), mt_handled mt))
  = Ok ([with_i 1 (with_c (remote_item "X" []))], []).
Proof. vm_compute. reflexivity. Qed.

Lemma merge_conflict_does_not_abort_witness :
  _mergeNewHeads "I" false
    [node "I" "A" [] false 1; node "I" "B" ["A"] false 2] no_merge zero_bytes
    [node "I" "C" ["A"] false 3; node "I" "B" ["A"] false 2] ∅ 0
  = Ok {| heads_seen :=
            [{| _id := _id (node "I" "C" ["A"] false 3);
                _m3 := Some {| _ack := false; _op := (0, 0)%Z; _c := true |};
                attrs := [] |};
             node "I" "B" ["A"] false 2];
          newlyAddedItems := []; drawn := 0 |} /\
  mergeTrees_dhead sample_digest sample_bson conflicting (merge_tree unit string)
    mt_local
    (mergeWithLocal_iterator sample_digest sample_bson keep later conflicting
       (tree_of "R" false [remote_item "X" []; remote_item "Y" ["X"]]))
    (tree_of "R" false [remote_item "X" []; remote_item "Y" ["X"]])
    (with_i 2 (remote_item "Y" ["X"])) (with_i 1 (local_item "L" []))
    (merge_tree_of [local_item "L" []] [remote_item "X" []]
       [remote_item "X" []; remote_item "Y" ["X"]] [])
  = stage_write (with_c (with_i 2 (remote_item "Y" ["X"])))
      (merge_tree_of [local_item "L" []] [remote_item "X" []]
         [remote_item "X" []; remote_item "Y" ["X"]] []).
Proof.
  pose proof (merge_conflict_does_not_abort (V := string) "I" false
    [node "I" "A" [] false 1; node "I" "B" ["A"] false 2] no_merge zero_bytes ∅
    fresh_state (node "I" "C" ["A"] false 3) (node "I" "B" ["A"] false 2)
    {| _ack := false; _op := (0, 0)%Z; _c := false |} MergeConflict
    [node "I" "B" ["A"] false 2]
    sample_digest sample_bson keep later conflicting
    (tree_of "R" false [remote_item "X" []; remote_item "Y" ["X"]])
    (with_i 2 (remote_item "Y" ["X"])) (with_i 1 (local_item "L" []))
    (with_i 2 (remote_item "Y" ["X"])) (with_i 2 (remote_item "Y" ["X"]))
    (with_i 1 (remote_item "X" [])) None ["b"] (Some ["b"])
    (merge_tree_of [local_item "L" []] [remote_item "X" []]
       [remote_item "X" []; remote_item "Y" ["X"]] [])) as Hthm.
  destruct Hthm as ((_ & Hloop) & (Hstage & _) & _).
  - reflexivity.
  - discriminate.
  - discriminate.
  - reflexivity.
  - reflexivity.
  - reflexivity.
  - reflexivity.
  - reflexivity.
  - reflexivity.
  - reflexivity.
  - vm_compute. reflexivity.
  - reflexivity.
  - split; [|exact Hstage]. unfold _mergeNewHeads.
    change {| heads_seen := []; newlyAddedItems := []; drawn := 0 |}
      with fresh_state.
    rewrite Hloop. reflexivity.
Defined.

(** ** Versions of merges *)

Section VersionFacts.
Context {M B : Type}.
Variable sha256 : list Byte.byte -> list Byte.byte.
Variable BSON_serialize : mitem M B -> list Byte.byte.

(** With a size, the version is the base64 of that many bytes of the
    digest of the serialized item. *)
Lemma versionContent_sized (item : mitem M B) (vSize : nat) :
  vSize <> 0 ->
  versionContent sha256 BSON_serialize item vSize
  = Ok (base64 (take vSize (sha256 (BSON_serialize item)))).
Proof.
  intros Hn. unfold versionContent. by rewrite bool_decide_eq_true_2.
Qed.

(** Without a size, the number of bytes comes from the length of the
    first parent. *)
Lemma versionContent_by_parent (item : mitem M B) (p : string) (pa : list string) :
  h_pa (item_h item) = Some (p :: pa) ->
  8 <= String.length p * 6 ->
  versionContent sha256 BSON_serialize item 0
  = Ok (base64 (take (String.length p * 6 / 8) (sha256 (BSON_serialize item)))).
Proof.
  intros Hpa Hlen. unfold versionContent.
  rewrite bool_decide_eq_false_2 by (intros Hn; by apply Hn).
  rewrite Hpa, bool_decide_eq_false_2 by lia. done.
Qed.

End VersionFacts.

(** base64 gives four characters for every three bytes or part of it. *)
Lemma base64_length (bs : list Byte.byte) :
  String.length (base64 bs) = 4 * ((length bs + 2) / 3).
Proof.
  assert (forall n bs, length bs < n ->
            String.length (base64 bs) = 4 * ((length bs + 2) / 3)) as Hind.
  { clear bs. induction n as [|n IH]; intros bs Hlen; [lia|].
    destruct bs as [|a [|b [|c rest]]]; [done..|].
    cbn [base64 String.length length]. rewrite IH by (cbn [length] in Hlen; lia).
    replace (S (S (S (length rest))) + 2) with (length rest + 2 + 1 * 3) by lia.
    rewrite Nat.div_add by lia. lia. }
  apply (Hind (S (length bs))). lia.
Qed.

(** The number of bytes [versionContent] takes when it is given no
    size: for a first parent that is the base64 of [vSize] bytes, with
    [vSize] a multiple of 3, that many. *)
Lemma bytes_of_parent (p : string) (vSize : nat) :
  0 < vSize -> vSize mod 3 = 0 -> String.length p = 4 * (vSize / 3) ->
  8 <= String.length p * 6 /\ String.length p * 6 / 8 = vSize.
Proof.
  intros Hpos Hmod Hlen. rewrite Hlen.
  pose proof (Nat.div_mod_eq vSize 3) as Hdiv. rewrite Hmod in Hdiv.
  set (k := vSize / 3) in *.
  replace (4 * k * 6) with (vSize * 8) by lia.
  rewrite Nat.div_mul by done. lia.
Qed.

(** C1 (as amended).  A merge that the merge tree creates gets a version
    by content.  In [_mergeTrees] the version is the base64 of the first
    [vSize] bytes of the SHA-256 digest of the BSON serialization of
    the merge item of the source side, as [merge] gave it, and the merge
    item of the destination side gets that same version.  In
    [mergeWithLocal] a merge of a new head with the head in stage gets
    the base64 of the first [vSize] bytes of the digest of its own
    serialization.  This is for a [vSize] that is a multiple of 3 and a
    first parent whose version is the base64 of [vSize] bytes.  A merge
    that [_mergeNewHeads] creates gets the base64 of the pseudo-random
    bytes drawn for it, whatever the item holds. *)
Theorem merge_tree_versions_by_content_writer_at_random {V M B St : Type}
    `{EqDecision M} `{EqDecision B}
    (sha256 : list Byte.byte -> list Byte.byte)
    (BSON_serialize : mitem M B -> list Byte.byte)
    (_mergeHandler :
       mitem M B -> option (mitem M B) -> merge_tree M B ->
       result mt_error (merge_tree M B))
    (merge :
       list (mitem M B) -> list (mitem M B) -> mitem M B -> mitem M B ->
       merge_outcome M B)
    (_vSize : nat)
    (dtree_of : St -> tree M B)
    (iterator :
       smerge_arg M B -> option (mitem M B) -> mitem M B -> option (mitem M B) ->
       St -> result mt_error St)
    (stree : tree M B) (shead dhead smerge dmerge : mitem M B) (st : St)
    (p q : string) (pa qa : list string)
    (newHead head0 merged other : mitem M B) (lhead : option (mitem M B))
    (mt : merge_tree M B)
    (localPerspective : string) (_proceedOnError : bool) (snapshot : list (vitem V))
    (_merge : vitem V -> vitem V -> result error (list (vitem V)))
    (pseudoRandomBytes : nat -> list Byte.byte) (newRoots : gset string)
    (wst : merge_heads_state) (head lh merged0 : vitem V) (others : list (vitem V)) :
  0 < _vSize -> _vSize mod 3 = 0 ->
  h_pa (item_h smerge) = Some (p :: pa) ->
  String.length p = 4 * (_vSize / 3) ->
  h_v (item_h dmerge) = "" ->
  merge (Tree_createReadStream (h_id (item_h shead)) stree)
    (Tree_createReadStream (h_id (item_h dhead)) (dtree_of st)) shead dhead
  = MergeDone smerge dmerge ->
  Tree_getHeads (h_id (item_h newHead)) true true (mt_stage mt) = [head0] ->
  merge ([head0] ++ Tree_createReadStream (h_id (item_h newHead)) stree)
    ([head0] ++ Tree_createReadStream (h_id (item_h newHead)) stree) newHead head0
  = MergeDone merged other ->
  h_v (item_h merged) = "" ->
  h_pa (item_h merged) = Some (q :: qa) ->
  String.length q = 4 * (_vSize / 3) ->
  findOne_last
    (fun item => bool_decide (_id_id (_id item) = _id_id (_id head))
                 && bool_decide (_pe (_id item) = localPerspective))
    snapshot = Some lh ->
  (_pa (_id head) = [] -> _pa (_id lh) = [] ->
   inherited (_id_id (_id head)) = false /\ _id_id (_id head) ∉ newRoots) ->
  _v (_id lh) <> _v (_id head) ->
  _d (_id lh) = false ->
  has_m3 head ->
  _merge lh head = Ok (merged0 :: others) ->
  _v (_id merged0) = "" ->
  let v := base64 (take _vSize (sha256 (BSON_serialize smerge))) in
  let w := base64 (take _vSize (sha256 (BSON_serialize merged))) in
  mergeTrees_dhead sha256 BSON_serialize merge St dtree_of iterator stree shead dhead st
  = iterator (MergedItem (with_hv v smerge)) (Some (with_hv v dmerge))
      shead (Some dhead) st /\
  mergeNewHeadWithStage sha256 BSON_serialize _mergeHandler merge stree lhead
    (Some newHead) mt
  = (mt ← stage_write newHead mt;
     mt ← stage_write (with_hv w merged) mt;
     callMergeHandler _mergeHandler (with_hv w merged) (Some head0) mt) /\
  (exists added : vitem V,
     mergeNewHeads_step localPerspective _proceedOnError snapshot _merge
       pseudoRandomBytes newRoots wst head
     = Ok {| heads_seen := heads_seen wst ++ [head];
             newlyAddedItems := newlyAddedItems wst ++ [added];
             drawn := S (drawn wst) |} /\
     _v (_id added) = base64 (pseudoRandomBytes (drawn wst))).
Proof.
  intros Hpos Hmod Hpa Hlen Hdv Hm Hheads Hstage Hmv Hqa Hqlen
    Hlh Hroot Hv Hd [m Hm3] Hmerge Hv0 v w.
  destruct (bytes_of_parent p _vSize Hpos Hmod Hlen) as [Hp8 Hpn].
  destruct (bytes_of_parent q _vSize Hpos Hmod Hqlen) as [Hq8 Hqn].
  pose proof (versionContent_by_parent sha256 BSON_serialize smerge p pa Hpa Hp8)
    as Hversion.
  pose proof (versionContent_by_parent sha256 BSON_serialize merged q qa Hqa Hq8)
    as Hversion'.
  rewrite Hpn in Hversion. rewrite Hqn in Hversion'.
  split; [|split].
  - unfold mergeTrees_dhead. rewrite Hm, Hdv, Hversion.
    by rewrite bool_decide_eq_true_2.
  - unfold mergeNewHeadWithStage. rewrite Hheads, Hstage, Hmv, Hversion'.
    rewrite bool_decide_eq_false_2 by (intros Hn; by apply Hn).
    cbn [andb]. destruct (stage_write newHead mt); done.
  - eexists. split.
    + unfold mergeNewHeads_step. cbv zeta. rewrite Hlh, Hd, !andb_false_r.
      assert ((bool_decide (_id_id (_id head) ∈ newRoots)
               || inherited (_id_id (_id head)))
              && is_nil (_pa (_id head)) && is_nil (_pa (_id lh)) = false) as ->.
      { destruct (_pa (_id head)); [|by rewrite andb_false_r].
        destruct (_pa (_id lh)); [|by rewrite andb_false_r].
        destruct Hroot as [Hi Hn]; [done..|].
        by rewrite (bool_decide_eq_false_2 _ Hn), Hi. }
      cbn [andb]. rewrite (bool_decide_eq_false_2 _ Hv), Hm3, Hmerge.
      rewrite (bool_decide_eq_true_2 _ Hv0). cbn [negb]. reflexivity.
    + unfold _ensureVersion. cbn [with_m3 _id].
      rewrite (bool_decide_eq_true_2 _ Hv0). done.
Qed.

(** The same head C is merged with the same local head B over the same
    snapshot twice; the version of the merge is the base64 of the bytes
    the random source gave, so the two runs version the merge
    differently. *)
Lemma mergeNewHeads_versions_merge_at_random :
  (st ← _mergeNewHeads "I" false
          [node "I" "A" [] false 1; node "I" "B" ["A"] false 2] merge_to_new
          zero_bytes [node "I" "C" ["A"] false 3] ∅ 0;
   Ok (map (fun x => (_pa (_id x), _v (_id x))) (newlyAddedItems st)))
  = Ok [(["B"; "C"], "AAAAAAAA")] /\
  (st ← _mergeNewHeads "I" false
          [node "I" "A" [] false 1; node "I" "B" ["A"] false 2] merge_to_new
          ff_bytes [node "I" "C" ["A"] false 3] ∅ 0;
   Ok (map (fun x => (_pa (_id x), _v (_id x))) (newlyAddedItems st)))
  = Ok [(["B"; "C"], "////////")].
Proof. split; reflexivity. Qed.

(** In the merge tree the merge of X from "R" with the local head L is
    versioned by its content and handed to the merge handler. *)
Example mergeWithLocal_versions_merge_by_content :
  (mt ← mergeWithLocal sample_digest sample_bson keep later new_merge
          (tree_of "R" false [remote_item "XXXXXXXX" []])
          (merge_tree_of [local_item "LLLLLLLL" []] []
             [remote_item "XXXXXXXX" []] []);
   Ok (versions (mt_stage mt),
       map (fun c => h_v (item_h c.1)) (mt_handled mt)))
  = Ok (["AAEGBQQD"], ["AAEGBQQD"]).
Proof. vm_compute. reflexivity. Qed.

Lemma merge_tree_versions_by_content_writer_at_random_witness :
  (forall iterator,
     mergeTrees_dhead sample_digest sample_bson new_merge (merge_tree unit string)
       mt_local iterator (tree_of "R" false [remote_item "XXXXXXXX" []])
       (with_i 1 (remote_item "XXXXXXXX" [])) (with_i 1 (local_item "LLLLLLLL" []))
       (merge_tree_of [local_item "LLLLLLLL" []] [] [remote_item "XXXXXXXX" []] [])
     = iterator (MergedItem (with_hv "AAEGBQQD" (merged_XL "R")))
         (Some (with_hv "AAEGBQQD" (merged_XL "")))
         (with_i 1 (remote_item "XXXXXXXX" []))
         (Some (with_i 1 (local_item "LLLLLLLL" [])))
         (merge_tree_of [local_item "LLLLLLLL" []] [] [remote_item "XXXXXXXX" []] [])) /\
  versionContent sample_digest sample_bson (merged_XL "") 6 = Ok "AAAGBQQD" /\
  exists added : vitem string,
    mergeNewHeads_step "I" false
      [node "I" "A" [] false 1; node "I" "B" ["A"] false 2] merge_to_new
      zero_bytes ∅ fresh_state (node "I" "C" ["A"] false 3)
    = Ok {| heads_seen := [node "I" "C" ["A"] false 3];
            newlyAddedItems := [added]; drawn := 1 |} /\
    _v (_id added) = "AAAAAAAA".
Proof.
  split; [|split; [reflexivity|]].
  - intros iterator.
    pose proof (merge_tree_versions_by_content_writer_at_random
      (V := string) (St := merge_tree unit string)
      sample_digest sample_bson later new_merge 6 mt_local iterator
      (tree_of "R" false [remote_item "XXXXXXXX" []])
      (with_i 1 (remote_item "XXXXXXXX" [])) (with_i 1 (local_item "LLLLLLLL" []))
      (merged_XL "R") (merged_XL "")
      (merge_tree_of [local_item "LLLLLLLL" []] [] [remote_item "XXXXXXXX" []] [])
      "XXXXXXXX" "XXXXXXXX" ["LLLLLLLL"] ["LLLLLLLL"]
      (with_i 1 (remote_item "XXXXXXXX" [])) (with_i 1 (local_item "LLLLLLLL" []))
      (merged_XL "R") (merged_XL "") None
      (merge_tree_of [] [local_item "LLLLLLLL" []] [remote_item "XXXXXXXX" []] [])
      "I" false [node "I" "A" [] false 1; node "I" "B" ["A"] false 2] merge_to_new
      zero_bytes ∅ fresh_state (node "I" "C" ["A"] false 3)
      (node "I" "B" ["A"] false 2)
      {| _id := {| _co := "c"; _id_id := "foo"; _v := ""; _pe := "I";
                   _pa := ["B"; "C"]; _lo := true; _i := 0%Z; _d := false |};
         _m3 := None; attrs := [] |}
      []) as Hthm.
    destruct Hthm as (Htrees & _ & _).
    + lia.
    + reflexivity.
    + reflexivity.
    + reflexivity.
    + reflexivity.
    + reflexivity.
    + reflexivity.
    + reflexivity.
    + reflexivity.
    + reflexivity.
    + reflexivity.
    + reflexivity.
    + discriminate.
    + discriminate.
    + reflexivity.
    + by exists {| _ack := false; _op := (0, 0)%Z; _c := false |}.
    + reflexivity.
    + reflexivity.
    + exact Htrees.
  - eexists. split; reflexivity.
Defined.

(** ** The merge, attribute by attribute *)

Section MergeRuleFacts.
Context {V : Type} (JSON_stringify : V -> option string).
Implicit Types (itemA itemB lca item base : Obj.t V) (k : string).
Import Obj ObjFacts.

Local Abbreviation applyDeltas' itemA itemB dA :=
  (fold_left (stepDelta JSON_stringify itemA itemB dA)).

Lemma stepDelta_cases itemA itemB dA (m : Obj.t V) (cs : list string) k dB :
  stepDelta JSON_stringify itemA itemB dA (m, cs) (k, dB)
  = if delta_conflicts JSON_stringify itemA itemB dA k dB then (m, cs ++ [k])
    else if bool_decide (dB = Removed) then (del k m, cs)
    else (match get k itemB with Some vB => set k vB m | None => m end, cs).
Proof.
  unfold stepDelta, delta_conflicts.
  destruct (has k dA && bool_decide (get k dA ≠ Some dB)); [done|].
  destruct (bool_decide (dB = Removed)); [done|]. cbn [orb negb andb].
  repeat (match goal with
          | |- context [if ?b && ?c then _ else _] => destruct (b && c); cbn [orb]
          end); done.
Qed.

(** The conflicts after the loop: those there were, and the keys of the
    deltas that conflict. *)
Lemma applyDeltas_conflicts itemA itemB dA (l : Obj.t delta) st k :
  k ∈ (applyDeltas' itemA itemB dA l st).2 <->
  k ∈ st.2 \/ exists d, (k, d) ∈ l /\
                 delta_conflicts JSON_stringify itemA itemB dA k d = true.
Proof.
  revert st. induction l as [|[k' d'] l IH]; intros [m cs]; cbn [fold_left].
  - split; [by left|]. intros [?|(d & Hin & _)]; [done|].
    by apply elem_of_nil in Hin.
  - rewrite IH, stepDelta_cases. clear IH.
    destruct (delta_conflicts _ itemA itemB dA k' d') eqn:Hc; cbn [snd].
    + rewrite elem_of_app, list_elem_of_singleton. split.
      * intros [[?| ->]|(d & Hin & Hd)].
        -- by left.
        -- right. exists d'. split; [apply list_elem_of_here | done].
        -- right. exists d. split; [by apply list_elem_of_further | done].
      * intros [?|(d & Hin & Hd)]; [by left; left|].
        apply elem_of_cons in Hin as [[= -> ->]|Hin]; [left; by right|].
        right. by exists d.
    + assert ((if bool_decide (d' = Removed) then (del k' m, cs)
               else (match get k' itemB with
                     | Some vB => set k' vB m
                     | None => m
                     end, cs)).2 = cs) as -> by (by destruct (bool_decide _)).
      split.
      * intros [?|(d & Hin & Hd)]; [by left|].
        right. exists d. split; [by apply list_elem_of_further | done].
      * intros [?|(d & Hin & Hd)]; [by left|].
        apply elem_of_cons in Hin as [[= -> ->]|Hin]; [congruence|].
        right. by exists d.
Qed.

(** The attribute [k] after the loop. *)
Lemma applyDeltas_get itemA itemB dA (l : Obj.t delta) st k :
  wf l ->
  get k (applyDeltas' itemA itemB dA l st).1 =
  match get k l with
  | None => get k st.1
  | Some d =>
      if delta_conflicts JSON_stringify itemA itemB dA k d then get k st.1
      else if bool_decide (d = Removed) then None
      else match get k itemB with Some vB => Some vB | None => get k st.1 end
  end.
Proof.
  unfold wf. revert st.
  induction l as [|[k' d'] l IH]; intros [m cs] Hnd; cbn [fold_left]; [done|].
  cbn [keys fmap list_fmap fst] in Hnd. apply NoDup_cons in Hnd as [Hk' Hnd].
  cbn [get]. destruct (decide (k = k')) as [->|Hne].
  - rewrite applyDeltas_untouched by done. rewrite stepDelta_cases.
    destruct (delta_conflicts _ _ _ _ _ _); [done|].
    destruct (bool_decide (d' = Removed)); cbn [fst]; [apply get_del_eq|].
    destruct (get k' itemB); [apply get_set_eq | done].
  - rewrite IH by done. f_equal.
    all: by rewrite stepDelta_other.
Qed.

End MergeRuleFacts.

Section MergeRuleProofs.
Context {V : Type} (JSON_stringify : V -> option string).
Implicit Types (itemA itemB lca item base : Obj.t V) (k : string).
Import Obj ObjFacts.

Local Abbreviation delta_at := (delta_of JSON_stringify).

Lemma deltas_has item base k :
  wf item -> has k (deltas JSON_stringify item base) = bool_decide (delta_at item base k ≠ None).
Proof.
  intros Hwf. unfold has. rewrite deltas_get by done.
  destruct (delta_at item base k); [by rewrite bool_decide_true|].
  by rewrite bool_decide_false by (intros Hn; by apply Hn).
Qed.

Lemma deltas_elem item base k d :
  wf item -> (k, d) ∈ deltas JSON_stringify item base <-> delta_at item base k = Some d.
Proof.
  intros Hwf. rewrite <- (deltas_get JSON_stringify) by done. split.
  - apply elem_get, wf_deltas.
  - apply get_Some_elem.
Qed.

(** A delta of B that says created or changed is a delta of a key B has. *)
Lemma delta_of_present item base k d :
  delta_at item base k = Some d -> d <> Removed -> is_Some (get k item).
Proof.
  unfold delta_of. destruct (get k item); [by eexists|].
  destruct (get k base); [|done]. by intros [= <-].
Qed.

(** With one lca the tests of the loop say that both sides changed the
    key and did not do the same to it. *)
Lemma delta_conflicts_rule itemA itemB lca k dB :
  wf itemA ->
  delta_at itemB lca k = Some dB ->
  delta_conflicts JSON_stringify itemA itemB (deltas JSON_stringify itemA lca) k dB
  = conflict_at JSON_stringify itemA itemB lca k.
Proof.
  intros HwfA HdB. unfold delta_conflicts, conflict_at.
  rewrite deltas_has, deltas_get, HdB by done.
  destruct (delta_at itemA lca k) as [dA|] eqn:HdA.
  - rewrite (bool_decide_true (Some dA ≠ None)) by done. cbn [andb].
    destruct (decide (dA = dB)) as [->|Hne].
    + rewrite (bool_decide_false (Some dB ≠ Some dB)) by (intros Hn; by apply Hn).
      rewrite (bool_decide_true (dB = dB)) by done. cbn [negb orb].
      destruct dB, (json_neq JSON_stringify (get k itemA) (get k itemB)),
        (has k itemA); repeat case_bool_decide; try congruence; done.
    + rewrite (bool_decide_true (Some dA ≠ Some dB)) by congruence.
      by rewrite (bool_decide_false (dA = dB)) by done.
  - rewrite (bool_decide_false (None ≠ None)) by (intros Hn; by apply Hn).
    cbn [andb orb].
    rewrite (bool_decide_false (None = Some Changed)) by done.
    rewrite (bool_decide_false (None = Some Added)) by done. cbn [andb orb].
    destruct (bool_decide (dB = Removed)); [done|]. cbn [negb andb].
    case_bool_decide as Hadd; [|done]. subst dB. cbn [andb].
    unfold has. unfold delta_of in HdA, HdB.
    destruct (get k itemA); [|done].
    destruct (get k lca); [|done].
    destruct (get k itemB); [|done].
    by destruct (json_neq _ _ _) in HdB.
Qed.

Lemma filter_none_in {A} (P : A -> Prop) `{forall a, Decision (P a)} (l : list A) :
  (forall a, a ∈ l -> ~ P a) -> filter P l = [].
Proof.
  induction l as [|a l IH]; intros Hno; [done|].
  rewrite filter_cons, decide_False by (apply Hno, list_elem_of_here).
  apply IH. intros b Hb. by apply Hno, list_elem_of_further.
Qed.

(** What the merge with one lca gives: the keys in conflict, or the
    merged item attribute by attribute. *)
Lemma merge3_rule itemA itemB lca lcaB :
  wf itemA -> wf itemB -> default lca lcaB = lca ->
  match merge3 JSON_stringify itemA itemB lca lcaB with
  | Conflicts cs =>
      cs <> [] /\
      forall k, k ∈ cs <-> conflict_at JSON_stringify itemA itemB lca k = true
  | Merged m =>
      (forall k, conflict_at JSON_stringify itemA itemB lca k = false) /\
      forall k, get k m = merged_at JSON_stringify itemA itemB lca k
  end.
Proof.
  intros HwfA HwfB HlB. rewrite merge3_unfold. cbv zeta. rewrite HlB.
  rewrite (filter_none_in (fun k => get k (deltas JSON_stringify itemA lca) = Some Added)).
  2:{ intros k Hk. rewrite deltas_get by done. unfold delta_of.
      destruct (get k lca) eqn:El.
      - destruct (get k itemA); [by destruct (json_neq _ _ _) | done].
      - by apply get_None_keys in El. }
  pose proof (applyDeltas_conflicts JSON_stringify itemA itemB
                (deltas JSON_stringify itemA lca) (deltas JSON_stringify itemB lca)
                (fold_left (fun m kv => set kv.1 kv.2 m) itemA [], [])) as Hcs.
  pose proof (applyDeltas_get JSON_stringify itemA itemB
                (deltas JSON_stringify itemA lca) (deltas JSON_stringify itemB lca)
                (fold_left (fun m kv => set kv.1 kv.2 m) itemA [], [])) as Hget.
  destruct (fold_left _ (deltas JSON_stringify itemB lca) _) as [m cs] eqn:Hr.
  cbn [fst snd] in *.
  assert (forall k, k ∈ cs <-> conflict_at JSON_stringify itemA itemB lca k = true)
    as Hrule.
  { intros k. rewrite Hcs. split.
    - intros [Hin|(d & Hin & Hd)]; [by apply elem_of_nil in Hin|].
      apply deltas_elem in Hin; [|done].
      by rewrite <- (delta_conflicts_rule _ _ _ _ d).
    - intros Hc. right. pose proof Hc as Hc'. unfold conflict_at in Hc'.
      destruct (delta_at itemA lca k) as [dA|] eqn:HdA; [|done].
      destruct (delta_at itemB lca k) as [dB|] eqn:HdB; [|done].
      exists dB. split; [by apply deltas_elem|].
      by rewrite delta_conflicts_rule. }
  destruct cs as [|c cs]; [|split; [done | exact Hrule]].
  assert (forall k, conflict_at JSON_stringify itemA itemB lca k = false) as Hnone.
  { intros k. destruct (conflict_at _ _ _ _ k) eqn:E; [|done].
    apply Hrule in E. by apply elem_of_nil in E. }
  split; [exact Hnone|].
  intros k. rewrite Hget by apply wf_deltas. rewrite get_copy by done.
  rewrite deltas_get by done. unfold merged_at.
  destruct (delta_at itemB lca k) as [d|] eqn:HdB; [|done].
  rewrite delta_conflicts_rule, Hnone by done.
  destruct d; try done.
  all: rewrite bool_decide_false by done.
  all: by destruct (delta_of_present _ _ _ _ HdB) as [v ->].
Qed.

End MergeRuleProofs.

Section MergeRuleTheorems.
Context {V : Type} (JSON_stringify : V -> option string).
Implicit Types (itemA itemB lca item base : Obj.t V) (k : string).
Import Obj ObjFacts.

Local Abbreviation delta_at' := (delta_of JSON_stringify).
Local Abbreviation js := (json JSON_stringify).

Lemma delta_of_None item base k :
  delta_at' item base k = None ->
  (get k item = None <-> get k base = None) /\ js (get k item) = js (get k base).
Proof.
  unfold delta_of, json_neq.
  destruct (get k item) as [v|], (get k base) as [w|]; try done.
  case_bool_decide as Hj; [done|]. intros _. split; [done|].
  by destruct (decide (js (Some v) = js (Some w))).
Qed.

Lemma delta_of_Removed item base k :
  delta_at' item base k = Some Removed -> get k item = None.
Proof.
  unfold delta_of. destruct (get k item); [|done].
  destruct (get k base); [|done]. by destruct (json_neq _ _ _).
Qed.

Lemma delta_of_same item k : delta_at' item item k = None.
Proof.
  unfold delta_of. destruct (get k item); [|done]. by rewrite json_neq_refl.
Qed.

Lemma json_neq_sym (x y : option V) :
  json_neq JSON_stringify x y = json_neq JSON_stringify y x.
Proof. unfold json_neq. apply bool_decide_ext. split; intros Hn Heq; by apply Hn. Qed.

Lemma json_neq_false (x y : option V) :
  json_neq JSON_stringify x y = false -> js x = js y.
Proof.
  unfold json_neq. intros Hf. apply bool_decide_eq_false in Hf.
  by destruct (decide (js x = js y)).
Qed.

Lemma conflict_at_sym itemA itemB lca k :
  conflict_at JSON_stringify itemA itemB lca k
  = conflict_at JSON_stringify itemB itemA lca k.
Proof.
  unfold conflict_at.
  destruct (delta_at' itemA lca k) as [dA|], (delta_at' itemB lca k) as [dB|];
    try done.
  rewrite (json_neq_sym (get k itemB)).
  destruct (decide (dA = dB)) as [->|Hne]; [done|].
  rewrite (bool_decide_false (dA = dB)), (bool_decide_false (dB = dA)) by done.
  done.
Qed.

(** *** [diff] *)

Lemma diff_item_loop base (l : list (string * V)) (d : Obj.t delta) (c : Obj.t bool) :
  has "hasOwnProperty" base = false ->
  forEach (diff_item JSON_stringify base) l (d, c)
  = Ok (fold_left (stepItemB JSON_stringify base) l d,
        fold_left (fun c kv => set kv.1 true c) l c).
Proof.
  intros Hb.
  assert (forall d c k v,
            diff_item JSON_stringify base (d, c) (k, v)
            = Ok (stepItemB JSON_stringify base d (k, v), set k true c)) as Hstep.
  { intros d' c' k v. unfold diff_item.
    rewrite hasOwnProperty_inherited by done. cbn [mbind result_bind].
    do 2 f_equal. unfold stepItemB, has. by destruct (get k base). }
  revert d c. induction l as [|[k v] l IH]; intros d c; [done|].
  cbn [forEach fold_left]. rewrite Hstep. cbn [mbind result_bind]. by rewrite IH.
Qed.

Lemma has_checked (l : list (string * V)) (c : Obj.t bool) k :
  has k (fold_left (fun c kv => set kv.1 true c) l c) = has k l || has k c.
Proof.
  revert c. induction l as [|[k1 v1] l IH]; intros c; [done|].
  cbn [fold_left]. rewrite IH. unfold has. cbn [get fst].
  destruct (decide (k = k1)) as [->|Hne].
  - rewrite get_set_eq. by rewrite orb_true_r.
  - by rewrite get_set_ne.
Qed.

Lemma diff_base_get (checked : Obj.t bool) (ks : list string) (d : Obj.t delta) k :
  get k (fold_left (diff_base checked) ks d) =
  if bool_decide (k ∈ ks) && negb (truthy_in k checked) then Some Removed else get k d.
Proof.
  revert d. induction ks as [|k1 ks IH]; intros d; simpl; [done|].
  rewrite IH. unfold diff_base.
  destruct (decide (k = k1)) as [->|Hne].
  - rewrite (bool_decide_true (k1 ∈ k1 :: ks)) by apply list_elem_of_here.
    destruct (truthy_in k1 checked) eqn:Hh; simpl.
    + by rewrite andb_false_r.
    + rewrite get_set_eq. by destruct (bool_decide (k1 ∈ ks)).
  - assert (bool_decide (k ∈ k1 :: ks) = bool_decide (k ∈ ks)) as ->.
    { apply bool_decide_ext. rewrite elem_of_cons. tauto. }
    destruct (bool_decide (k ∈ ks) && negb (truthy_in k checked)); [done|].
    destruct (truthy_in k1 checked); [done | by apply get_set_ne].
Qed.

Lemma wf_fold_diff_base (checked : Obj.t bool) (ks : list string) (d : Obj.t delta) :
  wf d -> wf (fold_left (diff_base checked) ks d).
Proof.
  revert d. induction ks as [|k ks IH]; intros d Hd; simpl; [done|].
  apply IH. unfold diff_base. destruct (truthy_in k checked); [done | by apply wf_set].
Qed.

(** What [diff] returns when the base has no attribute named
    hasOwnProperty. *)
Lemma diff_get item base k :
  wf item -> has "hasOwnProperty" base = false ->
  exists d, diff JSON_stringify item base = Ok d /\ wf d /\
    get k d =
    match get k item, get k base with
    | Some v, Some w =>
        if json_neq JSON_stringify (Some v) (Some w) then Some Changed else None
    | Some _, None => Some Added
    | None, Some _ => if inherited k then None else Some Removed
    | None, None => None
    end.
Proof.
  intros Hwf Hb. unfold diff. rewrite diff_item_loop by done.
  cbn [mbind result_bind]. eexists. split; [done|]. split.
  { apply wf_fold_diff_base, wf_fold_stepItemB, NoDup_nil_2. }
  rewrite diff_base_get, stepItemB_get by done. unfold truthy_in.
  rewrite has_checked. unfold has. cbn [get].
  destruct (get k item) as [v|] eqn:Ei; cbn [orb negb].
  - rewrite andb_false_r. destruct (get k base); [|done].
    by destruct (json_neq _ _ _).
  - destruct (get k base) as [w|] eqn:Eb.
    + rewrite bool_decide_true by (eapply get_Some_keys, Eb).
      by destruct (inherited k).
    + by rewrite bool_decide_false by (by apply get_None_keys).
Qed.

Lemma diff_of_same item :
  wf item -> has "hasOwnProperty" item = false -> diff JSON_stringify item item = Ok [].
Proof.
  intros Hwf Hi. unfold diff. rewrite diff_item_loop by done. cbn [mbind result_bind].
  f_equal. rewrite stepItemB_same by (intros k v Hin; by apply elem_get).
  assert (forall (ks : list string) (c : Obj.t bool),
            (forall k, k ∈ ks -> has k c = true) ->
            fold_left (diff_base c) ks ([] : Obj.t delta) = []) as Hall.
  { intros ks c Hc. induction ks as [|k ks IH]; [done|].
    cbn [fold_left].
    assert (diff_base c ([] : Obj.t delta) k = []) as ->.
    { unfold diff_base, truthy_in. by rewrite (Hc k) by apply list_elem_of_here. }
    apply IH. intros k' Hk'. by apply Hc, list_elem_of_further. }
  apply Hall. intros k Hk. rewrite has_checked. apply has_true in Hk.
  by rewrite Hk.
Qed.

(** X1.  [diff(item, base)], for a base without an attribute named
    hasOwnProperty, has an entry for exactly the attributes that differ:
    '+' for one that only the item has, '~' for one both have with
    different JSON text, and '-' for one that only the base has, unless
    it is named like a member every object inherits (constructor,
    toString, ...), which is taken for checked and gets no entry.  An
    attribute is listed once, and an item compared with itself gives an
    empty diff. *)
Theorem diff_lists_what_differs item base k :
  wf item -> has "hasOwnProperty" base = false ->
  exists d, diff JSON_stringify item base = Ok d /\ wf d /\
    (get k d = Some Added <-> is_Some (get k item) /\ get k base = None) /\
    (get k d = Some Removed
     <-> get k item = None /\ is_Some (get k base) /\ inherited k = false) /\
    (get k d = Some Changed
     <-> is_Some (get k item) /\ is_Some (get k base) /\
         js (get k item) <> js (get k base)) /\
    (item = base -> d = []).
Proof.
  intros Hwf Hb. destruct (diff_get item base k Hwf Hb) as (d & Hd & Hwfd & Hget).
  exists d. split; [done|]. split; [done|]. rewrite Hget.
  unfold json_neq, is_Some.
  split_and!.
  4:{ intros ->. rewrite diff_of_same in Hd by done. by injection Hd as <-. }
  all: destruct (get k item) as [v|], (get k base) as [w|];
    try case_bool_decide; try destruct (inherited k).
  all: split;
    [intros ?; repeat split; eauto; congruence
    |intros ?; destruct_and?;
     repeat (match goal with H : ex _ |- _ => destruct H end); congruence].
Qed.

(** X2.  The merge against one lca of documents without an attribute
    named hasOwnProperty, attribute by attribute.  An attribute is
    reported as conflict exactly when both sides changed it with respect
    to the lca and either the kinds of change differ or both created or
    changed it to values of different JSON text.  Without conflicts the
    merged item has, for each attribute, what B made of it where B
    changed it (nothing where B deleted it), and else what A has. *)
Theorem threeWayMerge_attribute_by_attribute itemA itemB lca :
  wf itemA -> wf itemB -> plain_keys itemA itemB lca None ->
  match _threeWayMerge JSON_stringify itemA itemB lca None with
  | Ok (Conflicts cs) =>
      cs <> [] /\
      forall k, k ∈ cs <-> conflict_at JSON_stringify itemA itemB lca k = true
  | Ok (Merged m) =>
      (forall k, conflict_at JSON_stringify itemA itemB lca k = false) /\
      forall k, get k m = merged_at JSON_stringify itemA itemB lca k
  | Err _ => False
  end.
Proof.
  intros HwfA HwfB Hplain. rewrite threeWayMerge_merge3 by done.
  by apply merge3_rule.
Qed.

(** X3.  Fast-forward, for documents without an attribute named
    hasOwnProperty.  When B is the lca the merge is A: no conflict, and
    every attribute as A has it.  When A is the lca the merge is B: no
    conflict, the attributes B has, each with the JSON text it has in
    B. *)
Theorem threeWayMerge_fast_forward itemA itemB lca :
  wf itemA -> wf itemB -> wf lca ->
  has "hasOwnProperty" itemA = false -> has "hasOwnProperty" itemB = false ->
  has "hasOwnProperty" lca = false ->
  (exists m, _threeWayMerge JSON_stringify itemA lca lca None = Ok (Merged m) /\
     forall k, get k m = get k itemA) /\
  (exists m, _threeWayMerge JSON_stringify lca itemB lca None = Ok (Merged m) /\
     forall k, (get k m = None <-> get k itemB = None) /\
               js (get k m) = js (get k itemB)).
Proof.
  intros HwfA HwfB Hwf HA HB Hl. rewrite !threeWayMerge_merge3 by done. split.
  - pose proof (merge3_rule JSON_stringify itemA lca lca None HwfA Hwf eq_refl)
      as Hrule.
    destruct (merge3 JSON_stringify itemA lca lca None) as [m|cs].
    + exists m. split; [done|]. intros k. destruct Hrule as [_ Hm].
      rewrite Hm. unfold merged_at. by rewrite delta_of_same.
    + destruct Hrule as [Hne Hcs]. destruct cs as [|c cs]; [done|].
      pose proof (proj1 (Hcs c) (list_elem_of_here _ _)) as Hc.
      unfold conflict_at in Hc. rewrite delta_of_same in Hc.
      by destruct (delta_at' itemA lca c).
  - pose proof (merge3_rule JSON_stringify lca itemB lca None Hwf HwfB eq_refl)
      as Hrule.
    destruct (merge3 JSON_stringify lca itemB lca None) as [m|cs].
    + exists m. split; [done|]. intros k. destruct Hrule as [_ Hm].
      rewrite Hm. unfold merged_at.
      destruct (delta_at' itemB lca k) as [[| |]|] eqn:Hd.
      * done.
      * done.
      * apply delta_of_Removed in Hd. by rewrite Hd.
      * apply delta_of_None in Hd as [Hnone Hjs]. split; [by symmetry|done].
    + destruct Hrule as [Hne Hcs]. destruct cs as [|c cs]; [done|].
      pose proof (proj1 (Hcs c) (list_elem_of_here _ _)) as Hc.
      unfold conflict_at in Hc. by rewrite delta_of_same in Hc.
Qed.

(** X4.  The sides of a merge can be swapped, for documents without an
    attribute named hasOwnProperty.  Merging A with B reports conflicts
    exactly when merging B with A does, and for the same attributes;
    without conflicts both merges have the same attributes, each with
    the same JSON text. *)
Theorem threeWayMerge_sides_commute itemA itemB lca :
  wf itemA -> wf itemB ->
  has "hasOwnProperty" itemA = false -> has "hasOwnProperty" itemB = false ->
  has "hasOwnProperty" lca = false ->
  match _threeWayMerge JSON_stringify itemA itemB lca None,
        _threeWayMerge JSON_stringify itemB itemA lca None with
  | Ok (Merged m1), Ok (Merged m2) =>
      forall k, (get k m1 = None <-> get k m2 = None) /\
                js (get k m1) = js (get k m2)
  | Ok (Conflicts cs1), Ok (Conflicts cs2) => forall k, k ∈ cs1 <-> k ∈ cs2
  | _, _ => False
  end.
Proof.
  intros HwfA HwfB HA HB Hl. rewrite !threeWayMerge_merge3 by done.
  pose proof (merge3_rule JSON_stringify itemA itemB lca None HwfA HwfB eq_refl)
    as Hab.
  pose proof (merge3_rule JSON_stringify itemB itemA lca None HwfB HwfA eq_refl)
    as Hba.
  destruct (merge3 JSON_stringify itemA itemB lca None) as [m1|cs1],
           (merge3 JSON_stringify itemB itemA lca None) as [m2|cs2].
  - destruct Hab as [Hnone Hm1], Hba as [_ Hm2]. intros k.
    rewrite Hm1, Hm2. specialize (Hnone k). unfold conflict_at in Hnone.
    unfold merged_at.
    destruct (delta_at' itemA lca k) as [dA|] eqn:HdA,
             (delta_at' itemB lca k) as [dB|] eqn:HdB.
    + apply orb_false_elim in Hnone as [Heq Hjs].
      apply negb_false_iff, bool_decide_eq_true in Heq as ->.
      destruct dB.
      * rewrite bool_decide_false in Hjs by done. cbn [negb andb] in Hjs.
        apply json_neq_false in Hjs.
        destruct (delta_of_present _ _ _ _ _ HdA) as [v Hv]; [done|].
        destruct (delta_of_present _ _ _ _ _ HdB) as [w Hw]; [done|].
        rewrite Hv, Hw in *. done.
      * rewrite bool_decide_false in Hjs by done. cbn [negb andb] in Hjs.
        apply json_neq_false in Hjs.
        destruct (delta_of_present _ _ _ _ _ HdA) as [v Hv]; [done|].
        destruct (delta_of_present _ _ _ _ _ HdB) as [w Hw]; [done|].
        rewrite Hv, Hw in *. done.
      * done.
    + destruct dA; try done. by rewrite (delta_of_Removed _ _ _ HdA).
    + destruct dB; try done. by rewrite (delta_of_Removed _ _ _ HdB).
    + apply delta_of_None in HdA as [HnA HjA], HdB as [HnB HjB].
      split; [by rewrite HnA, HnB | by rewrite HjA, HjB].
  - destruct Hab as [Hnone _], Hba as [Hne Hcs]. destruct cs2 as [|c cs2]; [done|].
    pose proof (proj1 (Hcs c) (list_elem_of_here _ _)) as Hc.
    by rewrite <- conflict_at_sym, Hnone in Hc.
  - destruct Hba as [Hnone _], Hab as [Hne Hcs]. destruct cs1 as [|c cs1]; [done|].
    pose proof (proj1 (Hcs c) (list_elem_of_here _ _)) as Hc.
    by rewrite conflict_at_sym, Hnone in Hc.
  - destruct Hab as [_ H1], Hba as [_ H2]. intros k.
    by rewrite H1, H2, conflict_at_sym.
Qed.

(** X24.  The three-way merge is reflexive on items without an attribute
    named hasOwnProperty: merging such an item with itself against
    itself as lowest common ancestor (given once, or once per
    perspective) reports no conflict and returns the item, attribute by
    attribute in the same order. *)
Theorem threeWayMerge_reflexive (x : Obj.t V) :
  wf x -> ordered (keys x) = true -> has "hasOwnProperty" x = false ->
  _threeWayMerge JSON_stringify x x x None = Ok (Merged x) /\
  _threeWayMerge JSON_stringify x x x (Some x) = Ok (Merged x).
Proof.
  intros Hwf Hord Hx. rewrite !threeWayMerge_merge3 by done.
  destruct (merge3_reflexive JSON_stringify x Hwf Hord) as [-> ->]. done.
Qed.

(** X25.  An attribute that is in the lca and was deleted in exactly one
    side, in a merge of documents without an attribute named
    hasOwnProperty.  When the other side left it as in its lca, it is
    absent from the merged item and is not in a conflict list; with one
    lca a merged item is returned whenever no attribute is in conflict.
    When the other side changed its JSON serialization, no merged item
    is returned but a conflict list naming the attribute.  With one lca,
    [lcaB] is [None] and both sides are compared with [lca]. *)
Theorem threeWayMerge_deleted_in_one_side
    (itemA itemB lca : Obj.t V) (lcaB : option (Obj.t V)) (k : string) :
  wf itemA -> wf itemB -> plain_keys itemA itemB lca lcaB ->
  let lB := default lca lcaB in
  exists r, _threeWayMerge JSON_stringify itemA itemB lca lcaB = Ok r /\
    ((deleted_in itemA lca k /\ unchanged_in JSON_stringify itemB lB k) \/
     (deleted_in itemB lB k /\ unchanged_in JSON_stringify itemA lca k) ->
     match r with
     | Merged m => get k m = None
     | Conflicts cs => k ∉ cs
     end) /\
    ((deleted_in itemA lca k /\ changed_in JSON_stringify itemB lB k) \/
     (deleted_in itemB lB k /\ changed_in JSON_stringify itemA lca k) ->
     exists cs, r = Conflicts cs /\ k ∈ cs) /\
    (lcaB = None ->
     (forall k', conflict_at JSON_stringify itemA itemB lca k' = false) ->
     exists m, r = Merged m).
Proof.
  intros HwfA HwfB Hplain lB. rewrite threeWayMerge_merge3 by done.
  eexists. split; [done|].
  pose proof (merge3_deleted_in_one_side JSON_stringify itemA itemB lca lcaB k
                HwfA HwfB) as [Hdrop Hconf].
  split_and!.
  - intros Hcase. specialize (Hdrop Hcase).
    destruct (merge3 JSON_stringify itemA itemB lca lcaB) as [m|cs] eqn:Hr;
      [by apply Hdrop|].
    rewrite merge3_unfold in Hr. cbv zeta in Hr. fold lB in Hr.
    intros Hin.
    assert (k ∈ (fold_left (stepDelta JSON_stringify itemA itemB
                              (deltas JSON_stringify itemA lca))
                   (deltas JSON_stringify itemB lB)
                   (fold_left (fun m kv => set kv.1 kv.2 m) itemA [],
                    filter (fun k => get k (deltas JSON_stringify itemA lca)
                                     = Some Added) (keys lB))).2) as Hin'.
    { destruct (fold_left _ (deltas JSON_stringify itemB lB) _) as [m' cs'].
      cbn [snd] in *. destruct cs'; [done|]. by injection Hr as ->. }
    apply applyDeltas_conflicts in Hin' as [Hin'|(d & Hin' & Hd)]; cbn [snd] in *.
    + apply list_elem_of_filter in Hin' as [Hadd _].
      rewrite deltas_get in Hadd by done.
      destruct Hcase as [[Hdel _]|[_ Hun]].
      * by rewrite (deleted_delta JSON_stringify) in Hadd.
      * by rewrite (unchanged_delta JSON_stringify) in Hadd.
    + apply elem_get in Hin'; [|apply wf_deltas].
      rewrite deltas_get in Hin' by done.
      destruct Hcase as [[Hdel Hun]|[Hdel Hun]].
      * by rewrite (unchanged_delta JSON_stringify) in Hin'.
      * rewrite (deleted_delta JSON_stringify) in Hin' by done.
        injection Hin' as <-. unfold delta_conflicts, has in Hd.
        rewrite deltas_get, (unchanged_delta JSON_stringify) in Hd by done.
        by rewrite (bool_decide_true (Removed = Removed)) in Hd.
  - exact Hconf.
  - intros -> Hnone.
    pose proof (merge3_rule JSON_stringify itemA itemB lca None HwfA HwfB eq_refl)
      as Hrule.
    destruct (merge3 JSON_stringify itemA itemB lca None) as [m|cs]; [by exists m|].
    destruct Hrule as [Hne Hcs]. destruct cs as [|c cs]; [done|].
    pose proof (proj1 (Hcs c) (list_elem_of_here _ _)) as Hc.
    by rewrite Hnone in Hc.
Qed.

End MergeRuleTheorems.

(** An attribute of the base that is named like an inherited member and
    that the item lacks gets no '-'. *)
Example diff_skips_inherited_names :
  diff Some [] [("constructor", "x"); ("a", "1")] = Ok [("a", Removed)].
Proof. reflexivity. Qed.

Example diff_throws_on_hasOwnProperty :
  diff Some doc_lca doc_hasOwnProperty
  = Err (TypeError "base.hasOwnProperty is not a function").
Proof. reflexivity. Qed.

Lemma diff_lists_what_differs_witness :
  exists d, diff Some doc_a_changed_c_added doc_lca = Ok d /\ Obj.wf d /\
    (Obj.get "c" d = Some Added
     <-> is_Some (Obj.get "c" doc_a_changed_c_added) /\ Obj.get "c" doc_lca = None) /\
    (Obj.get "c" d = Some Removed
     <-> Obj.get "c" doc_a_changed_c_added = None /\ is_Some (Obj.get "c" doc_lca)
         /\ inherited "c" = false) /\
    (Obj.get "c" d = Some Changed
     <-> is_Some (Obj.get "c" doc_a_changed_c_added) /\ is_Some (Obj.get "c" doc_lca) /\
         json Some (Obj.get "c" doc_a_changed_c_added) <> json Some (Obj.get "c" doc_lca)) /\
    (doc_a_changed_c_added = doc_lca -> d = []).
Proof.
  apply (diff_lists_what_differs Some doc_a_changed_c_added doc_lca "c").
  - apply (bool_decide_unpack _). vm_compute. reflexivity.
  - reflexivity.
Defined.

(** A changes a and adds c, B changes b: the merge has all three. *)
Example merge_of_changes_to_different_attributes :
  _threeWayMerge Some doc_a_changed_c_added doc_b_changed doc_lca None
  = Ok (Merged [("_id", "foo"); ("a", "5"); ("b", "3"); ("c", "9")]).
Proof. reflexivity. Qed.

Lemma threeWayMerge_attribute_by_attribute_witness :
  match _threeWayMerge Some doc_a_changed_c_added doc_b_changed doc_lca None with
  | Ok (Conflicts cs) =>
      cs <> [] /\
      forall k, k ∈ cs
                <-> conflict_at Some doc_a_changed_c_added doc_b_changed doc_lca k = true
  | Ok (Merged m) =>
      (forall k, conflict_at Some doc_a_changed_c_added doc_b_changed doc_lca k = false) /\
      forall k, Obj.get k m = merged_at Some doc_a_changed_c_added doc_b_changed doc_lca k
  | Err _ => False
  end.
Proof.
  apply (threeWayMerge_attribute_by_attribute Some doc_a_changed_c_added
           doc_b_changed doc_lca).
  - apply (bool_decide_unpack _). vm_compute. reflexivity.
  - apply (bool_decide_unpack _). vm_compute. reflexivity.
  - repeat split.
Defined.

Lemma threeWayMerge_fast_forward_witness :
  (exists m, _threeWayMerge Some doc_a_changed_c_added doc_lca doc_lca None
             = Ok (Merged m) /\
     forall k, Obj.get k m = Obj.get k doc_a_changed_c_added) /\
  (exists m, _threeWayMerge Some doc_lca doc_without_b doc_lca None = Ok (Merged m) /\
     forall k, (Obj.get k m = None <-> Obj.get k doc_without_b = None) /\
               json Some (Obj.get k m) = json Some (Obj.get k doc_without_b)).
Proof.
  apply (threeWayMerge_fast_forward Some doc_a_changed_c_added doc_without_b doc_lca).
  - apply (bool_decide_unpack _). vm_compute. reflexivity.
  - apply (bool_decide_unpack _). vm_compute. reflexivity.
  - apply (bool_decide_unpack _). vm_compute. reflexivity.
  - reflexivity.
  - reflexivity.
  - reflexivity.
Defined.

Lemma threeWayMerge_sides_commute_witness :
  match _threeWayMerge Some doc_without_b doc_b_changed doc_lca None,
        _threeWayMerge Some doc_b_changed doc_without_b doc_lca None with
  | Ok (Merged m1), Ok (Merged m2) =>
      forall k, (Obj.get k m1 = None <-> Obj.get k m2 = None) /\
                json Some (Obj.get k m1) = json Some (Obj.get k m2)
  | Ok (Conflicts cs1), Ok (Conflicts cs2) => forall k, k ∈ cs1 <-> k ∈ cs2
  | _, _ => False
  end.
Proof.
  apply (threeWayMerge_sides_commute Some doc_without_b doc_b_changed doc_lca).
  - apply (bool_decide_unpack _). vm_compute. reflexivity.
  - apply (bool_decide_unpack _). vm_compute. reflexivity.
  - reflexivity.
  - reflexivity.
  - reflexivity.
Defined.

Lemma threeWayMerge_reflexive_witness :
  _threeWayMerge Some doc_lca doc_lca doc_lca None = Ok (Merged doc_lca) /\
  _threeWayMerge Some doc_lca doc_lca doc_lca (Some doc_lca) = Ok (Merged doc_lca).
Proof.
  apply (threeWayMerge_reflexive Some doc_lca).
  - apply (bool_decide_unpack _). vm_compute. reflexivity.
  - reflexivity.
  - reflexivity.
Defined.

Lemma threeWayMerge_deleted_in_one_side_witness :
  (exists r, _threeWayMerge Some doc_without_b doc_lca doc_lca None = Ok r /\
     match r with
     | Merged m => Obj.get "b" m = None
     | Conflicts cs => "b" ∉ cs
     end /\
     exists m, r = Merged m) /\
  (exists cs, _threeWayMerge Some doc_without_b doc_b_changed doc_lca None
              = Ok (Conflicts cs) /\ "b" ∈ cs).
Proof.
  split.
  - destruct (threeWayMerge_deleted_in_one_side Some
                doc_without_b doc_lca doc_lca None "b") as (r & Hr & Hdrop & _ & Hm).
    + apply (bool_decide_unpack _). vm_compute. reflexivity.
    + apply (bool_decide_unpack _). vm_compute. reflexivity.
    + repeat split.
    + exists r. split; [exact Hr|]. split.
      * apply Hdrop. left. split.
        -- split; reflexivity.
        -- exists "2", "2". repeat split; reflexivity.
      * apply Hm; [reflexivity|]. intros k'.
        unfold conflict_at, delta_of, doc_without_b, doc_lca. cbn [Obj.get].
        repeat (case_decide; [subst; vm_compute; reflexivity|]).
        reflexivity.
  - destruct (threeWayMerge_deleted_in_one_side Some
                doc_without_b doc_b_changed doc_lca None "b") as (r & Hr & _ & Hconf & _).
    + apply (bool_decide_unpack _). vm_compute. reflexivity.
    + apply (bool_decide_unpack _). vm_compute. reflexivity.
    + repeat split.
    + destruct Hconf as (cs & -> & Hin).
      * left. split.
        -- split; reflexivity.
        -- exists "3", "2". repeat split; try reflexivity. simpl. discriminate.
      * by exists cs.
Defined.

(** ** Intersections *)

Section IntersectTheorems.
Import Obj ObjFacts.

Lemma intersect_loop_elems (arr2 arr1 done_ : list string) inter all1in2
    (obj2 : Obj.t bool) :
  NoDup (done_ ++ arr1) ->
  (forall x, has x obj2 = true <-> x ∈ arr2 /\ x ∉ done_) ->
  (fold_left intersect_step arr1 (inter, all1in2, obj2)).1.1
  = inter ++ filter (fun x => x ∈ arr2) arr1.
Proof.
  revert done_ inter all1in2 obj2.
  induction arr1 as [|el arr1 IH]; intros done_ inter all1in2 obj2 Hnd Hobj.
  - cbn. by rewrite app_nil_r.
  - cbn [fold_left].
    assert (el ∉ done_) as Hel.
    { apply NoDup_app in Hnd as (_ & Hdisj & _).
      intros Hin. apply (Hdisj el Hin), list_elem_of_here. }
    replace (done_ ++ el :: arr1) with ((done_ ++ [el]) ++ arr1) in Hnd
      by (by rewrite <- app_assoc).
    rewrite filter_cons. destruct (has el obj2) eqn:Hhas.
    + rewrite intersect_step_in by done.
      pose proof (proj1 (Hobj el) Hhas) as [Hin2 _].
      rewrite decide_True by done.
      rewrite (IH (done_ ++ [el])); [by rewrite <- app_assoc | done |].
      intros x. rewrite has_del, Hobj, elem_of_app, list_elem_of_singleton. tauto.
    + rewrite intersect_step_out by done.
      assert (el ∉ arr2) as Hnot2.
      { intros Hin2. assert (has el obj2 = true) by (by apply Hobj). congruence. }
      rewrite decide_False by done.
      rewrite (IH (done_ ++ [el])); [done | done |].
      intros x. rewrite Hobj, elem_of_app, list_elem_of_singleton.
      split; [|tauto]. intros [Hx Hnx]. split; [done|].
      intros [?| ->]; done.
Qed.

(** X5.  For an array [arr1] without duplicates, [_intersect(arr1, arr2)]
    calls back with the elements of [arr1] that are in [arr2], in the
    order of [arr1], and with [subset]: 0 when both arrays have the same
    elements, -1 when all of [arr1] is in [arr2] only, 1 when all of
    [arr2] is in [arr1] only, and [false] when neither holds. *)
Theorem intersect_is_the_intersection (arr1 arr2 : list string) :
  NoDup arr1 ->
  _intersect arr1 arr2
  = (filter (fun x => x ∈ arr2) arr1,
     if bool_decide (arr1 ⊆ arr2)
     then if bool_decide (arr2 ⊆ arr1) then Some 0%Z else Some (-1)%Z
     else if bool_decide (arr2 ⊆ arr1) then Some 1%Z else None).
Proof.
  intros Hnd. rewrite <- (intersect_subset arr1 arr2 Hnd).
  rewrite (surjective_pairing (_intersect arr1 arr2)). f_equal.
  unfold _intersect.
  pose proof (intersect_loop_elems arr2 arr1 [] [] true
                (fold_left (fun o el => set el true o) arr2 [])) as Helems.
  destruct (fold_left intersect_step arr1 _) as [[inter all1in2] obj2].
  cbn [fst snd] in *. apply Helems; [done|].
  intros x. rewrite lookup_object. split.
  - intros [Hin|Hhas]; [|done]. split; [done|]. apply not_elem_of_nil.
  - intros [Hin _]. by left.
Qed.

End IntersectTheorems.

(** With an element twice in [arr1] the second one is no longer found,
    and equal sets are not reported as such. *)
Example intersect_with_duplicate : _intersect ["a"; "a"] ["a"] = (["a"], Some 1%Z).
Proof. reflexivity. Qed.

Lemma intersect_is_the_intersection_witness :
  _intersect ["B"; "C"] ["C"; "D"; "B"]
  = (filter (fun x => x ∈ ["C"; "D"; "B"]) ["B"; "C"],
     if bool_decide (["B"; "C"] ⊆ ["C"; "D"; "B"])
     then if bool_decide (["C"; "D"; "B"] ⊆ ["B"; "C"]) then Some 0%Z else Some (-1)%Z
     else if bool_decide (["C"; "D"; "B"] ⊆ ["B"; "C"]) then Some 1%Z else None).
Proof.
  apply (intersect_is_the_intersection ["B"; "C"] ["C"; "D"; "B"]).
  apply (bool_decide_unpack _). vm_compute. reflexivity.
Defined.

(** ** The heads of a batch *)

Section BranchHeadsTheorems.
Context {V : Type}.
Implicit Types (item h : vitem V) (items : list (vitem V))
  (heads : Obj.t (vitem V)).
Import Obj ObjFacts.

Lemma bootstrap_loop_Err id c items heads e :
  branchHeads_bootstrap_loop id c items heads = Err e ->
  e = IdMismatch /\ exists it, it ∈ items /\ _id_id (_id it) <> id.
Proof.
  revert heads. induction items as [|item items IH]; intros heads; [done|].
  cbn [branchHeads_bootstrap_loop]. unfold branchHeads_bootstrap at 1.
  case_bool_decide as Hid.
  - cbn [mbind result_bind]. intros (-> & it & Hin & Hne)%IH. split; [done|].
    exists it. split; [by apply list_elem_of_further | done].
  - intros [= <-]. split; [done|]. exists item.
    split; [apply list_elem_of_here | congruence].
Qed.

Lemma bootstrap_loop_wf id c items heads heads' :
  branchHeads_bootstrap_loop id c items heads = Ok heads' -> wf heads -> wf heads'.
Proof.
  revert heads. induction items as [|item items IH]; intros heads.
  - by intros [= <-].
  - cbn [branchHeads_bootstrap_loop]. unfold branchHeads_bootstrap at 1.
    case_bool_decide; [|done]. cbn [mbind result_bind]. intros Hloop Hwf.
    apply (IH _ Hloop). destruct (_ || _); [by apply wf_set | done].
Qed.

(** An item that is not marked as conflict is entered under its
    version, and stays when no later item has that version. *)
Lemma bootstrap_loop_get id items heads heads' h :
  branchHeads_bootstrap_loop id false items heads = Ok heads' ->
  NoDup (map (fun it => _v (_id it)) items) ->
  h ∈ items -> not_conflicted h = true ->
  get (_v (_id h)) heads' = Some h.
Proof.
  revert heads. induction items as [|item items IH]; intros heads Hloop Hnd Hin Hnc.
  - by apply elem_of_nil in Hin.
  - cbn [branchHeads_bootstrap_loop] in Hloop. unfold branchHeads_bootstrap at 1 in Hloop.
    case_bool_decide; [|done]. cbn [mbind result_bind] in Hloop.
    cbn [map] in Hnd. apply NoDup_cons in Hnd as [Hfresh Hnd].
    apply elem_of_cons in Hin as [->|Hin]; [|by eapply IH].
    rewrite Hnc in Hloop. cbn [orb] in Hloop.
    assert (forall hs hs', branchHeads_bootstrap_loop id false items hs = Ok hs' ->
              get (_v (_id item)) hs' = get (_v (_id item)) hs) as Hkeep.
    { clear Hloop IH Hnd. revert Hfresh.
      induction items as [|it items IH]; intros Hfresh hs hs'.
      - by intros [= <-].
      - cbn [branchHeads_bootstrap_loop]. unfold branchHeads_bootstrap at 1.
        case_bool_decide; [|done]. cbn [mbind result_bind]. intros Hl.
        cbn [map] in Hfresh. apply not_elem_of_cons in Hfresh as [Hne Hfresh].
        rewrite (IH Hfresh _ _ Hl).
        destruct (_ || _); [by apply get_set_ne | done]. }
    rewrite (Hkeep _ _ Hloop). apply get_set_eq.
Qed.

Lemma eliminate_heads_wf heads item : wf heads -> wf (eliminate_heads heads item).
Proof.
  intros Hwf. unfold eliminate_heads.
  assert (forall (pa : list string) (hs : Obj.t (vitem V)),
            wf hs -> wf (fold_left (fun o q => del q o) pa hs)) as Hdels.
  { induction pa as [|p pa IH]; intros hs Hhs; [done|]. by apply IH, wf_del. }
  apply Hdels. destruct (_d (_id item)); [by apply wf_del | done].
Qed.

Lemma eliminate_loop_wf items heads :
  wf heads -> wf (fold_left eliminate_heads items heads).
Proof.
  revert heads. induction items as [|item items IH]; intros heads Hwf; [done|].
  by apply IH, eliminate_heads_wf.
Qed.

(** The version of a parent is no head. *)
Lemma eliminate_loop_parent items heads item p :
  item ∈ items -> p ∈ _pa (_id item) ->
  get p (fold_left eliminate_heads items heads) = None.
Proof.
  revert heads. induction items as [|item' items IH]; intros heads Hin Hp.
  - by apply elem_of_nil in Hin.
  - cbn [fold_left]. apply elem_of_cons in Hin as [<-|Hin]; [|by apply IH].
    apply eliminate_loop_absent. unfold eliminate_heads.
    assert (forall (pa : list string) (hs : Obj.t (vitem V)), p ∈ pa ->
              get p (fold_left (fun o q => del q o) pa hs) = None) as Hdels.
    { induction pa as [|q pa IHpa]; intros hs Hq.
      - by apply elem_of_nil in Hq.
      - cbn [fold_left]. apply elem_of_cons in Hq as [->|Hq]; [|by apply IHpa].
        apply dels_absent, get_del_eq. }
    by apply Hdels.
Qed.

(** A version that is neither deleted nor a parent stays a head. *)
Lemma eliminate_loop_kept items heads k :
  (forall it, it ∈ items ->
     (_d (_id it) = true -> _v (_id it) <> k) /\ k ∉ _pa (_id it)) ->
  get k (fold_left eliminate_heads items heads) = get k heads.
Proof.
  revert heads. induction items as [|item items IH]; intros heads Hall; [done|].
  cbn [fold_left]. rewrite IH.
  2:{ intros it Hit. by apply Hall, list_elem_of_further. }
  destruct (Hall item (list_elem_of_here _ _)) as [Hd Hpa].
  unfold eliminate_heads.
  assert (forall (pa : list string) (hs : Obj.t (vitem V)), k ∉ pa ->
            get k (fold_left (fun o q => del q o) pa hs) = get k hs) as Hdels.
  { induction pa as [|p pa IHpa]; intros hs Hk; [done|].
    apply not_elem_of_cons in Hk as [Hne Hk]. cbn [fold_left].
    rewrite IHpa by done. by apply get_del_ne. }
  rewrite Hdels by done.
  destruct (_d (_id item)); [apply get_del_ne; by apply not_eq_sym, Hd | done].
Qed.

(** X6.  The heads of a batch.  For items with distinct versions,
    [_branchHeads(items, false, false)] returns exactly the items that
    are not deleted, not marked as conflict, and whose version no item
    of the batch names as a parent.  It fails with 'id mismatch' when an
    item has another id than the first, and with a TypeError when the id
    of the batch is the name of a member every object inherits (the
    lookup [deleted[id]._id._v] finds that member) or when a version is
    hasOwnProperty (the final loop calls [heads.hasOwnProperty]). *)
Theorem branchHeads_are_the_leaves items :
  NoDup (map (fun it => _v (_id it)) items) ->
  match _branchHeads items false false with
  | Ok hs =>
      forall h, h ∈ hs <->
        h ∈ items /\ _d (_id h) = false /\ not_conflicted h = true /\
        forall it, it ∈ items -> _v (_id h) ∉ _pa (_id it)
  | Err e =>
      (e = IdMismatch /\
       exists first it, head items = Some first /\ it ∈ items /\
                        _id_id (_id it) <> _id_id (_id first)) \/
      (e = TypeError "Cannot read property '_v' of undefined" /\
       exists first, head items = Some first /\
                     inherited (_id_id (_id first)) = true) \/
      (e = TypeError "heads.hasOwnProperty is not a function" /\
       exists it, it ∈ items /\ _v (_id it) = "hasOwnProperty")
  end.
Proof.
  intros Hnd. unfold _branchHeads. destruct items as [|first items'].
  { intros h. split; [by intros ?%elem_of_nil | by intros [?%elem_of_nil _]]. }
  remember (first :: items') as items eqn:Hitems.
  assert (head items = Some first) as Hhead by (by subst items).
  destruct (branchHeads_bootstrap_loop _ false items []) as [heads0|e] eqn:Hboot;
    cbn [mbind result_bind].
  2:{ apply bootstrap_loop_Err in Hboot as (-> & it & Hin & Hne).
      left. split; [done|]. by exists first, it. }
  destruct (fold_left branchHeads_eliminate items (heads0, [])) as [heads deleted]
    eqn:Hloop.
  destruct (branchHeads_shape_loops _ _ _ _ _ Hboot Hloop) as (_ & _ & _ & Hids).
  destruct (forEach eliminate_item items (heads0, [])) as [[heads' deleted']|e]
    eqn:Hrun; cbn [mbind result_bind].
  2:{ apply forEach_Err in Hrun as (st1 & it & Hin & He).
      apply eliminate_item_Err in He as [Hinh ->].
      right. left. split; [done|]. exists first. split; [done|].
      by rewrite <- (proj1 (Forall_forall _ _) Hids it Hin). }
  apply (forEach_Ok _ branchHeads_eliminate) in Hrun;
    [|intros ? ? ?; apply eliminate_item_Ok].
  rewrite Hloop in Hrun. injection Hrun as -> ->.
  pose proof (f_equal fst Hloop) as Hfst. cbn [fst] in Hfst.
  assert (heads = fold_left eliminate_heads items heads0) as ->
    by (rewrite <- Hfst; exact (eliminate_loop_fst items heads0 [])).
  rewrite push_own_spec.
  destruct (has "hasOwnProperty" (fold_left eliminate_heads items heads0)) eqn:Hh.
  { right. right. split; [done|]. apply has_true in Hh.
    apply list_elem_of_fmap in Hh as ([k it] & Hk & Hin). cbn in Hk. subst k.
    apply eliminate_loop_subset in Hin.
    apply (proj2 (bootstrap_loop_spec _ _ _ _ Hboot)) in Hin
      as [Hin|(Hin & Hv & Hnc)]; [by apply elem_of_nil in Hin|].
    by exists it. }
  cbn [app]. clear Hitems Hhead Hloop Hfst Hh.
  assert (wf (fold_left eliminate_heads items heads0)) as Hwf.
  { apply eliminate_loop_wf. eapply bootstrap_loop_wf; [exact Hboot|].
    apply NoDup_nil_2. }
  intros h. rewrite list_elem_of_fmap. split.
  - intros ([k h'] & -> & Hin). cbn [snd].
    pose proof (elem_get _ _ _ Hwf Hin) as Hget.
    apply eliminate_loop_subset in Hin.
    apply (proj2 (bootstrap_loop_spec _ _ _ _ Hboot)) in Hin
      as [Hin|(Hin & -> & Hnc)]; [by apply elem_of_nil in Hin|].
    split; [done|]. split.
    { destruct (_d (_id h')) eqn:Hd; [|done].
      by rewrite (eliminate_loop_deleted items heads0 h') in Hget. }
    split; [done|]. intros it Hit Hp.
    by rewrite (eliminate_loop_parent items heads0 it) in Hget.
  - intros (Hin & Hd & Hnc & Hleaf). exists (_v (_id h), h). split; [done|].
    apply get_Some_elem. rewrite eliminate_loop_kept.
    + by eapply bootstrap_loop_get.
    + intros it Hit. split; [|by apply Hleaf]. intros Hdit Heq.
      assert (it = h) as ->; [|congruence].
      clear -Hnd Hit Hin Heq. induction items as [|x items IH].
      * by apply elem_of_nil in Hit.
      * cbn [map] in Hnd. apply NoDup_cons in Hnd as [Hx Hnd].
        apply elem_of_cons in Hit as [->|Hit], Hin as [->|Hin]; try done.
        -- exfalso. apply Hx. apply list_elem_of_fmap. by exists h.
        -- exfalso. apply Hx. apply list_elem_of_fmap. by exists it.
        -- by apply IH.
Qed.

End BranchHeadsTheorems.

Lemma branchHeads_are_the_leaves_witness :
  match _branchHeads fork_with_tombstone false false with
  | Ok hs =>
      forall h, h ∈ hs <->
        h ∈ fork_with_tombstone /\ _d (_id h) = false /\ not_conflicted h = true /\
        forall it, it ∈ fork_with_tombstone -> _v (_id h) ∉ _pa (_id it)
  | Err e =>
      (e = IdMismatch /\
       exists first it, head fork_with_tombstone = Some first /\
                        it ∈ fork_with_tombstone /\
                        _id_id (_id it) <> _id_id (_id first)) \/
      (e = TypeError "Cannot read property '_v' of undefined" /\
       exists first, head fork_with_tombstone = Some first /\
                     inherited (_id_id (_id first)) = true) \/
      (e = TypeError "heads.hasOwnProperty is not a function" /\
       exists it, it ∈ fork_with_tombstone /\ _v (_id it) = "hasOwnProperty")
  end.
Proof.
  apply (branchHeads_are_the_leaves fork_with_tombstone).
  apply (bool_decide_unpack _). vm_compute. reflexivity.
Defined.

(** ** The ancestry check on a whole batch *)

Section AncestryTheorems.
Context {V : Type}.
Implicit Types (item prev : vitem V) (st : ancestry (V := V)).

Lemma reconnected_in_app (all more : list (vitem V)) out item :
  reconnected_in all out item -> reconnected_in (all ++ more) out item.
Proof.
  intros [->|(Hpa & prev & Hin & Hid & Hd & ->)]; [by left|].
  right. split; [done|]. exists prev. split; [|done].
  apply elem_of_app. by left.
Qed.

(** The last item of a DAG of the state stands for an item of the batch. *)
Lemma last_of_dag batch st id prev :
  ancestry_inv batch st ->
  last (default [] (st.1.2 !! id)) = Some prev ->
  exists prev0, prev0 ∈ batch /\ same_node prev prev0 /\ _id_id (_id prev) = id.
Proof.
  intros [Hdag Hall] Hlast. rewrite Hdag in Hlast.
  apply last_Some in Hlast as [l Hl].
  assert (prev ∈ filter (fun it : vitem V => _id_id (_id it) = id) st.1.1) as Hin.
  { rewrite Hl. apply elem_of_app. right. apply list_elem_of_here. }
  apply list_elem_of_filter in Hin as [Hid Hin].
  apply list_elem_of_lookup in Hin as [i Hi].
  destruct (Forall2_lookup_l _ _ _ _ _ Hall Hi) as (prev0 & Hi0 & Hsame).
  exists prev0. split; [by eapply list_elem_of_lookup_2 | done].
Qed.

(** No array of [DAGs] is under the name of an inherited member. *)
Lemma checkAncestry_step_own st item st' :
  (forall id d, st.1.2 !! id = Some d -> inherited id = false) ->
  checkAncestry_step st item = Ok st' ->
  inherited (_id_id (_id item)) = false /\
  (forall id d, st'.1.2 !! id = Some d -> inherited id = false).
Proof.
  intros Hown. destruct st as [[allItems DAGs] newRoots]. unfold checkAncestry_step.
  cbn [fst snd] in *.
  destruct (dag_of DAGs (_id_id (_id item))) as [dag|] eqn:Hdag; [|done].
  apply dag_of_Some in Hdag as [-> Hnone].
  assert (inherited (_id_id (_id item)) = false) as Hid.
  { destruct (DAGs !! _id_id (_id item)) as [d|] eqn:Hd; [by eapply Hown | by apply Hnone]. }
  assert (forall x id d,
            <[_id_id (_id item) := x]> DAGs !! id = Some d -> inherited id = false)
    as Hins.
  { intros x id d. destruct (decide (_id_id (_id item) = id)) as [<-|Hne].
    - done.
    - rewrite lookup_insert_ne by done. apply Hown. }
  intros Hstep. split; [done|].
  destruct (_pa (_id item)).
  - destruct (last _) as [prev|].
    + destruct (_d (_id prev)); [|done]. injection Hstep as <-. apply Hins.
    + injection Hstep as <-. apply Hins.
  - injection Hstep as <-. apply Hins.
Qed.

Lemma checkAncestry_loop_spec (items : list (vitem V)) :
  forall batch st,
    ancestry_inv batch st ->
    Forall2 (reconnected_in batch) st.1.1 batch ->
    (forall id d, st.1.2 !! id = Some d -> inherited id = false) ->
    match checkAncestry_loop items st with
    | Ok st' =>
        ancestry_inv (batch ++ items) st' /\
        Forall2 (reconnected_in (batch ++ items)) st'.1.1 (batch ++ items) /\
        (forall id, id ∈ st'.2 <->
          id ∈ st.2 \/ exists item, item ∈ items /\ _id_id (_id item) = id /\
                                    _pa (_id item) = []) /\
        Forall (fun item => inherited (_id_id (_id item)) = false) items
    | Err e =>
        e = RootPreceded \/
        exists item, item ∈ items /\ inherited (_id_id (_id item)) = true /\
                     e = not_an_array (_id_id (_id item)) (is_nil (_pa (_id item)))
    end.
Proof.
  induction items as [|item items IH]; intros batch st Hinv Hrel Hown.
  - cbn [checkAncestry_loop]. rewrite app_nil_r. split; [done|]. split; [done|].
    split; [|constructor].
    intros id. split; [by left|]. intros [?|(item & Hin & _)]; [done|].
    by apply elem_of_nil in Hin.
  - cbn [checkAncestry_loop].
    destruct (checkAncestry_step st item) as [st1|e] eqn:Hstep; cbn [mbind result_bind].
    2:{ destruct st as [[allItems DAGs] newRoots]. unfold checkAncestry_step in Hstep.
        destruct (dag_of DAGs (_id_id (_id item))) as [dag|] eqn:Hdag.
        - left. destruct (_pa (_id item)); [|done].
          destruct (last _) as [prev|]; [|done].
          destruct (_d (_id prev)); [done|]. by injection Hstep as <-.
        - right. exists item. split; [apply list_elem_of_here|].
          split; [by apply dag_of_None in Hdag|]. by injection Hstep as <-. }
    destruct (checkAncestry_step_inv _ _ _ _ Hinv Hstep) as [Hinv1 _].
    destruct (checkAncestry_step_own _ _ _ Hown Hstep) as [Hid1 Hown1].
    assert (Forall2 (reconnected_in (batch ++ [item])) st1.1.1 (batch ++ [item]) /\
            (forall id, id ∈ st1.2 <->
               id ∈ st.2 \/ (_id_id (_id item) = id /\ _pa (_id item) = [])) /\
            ancestry_inv (batch ++ [item]) st1) as (Hrel1 & Hroots1 & Hinv1').
    { destruct st as [[allItems DAGs] newRoots]. unfold checkAncestry_step in Hstep.
      cbn [fst snd] in *.
      assert (Forall2 (reconnected_in (batch ++ [item])) allItems batch) as Hrel'.
      { eapply Forall2_impl; [exact Hrel|]. intros ? ?. apply reconnected_in_app. }
      destruct (dag_of DAGs (_id_id (_id item))) as [dag|] eqn:Hdag; [|done].
      apply dag_of_Some in Hdag as [-> _].
      destruct (_pa (_id item)) as [|p pa] eqn:Hpa.
      - destruct (last _) as [prev|] eqn:Hlast.
        + destruct (_d (_id prev)) eqn:Hd; [|done]. injection Hstep as <-.
          cbn [fst snd] in *. split; [|split].
          * apply Forall2_app; [done|]. constructor; [|constructor].
            destruct (last_of_dag batch (allItems, DAGs, newRoots) _ _ Hinv Hlast)
              as (prev0 & Hin0 & (Hid0 & Hv0 & Hd0) & Hidp).
            right. split; [done|]. exists prev0.
            split; [apply elem_of_app; by left|].
            split; [congruence|]. split; [congruence|]. by rewrite Hv0.
          * intros id. rewrite elem_of_union, elem_of_singleton. split.
            -- intros [->|?]; [by right | by left].
            -- intros [?|[<- _]]; [by right | by left].
          * destruct Hinv1 as [H1 H2]. split; [exact H1 | exact H2].
        + injection Hstep as <-. cbn [fst snd] in *. split; [|split].
          * apply Forall2_app; [done|]. constructor; [by left | constructor].
          * intros id. rewrite elem_of_union, elem_of_singleton. split.
            -- intros [->|?]; [by right | by left].
            -- intros [?|[<- _]]; [by right | by left].
          * destruct Hinv1 as [H1 H2]. split; [exact H1 | exact H2].
      - injection Hstep as <-. cbn [fst snd] in *. split; [|split].
        + apply Forall2_app; [done|]. constructor; [by left | constructor].
        + intros id. split; [by left|]. by intros [?|[_ ?]].
        + destruct Hinv1 as [H1 H2]. split; [exact H1 | exact H2]. }
    specialize (IH (batch ++ [item]) st1 Hinv1' Hrel1 Hown1).
    destruct (checkAncestry_loop items st1) as [st'|e].
    2:{ destruct IH as [->|(it & Hin & Hit & ->)]; [by left|].
        right. exists it. split; [by apply list_elem_of_further | done]. }
    rewrite <- !app_assoc in IH. cbn [app] in IH.
    destruct IH as (Hinv' & Hrel' & Hroots' & Hids). split; [done|]. split; [done|].
    split; [|by constructor].
    intros id. rewrite Hroots', Hroots1. split.
    + intros [[?|[Hid Hpa]]|(it & Hin & Hid & Hpa)].
      * by left.
      * right. exists item. split; [apply list_elem_of_here | done].
      * right. exists it. split; [by apply list_elem_of_further | done].
    + intros [?|(it & Hin & Hid & Hpa)]; [by left; left|].
      apply elem_of_cons in Hin as [->|Hin]; [left; by right|].
      right. by exists it.
Qed.

(** X7.  The ancestry check keeps the batch.  When [_checkAncestry]
    succeeds, no id of the batch is the name of a member every object
    inherits, and the items it returns are the items of the batch in
    their order, each unchanged or, if it had no parents, with the
    version of a deleted item of its id in the batch as parent; [DAGs]
    holds for every id the returned items of that id in order, and
    [newRoots] the ids of the items that came without parents.  The
    errors are 'root preceded' and the [TypeError] thrown for an item
    whose id is the name of an inherited member. *)
Theorem checkAncestry_keeps_the_batch (batch : list (vitem V)) :
  match _checkAncestry batch with
  | Ok (allItems, DAGs, newRoots) =>
      Forall2 (reconnected_in batch) allItems batch /\
      (forall id, default [] (DAGs !! id)
                  = filter (fun it => _id_id (_id it) = id) allItems) /\
      (forall id, id ∈ newRoots <->
         exists item, item ∈ batch /\ _id_id (_id item) = id /\ _pa (_id item) = []) /\
      Forall (fun item => inherited (_id_id (_id item)) = false) batch
  | Err e =>
      e = RootPreceded \/
      exists item, item ∈ batch /\ inherited (_id_id (_id item)) = true /\
                   e = not_an_array (_id_id (_id item)) (is_nil (_pa (_id item)))
  end.
Proof.
  pose proof (checkAncestry_loop_spec batch [] ([], ∅, ∅)) as Hspec.
  unfold _checkAncestry.
  destruct (checkAncestry_loop batch ([], ∅, ∅)) as [[[allItems DAGs] newRoots]|e].
  - destruct Hspec as ([Hdag _] & Hrel & Hroots & Hids).
    + split; simpl; [intros id; by rewrite lookup_empty | constructor].
    + constructor.
    + intros id d Hd. simpl in Hd. by rewrite lookup_empty in Hd.
    + cbn [fst snd app] in *. split; [done|]. split; [done|]. split; [|done].
      intros id. rewrite Hroots. split; [|by right].
      intros [Hin|?]; [|done]. by apply elem_of_empty in Hin.
  - apply Hspec.
    + split; simpl; [intros id; by rewrite lookup_empty | constructor].
    + constructor.
    + intros id d Hd. simpl in Hd. by rewrite lookup_empty in Hd.
Qed.

(** C7. A batch whose first item has an id that is the name of a member
    every object inherits (constructor, toString, ...): the ancestry
    check does not accept it, whatever the items are; it calls back
    with the [TypeError] thrown where [DAGs[id]] is used as an array.
    So a tombstone of such an id followed by a new root is not
    reconnected. *)
Theorem checkAncestry_fails_for_an_inherited_id (item : vitem V)
    (rest : list (vitem V)) :
  inherited (_id_id (_id item)) = true ->
  _checkAncestry (item :: rest)
  = Err (not_an_array (_id_id (_id item)) (is_nil (_pa (_id item)))).
Proof.
  intros Hid. unfold _checkAncestry. cbn [checkAncestry_loop].
  unfold checkAncestry_step, dag_of. by rewrite lookup_empty, Hid.
Qed.

End AncestryTheorems.

Lemma checkAncestry_fails_for_an_inherited_id_witness :
  _checkAncestry [node_of "constructor" "I" "A" [] false 1;
                  node_of "constructor" "I" "B" ["A"] true 2;
                  node_of "constructor" "I" "C" [] false 3]
  = Err (TypeError "Cannot read property '_id' of undefined").
Proof.
  apply (checkAncestry_fails_for_an_inherited_id
           (node_of "constructor" "I" "A" [] false 1)
           [node_of "constructor" "I" "B" ["A"] true 2;
            node_of "constructor" "I" "C" [] false 3]).
  reflexivity.
Defined.

(** The same batch for the document bar is accepted and C reconnected. *)
Example checkAncestry_reconnects_bar :
  (st ← _checkAncestry [node_of "bar" "I" "A" [] false 1;
                        node_of "bar" "I" "B" ["A"] true 2;
                        node_of "bar" "I" "C" [] false 3];
   Ok st.1.1)
  = Ok [node_of "bar" "I" "A" [] false 1; node_of "bar" "I" "B" ["A"] true 2;
        node_of "bar" "I" "C" ["B"] false 3].
Proof. vm_compute. reflexivity. Qed.

(** ** Merging new heads, over a whole batch *)

Section MergeNewHeadsTheorems.
Context {V : Type}.
Variable localPerspective : string.
Variable _proceedOnError : bool.
Variable snapshot : list (vitem V).
Variable _merge : vitem V -> vitem V -> result error (list (vitem V)).
Variable pseudoRandomBytes : nat -> list Byte.byte.
Implicit Types (head seen : vitem V) (st : merge_heads_state (V := V)).

Local Abbreviation step :=
  (mergeNewHeads_step localPerspective _proceedOnError snapshot _merge
     pseudoRandomBytes).
Local Abbreviation loop :=
  (mergeNewHeads_loop localPerspective _proceedOnError snapshot _merge
     pseudoRandomBytes).

Lemma handed_on_refl head : handed_on head head.
Proof. done. Qed.

Lemma handed_on_with_pa head (pa : list string) :
  _pa (_id head) = [] -> handed_on (with_pa pa head) head.
Proof. intros Hpa. by split_and!. Qed.

Lemma handed_on_conflict head head' seen :
  handed_on head' head -> set_conflict head' = Ok seen -> handed_on seen head.
Proof.
  unfold set_conflict. intros (Ha & Hs & Hpe & Hpa).
  destruct (_m3 head'); [|done]. intros [= <-]. done.
Qed.

Lemma mergeNewHeads_step_spec newRoots st head st' :
  step newRoots st head = Ok st' ->
  exists seen, heads_seen st' = heads_seen st ++ [seen] /\ handed_on seen head /\
    ((newlyAddedItems st' = newlyAddedItems st /\ drawn st' = drawn st) \/
     exists merged, newlyAddedItems st' = newlyAddedItems st ++ [merged] /\
       drawn st' = S (drawn st) /\
       _m3 merged = Some {| _ack := false; _op := (0, 0)%Z; _c := false |} /\
       _v (_id merged) = base64 (pseudoRandomBytes (drawn st))).
Proof.
  unfold mergeNewHeads_step. cbv zeta.
  destruct (findOne_last _ snapshot) as [lh|].
  2:{ intros [= <-]. exists head. split; [done|]. split; [done|]. by left. }
  set (head' := if (bool_decide (_id_id (_id head) ∈ newRoots)
                    || inherited (_id_id (_id head)))
                   && is_nil (_pa (_id head)) && _d (_id lh)
                then with_pa [_v (_id lh)] head else head).
  assert (handed_on head' head) as Hhead'.
  { subst head'. destruct (_ && is_nil (_pa (_id head)) && _) eqn:Hc;
      [|done].
    apply handed_on_with_pa. apply andb_true_iff in Hc as [Hc _].
    apply andb_true_iff in Hc as [_ Hc]. by destruct (_pa (_id head)). }
  clearbody head'.
  repeat (match goal with
          | |- context [if ?b then _ else _] => destruct b eqn:?
          | |- context [match ?x with _ => _ end] => destruct x eqn:?
          end);
    try (intros [= <-]); try done;
    try (eexists; split; [reflexivity|]; split; [eassumption|]; by left).
  - exists head'. split; [done|]. split; [done|]. right. eexists.
    split; [reflexivity|]. split; [done|].
    apply negb_false_iff, bool_decide_eq_true in Heqb2.
    unfold _ensureVersion. cbn. rewrite Heqb2, bool_decide_eq_true_2 by done.
    done.
  - destruct (set_conflict head') as [seen|] eqn:Hc; [|done].
    intros [= <-]. exists seen. split; [done|].
    split; [by eapply handed_on_conflict|]. by left.
Qed.

Lemma mergeNewHeads_loop_spec newRoots items : forall st st',
  loop newRoots items st = Ok st' ->
  exists (seen added : list (vitem V)),
    heads_seen st' = heads_seen st ++ seen /\
    Forall2 handed_on seen items /\
    newlyAddedItems st' = newlyAddedItems st ++ added /\
    drawn st' = drawn st + length added /\
    length added <= length items /\
    forall k merged, added !! k = Some merged ->
      _m3 merged = Some {| _ack := false; _op := (0, 0)%Z; _c := false |} /\
      _v (_id merged) = base64 (pseudoRandomBytes (drawn st + k)).
Proof.
  induction items as [|head items IH]; intros st st'; simpl.
  - intros [= <-]. exists [], []. rewrite !app_nil_r. split_and!; try done.
  - destruct (step newRoots st head) as [st1|] eqn:Hstep; [|done]. simpl.
    intros Hloop. apply mergeNewHeads_step_spec in Hstep as (s & Hs & Hh & Hadd).
    apply IH in Hloop as (seen & added & Hs' & Hf & Ha' & Hd' & Hlen & Hk).
    destruct Hadd as [[Ha Hd]|(merged & Ha & Hd & Hm3 & Hv)].
    + exists (s :: seen), added. rewrite Hs', Hs, Ha', Ha, Hd', Hd, <- app_assoc.
      split_and!; try done.
      * by constructor.
      * simpl. lia.
      * intros k m Hm. rewrite <- Hd. by apply Hk.
    + exists (s :: seen), (merged :: added).
      rewrite Hs', Hs, Ha', Ha, Hd', Hd, <- !app_assoc.
      split_and!; try done.
      * by constructor.
      * simpl. lia.
      * simpl. lia.
      * intros [|k] m Hm; simpl in Hm.
        -- injection Hm as <-. by rewrite Nat.add_0_r.
        -- apply Hk in Hm. rewrite Hd in Hm.
           by replace (drawn st + S k) with (S (drawn st) + k) by lia.
Qed.

(** X8. [_mergeNewHeads] over a batch that it finishes without error: it
    hands every head on, in order, with its attributes, its identity and
    its perspective; a head that came with parents keeps them (only a
    new root can be given one).  It adds at most one item per head, and
    each added item is unacknowledged ([_ack] false, [_op] zero) and has
    a version drawn from the random source, the [k]-th added item the
    [k]-th draw of the call. *)
Theorem mergeNewHeads_hands_on_heads_and_adds_random_merges
    items newRoots drawn0 st :
  _mergeNewHeads localPerspective _proceedOnError snapshot _merge
    pseudoRandomBytes items newRoots drawn0 = Ok st ->
  Forall2 handed_on (heads_seen st) items /\
  length (newlyAddedItems st) <= length items /\
  drawn st = drawn0 + length (newlyAddedItems st) /\
  forall k merged, newlyAddedItems st !! k = Some merged ->
    _m3 merged = Some {| _ack := false; _op := (0, 0)%Z; _c := false |} /\
    _v (_id merged) = base64 (pseudoRandomBytes (drawn0 + k)).
Proof.
  unfold _mergeNewHeads. intros H.
  apply mergeNewHeads_loop_spec in H as (seen & added & Hs & Hf & Ha & Hd & Hlen & Hk).
  simpl in Hs, Ha, Hd, Hk. rewrite Hs, Ha, Hd. done.
Qed.

End MergeNewHeadsTheorems.

Lemma mergeNewHeads_hands_on_heads_and_adds_random_merges_witness :
  exists st,
    _mergeNewHeads "I" false
      [node "I" "A" [] false 1; node "I" "B" ["A"] false 2] merge_to_new
      zero_bytes [node "I" "C" ["A"] false 3] ∅ 0 = Ok st /\
    Forall2 handed_on (heads_seen st) [node "I" "C" ["A"] false 3] /\
    length (newlyAddedItems st) <= 1 /\
    drawn st = 0 + length (newlyAddedItems st) /\
    forall k merged, newlyAddedItems st !! k = Some merged ->
      _m3 merged = Some {| _ack := false; _op := (0, 0)%Z; _c := false |} /\
      _v (_id merged) = base64 (zero_bytes (0 + k)).
Proof.
  eexists. split; [reflexivity|].
  apply (mergeNewHeads_hands_on_heads_and_adds_random_merges "I" false
           [node "I" "A" [] false 1; node "I" "B" ["A"] false 2] merge_to_new
           zero_bytes [node "I" "C" ["A"] false 3] ∅ 0).
  reflexivity.
Defined.

(** ** What the reader pushes out *)

Section ReaderOutputTheorems.
Context {V : Type}.
Variable localPerspective : string.
Variable offset : string.
Variable maxTries : nat.
Variable matches : vitem V -> bool.
Variable hooks : list (hook V).
Variable snapshotCollection : list (vitem V).

Local Abbreviation handle :=
  (handleData localPerspective offset maxTries matches hooks snapshotCollection).
Local Abbreviation loop :=
  (read_loop localPerspective offset maxTries matches hooks snapshotCollection).
Local Abbreviation passing := (passes matches hooks).
Local Abbreviation out_for := (pushed_for hooks).

Lemma with_pa_self (o : vitem V) : with_pa (_pa (_id o)) o = o.
Proof. by destruct o as [[] ? ?]. Qed.

(** What is pushed is the [afterItem] of the hooks, with the parents of
    the reader when it is the object that was read. *)
Lemma afterItem_with_pa (r : hooks_result V) (pa : list string) :
  exists pa', afterItem {| read := with_pa pa (read r); other := other r |}
              = with_pa pa' (afterItem r).
Proof.
  unfold afterItem. destruct (other r) as [o|]; cbn.
  - exists (_pa (_id o)). by rewrite with_pa_self.
  - by exists pa.
Qed.

Lemma handleData_pushes (st st1 : reader_state) (item : vitem V) :
  handle st item = Ok st1 ->
  offsetReached st1 = offsetReached st || bool_decide (_v (_id item) = offset) /\
  (offsetReached st = false -> bool_decide (_v (_id item) = offset) = false ->
   tries st1 = S (tries st) /\ S (tries st) < maxTries) /\
  (offsetReached st = false -> tries st <= tries st1) /\
  if offsetReached st1 && passing item
  then exists out, pushed st1 = pushed st ++ [out] /\ out_for out item
  else pushed st1 = pushed st.
Proof.
  unfold handleData, passes, pushed_for.
  destruct (offsetReached st) eqn:Hr; cbn [orb];
    [|case_bool_decide as Hv; [|case_bool_decide as Hmax; [done|]]];
    cbn [mbind result_bind];
    (destruct (move_parents _ _ _ _ _ _) as [hs|]; [|done]);
    cbn [mbind result_bind];
    (destruct (matches item); cbn [negb andb];
     [|intros [= <-]; cbn; repeat split; (done || lia)]);
    (destruct (runHooks hooks item) as [[r|]|] eqn:Hh; [| |done]);
    cbn [mbind result_bind];
    try (intros [= <-]; cbn; repeat split; (done || lia)).
  - destruct (strip _) as [out|] eqn:Hs; [|done]. intros [= <-]. cbn.
    repeat split; try done. exists out. split; [done|].
    destruct (afterItem_with_pa r (default [] (hs !! _v (_id (read r))))) as [pa' Hpa].
    exists r, pa'. split; [done|]. by rewrite <- Hpa.
  - destruct (strip _) as [out|] eqn:Hs; [|done]. intros [= <-]. cbn.
    repeat split; try done. exists out. split; [done|].
    destruct (afterItem_with_pa r (default [] (hs !! _v (_id (read r))))) as [pa' Hpa].
    exists r, pa'. split; [done|]. by rewrite <- Hpa.
Qed.

Lemma read_loop_pushes (source : list (vitem V)) : forall st st' : reader_state,
  loop source st = Ok st' ->
  exists outs,
    pushed st' = pushed st ++ outs /\
    Forall2 out_for outs
      (filter (fun item => passing item = true)
         (if offsetReached st then source else from_offset offset source)).
Proof.
  induction source as [|item source IH]; intros st st'; simpl.
  - intros [= <-]. exists []. rewrite app_nil_r. split; [done|].
    destruct (offsetReached st); constructor.
  - destruct (handle st item) as [st1|] eqn:Hstep; [|done]. simpl.
    intros Hloop. apply IH in Hloop as (outs & Hp & Hf).
    apply handleData_pushes in Hstep as (Hr1 & _ & _ & Hpush).
    rewrite Hr1 in Hpush, Hf.
    destruct (offsetReached st); cbn [orb] in *.
    + rewrite filter_cons. destruct (passing item) eqn:Hpass; cbn [andb] in Hpush.
      * destruct Hpush as (out & Hpush & Hout). exists (out :: outs).
        rewrite Hp, Hpush, <- app_assoc. split; [done|].
        rewrite decide_True by done. by constructor.
      * exists outs. rewrite Hp, Hpush. split; [done|].
        by rewrite decide_False by (by intros [=]).
    + case_bool_decide as Hv; cbn [andb] in Hpush.
      * rewrite filter_cons. destruct (passing item) eqn:Hpass.
        -- destruct Hpush as (out & Hpush & Hout). exists (out :: outs).
           rewrite Hp, Hpush, <- app_assoc. split; [done|].
           rewrite decide_True by done. by constructor.
        -- exists outs. rewrite Hp, Hpush. split; [done|].
           by rewrite decide_False by (by intros [=]).
      * exists outs. by rewrite Hp, Hpush.
Qed.

(** X9. What the reader pushes out, when it ends without error: one item
    for each item of the local perspective that passes the filter and
    the hooks, in the order of the collection, from the first item on
    whose version is the offset (that item included), or from the start
    without an offset.  Each pushed item is what the hooks made of its
    item, without perspective and local state; only its parents are set
    by the reader. *)
Theorem reader_pushes_what_passes_since_offset (out : list (vitem V)) :
  VersionedCollectionReader localPerspective offset maxTries matches hooks
    snapshotCollection = Ok out ->
  Forall2 out_for out
    (filter (fun item => passing item = true)
       (since_offset offset
          (filter (fun a : vitem V => _pe (_id a) = localPerspective)
             snapshotCollection))).
Proof.
  unfold VersionedCollectionReader, since_offset.
  destruct (loop _ _) as [st|] eqn:Hloop; [|done]. simpl. intros [= <-].
  apply read_loop_pushes in Hloop as (outs & Hp & Hf). simpl in Hp, Hf.
  by rewrite Hp.
Qed.

Lemma read_loop_tries (source : list (vitem V)) : forall st st' : reader_state,
  loop source st = Ok st' ->
  offsetReached st = false ->
  Forall (fun item => _v (_id item) <> offset) source ->
  offsetReached st' = false /\ pushed st' = pushed st /\
  tries st' = tries st + length source /\
  (source <> [] -> tries st' < maxTries).
Proof.
  induction source as [|item source IH]; intros st st'; simpl.
  - intros [= <-] Hr _. repeat split; (done || lia).
  - destruct (handle st item) as [st1|] eqn:Hstep; [|done]. simpl.
    intros Hloop Hr Hall. apply Forall_cons in Hall as [Hv Hall].
    apply handleData_pushes in Hstep as (Hr1 & Htries & _ & Hpush).
    rewrite Hr, bool_decide_eq_false_2 in Hr1 by done. cbn in Hr1.
    rewrite Hr1 in Hpush. cbn in Hpush.
    destruct (Htries Hr (bool_decide_eq_false_2 _ Hv)) as [Ht Hlt].
    destruct (IH _ _ Hloop Hr1 Hall) as (Hr' & Hp' & Ht' & Hmax).
    repeat split; [done|congruence|lia|].
    intros _. destruct source; [simpl in Ht'; lia|]. by apply Hmax.
Qed.

(** X10. An offset that is not the version of any item of the local
    perspective: the reader pushes nothing.  It ends without error only
    when the local perspective has no item or fewer items than
    [_maxTries], the count of the collection when the reader started. *)
Theorem reader_pushes_nothing_without_its_offset (out : list (vitem V)) :
  offset <> "" ->
  (forall a, a ∈ snapshotCollection -> _pe (_id a) = localPerspective ->
             _v (_id a) <> offset) ->
  VersionedCollectionReader localPerspective offset maxTries matches hooks
    snapshotCollection = Ok out ->
  out = [] /\
  let source := filter (fun a : vitem V => _pe (_id a) = localPerspective)
                  snapshotCollection in
  source = [] \/ length source < maxTries.
Proof.
  intros Hoff Hnone. unfold VersionedCollectionReader.
  destruct (loop _ _) as [st|] eqn:Hloop; [|done]. simpl. intros [= <-].
  apply read_loop_tries in Hloop as (_ & Hp & Ht & Hmax).
  - simpl in Hp, Ht. split; [done|].
    destruct (filter _ snapshotCollection) as [|a source] eqn:Hsrc; [by left|].
    right. rewrite <- Ht. by apply Hmax.
  - simpl. by apply bool_decide_eq_false_2.
  - apply Forall_forall. intros a Ha. apply list_elem_of_filter in Ha as [Hpe Ha].
    by apply Hnone.
Qed.

End ReaderOutputTheorems.

Lemma reader_pushes_what_passes_since_offset_witness :
  exists out,
    VersionedCollectionReader "I" "A" 7 (has_attr "baz" "qux") [drop_version "G"]
      reader_dag = Ok out /\
    map (fun o => _v (_id o)) out = ["A"; "D"] /\
    Forall2 (pushed_for [drop_version "G"]) out
      (filter (fun item => passes (has_attr "baz" "qux") [drop_version "G"] item = true)
         (since_offset "A"
            (filter (fun a : vitem string => _pe (_id a) = "I") reader_dag))).
Proof.
  eexists. split; [vm_compute; reflexivity|]. split; [reflexivity|].
  apply (reader_pushes_what_passes_since_offset "I" "A" 7 (has_attr "baz" "qux")
           [drop_version "G"] reader_dag).
  vm_compute. reflexivity.
Defined.

Lemma reader_pushes_nothing_without_its_offset_witness :
  exists out,
    VersionedCollectionReader "I" "Z" 8 match_all []
      (reader_dag ++ [node "R" "Z" [] false 8]) = Ok out /\
    out = [] /\
    (filter (fun a : vitem string => _pe (_id a) = "I")
       (reader_dag ++ [node "R" "Z" [] false 8]) = [] \/
     length (filter (fun a : vitem string => _pe (_id a) = "I")
               (reader_dag ++ [node "R" "Z" [] false 8])) < 8).
Proof.
  eexists. split; [vm_compute; reflexivity|].
  apply (reader_pushes_nothing_without_its_offset "I" "Z" 8 match_all []
           (reader_dag ++ [node "R" "Z" [] false 8])).
  - discriminate.
  - intros a Ha Hpe Hv. unfold reader_dag in Ha. simpl in Ha.
    repeat (apply elem_of_cons in Ha as [->|Ha];
            [by (discriminate Hv || discriminate Hpe)|]).
    by apply elem_of_nil in Ha.
  - vm_compute. reflexivity.
Defined.

(** ** The queues of the writer *)

Section QueueTheorems.
Context {V D : Type}.
Variable localPerspective : string.
Variable collectionName : string.
Variable _queueLimit : nat.
Variable _processBatchSize : nat.
Variable _ensureAllInDAG : list (vitem V) -> D -> D * option error.
Variable _applyOplogItem : oplog_item V -> D -> D * result error (vitem V).
Implicit Types (w : writer (V := V) (D := D)) (remote : string)
  (remotes : list string).

Lemma removeRemote_loop_absent remote n : forall i remotes,
  remote ∉ drop i remotes -> removeRemote_loop remote n i remotes = remotes.
Proof.
  induction n as [|n IH]; intros i remotes Hnot; [done|]. simpl.
  destruct (remotes !! i) as [name|] eqn:Hi; [|done].
  rewrite bool_decide_eq_false_2.
  - apply IH. intros Hin. apply Hnot.
    rewrite (drop_S _ _ _ Hi). apply elem_of_cons. by right.
  - intros ->. apply Hnot. rewrite (drop_S _ _ _ Hi). apply elem_of_cons. by left.
Qed.

Lemma filter_absent remote remotes :
  remote ∉ remotes -> filter (fun name => name <> remote) remotes = remotes.
Proof.
  induction remotes as [|x l IH]; [done|]. intros [Hne Hnot]%not_elem_of_cons.
  rewrite filter_cons_True by (by intros ->). f_equal. by apply IH.
Qed.

Lemma filter_delete_NoDup remote remotes i :
  NoDup remotes -> remotes !! i = Some remote ->
  filter (fun name => name <> remote) remotes = delete i remotes /\
  remote ∉ delete i remotes.
Proof.
  intros Hnd. revert i. induction Hnd as [|x l Hx Hnd IH]; intros i Hi; [done|].
  destruct i as [|i]; simpl in *.
  - injection Hi as ->. rewrite filter_cons, decide_False by (by intros H; apply H).
    split; [|done]. by apply filter_absent.
  - assert (x <> remote) as Hne.
    { intros ->. apply Hx. by eapply list_elem_of_lookup_2. }
    destruct (IH i Hi) as [IH1 IH2].
    rewrite filter_cons, decide_True by done. split; [by f_equal|].
    apply not_elem_of_cons. split; [congruence|done].
Qed.

Lemma removeRemote_loop_NoDup remote n : forall i remotes,
  NoDup remotes -> remote ∉ take i remotes -> length remotes <= n + i ->
  removeRemote_loop remote n i remotes = filter (fun name => name <> remote) remotes.
Proof.
  induction n as [|n IH]; intros i remotes Hnd Hnot Hlen; simpl.
  - rewrite take_ge in Hnot by lia. symmetry. by apply filter_absent.
  - destruct (remotes !! i) as [name|] eqn:Hi.
    + case_bool_decide as Hname.
      * subst name. destruct (filter_delete_NoDup remote remotes i Hnd Hi) as [-> Hd].
        apply removeRemote_loop_absent. intros Hin. apply Hd.
        apply list_elem_of_lookup_1 in Hin as [j Hj].
        rewrite lookup_drop in Hj. by eapply list_elem_of_lookup_2.
      * apply IH; [done| |lia].
        rewrite (take_S_r _ _ _ Hi). intros [Hin|Hin%list_elem_of_singleton]%elem_of_app;
          [by apply Hnot|by apply Hname].
    + apply lookup_ge_None in Hi. rewrite take_ge in Hnot by lia.
      symmetry. by apply filter_absent.
Qed.

Lemma setRemotes_queues remotes : forall (queues : gmap string (list (vitem V))) remote,
  is_Some (fold_left (fun qs r => <[r := []]> qs) remotes queues !! remote) <->
  remote ∈ remotes \/ is_Some (queues !! remote).
Proof.
  induction remotes as [|r remotes IH]; intros queues remote; simpl.
  - rewrite elem_of_nil. tauto.
  - rewrite IH, elem_of_cons. destruct (decide (remote = r)) as [->|Hne].
    + rewrite lookup_insert_eq. split; [intros _; by left; left|intros _; by right].
    + rewrite lookup_insert_ne by done. tauto.
Qed.

Lemma setRemotes_wf remotes w : NoDup remotes -> queues_wf (setRemotes remotes w).
Proof.
  intros Hnd. split; [done|]. intros remote. simpl.
  rewrite setRemotes_queues, lookup_empty. split; [by left|].
  intros [?|[? [=]]]; done.
Qed.

Lemma addRemote_wf remote w :
  queues_wf w -> _remoteQueues w !! remote = None -> queues_wf (addRemote remote w).
Proof.
  intros [Hnd Hq] Hnone. split; simpl.
  - apply NoDup_app. split; [done|]. split; [|apply NoDup_singleton].
    intros x Hx ->%list_elem_of_singleton. apply Hq in Hx as [? Hx]. congruence.
  - intros r. rewrite elem_of_app, list_elem_of_singleton, Hq.
    destruct (decide (r = remote)) as [->|Hne].
    + rewrite lookup_insert_eq. split; [done|by right].
    + rewrite lookup_insert_ne by done. split; [by intros [?|?]|by left].
Qed.

Lemma removeRemote_remotes remote w :
  NoDup (_remotes w) ->
  _remotes (removeRemote remote w) = filter (fun name => name <> remote) (_remotes w).
Proof.
  intros Hnd. simpl. apply removeRemote_loop_NoDup; [done| |lia].
  rewrite take_0. apply not_elem_of_nil.
Qed.

Lemma removeRemote_wf remote w :
  queues_wf w -> queues_wf (removeRemote remote w).
Proof.
  intros [Hnd Hq]. split.
  - rewrite removeRemote_remotes by done. by apply NoDup_filter.
  - intros r. rewrite removeRemote_remotes by done. simpl.
    rewrite list_elem_of_filter, Hq. destruct (decide (r = remote)) as [->|Hne].
    + rewrite lookup_delete_eq. split; [by intros [? _]|by intros [? [=]]].
    + rewrite lookup_delete_ne by done. tauto.
Qed.

(** X11. [removeRemote], when no remote is listed twice: the remote is
    gone from [_remotes], the other remotes stay in their order, its
    queue is deleted with all that was in it and the other queues are
    left alone.  If every remote had a queue and every queue a remote
    before, that is so afterwards. *)
Theorem removeRemote_forgets_remote_and_queue remote w :
  NoDup (_remotes w) ->
  let w' := removeRemote remote w in
  _remotes w' = filter (fun name => name <> remote) (_remotes w) /\
  _remoteQueues w' !! remote = None /\
  (forall r, r <> remote -> _remoteQueues w' !! r = _remoteQueues w !! r) /\
  (queues_wf w -> queues_wf w').
Proof.
  intros Hnd w'. split; [by apply removeRemote_remotes|]. split; [|split].
  - apply lookup_delete_eq.
  - intros r Hr. by apply lookup_delete_ne.
  - apply removeRemote_wf.
Qed.



Local Abbreviation taken w remote :=
  (take _processBatchSize (default [] (_remoteQueues w !! remote))).
Local Abbreviation loop :=
  (processRemoteQueues_loop _processBatchSize _ensureAllInDAG).

Lemma processRemoteQueue_spec remote w (queue : list (vitem V)) :
  _remoteQueues w !! remote = Some queue ->
  exists w1 err,
    processRemoteQueue _processBatchSize _ensureAllInDAG remote w = Ok (w1, err) /\
    _remotes w1 = _remotes w /\ _oplogBuffer w1 = _oplogBuffer w /\
    oplog_cbs w1 = oplog_cbs w /\
    _remoteQueues w1 = <[remote := drop _processBatchSize queue]> (_remoteQueues w) /\
    remote_cbs w1 = remote_cbs w ++ map (fun item => (item, err)) (taken w remote).
Proof.
  intros Hq. unfold processRemoteQueue. rewrite Hq.
  destruct (_ensureAllInDAG _ _) as [db err]. do 2 eexists. by split_and!.
Qed.

Lemma processRemoteQueues_loop_spec remotes : forall w,
  NoDup remotes ->
  (forall r, r ∈ remotes -> is_Some (_remoteQueues w !! r)) ->
  exists w' res done,
    loop remotes w = Ok (w', res) /\
    _remotes w' = _remotes w /\ _oplogBuffer w' = _oplogBuffer w /\
    oplog_cbs w' = oplog_cbs w /\
    (forall r, r ∈ done ->
       _remoteQueues w' !! r = drop _processBatchSize <$> _remoteQueues w !! r) /\
    (forall r, r ∉ done -> _remoteQueues w' !! r = _remoteQueues w !! r) /\
    match res with
    | None =>
        done = remotes /\
        remote_cbs w' = remote_cbs w ++
          flat_map (fun r => map (fun item => (item, None)) (taken w r)) remotes
    | Some (last, e) =>
        exists before after,
          remotes = before ++ last :: after /\ done = before ++ [last] /\
          remote_cbs w' = remote_cbs w ++
            flat_map (fun r => map (fun item => (item, None)) (taken w r)) before ++
            map (fun item => (item, Some e)) (taken w last)
    end.
Proof.
  induction remotes as [|remote remotes IH]; intros w Hnd Hqs.
  - exists w, None, []. simpl. rewrite app_nil_r. split_and!; try done.
    intros r Hr. by apply elem_of_nil in Hr.
  - apply NoDup_cons in Hnd as [Hnot Hnd].
    destruct (Hqs remote) as [queue Hq]; [apply elem_of_cons; by left|].
    destruct (processRemoteQueue_spec remote w queue Hq)
      as (w1 & err & Hstep & Hr1 & Hb1 & Ho1 & Hq1 & Hc1).
    simpl. rewrite Hstep. cbn [mbind result_bind].
    destruct err as [e|].
    + exists w1, (Some (remote, e)), [remote]. split_and!; try done.
      * intros r ->%list_elem_of_singleton. by rewrite Hq1, lookup_insert_eq, Hq.
      * intros r Hr. rewrite Hq1, lookup_insert_ne; [done|].
        intros ->. apply Hr. by apply list_elem_of_singleton.
      * exists [], remotes. by split_and!.
    + destruct (IH w1 Hnd) as (w' & res & done & Hloop & Hr' & Hb' & Ho' & Hd & Hnd' & Hres).
      { intros r Hr. rewrite Hq1, lookup_insert_ne by (by intros ->).
        apply Hqs. apply elem_of_cons. by right. }
      assert (forall r, r ∈ remotes -> taken w1 r = taken w r) as Htaken.
      { intros r Hr. by rewrite Hq1, lookup_insert_ne by (by intros ->). }
      assert (forall rs : list string, (forall r, r ∈ rs -> r ∈ remotes) ->
                flat_map (fun r => map (fun item : vitem V => (item, @None error))
                                     (taken w1 r)) rs
                = flat_map (fun r => map (fun item => (item, None)) (taken w r)) rs)
        as Hflat.
      { induction rs as [|r rs IHrs]; intros Hsub; [done|]. simpl.
        rewrite IHrs, Htaken; [done| |].
        - apply Hsub, elem_of_cons. by left.
        - intros r' Hr''. apply Hsub, elem_of_cons. by right. }
      assert (remote ∉ done -> forall r, r ∈ done -> r <> remote) as Hdone_ne.
      { intros Hn r Hr ->. by apply Hn. }
      assert (forall r, r ∈ done -> r ∈ remotes) as Hdone.
      { destruct res as [[last e]|].
        - destruct Hres as (before & after & -> & -> & _). intros r Hr.
          apply elem_of_app in Hr as [Hr|Hr%list_elem_of_singleton].
          + apply elem_of_app. by left.
          + subst r. apply elem_of_app. right. apply elem_of_cons. by left.
        - by destruct Hres as [-> _]. }
      exists w', res, (remote :: done). rewrite Hloop.
      split_and!; try congruence.
      * intros r [->|Hr]%elem_of_cons.
        -- rewrite Hnd', Hq1, lookup_insert_eq, Hq; [done|].
           intros Hr. by apply Hnot, Hdone.
        -- rewrite Hd, Hq1, lookup_insert_ne; [done| |done].
           intros ->. by apply Hnot, Hdone.
      * intros r [Hne Hr]%not_elem_of_cons.
        rewrite Hnd', Hq1, lookup_insert_ne by done. done.
      * destruct res as [[last e]|].
        -- destruct Hres as (before & after & -> & -> & Hcbs).
           exists (remote :: before), after. split_and!; try done.
           rewrite Hcbs, Hc1. simpl. rewrite <- !app_assoc. do 2 f_equal.
           rewrite Hflat, Htaken; [done| |].
           ++ apply elem_of_app. right. apply elem_of_cons. by left.
           ++ intros r Hr. apply elem_of_app. by left.
        -- destruct Hres as [-> Hcbs]. split; [done|].
           rewrite Hcbs, Hc1. simpl. rewrite <- !app_assoc. do 2 f_equal.
           by apply Hflat.
Qed.

Lemma processRemoteQueues_spec w :
  queues_wf w ->
  exists w' err,
    _processRemoteQueues _processBatchSize _ensureAllInDAG w = Ok (w', err) /\
    queues_wf w' /\ _oplogBuffer w' = _oplogBuffer w /\ oplog_cbs w' = oplog_cbs w /\
    match err with
    | None =>
        _remotes w' = _remotes w /\
        (forall r, _remoteQueues w' !! r
                   = drop _processBatchSize <$> _remoteQueues w !! r) /\
        remote_cbs w' = remote_cbs w ++
          flat_map (fun r => map (fun item => (item, None)) (taken w r)) (_remotes w)
    | Some e =>
        exists before last after,
          _remotes w = before ++ last :: after /\
          _remotes w' = before ++ after /\
          _remoteQueues w' !! last = None /\
          (forall r, r ∈ before ->
             _remoteQueues w' !! r = drop _processBatchSize <$> _remoteQueues w !! r) /\
          (forall r, r ∈ after -> _remoteQueues w' !! r = _remoteQueues w !! r) /\
          remote_cbs w' = remote_cbs w ++
            flat_map (fun r => map (fun item => (item, None)) (taken w r)) before ++
            map (fun item => (item, Some e)) (taken w last)
    end.
Proof.
  intros [Hnd Hq].
  destruct (processRemoteQueues_loop_spec (_remotes w) w Hnd)
    as (w1 & res & done & Hloop & Hr & Hb & Ho & Hd & Hnd' & Hres).
  { intros r Hr. by apply Hq. }
  assert (queues_wf w1) as Hwf1.
  { split; [by rewrite Hr|]. intros r. rewrite Hr, Hq.
    destruct (decide (r ∈ done)) as [Hin|Hin].
    - rewrite (Hd r Hin). by rewrite fmap_is_Some.
    - by rewrite (Hnd' r Hin). }
  unfold _processRemoteQueues. rewrite Hloop. cbn [mbind result_bind].
  destruct res as [[last e]|].
  - destruct Hres as (before & after & Hrs & -> & Hcbs).
    exists (removeRemote last w1), (Some e). split; [done|].
    split; [by apply removeRemote_wf|]. split; [done|]. split; [done|].
    exists before, last, after. rewrite Hrs in Hnd.
    apply NoDup_app in Hnd as (Hnb & Hdisj & Hna).
    apply NoDup_cons in Hna as [Hla Hna].
    assert (last ∉ before) as Hlb.
    { intros Hin. apply (Hdisj _ Hin). apply elem_of_cons. by left. }
    split_and!; try done.
    + rewrite removeRemote_remotes by (by destruct Hwf1). rewrite Hr, Hrs.
      rewrite filter_app, filter_cons_False by (by intros H; apply H).
      by rewrite !filter_absent.
    + simpl. apply lookup_delete_eq.
    + intros r Hin. simpl. rewrite lookup_delete_ne by (by intros ->).
      apply Hd. apply elem_of_app. by left.
    + intros r Hin. simpl. rewrite lookup_delete_ne by (by intros ->).
      apply Hnd'. intros [Hrb|Hrl%list_elem_of_singleton]%elem_of_app;
        [|by subst r].
      apply (Hdisj _ Hrb). apply elem_of_cons. by right.
  - destruct Hres as [-> Hcbs]. exists w1, None. split_and!; try done.
    intros r. destruct (decide (r ∈ _remotes w)) as [Hin|Hin]; [by apply Hd|].
    rewrite (Hnd' r Hin). destruct (_remoteQueues w !! r) as [q|] eqn:Hqr; [|done].
    exfalso. apply Hin, Hq. by rewrite Hqr.
Qed.

(** X13. [_processRemoteQueues] on a writer whose remotes and queues are
    in step.  It takes the remotes in the order of [_remotes] and hands
    at most [_processBatchSize] items from the front of each queue to
    [_ensureAllInDAG]; every item taken gets its callback once, with the
    result of its batch.  Without error each queue has lost the items
    taken.  On the first error the remote it came from is removed
    together with its queue and all that was still in it, the remotes
    after it keep their queues as they were, and remotes and queues stay
    in step. *)
Theorem processRemoteQueues_takes_batches_and_drops_failing_remote w :
  queues_wf w ->
  exists w' err,
    _processRemoteQueues _processBatchSize _ensureAllInDAG w = Ok (w', err) /\
    queues_wf w' /\ _oplogBuffer w' = _oplogBuffer w /\ oplog_cbs w' = oplog_cbs w /\
    match err with
    | None =>
        _remotes w' = _remotes w /\
        (forall r, _remoteQueues w' !! r
                   = drop _processBatchSize <$> _remoteQueues w !! r) /\
        remote_cbs w' = remote_cbs w ++
          flat_map (fun r => map (fun item => (item, None)) (taken w r)) (_remotes w)
    | Some e =>
        exists before last after,
          _remotes w = before ++ last :: after /\
          _remotes w' = before ++ after /\
          _remoteQueues w' !! last = None /\
          (forall r, r ∈ before ->
             _remoteQueues w' !! r = drop _processBatchSize <$> _remoteQueues w !! r) /\
          (forall r, r ∈ after -> _remoteQueues w' !! r = _remoteQueues w !! r) /\
          remote_cbs w' = remote_cbs w ++
            flat_map (fun r => map (fun item => (item, None)) (taken w r)) before ++
            map (fun item => (item, Some e)) (taken w last)
    end.
Proof. apply processRemoteQueues_spec. Qed.


Local Abbreviation oplog_loop := (processOplogQueue_loop _applyOplogItem).

Lemma applied_app (cbs1 cbs2 : list (oplog_item V * result error (vitem V))) :
  applied (cbs1 ++ cbs2) = applied cbs1 ++ applied cbs2.
Proof. unfold applied. by rewrite filter_app, map_app. Qed.

Lemma processOplogQueue_loop_spec (buffer : list (oplog_entry (V := V))) :
  forall (db : D) cbs,
  match oplog_loop buffer db cbs with
  | (buffer', db', cbs', err) =>
      applied cbs' ++ pending buffer' = applied cbs ++ pending buffer /\
      map oe_item buffer' = map oe_item buffer /\
      match err with
      | None => pending buffer' = []
      | Some e =>
          exists item rest r,
            pending buffer' = item :: rest /\
            cbs' = r ++ [(item, Err e)]
      end
  end.
Proof.
  induction buffer as [|item buffer IH]; intros db cbs; simpl.
  - by rewrite app_nil_r.
  - destruct (oe_done item) eqn:Hdone.
    + specialize (IH db cbs).
      destruct (oplog_loop buffer db cbs) as [[[buffer' db'] cbs'] err].
      destruct IH as (Hinv & Hitems & Herr).
      unfold pending in *. rewrite !filter_cons_False by (by rewrite Hdone).
      split; [done|]. split; [simpl; by f_equal|done].
    + destruct (_applyOplogItem (oe_item item) db) as [db1 [newItem|e]].
      * specialize (IH db1 (cbs ++ [(oe_item item, Ok newItem)])).
        destruct (oplog_loop buffer db1 _) as [[[buffer' db'] cbs'] err].
        destruct IH as (Hinv & Hitems & Herr).
        unfold pending in *. rewrite filter_cons_False by done.
        rewrite filter_cons_True by done.
        split; [|split; [simpl; by f_equal|done]].
        rewrite Hinv, applied_app. by rewrite <- app_assoc.
      * unfold pending. rewrite filter_cons_True by done.
        rewrite applied_app. simpl. rewrite app_nil_r.
        split; [done|]. split; [done|]. by do 3 eexists.
Qed.

Lemma processOplogQueue_spec w :
  match _processOplogQueue _applyOplogItem w with
  | (w', err) =>
      applied (oplog_cbs w') ++ pending (_oplogBuffer w')
      = applied (oplog_cbs w) ++ pending (_oplogBuffer w) /\
      _remotes w' = _remotes w /\ _remoteQueues w' = _remoteQueues w /\
      remote_cbs w' = remote_cbs w /\
      match err with
      | None => _oplogBuffer w' = []
      | Some e =>
          map oe_item (_oplogBuffer w') = map oe_item (_oplogBuffer w) /\
          exists item rest r,
            pending (_oplogBuffer w') = item :: rest /\
            oplog_cbs w' = r ++ [(item, Err e)]
      end
  end.
Proof.
  unfold _processOplogQueue.
  pose proof (processOplogQueue_loop_spec (_oplogBuffer w) (store w) (oplog_cbs w))
    as Hloop.
  destruct (oplog_loop _ _ _) as [[[buffer' db'] cbs'] err].
  destruct Hloop as (Hinv & Hitems & Herr). simpl.
  destruct err as [e|]; split_and!; try done.
  by rewrite Herr in Hinv.
Qed.

(** X14. [_processOplogQueue] applies each buffered oplog item once, in
    order, also over several runs: the items applied with success so
    far, followed by the items of the buffer that are not done, are the
    same list before and after a run.  A run without error empties the
    buffer.  A run that ends in an error keeps the items of the buffer;
    the item that failed is the first one that is not done, and its
    callback was the last one called, with that error.  The remotes and
    their queues are not touched. *)
Theorem processOplogQueue_applies_each_item_once w :
  match _processOplogQueue _applyOplogItem w with
  | (w', err) =>
      applied (oplog_cbs w') ++ pending (_oplogBuffer w')
      = applied (oplog_cbs w) ++ pending (_oplogBuffer w) /\
      _remotes w' = _remotes w /\ _remoteQueues w' = _remoteQueues w /\
      remote_cbs w' = remote_cbs w /\
      match err with
      | None => _oplogBuffer w' = []
      | Some e =>
          map oe_item (_oplogBuffer w') = map oe_item (_oplogBuffer w) /\
          exists item rest r,
            pending (_oplogBuffer w') = item :: rest /\
            oplog_cbs w' = r ++ [(item, Err e)]
      end
  end.
Proof. apply processOplogQueue_spec. Qed.

(** X15. [processQueues] on a writer whose remotes and queues are in
    step and that is not processing already: the oplog buffer is
    processed first, the remote queues after it, and only if the oplog
    buffer went through without error.  Without error the buffer is
    empty and every queue has lost its first [_processBatchSize] items.
    An error of an oplog item leaves remotes, queues and the callbacks
    of remote items as they were; an error of a remote batch removes
    that remote.  In every case remotes and queues stay in step and no
    oplog item is applied twice or lost. *)
Theorem processQueues_oplog_first_then_remotes w :
  queues_wf w ->
  exists w' err,
    processQueues _processBatchSize _ensureAllInDAG _applyOplogItem w = Ok (w', err) /\
    queues_wf w' /\
    applied (oplog_cbs w') ++ pending (_oplogBuffer w')
    = applied (oplog_cbs w) ++ pending (_oplogBuffer w) /\
    match err with
    | None =>
        _oplogBuffer w' = [] /\ _remotes w' = _remotes w /\
        forall r, _remoteQueues w' !! r
                  = drop _processBatchSize <$> _remoteQueues w !! r
    | Some e =>
        (_remotes w' = _remotes w /\ _remoteQueues w' = _remoteQueues w /\
         remote_cbs w' = remote_cbs w /\
         exists item r, oplog_cbs w' = r ++ [(item, Err e)]) \/
        (_oplogBuffer w' = [] /\
         exists before last after,
           _remotes w = before ++ last :: after /\
           _remotes w' = before ++ after /\
           _remoteQueues w' !! last = None)
    end.
Proof.
  intros Hwf. unfold processQueues.
  destruct (negb _ && bool_decide (_oplogBuffer w = [])) eqn:Hidle.
  { apply andb_true_iff in Hidle as [Hnone Hbuf].
    apply bool_decide_eq_true in Hbuf. apply negb_true_iff in Hnone.
    exists w, None. split_and!; try done.
    intros r. destruct (_remoteQueues w !! r) as [q|] eqn:Hq; [|done]. simpl.
    destruct q as [|item q]; [by rewrite drop_nil|].
    apply elem_of_map_to_list in Hq.
    assert (existsb (fun q0 : string * list (vitem V) => negb (bool_decide (q0.2 = [])))
              (map_to_list (_remoteQueues w)) = true) as Hex; [|congruence].
    apply existsb_exists. exists (r, item :: q). split; [|done].
    by apply list_elem_of_In. }
  clear Hidle.
  pose proof (processOplogQueue_spec w) as Hoplog.
  destruct (_processOplogQueue _applyOplogItem w) as [w1 [e|]].
  - destruct Hoplog as (Hinv & Hr & Hq & Hc & Hitems & item & rest & r & Hp & Hcbs).
    exists w1, (Some e). split_and!; try done.
    + destruct Hwf as [Hnd Hk]. split; [by rewrite Hr|]. intros r0. by rewrite Hr, Hq.
    + left. split_and!; try done. by exists item, r.
  - destruct Hoplog as (Hinv & Hr & Hq & Hc & Hbuf).
    assert (queues_wf w1) as Hwf1.
    { destruct Hwf as [Hnd Hk]. split; [by rewrite Hr|]. intros r0. by rewrite Hr, Hq. }
    destruct (processRemoteQueues_spec w1 Hwf1)
      as (w' & err & Hrun & Hwf' & Hb' & Ho' & Herr).
    exists w', err. rewrite Hrun. split_and!; try done.
    + by rewrite Ho', Hb', Hinv.
    + destruct err as [e|].
      * right. split; [congruence|].
        destruct Herr as (before & last & after & H1 & H2 & H3 & _).
        exists before, last, after. by rewrite <- Hr.
      * destruct Herr as (H1 & H2 & _). split_and!; try congruence.
Qed.

End QueueTheorems.

Lemma writer_of_wf {V D : Type} (queues : list (string * list (vitem V)))
    (buffer : list (oplog_entry (V := V))) (db : D) :
  NoDup queues.*1 -> queues_wf (writer_of queues buffer db).
Proof.
  intros Hnd. split; [done|]. intros remote. simpl.
  rewrite list_elem_of_fmap. split.
  - intros [[r q] [Heq Hin]]. simpl in Heq. subst r. exists q.
    by apply elem_of_list_to_map.
  - intros [q Hq]. apply elem_of_list_to_map in Hq; [|done]. by exists (remote, q).
Qed.

(** A remote that is listed twice, side by side, stays in [_remotes]
    once and has no queue any more. *)
Example removeRemote_leaves_a_duplicate :
  let w := removeRemote "A"
             (writer_of (V := string) [("A", []); ("A", []); ("B", [])] [] tt) in
  _remotes w = ["A"; "B"] /\ _remoteQueues w !! "A" = None.
Proof. split; reflexivity. Qed.

Lemma removeRemote_forgets_remote_and_queue_witness :
  _remotes (removeRemote "B" two_remotes) = ["A"; "C"] /\
  queues_wf (removeRemote "B" two_remotes).
Proof.
  destruct (removeRemote_forgets_remote_and_queue "B" two_remotes)
    as (Hr & _ & _ & Hwf).
  - apply (bool_decide_unpack _). vm_compute. reflexivity.
  - split; [exact Hr|]. apply Hwf, writer_of_wf.
    apply (bool_decide_unpack _). vm_compute. reflexivity.
Defined.


(** An item of a perspective named like a member every object inherits:
    no remote is added; the call postpones when the length of the member
    reaches the limit and throws when it does not. *)
Example saveRemoteItem_inherited_perspective :
  saveRemoteItem "_local" "things" 1 (node "constructor" "W" [] false 7) two_remotes
  = (two_remotes, Postponed) /\
  saveRemoteItem "_local" "things" 3 (node "constructor" "W" [] false 7) two_remotes
  = (two_remotes, Thrown (TypeError "queue.push is not a function")).
Proof. split; vm_compute; reflexivity. Qed.

Lemma processRemoteQueues_takes_batches_and_drops_failing_remote_witness :
  exists w' err,
    _processRemoteQueues 1 (ensure_unless "B") two_remotes = Ok (w', err) /\
    queues_wf w' /\ err = Some RootPreceded /\ _remotes w' = ["A"; "C"].
Proof.
  destruct (processRemoteQueues_takes_batches_and_drops_failing_remote
              1 (ensure_unless "B") two_remotes)
    as (w' & err & Hrun & Hwf & _).
  - apply writer_of_wf. apply (bool_decide_unpack _). vm_compute. reflexivity.
  - exists w', err. split; [exact Hrun|]. split; [exact Hwf|].
    vm_compute in Hrun. injection Hrun as <- <-. split; reflexivity.
Defined.

(** The item that is done is not applied again; the run stops at the
    item that fails, which stays in the buffer with the items after it. *)
Example processOplogQueue_stops_at_the_failing_item :
  let '(w, err) := _processOplogQueue apply_inserts
                     (writer_of [] three_entries []) in
  err = Some (OtherError "unsupported operator") /\
  map (fun item => o_id item) (applied (oplog_cbs w)) = ["bar"] /\
  map (fun item => o_id item) (pending (_oplogBuffer w)) = ["baz"] /\
  map (fun item => _v (_id item)) (store w) = ["bar"].
Proof. vm_compute. by split_and!. Qed.

Lemma processQueues_oplog_first_then_remotes_witness :
  exists w' err,
    processQueues 1 (ensure_unless "B") apply_inserts
      (writer_of [("A", [node "A" "X" [] false 0]); ("B", [])] three_entries [])
    = Ok (w', err) /\
    queues_wf w' /\ err = Some (OtherError "unsupported operator") /\
    _remoteQueues w' !! "A" = Some [node "A" "X" [] false 0].
Proof.
  destruct (processQueues_oplog_first_then_remotes 1 (ensure_unless "B")
              apply_inserts
              (writer_of [("A", [node "A" "X" [] false 0]); ("B", [])]
                 three_entries []))
    as (w' & err & Hrun & Hwf & _).
  - apply writer_of_wf. apply (bool_decide_unpack _). vm_compute. reflexivity.
  - exists w', err. split; [exact Hrun|]. split; [exact Hwf|].
    vm_compute in Hrun. injection Hrun as <- <-. split; reflexivity.
Defined.

(** ** The oplog echo of a write to the collection *)

Section SyncEcho.
Context {V : Type}.
Variable localPerspective : string.
Variable collectionName : string.
Variable versionKey : string.
Variable truthy : V -> bool.
Variable as_version : V -> string.
Variable of_version : string -> V.
Variable JSON_stringify : V -> option string.
Variable snapshot : list (vitem V).
Variable _ensureAllInDAG : vitem V -> option error.

Lemma find_the_one (P : vitem V -> bool) (item : vitem V) (l : list (vitem V)) :
  item ∈ l -> P item = true ->
  (forall other, other ∈ l -> P other = true -> other = item) ->
  find P l = Some item.
Proof.
  induction l as [|x l IH]; intros Hin HP Huniq; [by apply elem_of_nil in Hin|].
  simpl. destruct (P x) eqn:HPx.
  - f_equal. apply Huniq; [apply elem_of_cons; by left|done].
  - apply elem_of_cons in Hin as [->|Hin]; [congruence|].
    apply IH; [done|done|]. intros other Ho. apply Huniq, elem_of_cons. by right.
Qed.

Lemma compare_with_synced (item : vitem V) :
  as_version (of_version (_v (_id item))) = _v (_id item) ->
  compareDAGItemWithCollectionItem versionKey as_version JSON_stringify item
    (_id_id (_id item))
    (Obj.set versionKey (of_version (_v (_id item))) (attrs item)) = true.
Proof.
  intros Hv. unfold compareDAGItemWithCollectionItem.
  rewrite ObjFacts.get_set_eq. cbn [from_option].
  rewrite Hv, !bool_decide_eq_true_2 by done. cbn [andb].
  apply andb_true_iff. split; apply forallb_forall; intros key _;
    (destruct (bool_decide (key = "_m3")); [done|]); cbn [orb];
    (case_bool_decide as Hk; [done|]);
    unfold equalValues; rewrite ObjFacts.get_set_ne by done;
    by apply bool_decide_eq_true_2.
Qed.


End SyncEcho.


(** ** The open heads of every document *)

Section AllHeadsTheorems.
Context {V : Type}.
Variable localPerspective : string.
Variable snapshot : list (vitem V).
Implicit Types (item : vitem V) (parents : Obj.t bool).

Lemma insert_by_i_asc_perm item (l : list (vitem V)) :
  insert_by_i_asc item l ≡ₚ item :: l.
Proof.
  induction l as [|x l IH]; simpl; [done|].
  destruct (_ <=? _)%Z; [done|]. rewrite IH. apply Permutation_swap.
Qed.

Lemma sort_i_asc_perm (l : list (vitem V)) : sort_i_asc l ≡ₚ l.
Proof.
  induction l as [|x l IH]; simpl; [done|].
  by rewrite insert_by_i_asc_perm, IH.
Qed.

Lemma insert_by_i_asc_sorted item (l : list (vitem V)) :
  sorted_by_i l -> sorted_by_i (insert_by_i_asc item l).
Proof.
  induction l as [|x l IH]; simpl.
  - by split.
  - intros [Hall Hs]. destruct (_ <=? _)%Z eqn:Hle.
    + apply Z.leb_le in Hle. split; [|by split].
      constructor; [done|]. eapply Forall_impl; [exact Hall|].
      intros y Hy. simpl in Hy. lia.
    + apply Z.leb_gt in Hle. split; [|by apply IH].
      rewrite insert_by_i_asc_perm. constructor; [lia|done].
Qed.

Lemma sort_i_asc_sorted (l : list (vitem V)) : sorted_by_i (sort_i_asc l).
Proof.
  induction l as [|x l IH]; simpl; [done|by apply insert_by_i_asc_sorted].
Qed.

Lemma allHeads_parents_get (pa : list string) : forall parents k,
  all_true parents ->
  let parents' :=
    fold_left (fun parents pa =>
                 if from_option id false (Obj.get pa parents)
                 then Obj.del pa parents else parents) pa parents in
  all_true parents' /\
  Obj.get k parents' = if decide (k ∈ pa) then None else Obj.get k parents.
Proof.
  induction pa as [|p pa IH]; intros parents k Hall; cbn [fold_left].
  - split; [done|]. rewrite decide_False; [done|apply not_elem_of_nil].
  - set (parents1 := if from_option id false (Obj.get p parents)
                     then Obj.del p parents else parents).
    assert (forall k', Obj.get k' parents1
                       = if decide (k' = p) then None else Obj.get k' parents) as Hget.
    { intros k'. subst parents1. destruct (Hall p) as [Hp|Hp]; rewrite Hp; simpl.
      - destruct (decide (k' = p)) as [->|]; done.
      - destruct (decide (k' = p)) as [->|Hne].
        + apply ObjFacts.get_del_eq.
        + by apply ObjFacts.get_del_ne. }
    assert (all_true parents1) as Hall1.
    { intros k'. rewrite Hget. destruct (decide (k' = p)); [by left|apply Hall]. }
    destruct (IH parents1 k Hall1) as [Hall' Hk]. split; [done|].
    simpl in Hk. rewrite Hk, Hget.
    destruct (decide (k ∈ pa)) as [Hin|Hnin].
    + rewrite decide_True; [done|]. apply elem_of_cons. by right.
    + destruct (decide (k = p)) as [->|Hne].
      * rewrite decide_True; [done|]. apply elem_of_cons. by left.
      * rewrite decide_False; [done|].
        intros [?|?]%elem_of_cons; done.
Qed.

Lemma allHeads_data_get parents item k :
  all_true parents ->
  all_true (allHeads_data parents item) /\
  Obj.get k (allHeads_data parents item)
  = if decide (k = _v (_id item)) then Some true
    else if decide (k ∈ _pa (_id item)) then None else Obj.get k parents.
Proof.
  intros Hall.
  assert (forall k', Obj.get k' (allHeads_data parents item)
            = if decide (k' = _v (_id item)) then Some true
              else if decide (k' ∈ _pa (_id item)) then None
                   else Obj.get k' parents) as Hget.
  { intros k'. unfold allHeads_data.
    destruct (allHeads_parents_get (_pa (_id item)) parents k' Hall) as [_ Hk].
    simpl in Hk. destruct (decide (k' = _v (_id item))) as [->|Hne].
    - apply ObjFacts.get_set_eq.
    - by rewrite ObjFacts.get_set_ne. }
  split; [|apply Hget]. intros k'. rewrite (Hget k').
  destruct (decide _); [by right|]. destruct (decide _); [by left|apply Hall].
Qed.

Lemma allHeads_fold_spec (stream : list (vitem V)) k :
  all_true (fold_left allHeads_data stream []) /\
  (Obj.get k (fold_left allHeads_data stream []) = Some true <->
   exists earlier item later,
     stream = earlier ++ item :: later /\ _v (_id item) = k /\
     Forall (fun o => k ∉ _pa (_id o)) later).
Proof.
  induction stream as [|last stream IH] using rev_ind.
  - split; [by left|]. split; [done|].
    intros (earlier & item & later & Heq & _). by destruct earlier.
  - rewrite fold_left_app. simpl. destruct IH as [Hall IH].
    destruct (allHeads_data_get (fold_left allHeads_data stream []) last k Hall)
      as [Hall' Hk].
    split; [done|]. rewrite Hk. destruct (decide (k = _v (_id last))) as [->|Hne].
    + split; [|done]. intros _. exists stream, last, []. by split_and!.
    + destruct (decide (k ∈ _pa (_id last))) as [Hin|Hnin].
      * split; [done|]. intros (earlier & item & later & Heq & Hv & Hlater).
        destruct later as [|l later _] using rev_ind.
        -- apply app_inj_tail in Heq as [_ ->]. done.
        -- rewrite app_comm_cons, app_assoc in Heq.
           apply app_inj_tail in Heq as [_ ->].
           apply Forall_app in Hlater as [_ Hl]. rewrite Forall_singleton in Hl.
           exfalso. by apply Hl.
      * rewrite IH. split.
        -- intros (earlier & item & later & -> & Hv & Hlater).
           exists earlier, item, (later ++ [last]). split_and!; [|done|].
           ++ by rewrite <- app_assoc.
           ++ apply Forall_app. split; [done|]. by apply Forall_singleton.
        -- intros (earlier & item & later & Heq & Hv & Hlater).
           destruct later as [|l later _] using rev_ind.
           ++ apply app_inj_tail in Heq as [_ ->]. done.
           ++ rewrite app_comm_cons, app_assoc in Heq.
              apply app_inj_tail in Heq as [-> ->].
              apply Forall_app in Hlater as [Hl _]. by exists earlier, item, later.
Qed.

Lemma allHeads_keys (stream : list (vitem V)) k :
  k ∈ Obj.keys (fold_left allHeads_data stream []) <->
  exists earlier item later,
    stream = earlier ++ item :: later /\ _v (_id item) = k /\
    Forall (fun o => k ∉ _pa (_id o)) later.
Proof.
  destruct (allHeads_fold_spec stream k) as [Hall <-]. split.
  - intros Hin. destruct (Hall k) as [Hnone|Hsome]; [|done].
    by apply ObjFacts.get_None_keys in Hnone.
  - apply ObjFacts.get_Some_keys.
Qed.

Lemma sorted_by_i_app (s1 s2 : list (vitem V)) :
  sorted_by_i (s1 ++ s2) ->
  sorted_by_i s2 /\
  forall x y, x ∈ s1 -> y ∈ s2 -> (_i (_id x) <= _i (_id y))%Z.
Proof.
  induction s1 as [|a s1 IH]; simpl.
  - intros Hs. split; [done|]. intros x y Hx. by apply elem_of_nil in Hx.
  - intros [Hall Hs]. destruct (IH Hs) as [Hs2 Hle]. split; [done|].
    intros x y [->|Hx]%elem_of_cons Hy; [|by apply Hle].
    apply (proj1 (Forall_forall _ _) Hall). apply elem_of_app. by right.
Qed.

Lemma sorted_later (s1 s2 : list (vitem V)) item o :
  sorted_by_i (s1 ++ item :: s2) ->
  NoDup (map (fun x => _i (_id x)) (s1 ++ item :: s2)) ->
  o ∈ s2 <-> o ∈ s1 ++ item :: s2 /\ (_i (_id item) < _i (_id o))%Z.
Proof.
  intros Hs Hnd. destruct (sorted_by_i_app _ _ Hs) as [[Hall Hs2] Hle].
  rewrite map_app in Hnd. simpl in Hnd.
  apply NoDup_app in Hnd as (_ & Hdisj & Hnd2).
  apply NoDup_cons in Hnd2 as [Hnotin _]. split.
  - intros Ho. split; [apply elem_of_app; right; apply elem_of_cons; by right|].
    pose proof (proj1 (Forall_forall _ _) Hall o Ho) as Hole. simpl in Hole.
    assert (_i (_id item) <> _i (_id o)); [|lia].
    intros Heq. apply Hnotin. rewrite Heq. apply list_elem_of_fmap. by exists o.
  - intros [[Ho|[->|Ho]%elem_of_cons]%elem_of_app Hlt]; [|lia|done].
    assert (_i (_id o) <= _i (_id item))%Z; [|lia].
    apply Hle; [done|]. apply elem_of_cons. by left.
Qed.

Local Abbreviation locals id :=
  (filter (fun item : vitem V => _id_id (_id item) = id
                                 /\ _pe (_id item) = localPerspective) snapshot).

(** X17. The heads [allHeads] hands to its iterator for an id, when the
    local items of the id all have another [_i]: a version is a head
    exactly when it is the version of a local item of that id which no
    local item of the id with a greater [_i] has among its parents. *)
Theorem allHeads_heads_have_no_later_child (id : string) (heads : list string) :
  NoDup (map (fun item => _i (_id item)) (locals id)) ->
  allHeads_of localPerspective snapshot id = Ok heads ->
  forall k, k ∈ heads <->
    exists item, item ∈ locals id /\ _v (_id item) = k /\
      forall o, o ∈ locals id -> k ∈ _pa (_id o) ->
                (_i (_id o) <= _i (_id item))%Z.
Proof.
  intros Hnd. unfold allHeads_of, allHeads_close, allHeads_stream.
  case_bool_decide; [done|]. intros [= <-] k.
  set (stream := sort_i_asc (locals id)).
  assert (stream ≡ₚ locals id) as Hperm by apply sort_i_asc_perm.
  assert (sorted_by_i stream) as Hsorted by apply sort_i_asc_sorted.
  assert (NoDup (map (fun item => _i (_id item)) stream)) as Hnd'.
  { by rewrite Hperm. }
  rewrite allHeads_keys. split.
  - intros (earlier & item & later & Heq & Hv & Hlater).
    exists item. split; [|split; [done|]].
    + rewrite <- Hperm, Heq. apply elem_of_app. right. apply elem_of_cons. by left.
    + intros o Ho Hpa. destruct (decide (_i (_id o) <= _i (_id item))%Z); [done|].
      exfalso. rewrite <- Hperm, Heq in Ho. rewrite Heq in Hsorted, Hnd'.
      assert (o ∈ later) as Hin.
      { apply (sorted_later earlier later item o Hsorted Hnd'). split; [done|lia]. }
      by apply (proj1 (Forall_forall _ _) Hlater o Hin).
  - intros (item & Hin & Hv & Hlast). rewrite <- Hperm in Hin.
    apply list_elem_of_split in Hin as (earlier & later & Heq).
    exists earlier, item, later. split; [done|]. split; [done|].
    apply Forall_forall. intros o Ho Hpa. rewrite Heq in Hsorted, Hnd'.
    apply (sorted_later earlier later item o Hsorted Hnd') in Ho as [Ho Hlt].
    rewrite <- Heq, Hperm in Ho. specialize (Hlast o Ho Hpa). lia.
Qed.

Lemma allHeads_of_cases (id : string) :
  match allHeads_of localPerspective snapshot id with
  | Ok heads => heads <> [] /\ locals id <> []
  | Err e => e = OtherError "no heads found" /\ locals id = []
  end.
Proof.
  unfold allHeads_of, allHeads_close, allHeads_stream.
  pose proof (sort_i_asc_perm (locals id)) as Hperm.
  destruct (sort_i_asc (locals id)) as [|x stream _] eqn:Hs using rev_ind.
  - simpl. split; [done|]. by apply Permutation_nil_l in Hperm.
  - assert (_v (_id x) ∈ Obj.keys (fold_left allHeads_data (stream ++ [x]) []))
      as Hin.
    { apply allHeads_keys. exists stream, x, []. by split_and!. }
    destruct (Obj.keys _) as [|k ks]; [by apply elem_of_nil in Hin|].
    rewrite bool_decide_eq_false_2 by (simpl; lia). split; [done|].
    intros Hnil. rewrite Hnil in Hperm. apply Permutation_nil_r in Hperm.
    by destruct stream.
Qed.

Lemma allHeads_loop_spec (ids : list string) :
  match allHeads_loop localPerspective snapshot ids with
  | (calls, None) =>
      map fst calls = ids /\ Forall (fun c => c.2 <> []) calls /\
      Forall (fun id => locals id <> []) ids
  | (calls, Some e) =>
      e = OtherError "no heads found" /\
      exists id later,
        ids = map fst calls ++ id :: later /\ locals id = [] /\
        Forall (fun c => c.2 <> []) calls
  end.
Proof.
  induction ids as [|id ids IH]; simpl; [done|].
  pose proof (allHeads_of_cases id) as Hid.
  destruct (allHeads_of localPerspective snapshot id) as [heads|e].
  - destruct Hid as [Hheads Hlocals].
    destruct (allHeads_loop localPerspective snapshot ids) as [calls [e|]].
    + destruct IH as (-> & id' & later & -> & Hnone & Hcalls). split; [done|].
      exists id', later. split_and!; try done. by constructor.
    + destruct IH as (<- & Hcalls & Hids). split_and!; try done; by constructor.
  - destruct Hid as [-> Hnone]. split; [done|]. by exists id, ids.
Qed.

(** X18. [allHeads] needs a local item for every id of the collection.
    It ends without error exactly when every id has an item in the
    local perspective; the iterator was then called once for every id,
    each time with at least one head.  Else the error is 'no heads
    found', raised for the first id that has items of other
    perspectives only, and the iterator was called for the ids before
    that one. *)
Theorem allHeads_needs_a_local_item_for_every_id :
  let ids := remove_dups (map (fun item => _id_id (_id item)) snapshot) in
  match allHeads localPerspective snapshot with
  | (calls, None) =>
      map fst calls = ids /\ Forall (fun c => c.2 <> []) calls /\
      forall item, item ∈ snapshot ->
        exists l, l ∈ snapshot /\ _id_id (_id l) = _id_id (_id item) /\
                  _pe (_id l) = localPerspective
  | (calls, Some e) =>
      e = OtherError "no heads found" /\
      exists id later,
        ids = map fst calls ++ id :: later /\
        Forall (fun c => c.2 <> []) calls /\
        (exists item, item ∈ snapshot /\ _id_id (_id item) = id) /\
        forall l, l ∈ snapshot -> _id_id (_id l) = id ->
                  _pe (_id l) <> localPerspective
  end.
Proof.
  intros ids. unfold allHeads. fold ids.
  pose proof (allHeads_loop_spec ids) as Hloop.
  destruct (allHeads_loop localPerspective snapshot ids) as [calls [e|]].
  - destruct Hloop as (-> & id & later & Hids & Hnone & Hcalls). split; [done|].
    exists id, later. split_and!; try done.
    + assert (id ∈ ids) as Hin.
      { rewrite Hids. apply elem_of_app. right. apply elem_of_cons. by left. }
      apply elem_of_remove_dups, list_elem_of_fmap in Hin as (item & -> & Hin).
      by exists item.
    + intros l Hl Hid Hpe.
      assert (l ∈ locals id) as Hin by (by apply list_elem_of_filter).
      rewrite Hnone in Hin. by apply elem_of_nil in Hin.
  - destruct Hloop as (Hids & Hcalls & Hlocals). split_and!; try done.
    intros item Hitem.
    assert (_id_id (_id item) ∈ ids) as Hin.
    { apply elem_of_remove_dups, list_elem_of_fmap. by exists item. }
    pose proof (proj1 (Forall_forall _ _) Hlocals _ Hin) as Hne.
    destruct (locals (_id_id (_id item))) as [|l ls] eqn:Hl; [done|].
    assert (l ∈ locals (_id_id (_id item))) as Hlin.
    { rewrite Hl. apply elem_of_cons. by left. }
    apply list_elem_of_filter in Hlin as [[Hid Hpe] Hlin]. by exists l.
Qed.

End AllHeadsTheorems.

(** A collection with an id that only a remote has. *)
Example allHeads_stops_at_remote_only_id :
  allHeads "I" (reader_fork ++ [remote_only])
  = ([("foo", ["C"; "E"])], Some (OtherError "no heads found")).
Proof. reflexivity. Qed.

Lemma allHeads_heads_have_no_later_child_witness :
  allHeads_of "I" reader_fork "foo" = Ok ["C"; "E"] /\
  forall k, k ∈ ["C"; "E"] <->
    exists item,
      item ∈ filter (fun item : vitem string =>
                       _id_id (_id item) = "foo" /\ _pe (_id item) = "I")
               reader_fork /\
      _v (_id item) = k /\
      forall o,
        o ∈ filter (fun item : vitem string =>
                      _id_id (_id item) = "foo" /\ _pe (_id item) = "I")
              reader_fork ->
        k ∈ _pa (_id o) -> (_i (_id o) <= _i (_id item))%Z.
Proof.
  split; [reflexivity|].
  apply (allHeads_heads_have_no_later_child "I" reader_fork "foo" ["C"; "E"]).
  - apply (bool_decide_unpack _). vm_compute. reflexivity.
  - reflexivity.
Defined.

(** ** The versions [_findLCAs] returns are common ancestors *)

Section FindLCAsSound.
Context {V : Type}.
Variable localPerspective : string.
Variable snapshot : list (vitem V).
Variable id : string.
Variables startX startY : list string.
Implicit Types (item : vitem V) (st : lca_state).

Local Abbreviation reachX := (reaches snapshot id startX).
Local Abbreviation reachY := (reaches snapshot id startY).

(** What the walk keeps true of its state. *)
Local Abbreviation sound st :=
  ((forall v, v ∈ Obj.keys (headsX st) -> reachX v) /\
   (forall v, v ∈ Obj.keys (headsY st) -> reachY v) /\
   (forall v, v ∈ ancestorsX st -> reachX v) /\
   (forall v, v ∈ ancestorsY st -> reachY v) /\
   (forall v, v ∈ lcas st -> reachX v /\ reachY v)).

Lemma keys_add_heads (parents : list string) (perspective : string) :
  forall (heads : Obj.t string) v,
  v ∈ Obj.keys (add_heads parents perspective heads) ->
  v ∈ parents \/ v ∈ Obj.keys heads.
Proof.
  induction parents as [|p parents IH]; intros heads v; simpl; [by right|].
  intros Hin. apply IH in Hin as [Hin|Hin].
  - left. apply elem_of_cons. by right.
  - apply ObjFacts.has_true, has_set in Hin as [->|Hin].
    + left. apply elem_of_cons. by left.
    + right. by apply ObjFacts.has_true.
Qed.

Lemma keys_del (k v : string) (heads : Obj.t string) :
  v ∈ Obj.keys (Obj.del k heads) -> v ∈ Obj.keys heads.
Proof.
  intros Hin. apply ObjFacts.has_true, has_del in Hin as [_ Hin].
  by apply ObjFacts.has_true.
Qed.

Lemma track_x_sound perspectiveX item st :
  item ∈ snapshot -> _id_id (_id item) = id ->
  sound st -> sound (track_x perspectiveX item st).
Proof.
  intros Hin Hid (HhX & HhY & HaX & HaY & Hl). unfold track_x.
  case_bool_decide as Hhead; [|done].
  assert (reachX (_v (_id item))) as Hv.
  { by eapply HhX, ObjFacts.get_Some_keys. }
  assert (forall p, p ∈ _pa (_id item) -> reachX p) as Hpa.
  { intros p Hp. by eapply reaches_parent. }
  cbn [headsX headsY ancestorsX ancestorsY lcas]. split_and!; try done.
  - intros v [Hp|Hk]%keys_add_heads; [by apply Hpa|].
    apply keys_del in Hk. by apply HhX.
  - intros v [->|Ha]%elem_of_cons; [done|by apply HaX].
  - intros v. case_bool_decide as Hca; cbn [andb]; [|apply Hl].
    destruct (negb _); [|apply Hl].
    intros [Hv'|Hv'%list_elem_of_singleton]%elem_of_app; [by apply Hl|subst v].
    split; [done|by apply HaY].
Qed.

Lemma track_y_sound perspectiveY item st :
  item ∈ snapshot -> _id_id (_id item) = id ->
  sound st -> sound (track_y perspectiveY item st).
Proof.
  intros Hin Hid (HhX & HhY & HaX & HaY & Hl). unfold track_y.
  case_bool_decide as Hhead; [|done].
  assert (reachY (_v (_id item))) as Hv.
  { by eapply HhY, ObjFacts.get_Some_keys. }
  assert (forall p, p ∈ _pa (_id item) -> reachY p) as Hpa.
  { intros p Hp. by eapply reaches_parent. }
  cbn [headsX headsY ancestorsX ancestorsY lcas]. split_and!; try done.
  - intros v [Hp|Hk]%keys_add_heads; [by apply Hpa|].
    apply keys_del in Hk. by apply HhY.
  - intros v [->|Ha]%elem_of_cons; [done|by apply HaY].
  - intros v. case_bool_decide as Hca; cbn [andb]; [|apply Hl].
    destruct (negb _); [|apply Hl].
    intros [Hv'|Hv'%list_elem_of_singleton]%elem_of_app; [by apply Hl|subst v].
    split; [by apply HaX|done].
Qed.

Lemma findLCAs_finish_sound (P : string -> Prop) perspectives casSet
    (heads : list string) : forall acc found,
  findLCAs_finish snapshot id perspectives casSet heads acc = Ok found ->
  (forall v, v ∈ heads -> P v) -> (forall v, v ∈ acc -> P v) ->
  forall v, v ∈ found -> P v.
Proof.
  induction heads as [|head heads IH]; intros acc found; simpl.
  - by intros [= <-] _ Hacc.
  - intros Hfin Hheads Hacc.
    assert (forall v, v ∈ heads -> P v) as Hheads'.
    { intros v Hv. apply Hheads, elem_of_cons. by right. }
    destruct (is_ca casSet head); [by eapply IH|].
    destruct (in_all_perspectives _ _ _ _); [|done]. eapply IH; [exact Hfin|done|].
    intros v [Hv|Hv%list_elem_of_singleton]%elem_of_app; [by apply Hacc|subst v].
    apply Hheads, elem_of_cons. by left.
Qed.

Lemma findLCAs_walk_sound perspectiveX perspectiveY perspectives
    (stream : list (vitem V)) : forall st found,
  Forall (fun item => item ∈ snapshot /\ _id_id (_id item) = id) stream ->
  sound st -> Obj.wf (headsX st) -> Obj.wf (headsY st) ->
  findLCAs_walk snapshot heads_equal id perspectiveX perspectiveY perspectives
    stream st = Ok found ->
  forall v, v ∈ found -> reachX v /\ reachY v.
Proof.
  induction stream as [|item stream IH]; intros st found Hstream Hsound HwX HwY.
  - simpl. intros [= <-]. apply Hsound.
  - apply Forall_cons in Hstream as [[Hin Hid] Hstream]. cbn [findLCAs_walk].
    set (st' := findLCAs_data perspectiveX perspectiveY item st).
    assert (sound st') as Hsound'.
    { by apply track_y_sound, track_x_sound. }
    destruct (wf_findLCAs_data perspectiveX perspectiveY item st HwX HwY)
      as [HwX' HwY'].
    pose proof (intersect_subset (Obj.keys (headsX st')) (Obj.keys (headsY st')) HwX')
      as Hsub.
    destruct (_intersect _ _) as [inter subset]. simpl in Hsub.
    destruct (heads_equal subset) eqn:Heq.
    + intros Hfin. apply bool_decide_eq_true in Heq. subst subset.
      case_bool_decide as HXY; [|by case_bool_decide].
      destruct Hsound' as (HhX & HhY & _ & _ & Hl).
      eapply findLCAs_finish_sound; [exact Hfin| |exact Hl].
      intros v Hv. split; [by apply HhX|]. by apply HhY, HXY.
    + by apply IH.
Qed.

End FindLCAsSound.

Section FindLCAsTheorem.
Context {V : Type}.
Variable localPerspective : string.
Variable snapshot : list (vitem V).

Lemma reaches_mono (id : string) (start start' : list string) v :
  (forall x, x ∈ start -> x ∈ start') ->
  reaches snapshot id start v -> reaches snapshot id start' v.
Proof.
  intros Hsub. induction 1 as [v Hv|v p item _ IH Hin Hid Hv Hp].
  - apply reaches_start. by apply Hsub.
  - by eapply reaches_parent.
Qed.

Lemma insert_by_i_elem (item x : vitem V) (l : list (vitem V)) :
  x ∈ insert_by_i item l -> x = item \/ x ∈ l.
Proof.
  induction l as [|y l IH]; simpl.
  - intros ->%list_elem_of_singleton. by left.
  - destruct (_ <? _)%Z.
    + intros [->|Hx]%elem_of_cons; [by left|by right].
    + intros [->|Hx]%elem_of_cons.
      * right. apply elem_of_cons. by left.
      * apply IH in Hx as [->|Hx]; [by left|]. right. apply elem_of_cons. by right.
Qed.

Lemma sort_i_desc_elem (x : vitem V) (l : list (vitem V)) :
  x ∈ sort_i_desc l -> x ∈ l.
Proof.
  induction l as [|y l IH]; simpl; [done|].
  intros [->|Hx]%insert_by_i_elem; apply elem_of_cons; [by left|right; by apply IH].
Qed.

Lemma initial_heads_wf (item : vitem V) : Obj.wf (initial_heads item).
Proof.
  unfold initial_heads. destruct (negb _).
  - apply NoDup_singleton.
  - apply wf_add_heads. apply NoDup_nil_2.
Qed.

(** X19. Every version [_findLCAs] calls back with is a common ancestor
    of the two items: for each of the items it is the version of the
    item, one of its parents, or reached from these along parent
    references of items of the document in the collection. *)
Theorem findLCAs_returns_common_ancestors (itemX itemY : vitem V)
    (found : list string) :
  _findLCAs localPerspective snapshot itemX itemY = Ok found ->
  forall v, v ∈ found ->
    descends_to snapshot itemX v /\ descends_to snapshot itemY v.
Proof.
  unfold _findLCAs, findLCAs_with, descends_to.
  case_bool_decide as Hid; [|done]. cbn [negb].
  case_bool_decide; [done|]. case_bool_decide; [done|]. cbv zeta.
  rewrite <- Hid.
  destruct (negb (is_nil _)) eqn:Hshort.
  - intros [= <-] v Hv. case_bool_decide as Hpe; [|by apply elem_of_nil in Hv].
    apply elem_of_app in Hv as [Hv|Hv].
    + destruct (bool_decide (_pa (_id itemX) = [_v (_id itemY)])) eqn:Hpa;
        [|by apply elem_of_nil in Hv].
      destruct (bool_decide (_v (_id itemY) = "")) eqn:Hvy;
        [by apply elem_of_nil in Hv|].
      apply list_elem_of_singleton in Hv as ->.
      apply bool_decide_eq_true in Hpa. apply bool_decide_eq_false in Hvy.
      split; apply reaches_start, elem_of_app.
      * right. rewrite Hpa. by apply list_elem_of_singleton.
      * left. unfold initial_heads. rewrite bool_decide_eq_false_2 by done.
        by apply list_elem_of_singleton.
    + destruct (bool_decide (_pa (_id itemY) = [_v (_id itemX)])) eqn:Hpa;
        [|by apply elem_of_nil in Hv].
      destruct (bool_decide (_v (_id itemX) = "")) eqn:Hvx;
        [by apply elem_of_nil in Hv|].
      apply list_elem_of_singleton in Hv as ->.
      apply bool_decide_eq_true in Hpa. apply bool_decide_eq_false in Hvx.
      split; apply reaches_start, elem_of_app.
      * left. unfold initial_heads. rewrite bool_decide_eq_false_2 by done.
        by apply list_elem_of_singleton.
      * right. rewrite Hpa. by apply list_elem_of_singleton.
  - intros Hwalk v Hv.
    assert (Forall (fun item => item ∈ snapshot
                                /\ _id_id (_id item) = _id_id (_id itemX))
              (findLCAs_cursor localPerspective snapshot itemX itemY)) as Hstream.
    { apply Forall_forall. intros item Hitem. unfold findLCAs_cursor in Hitem.
      cbv zeta in Hitem.
      destruct (bool_decide (_pe (_id itemX) = _pe (_id itemY))
                && bool_decide (_pe (_id itemX) = localPerspective)).
      - apply sort_i_desc_elem, list_elem_of_filter in Hitem as [[? _] ?]. done.
      - apply list_elem_of_In, in_rev, list_elem_of_In in Hitem.
        apply list_elem_of_filter in Hitem as [[? _] ?]. done. }
    pose proof (fun Hs Hx Hy =>
                  findLCAs_walk_sound snapshot (_id_id (_id itemX))
                    (Obj.keys (initial_heads itemX))
                    (Obj.keys (initial_heads itemY))
                    _ _ _ _ _ found Hstream Hs Hx Hy Hwalk v Hv) as Hgoal.
    destruct Hgoal as [HX HY].
    + cbn [headsX headsY ancestorsX ancestorsY lcas]. split_and!;
        try (intros ? ?%elem_of_nil; done); intros x Hx; by apply reaches_start.
    + apply initial_heads_wf.
    + apply initial_heads_wf.
    + split; [eapply reaches_mono; [|exact HX]|eapply reaches_mono; [|exact HY]];
        intros x Hx; apply elem_of_app; by left.
Qed.

End FindLCAsTheorem.

Lemma findLCAs_returns_common_ancestors_witness :
  _findLCAs "_local" diamond (node "I" "B" ["A"] false 2) (node "I" "C" ["A"] false 3)
  = Ok ["A"] /\
  forall v, v ∈ ["A"] ->
    descends_to diamond (node "I" "B" ["A"] false 2) v /\
    descends_to diamond (node "I" "C" ["A"] false 3) v.
Proof.
  split; [reflexivity|].
  apply (findLCAs_returns_common_ancestors "_local" diamond
           (node "I" "B" ["A"] false 2) (node "I" "C" ["A"] false 3) ["A"]).
  reflexivity.
Defined.

(** ** Merging two versions *)

Section MergeTheorems.
Context {V : Type}.
Variable localPerspective : string.
Variable collectionName : string.
Variable JSON_stringify : V -> option string.
Variable of_id : string -> V.
Variable as_id : V -> string.
Variable _sortByVersionAndPerspective : list (vitem V) -> list (vitem V).
Variable snapshot : list (vitem V).
Implicit Types (objX objY lca item : vitem V).

Local Abbreviation merge :=
  (_merge localPerspective collectionName JSON_stringify of_id as_id
     _sortByVersionAndPerspective snapshot).
Local Abbreviation done_ :=
  (merge_done collectionName JSON_stringify of_id as_id
     _sortByVersionAndPerspective).
Local Abbreviation lcas_in perspectives id versions :=
  (filter (fun item : vitem V =>
             _id_id (_id item) = id /\ _v (_id item) ∈ versions
             /\ _pe (_id item) ∈ perspectives) snapshot).

(** The shortcut of [_findLCAs]: y is the only parent of x. *)
Lemma findLCAs_only_parent objX objY :
  _id_id (_id objX) = _id_id (_id objY) ->
  _pe (_id objX) = _pe (_id objY) -> _pe (_id objX) <> "" ->
  _pa (_id objX) = [_v (_id objY)] -> _v (_id objY) <> "" ->
  ~ (_pa (_id objY) = [_v (_id objX)] /\ _v (_id objX) <> "") ->
  _findLCAs localPerspective snapshot objX objY = Ok [_v (_id objY)].
Proof.
  intros Hid Hpe HpeX Hpa HvY Hcycle. unfold _findLCAs, findLCAs_with.
  rewrite (bool_decide_eq_true_2 _ Hid). cbn [negb].
  rewrite (bool_decide_eq_false_2 _ HpeX).
  rewrite <- Hpe, (bool_decide_eq_false_2 _ HpeX). cbv zeta.
  rewrite (bool_decide_eq_true_2 (_pe (_id objX) = _pe (_id objX))) by done.
  rewrite (bool_decide_eq_true_2 _ Hpa), (bool_decide_eq_false_2 _ HvY).
  cbn [negb andb].
  destruct (bool_decide (_pa (_id objY) = [_v (_id objX)])
            && negb (bool_decide (_v (_id objX) = ""))) eqn:Hc; [|done].
  exfalso. apply Hcycle. apply andb_true_iff in Hc as [H1 H2].
  apply bool_decide_eq_true in H1. apply negb_true_iff, bool_decide_eq_false in H2.
  done.
Qed.

(** And the other way round. *)
Lemma findLCAs_only_child objX objY :
  _id_id (_id objX) = _id_id (_id objY) ->
  _pe (_id objX) = _pe (_id objY) -> _pe (_id objX) <> "" ->
  _pa (_id objX) = [_v (_id objY)] -> _v (_id objY) <> "" ->
  ~ (_pa (_id objY) = [_v (_id objX)] /\ _v (_id objX) <> "") ->
  _findLCAs localPerspective snapshot objY objX = Ok [_v (_id objY)].
Proof.
  intros Hid Hpe HpeX Hpa HvY Hcycle. unfold _findLCAs, findLCAs_with.
  rewrite (bool_decide_eq_true_2 (_id_id (_id objY) = _id_id (_id objX))) by done.
  cbn [negb]. rewrite <- Hpe, (bool_decide_eq_false_2 _ HpeX). cbv zeta.
  rewrite (bool_decide_eq_true_2 (_pe (_id objX) = _pe (_id objX))) by done.
  rewrite (bool_decide_eq_true_2 _ Hpa), (bool_decide_eq_false_2 _ HvY).
  cbn [negb andb].
  destruct (bool_decide (_pa (_id objY) = [_v (_id objX)])
            && negb (bool_decide (_v (_id objX) = ""))) eqn:Hc; [|done].
  exfalso. apply Hcycle. apply andb_true_iff in Hc as [H1 H2].
  apply bool_decide_eq_true in H1. apply negb_true_iff, bool_decide_eq_false in H2.
  done.
Qed.

Lemma merge_done_one fuel (m : vitem V -> vitem V -> merge_result) objX objY lca pe :
  done_ m fuel objX objY [lca] [pe]
  = merge_one_perspective collectionName JSON_stringify of_id as_id objX objY
      (without_m3 lca) [pe].
Proof. by destruct fuel. Qed.

(** X20. Merging a version with its only parent fast-forwards.  For an
    item x whose only parent is the version of another item y of the
    same document and perspective, with that parent version once in the
    collection: [_merge] of x and y, in either order, calls back with
    [[x]], the object it was given, without a three-way merge. *)
Theorem merge_with_only_parent_fast_forwards (fuel : nat) objX objY :
  _id_id (_id objX) = _id_id (_id objY) ->
  _pe (_id objX) = _pe (_id objY) -> _pe (_id objX) <> "" ->
  _pa (_id objX) = [_v (_id objY)] -> _v (_id objY) <> "" ->
  _v (_id objX) <> _v (_id objY) ->
  _pa (_id objY) <> [_v (_id objX)] ->
  length (lcas_in [_pe (_id objX)] (_id_id (_id objX)) [_v (_id objY)]) = 1 ->
  _merge localPerspective collectionName JSON_stringify of_id as_id
    _sortByVersionAndPerspective snapshot (S fuel) objX objY
  = Some (Ok ([objX], [_pe (_id objX)])) /\
  _merge localPerspective collectionName JSON_stringify of_id as_id
    _sortByVersionAndPerspective snapshot (S fuel) objY objX
  = Some (Ok ([objX], [_pe (_id objX)])).
Proof.
  intros Hid Hpe HpeX Hpa HvY Hne Hcycle' Hone.
  assert (~ (_pa (_id objY) = [_v (_id objX)] /\ _v (_id objX) <> "")) as Hcycle.
  { by intros [? _]. }
  destruct (lcas_in [_pe (_id objX)] (_id_id (_id objX)) [_v (_id objY)])
    as [|lca [|]] eqn:Hlcas; try done.
  assert (_v (_id lca) = _v (_id objY)) as Hv.
  { assert (lca ∈ lcas_in [_pe (_id objX)] (_id_id (_id objX)) [_v (_id objY)])
      as Hin by (rewrite Hlcas; apply elem_of_cons; by left).
    apply list_elem_of_filter in Hin as [(_ & Hin & _) _].
    by apply list_elem_of_singleton in Hin. }
  split.
  - cbn [_merge]. rewrite (bool_decide_eq_true_2 _ Hid). cbn [negb]. cbv zeta.
    rewrite (findLCAs_only_parent (without_m3 objX) (without_m3 objY)) by done.
    cbn [without_m3 _id length]. rewrite bool_decide_eq_false_2 by lia.
    rewrite (bool_decide_eq_false_2 (_pe (_id objX) ≠ _pe (_id objY)))
      by (by intros H; apply H).
    rewrite Hlcas. cbn [length]. rewrite bool_decide_eq_false_2
      by (by intros H; apply H).
    rewrite merge_done_one. unfold merge_one_perspective. cbn [without_m3 _id].
    rewrite Hv, (bool_decide_eq_false_2 _ HvY). cbn [negb andb].
    rewrite (bool_decide_eq_true_2 (_v (_id objY) = _v (_id objY))) by done.
    rewrite (bool_decide_eq_false_2 _ Hne), andb_false_r.
    by rewrite bool_decide_eq_false_2 by (by intros H; apply Hne).
  - cbn [_merge].
    rewrite (bool_decide_eq_true_2 (_id_id (_id objY) = _id_id (_id objX))) by done.
    cbn [negb]. cbv zeta.
    rewrite (findLCAs_only_child (without_m3 objX) (without_m3 objY)) by done.
    cbn [without_m3 _id length]. rewrite bool_decide_eq_false_2 by lia.
    rewrite (bool_decide_eq_false_2 (_pe (_id objY) ≠ _pe (_id objX)))
      by (by intros H; apply H).
    rewrite <- Hid, <- Hpe, Hlcas. cbn [length]. rewrite bool_decide_eq_false_2
      by (by intros H; apply H).
    rewrite merge_done_one. unfold merge_one_perspective. cbn [without_m3 _id].
    rewrite Hv, (bool_decide_eq_false_2 _ HvY). cbn [negb andb].
    rewrite (bool_decide_eq_true_2 (_v (_id objY) = _v (_id objY))) by done.
    by rewrite bool_decide_eq_false_2 by (by intros H; apply Hne).
Qed.

Local Abbreviation one :=
  (merge_one_perspective collectionName JSON_stringify of_id as_id).
Local Abbreviation two :=
  (merge_two_perspectives collectionName JSON_stringify of_id as_id).

Lemma merge_one_perspective_shape objX objY lca (pe : string) r :
  one objX objY lca [pe] = Some (Ok r) -> merge_shape objX objY r.
Proof.
  unfold merge_one_perspective, merge_shape, thrown. cbv zeta.
  repeat (match goal with
          | |- context [if ?b then _ else _] => destruct b
          | |- context [_threeWayMerge ?j ?a ?b ?l ?lB] =>
              destruct (_threeWayMerge j a b l lB) as [[?|?]|?]
          end);
    intros [= <-]; cbn; split_and!; try done; try (by left);
    repeat (apply Forall_cons; split; [|try apply Forall_nil_2]);
    first [by left | by (right; left)
          | right; right; split; [done|];
            first [by left | by (right; left) | by (right; right)]].
Qed.

Lemma merge_two_perspectives_shape objX objY lca0 lca1 (pe1 pe2 : string) r :
  two objX objY lca0 lca1 [pe1; pe2] = Some (Ok r) -> merge_shape objX objY r.
Proof.
  unfold merge_two_perspectives, merge_shape, thrown. cbv zeta.
  repeat (match goal with
          | |- context [if ?b then _ else _] => destruct b
          | |- context [_threeWayMerge ?j ?a ?b ?l ?lB] =>
              destruct (_threeWayMerge j a b l lB) as [[?|?]|?]
          | |- context [match ?x with Merged _ => _ | Conflicts _ => _ end] =>
              destruct x
          end; cbv beta iota);
    intros [= <-]; cbn; split_and!; try done; try (by right);
    repeat (apply Forall_cons; split; [|try apply Forall_nil_2]);
    first [by left | by (right; left)
          | right; right; split; [done|];
            first [by left | by (right; left) | by (right; right)]].
Qed.

Lemma merge_waterfall_shape (P : list (vitem V) * list string -> Prop)
    (m : vitem V -> vitem V -> merge_result)
    (done : list (vitem V) -> list string -> merge_result)
    objX objY (lcas : list (vitem V)) (p n : nat) : forall j merged r,
  (forall a b r, done a b = Some (Ok r) -> P r) ->
  merge_waterfall m done objX objY lcas p n j merged = Some (Ok r) -> P r.
Proof.
  induction n as [|n IH]; intros j merged r Hdone; simpl.
  - destruct merged as [[a b]|]; [apply Hdone|done].
  - destruct (merge_task _ _ _ _ _ _ _) as [[ok|e]|]; [|done|done].
    by apply IH.
Qed.

Lemma merge_done_shape (m : vitem V -> vitem V -> merge_result) objX objY
    (fuel : nat) : forall (nlcas : list (vitem V)) (perspectives : list string) r,
  done_ m fuel objX objY nlcas perspectives = Some (Ok r) ->
  merge_shape objX objY r.
Proof.
  induction fuel as [|fuel IH]; intros nlcas perspectives r; cbn [merge_done];
    (destruct (is_nil nlcas); [done|]);
    (destruct (is_nil perspectives); [done|]);
    (case_bool_decide as Hlen;
     [destruct perspectives as [|p1 [|p2 [|]]]; try done;
      destruct (map without_m3 nlcas) as [|l0 [|l1 [|]]]; try done;
      [apply merge_one_perspective_shape|apply merge_two_perspectives_shape]|]).
  - done.
  - apply merge_waterfall_shape. apply IH.
Qed.

(** X21. What [_merge] calls back with on success: as many items as
    perspectives, one or two.  Each item is one of the two objects it
    was given (a fast-forward to an item that is saved already) or an
    item without [_m3]: a merge, which has no version, or a
    fast-forward replayed for the other perspective, which has the
    version of one of the two objects.  [_merge] never makes up a
    version. *)
Theorem merge_gives_one_item_per_perspective (fuel : nat) objX objY r :
  merge fuel objX objY = Some (Ok r) -> merge_shape objX objY r.
Proof.
  destruct fuel as [|fuel]; [done|]. cbn [_merge].
  destruct (negb _); [done|]. cbv zeta.
  destruct (_findLCAs _ _ _ _) as [lcas|]; [|done].
  case_bool_decide; [done|]. case_bool_decide; [done|].
  apply merge_done_shape.
Qed.

Lemma get_filter_key (p : string -> bool) (o : Obj.t V) k :
  Obj.get k (List.filter (fun kv => p kv.1) o) = if p k then Obj.get k o else None.
Proof.
  induction o as [|[k' v] o IH]; [by destruct (p k)|]. cbn [List.filter fst].
  destruct (p k') eqn:Hk'; cbn [Obj.get].
  - destruct (decide (k = k')) as [->|]; [by rewrite Hk' | done].
  - destruct (decide (k = k')) as [->|]; [|done]. by rewrite IH, Hk'.
Qed.

Lemma get_app (o1 o2 : Obj.t V) k :
  Obj.get k (o1 ++ o2)
  = match Obj.get k o1 with Some v => Some v | None => Obj.get k o2 end.
Proof.
  induction o1 as [|[k' v] o1 IH]; [done|]. cbn [app Obj.get].
  by destruct (decide (k = k')).
Qed.

Lemma get_plain item k :
  Obj.get k (plain of_id item)
  = if decide (k = "_id") then Some (of_id (_id_id (_id item)))
    else Obj.get k (attrs item).
Proof.
  unfold plain. rewrite get_app, get_filter_key. cbn [Obj.get].
  rewrite (get_filter_key (fun k => negb (Obj.is_index k))).
  destruct (decide (k = "_id")) as [->|Hk]; [done|].
  destruct (Obj.is_index k); cbn [negb]; [|done].
  by destruct (Obj.get k (attrs item)).
Qed.

Lemma filter_index_Permutation (l mid : Obj.t V) :
  List.filter (fun kv => Obj.is_index kv.1) l ++ mid
    ++ List.filter (fun kv => negb (Obj.is_index kv.1)) l
  ≡ₚ mid ++ l.
Proof.
  revert mid. induction l as [|a l IH]; intros mid; cbn [List.filter].
  - by rewrite app_nil_r.
  - destruct (Obj.is_index a.1); cbn [negb app].
    + etrans; [apply Permutation_skip, IH|]. apply Permutation_middle.
    + replace (mid ++ a :: List.filter (fun kv => negb (Obj.is_index kv.1)) l)
        with ((mid ++ [a]) ++ List.filter (fun kv => negb (Obj.is_index kv.1)) l)
        by (by rewrite <- app_assoc).
      rewrite IH. by rewrite <- app_assoc.
Qed.

Lemma plain_Permutation item :
  plain of_id item ≡ₚ ("_id", of_id (_id_id (_id item))) :: attrs item.
Proof. apply (filter_index_Permutation (attrs item) [_]). Qed.

Lemma wf_plain item :
  Obj.wf (attrs item) -> "_id" ∉ Obj.keys (attrs item) -> Obj.wf (plain of_id item).
Proof.
  intros Hwf Hid. unfold Obj.wf, Obj.keys. rewrite plain_Permutation.
  apply NoDup_cons. by split.
Qed.

Lemma has_plain item k :
  k <> "_id" -> Obj.has k (plain of_id item) = Obj.has k (attrs item).
Proof. intros Hk. unfold Obj.has. by rewrite get_plain, decide_False. Qed.

Lemma delta_of_plain objX lca k :
  _id_id (_id lca) = _id_id (_id objX) ->
  "_id" ∉ Obj.keys (attrs objX) -> "_id" ∉ Obj.keys (attrs lca) ->
  delta_of JSON_stringify (plain of_id objX) (plain of_id lca) k
  = delta_of JSON_stringify (attrs objX) (attrs lca) k.
Proof.
  intros Hid HX HL. unfold delta_of. rewrite !get_plain.
  destruct (decide (k = "_id")) as [->|]; [|done].
  apply ObjFacts.get_None_keys in HX, HL. rewrite HX, HL, Hid.
  by rewrite json_neq_refl.
Qed.

(** X22. A merge with one lca.  When [_findLCAs] finds one lca for two
    items of one perspective, that version is once in the collection
    and differs from the versions of both items, [_merge] calls back
    with 'merge conflict' exactly if the three-way merge of the
    attributes has a conflict.  Else it calls back with one new item:
    without version and [_m3], with the versions of x and y as parents,
    in the perspective of x, deleted only if both are, and with the
    attributes the three-way merge rule gives one by one. *)
Theorem merge_with_one_lca_is_three_way_merge (fuel : nat) objX objY lca
    (vl : string) :
  (forall x, as_id (of_id x) = x) ->
  _id_id (_id objX) = _id_id (_id objY) ->
  _pe (_id objX) = _pe (_id objY) ->
  _findLCAs localPerspective snapshot objX objY = Ok [vl] ->
  lcas_in [_pe (_id objX)] (_id_id (_id objX)) [vl] = [lca] ->
  _v (_id objX) <> "" -> _v (_id objX) <> _v (_id objY) ->
  vl <> _v (_id objX) -> vl <> _v (_id objY) ->
  Obj.wf (attrs objX) -> Obj.wf (attrs objY) ->
  "_id" ∉ Obj.keys (attrs objX) -> "_id" ∉ Obj.keys (attrs objY) ->
  "_id" ∉ Obj.keys (attrs lca) ->
  Obj.has "hasOwnProperty" (attrs objX) = false ->
  Obj.has "hasOwnProperty" (attrs objY) = false ->
  Obj.has "hasOwnProperty" (attrs lca) = false ->
  match merge (S fuel) objX objY with
  | Some (Ok (merged, perspectives)) =>
      (forall k, conflict_at JSON_stringify (attrs objX) (attrs objY) (attrs lca) k
                 = false) /\
      perspectives = [_pe (_id objX)] /\
      exists m,
        merged = [m] /\ _m3 m = None /\
        _id m = {| _co := collectionName; _id_id := _id_id (_id objX); _v := "";
                   _pe := _pe (_id objX);
                   _pa := [_v (_id objX); _v (_id objY)];
                   _lo := true; _i := 0;
                   _d := _d (_id objX) && _d (_id objY) |} /\
        forall k, Obj.get k (attrs m)
                  = merged_at JSON_stringify (attrs objX) (attrs objY) (attrs lca) k
  | Some (Err e) =>
      e = MergeConflict /\
      exists k, conflict_at JSON_stringify (attrs objX) (attrs objY) (attrs lca) k
                = true
  | None => False
  end.
Proof.
  intros Hround Hid Hpe Hfind Hlcas HvX Hne HlX HlY HwX HwY HiX HiY HiL HhX HhY HhL.
  assert (_v (_id lca) = vl /\ _id_id (_id lca) = _id_id (_id objX)) as [Hvl Hidl].
  { assert (lca ∈ lcas_in [_pe (_id objX)] (_id_id (_id objX)) [vl]) as Hin
      by (rewrite Hlcas; apply elem_of_cons; by left).
    apply list_elem_of_filter in Hin as [(? & Hin & _) _].
    by apply list_elem_of_singleton in Hin. }
  cbn [_merge]. rewrite (bool_decide_eq_true_2 _ Hid). cbn [negb]. cbv zeta.
  change (_findLCAs localPerspective snapshot (without_m3 objX) (without_m3 objY))
    with (_findLCAs localPerspective snapshot objX objY).
  rewrite Hfind. cbn [without_m3 _id length]. rewrite bool_decide_eq_false_2 by lia.
  rewrite (bool_decide_eq_false_2 (_pe (_id objX) ≠ _pe (_id objY)))
    by (by intros H; apply H).
  rewrite Hlcas. cbn [length]. rewrite bool_decide_eq_false_2
    by (by intros H; apply H).
  rewrite merge_done_one. unfold merge_one_perspective. cbn [without_m3 _id].
  rewrite Hvl, (bool_decide_eq_false_2 _ HvX), (bool_decide_eq_false_2 _ Hne),
    (bool_decide_eq_false_2 _ HlX), (bool_decide_eq_false_2 _ HlY), !andb_false_r.
  cbn [negb].
  assert (Obj.wf (plain of_id objX) /\ Obj.wf (plain of_id objY)) as [HwpX HwpY].
  { split; by apply wf_plain. }
  assert (forall item, Obj.has "hasOwnProperty" (attrs item) = false ->
            Obj.has "hasOwnProperty" (plain of_id item) = false) as Hplain
    by (intros item Hi; by rewrite has_plain).
  rewrite threeWayMerge_merge3 by (repeat split; by apply Hplain).
  pose proof (merge3_rule JSON_stringify (plain of_id objX) (plain of_id objY)
                (plain of_id (without_m3 lca)) None HwpX HwpY eq_refl) as Hrule.
  assert (forall k, delta_of JSON_stringify (plain of_id objX)
                      (plain of_id (without_m3 lca)) k
                    = delta_of JSON_stringify (attrs objX) (attrs lca) k) as HdX.
  { intros k. by apply (delta_of_plain objX (without_m3 lca)). }
  assert (forall k, delta_of JSON_stringify (plain of_id objY)
                      (plain of_id (without_m3 lca)) k
                    = delta_of JSON_stringify (attrs objY) (attrs lca) k) as HdY.
  { intros k. apply (delta_of_plain objY (without_m3 lca)); [|done|done].
    cbn. congruence. }
  assert (forall k, conflict_at JSON_stringify (plain of_id objX) (plain of_id objY)
                      (plain of_id (without_m3 lca)) k
                    = conflict_at JSON_stringify (attrs objX) (attrs objY) (attrs lca) k)
    as Hconflict.
  { intros k. unfold conflict_at. rewrite HdX, HdY.
    rewrite !get_plain. destruct (decide (k = "_id")) as [->|]; [|done].
    apply ObjFacts.get_None_keys in HiX, HiY, HiL.
    unfold delta_of. cbn [without_m3 attrs]. by rewrite HiX, HiL. }
  assert (forall k, merged_at JSON_stringify (plain of_id objX) (plain of_id objY)
                      (plain of_id (without_m3 lca)) k
                    = if decide (k = "_id") then Some (of_id (_id_id (_id objX)))
                      else merged_at JSON_stringify (attrs objX) (attrs objY)
                             (attrs lca) k) as Hmerged.
  { intros k. unfold merged_at. rewrite HdY.
    rewrite !get_plain. destruct (decide (k = "_id")) as [->|]; [|done].
    apply ObjFacts.get_None_keys in HiX, HiY, HiL.
    unfold delta_of. cbn [without_m3 attrs]. by rewrite HiY, HiL. }
  destruct (merge3 _ _ _ _ _) as [m|cs].
  - destruct Hrule as [Hnone Hget]. split.
    { intros k. rewrite <- Hconflict. apply Hnone. }
    split; [done|]. eexists. split; [reflexivity|]. split; [done|]. split.
    + unfold under, merge_envelope. cbn [_id]. f_equal.
      rewrite Hget, Hmerged, decide_True by done. cbn. apply Hround.
    + intros k. unfold under. cbn [attrs].
      destruct (decide (k = "_id")) as [->|Hk].
      * rewrite ObjFacts.get_del_eq. unfold merged_at, delta_of.
        apply ObjFacts.get_None_keys in HiX, HiY, HiL. by rewrite HiX, HiY, HiL.
      * rewrite ObjFacts.get_del_ne by done.
        by rewrite Hget, Hmerged, decide_False.
  - destruct Hrule as [Hne' Hin]. split; [done|].
    destruct cs as [|k cs]; [done|]. exists k. rewrite <- Hconflict.
    apply Hin. apply elem_of_cons. by left.
Qed.

End MergeTheorems.

Lemma merge_with_only_parent_fast_forwards_witness :
  merge_in_diamond 1 (node "I" "B" ["A"] false 2) (node "I" "A" [] false 1)
  = Some (Ok ([node "I" "B" ["A"] false 2], ["I"])) /\
  merge_in_diamond 1 (node "I" "A" [] false 1) (node "I" "B" ["A"] false 2)
  = Some (Ok ([node "I" "B" ["A"] false 2], ["I"])).
Proof.
  apply (merge_with_only_parent_fast_forwards "_local" "c" Some id id
           (fun lcas => lcas) diamond 0
           (node "I" "B" ["A"] false 2) (node "I" "A" [] false 1));
    try reflexivity; discriminate.
Defined.

Lemma merge_gives_one_item_per_perspective_witness :
  merge_shape (node "I" "B" ["A"] false 2) (node "I" "C" ["A"] false 3)
    ([{| _id := {| _co := "c"; _id_id := "foo"; _v := ""; _pe := "I";
                   _pa := ["B"; "C"]; _lo := true; _i := 0; _d := false |};
         _m3 := None; attrs := [] |}], ["I"]).
Proof.
  apply (merge_gives_one_item_per_perspective "_local" "c" Some id id
           (fun lcas => lcas) diamond 1).
  reflexivity.
Defined.

Lemma merge_with_one_lca_is_three_way_merge_witness :
  match merge_in_diamond 1 (node "I" "B" ["A"] false 2) (node "I" "C" ["A"] false 3) with
  | Some (Ok (merged, perspectives)) =>
      (forall k, conflict_at Some [] [] [] k = false) /\
      perspectives = ["I"] /\
      exists m,
        merged = [m] /\ _m3 m = None /\
        _id m = {| _co := "c"; _id_id := "foo"; _v := ""; _pe := "I";
                   _pa := ["B"; "C"]; _lo := true; _i := 0; _d := false |} /\
        forall k, Obj.get k (attrs m) = merged_at Some [] [] [] k
  | Some (Err e) =>
      e = MergeConflict /\ exists k, conflict_at (V := string) Some [] [] [] k = true
  | None => False
  end.
Proof.
  apply (merge_with_one_lca_is_three_way_merge "_local" "c" Some id id
           (fun lcas => lcas) diamond 0
           (node "I" "B" ["A"] false 2) (node "I" "C" ["A"] false 3)
           (node "I" "A" [] false 1) "A");
    try reflexivity; try discriminate; try apply NoDup_nil_2;
    try apply not_elem_of_nil.
Defined.

(** C added "baz" and E removed "foo" with respect to their lca B: the
    merge has "baz" only, and C and E as parents. *)
Example merge_of_two_branches :
  _merge "I" "c" Some id id (fun lcas => lcas) reader_dag 1
    (reader_node "C" ["B"] 3 [("baz", "mux"); ("foo", "bar")])
    (reader_node "E" ["B"] 5 [])
  = Some (Ok ([{| _id := {| _co := "c"; _id_id := "foo"; _v := ""; _pe := "I";
                            _pa := ["C"; "E"]; _lo := true; _i := 0;
                            _d := false |};
                  _m3 := None; attrs := [("baz", "mux")] |}], ["I"])).
Proof. vm_compute. reflexivity. Qed.

(** ** Acknowledging what came before an acknowledged item *)

Section AckAncestorsTheorems.
Context {V : Type}.
Variable localPerspective : string.
Variable snapshot : list (vitem V).
Implicit Types (x y item : vitem V) (coll handed : list (vitem V)).

Local Abbreviation before := (before_ackd localPerspective snapshot).
Local Abbreviation data := (ackAncestorsAckd_data localPerspective).

(** The collection while the stream runs: an item is as it was or
    acknowledged because of an acknowledged item after it, and the
    items the stream has handed over are done. *)
Local Abbreviation in_progress handed coll :=
  (Forall2 (fun y x =>
              (y = x \/ (y = set_ackd x /\ before x = true)) /\
              (x ∈ handed -> before x = true -> y = set_ackd x))
     coll snapshot).

Lemma before_spec x :
  before x = true <->
  _pe (_id x) = localPerspective /\ is_ackd x = false /\
  exists a, a ∈ snapshot /\ _id_id (_id a) = _id_id (_id x) /\
            _pe (_id a) = localPerspective /\ is_ackd a = true /\
            (_i (_id x) < _i (_id a))%Z.
Proof.
  unfold before_ackd. rewrite !andb_true_iff, bool_decide_eq_true, negb_true_iff.
  rewrite existsb_exists. split.
  - intros [[Hpe Hack] (a & Hin & Ha)]. split; [done|]. split; [done|].
    exists a. rewrite !andb_true_iff, !bool_decide_eq_true, Z.ltb_lt in Ha.
    split; [by apply list_elem_of_In|]. tauto.
  - intros (Hpe & Hack & a & Hin & Hid & Hape & Haack & Hlt). split; [done|].
    exists a. split; [by apply list_elem_of_In|].
    rewrite !andb_true_iff, !bool_decide_eq_true, Z.ltb_lt. tauto.
Qed.

Lemma set_ackd_fields x :
  _id (set_ackd x) = _id x /\ is_ackd (set_ackd x) = true.
Proof. done. Qed.

Lemma in_progress_origin handed coll y :
  in_progress handed coll -> y ∈ coll ->
  exists x, x ∈ snapshot /\ (y = x \/ (y = set_ackd x /\ before x = true)).
Proof.
  intros Hprog Hy. apply list_elem_of_lookup_1 in Hy as [i Hi].
  destruct (Forall2_lookup_l _ _ _ _ _ Hprog Hi) as (x & Hx & Hrel & _).
  exists x. split; [by eapply list_elem_of_lookup_2|done].
Qed.

Lemma in_progress_image handed coll x :
  in_progress handed coll -> x ∈ snapshot ->
  exists y, y ∈ coll /\ (y = x \/ (y = set_ackd x /\ before x = true)).
Proof.
  intros Hprog Hx. apply list_elem_of_lookup_1 in Hx as [i Hi].
  destruct (Forall2_lookup_r _ _ _ _ _ Hprog Hi) as (y & Hy & Hrel & _).
  exists y. split; [by eapply list_elem_of_lookup_2|done].
Qed.

Lemma ackAncestorsAckd_data_step handed coll item :
  in_progress handed coll -> in_progress (item :: handed) (data coll item).
Proof.
  intros Hprog. unfold ackAncestorsAckd_data.
  set (sel := fun x => bool_decide (_id_id (_id x) = _id_id (_id item))
                       && bool_decide (_pe (_id x) = localPerspective)
                       && is_ackd x).
  pose proof (findOne_last_spec sel coll) as Hspec.
  assert (forall a, a ∈ snapshot -> _id_id (_id a) = _id_id (_id item) ->
            _pe (_id a) = localPerspective -> is_ackd a = true ->
            exists y, y ∈ coll /\ sel y = true /\ _i (_id y) = _i (_id a)) as Himage.
  { intros a Ha Hid Hpe Hack.
    destruct (in_progress_image handed coll a Hprog Ha) as (y & Hy & [->|[-> _]]).
    - exists a. split; [done|]. split; [|done].
      unfold sel. by rewrite !bool_decide_eq_true_2, Hack.
    - exists (set_ackd a). split; [done|]. split; [|done].
      unfold sel. cbn. by rewrite !bool_decide_eq_true_2. }
  destruct (findOne_last sel coll) as [b|] eqn:Hfind.
  - destruct Hspec as (Hb & Hselb & Hmax).
    apply andb_true_iff in Hselb as [Hselb Hback].
    apply andb_true_iff in Hselb as [Hbid Hbpe].
    apply bool_decide_eq_true in Hbid, Hbpe.
    destruct (in_progress_origin handed coll b Hprog Hb) as (xb & Hxb & Hbrel).
    apply Forall2_fmap_l. eapply Forall2_impl; [exact Hprog|].
    intros y x [Hrel Hhanded]. cbn.
    destruct Hrel as [->|[-> Hbefore]].
    + destruct (bool_decide (_id_id (_id x) = _id_id (_id item))
                && bool_decide (_pe (_id x) = localPerspective)
                && (_i (_id x) <? _i (_id b))%Z && negb (is_ackd x)) eqn:Hcond.
      * apply andb_true_iff in Hcond as [Hcond Hnack].
        apply andb_true_iff in Hcond as [Hcond Hlt].
        apply andb_true_iff in Hcond as [Hid Hpe].
        apply bool_decide_eq_true in Hid, Hpe. apply Z.ltb_lt in Hlt.
        apply negb_true_iff in Hnack.
        assert (before x = true) as Hbefore.
        { apply before_spec. split; [done|]. split; [done|].
          destruct Hbrel as [->|[-> Hxbefore]].
          - exists xb. split_and!; try done. congruence.
          - apply before_spec in Hxbefore as (_ & _ & a & Ha & Haid & Hape & Haack & Halt).
            exists a. split_and!; try done.
            + cbn in Hbid. congruence.
            + cbn in Hlt. lia. }
        split; [by right|done].
      * split; [by left|]. intros Hin Hbefore.
        apply elem_of_cons in Hin as [->|Hin]; [|by apply Hhanded].
        exfalso. apply before_spec in Hbefore
          as (Hpe & Hnack & a & Ha & Haid & Hape & Haack & Halt).
        destruct (Himage a Ha Haid Hape Haack) as (y & Hy & Hsely & Hi).
        specialize (Hmax y Hy Hsely).
        rewrite !bool_decide_eq_true_2, Hnack in Hcond by done.
        cbn in Hcond. rewrite andb_true_r in Hcond. apply Z.ltb_ge in Hcond. lia.
    + cbn. rewrite andb_false_r. split; [by right|done].
  - eapply Forall2_impl; [exact Hprog|].
    intros y x [Hrel Hhanded]. split; [done|]. intros Hin Hbefore.
    apply elem_of_cons in Hin as [->|Hin]; [|by apply Hhanded].
    exfalso. apply before_spec in Hbefore
      as (Hpe & Hnack & a & Ha & Haid & Hape & Haack & Halt).
    destruct (Himage a Ha Haid Hape Haack) as (y' & Hy & Hsely & _).
    by rewrite (Hspec y' Hy) in Hsely.
Qed.

Lemma ackAncestorsAckd_fold (stream : list (vitem V)) : forall handed coll,
  in_progress handed coll ->
  in_progress (rev stream ++ handed) (fold_left data stream coll).
Proof.
  induction stream as [|item stream IH]; intros handed coll Hprog; [done|].
  simpl. rewrite <- app_assoc. apply IH. by apply ackAncestorsAckd_data_step.
Qed.

Lemma Forall2_map_eq {A B : Type} (R : A -> B -> Prop) (f : B -> A)
    (l : list A) (k : list B) :
  Forall2 R l k -> (forall u w, w ∈ k -> R u w -> u = f w) -> l = map f k.
Proof.
  induction 1 as [|u w l k HR _ IH]; intros Hf; [done|]. simpl. f_equal.
  - apply Hf; [apply elem_of_cons; by left|done].
  - apply IH. intros u' w' Hw'. apply Hf. apply elem_of_cons. by right.
Qed.

(** X23. [ackAncestorsAckd] acknowledges exactly the items of the local
    perspective that are not acknowledged and have a smaller [_i] than
    some acknowledged local item of the same id; this goes by [_i], not
    by ancestry.  Every other item, and everything but [_m3._ack] of an
    item, is left as it is. *)
Theorem ackAncestorsAckd_acknowledges_what_came_before :
  ackAncestorsAckd localPerspective snapshot
  = map (fun x => if before_ackd localPerspective snapshot x then set_ackd x else x)
      snapshot.
Proof.
  unfold ackAncestorsAckd.
  set (stream := filter _ snapshot).
  assert (in_progress [] snapshot) as Hstart.
  { apply Forall_Forall2_diag, Forall_forall. intros x _. split; [by left|].
    intros Hin. by apply elem_of_nil in Hin. }
  apply (ackAncestorsAckd_fold stream) in Hstart. rewrite app_nil_r in Hstart.
  eapply Forall2_map_eq; [exact Hstart|].
  intros y x Hx [Hrel Hhanded]. cbn in Hrel, Hhanded.
  destruct (before x) eqn:Hbefore.
  - apply Hhanded; [|done]. apply before_spec in Hbefore as (Hpe & Hnack & _).
    apply list_elem_of_In. apply -> in_rev. apply list_elem_of_In.
    by apply list_elem_of_filter.
  - destruct Hrel as [->|[_ ?]]; [done|congruence].
Qed.

End AckAncestorsTheorems.

(** B is acknowledged: A, which came before it, is acknowledged as
    well, C is not. *)
Example ackAncestorsAckd_example :
  map (fun x => (_v (_id x), is_ackd x)) (ackAncestorsAckd "_local" example_snapshot)
  = [("A", true); ("B", true); ("C", false); ("C", false)].
Proof. reflexivity. Qed.
